(** * The contextual retrieval engine of the interview chatbot

    A shallow embedding of [class AISearchEngine] of [src/server.js]
    (the complete class, second half of the file) and the properties of
    its retrieval pipeline; then of what surrounds it: the reply filter
    and the chat endpoint of the same file, the ingestion script that
    writes the corpus, and the resolver of the earlier server.

    Conventions of the embedding.
    - A JavaScript string is the sequence of its code units; the
      development covers code units below 256 (Latin-1), which Rocq's
      [string] holds one per [ascii].
    - A JavaScript number is an IEEE 754 binary64 value: Rocq's
      primitive [float], with the same rounding, infinities and NaN.
    - [undefined] and [null] are [None]; a thrown exception is the
      [Thrown] outcome of the [outcome] monad.
    - A [Map] is the list of its entries in insertion order. *)

From Stdlib Require Import List String Ascii ZArith NArith Lia Bool.
From Stdlib Require Import DecimalString DecimalPos DecimalZ.
From Stdlib Require Import Floats.
From Stdlib Require Import Reals Lra.
From Stdlib Require Import Sorted Permutation.
Import ListNotations.

Local Open Scope string_scope.
Local Open Scope list_scope.

(* ================================================================== *)
(** * Part I. The embedding                                            *)
(* ================================================================== *)

(** ** JavaScript strings and arrays *)

(** [String.prototype.toLowerCase] on one Latin-1 code unit: the letters
    A-Z and the accented capitals U+00C0-U+00DE (U+00D7, the
    multiplication sign, apart) move up by 32. *)
Definition toLowerChar (c : ascii) : ascii :=
  let n := N_of_ascii c in
  if ((65 <=? n) && (n <=? 90) ||
      (192 <=? n) && (n <=? 222) && negb (n =? 215))%N
  then ascii_of_N (n + 32) else c.

Fixpoint toLowerCase (s : string) : string :=
  match s with
  | EmptyString => EmptyString
  | String c s' => String (toLowerChar c) (toLowerCase s')
  end.

(** [s.startsWith(p)] *)
Definition startsWith (s p : string) : bool := String.prefix p s.

(** [s.includes(p)]: [p] occurs in [s] at some position. *)
Fixpoint includes (s p : string) : bool :=
  match s with
  | EmptyString => startsWith EmptyString p
  | String _ s' => startsWith s p || includes s' p
  end.

(** [s.split(sep)] for a one-character separator: always at least one
    piece; adjacent separators give empty pieces. *)
Fixpoint split (sep : ascii) (s : string) : list string :=
  match s with
  | EmptyString => [EmptyString]
  | String c s' =>
      if Ascii.eqb c sep then EmptyString :: split sep s'
      else match split sep s' with
           | t :: ts => String c t :: ts
           | [] => [String c EmptyString]
           end
  end.

(** [pieces.join(sep)] *)
Fixpoint join (sep : string) (pieces : list string) : string :=
  match pieces with
  | [] => EmptyString
  | [x] => x
  | x :: rest => x ++ sep ++ join sep rest
  end.

(** [arr.slice(start)]: a negative [start] counts from the end; the
    start is clamped to the array. *)
Definition slice_from {A : Type} (start : Z) (arr : list A) : list A :=
  let len := Z.of_nat (List.length arr) in
  let k := if (start <? 0)%Z then Z.max (len + start) 0 else Z.min start len in
  skipn (Z.to_nat k) arr.

(** [arr.slice(0, n)] for [n >= 0]. *)
Definition slice_to {A : Type} (n : nat) (arr : list A) : list A := firstn n arr.

(** [n.toString()] and [`${n}`] for an integer. *)
Definition Z_toString (n : Z) : string := NilZero.string_of_int (Z.to_int n).

(** ** Exceptions *)

Inductive exn : Type :=
| TypeError               (* property of undefined, call of a non-function *)
| SyntaxError             (* JSON.parse, csv.parse *)
| IOError                 (* fs.readFileSync *)
| EmbeddingProviderError. (* openai.embeddings.create rejected *)

Inductive outcome (A : Type) : Type :=
| Returned (a : A)
| Thrown (e : exn).
Arguments Returned {A} a.
Arguments Thrown {A} e.

Definition bind {A B : Type} (m : outcome A) (k : A -> outcome B) : outcome B :=
  match m with
  | Returned a => k a
  | Thrown e => Thrown e
  end.

Notation "x <- m ;; k" := (bind m (fun x => k))
  (at level 61, m at next level, right associativity).

(** ** Data model *)

(** One row of [metadata.csv] as [csv.parse] with [columns: true] gives
    it; the four columns are the ones the ingestion side writes. *)
Record PersonRecord : Type := {
  name : string;
  date : string;
  excerpt_title : string;
  tags : string
}.

(** One element of [data.metadata] in [embeddings.json]; [page] is
    absent from the artifact the generator writes. *)
Record ChunkMetadata : Type := {
  source : string;
  page : option Z;
  tokens : Z
}.

Record ConversationTurn : Type := {
  role : string;
  content : string
}.

(** The fields of [this].  [openai] stands for
    [openai.embeddings.create(...)] followed by [.data[0].embedding]:
    the provider answers with a vector or rejects. *)
Record AISearchEngine : Type := {
  openai : string -> outcome (list float);
  embeddings : list (list float);
  texts : list string;
  metadata : list (string * PersonRecord);
  chunkMetadata : list ChunkMetadata
}.

(** The elements [findSimilarContent] builds: [this.texts[idx]] and
    [this.chunkMetadata[idx]] are [undefined] past the end of a shorter
    array. *)
Record Scored : Type := {
  score : float;
  text : option string;
  item_metadata : option ChunkMetadata
}.

(** ** Entity resolver: [findAllNamesInQuestion] *)

(** The inner [for (const part of nameParts)] loop: [true] when the
    loop leaves through [break], that is at the first part longer than
    2 that the question includes. *)
Fixpoint scanNameParts (normalizedQuestion : string) (nameParts : list string) : bool :=
  match nameParts with
  | [] => false
  | part :: rest =>
      if (2 <? String.length part)%nat && includes normalizedQuestion (toLowerCase part)
      then true
      else scanNameParts normalizedQuestion rest
  end.

(** One iteration of the outer loop over [this.metadata.entries()],
    [matches] being the array built so far. *)
Definition findAllNames_step (normalizedQuestion : string)
    (matches : list (string * PersonRecord)) (entry : string * PersonRecord)
    : list (string * PersonRecord) :=
  let '(id, record) := entry in
  let normalizedName := toLowerCase (name record) in
  if includes normalizedQuestion normalizedName then matches ++ [(id, record)]
  else
    let nameParts := split " " normalizedName in
    if scanNameParts normalizedQuestion nameParts then matches ++ [(id, record)]
    else matches.

Definition findAllNamesInQuestion (this : AISearchEngine) (question : string)
    : list (string * PersonRecord) :=
  let normalizedQuestion := toLowerCase question in
  fold_left (findAllNames_step normalizedQuestion) (metadata this) [].

(** ** Query reformulation: the head of [findRelevantContext] *)

(** The condition of the [if] that folds the history in. *)
Definition foldsHistory (question : string) : bool :=
  (Z.of_nat (String.length question) <? 60)%Z
  || startsWith (toLowerCase question) "why"
  || startsWith (toLowerCase question) "how"
  || negb (includes question "?").

Definition contextualQuery (question : string) (history : list ConversationTurn) : string :=
  let recentHistory := slice_from (-4) history in
  if foldsHistory question then
    let previousExchanges := join " " (map content recentHistory) in
    previousExchanges ++ " " ++ question
  else question.

Definition isComparative (contextualQuery : string) : bool :=
  includes (toLowerCase contextualQuery) "between"
  || includes (toLowerCase contextualQuery) "compare".

(** ** Similarity ranker *)

(** [arr.reduce((acc, x, i) => f acc x i, init)] *)
Fixpoint reduce_from {A B : Type} (f : B -> A -> nat -> B) (i : nat) (acc : B) (arr : list A) : B :=
  match arr with
  | [] => acc
  | x :: rest => reduce_from f (S i) (f acc x i) rest
  end.

Definition reduce {A B : Type} (f : B -> A -> nat -> B) (init : B) (arr : list A) : B :=
  reduce_from f 0 init arr.

(** [arr.map((x, i) => f x i)] *)
Fixpoint mapi_from {A B : Type} (f : A -> nat -> B) (i : nat) (arr : list A) : list B :=
  match arr with
  | [] => []
  | x :: rest => f x i :: mapi_from f (S i) rest
  end.

Definition mapi {A B : Type} (f : A -> nat -> B) (arr : list A) : list B :=
  mapi_from f 0 arr.

(** [cosineSimilarity] is written once over the arithmetic it uses, so
    that it can be read in the binary64 arithmetic the program runs and
    in exact real arithmetic.  [undef] is what [vecB[i]] past the end of
    [vecB] becomes in a product ([undefined] converts to NaN). *)
Section CosineSimilarity.

Variable num : Type.
Variables zero undef : num.
Variables add mul div : num -> num -> num.
Variable sqrt : num -> num.

Definition dotProduct_in (vecA vecB : list num) : num :=
  reduce (fun sum a i => add sum (mul a (nth i vecB undef))) zero vecA.

Definition norm_in (vec : list num) : num :=
  sqrt (reduce (fun sum a _ => add sum (mul a a)) zero vec).

(** The divisor [normA * normB] of the last line. *)
Definition denominator_in (vecA vecB : list num) : num :=
  mul (norm_in vecA) (norm_in vecB).

Definition cosineSimilarity_in (vecA vecB : list num) : num :=
  let dotProduct := dotProduct_in vecA vecB in
  let normA := norm_in vecA in
  let normB := norm_in vecB in
  div dotProduct (mul normA normB).

End CosineSimilarity.

(** The program's reading: binary64. *)
Definition dotProduct : list float -> list float -> float :=
  dotProduct_in float 0%float nan PrimFloat.add PrimFloat.mul.

Definition norm : list float -> float :=
  norm_in float 0%float PrimFloat.add PrimFloat.mul PrimFloat.sqrt.

Definition denominator : list float -> list float -> float :=
  denominator_in float 0%float PrimFloat.add PrimFloat.mul PrimFloat.sqrt.

Definition cosineSimilarity : list float -> list float -> float :=
  cosineSimilarity_in float 0%float nan PrimFloat.add PrimFloat.mul PrimFloat.div PrimFloat.sqrt.

(** The same function in exact real arithmetic, the reference point of
    a floating tolerance.  (There is no NaN among the reals: [undef] is
    0 here and is only reached when [vecB] is the shorter vector.) *)
Definition denominatorR : list R -> list R -> R :=
  denominator_in R 0%R Rplus Rmult R_sqrt.sqrt.

Definition cosineSimilarityR : list R -> list R -> R :=
  cosineSimilarity_in R 0%R 0%R Rplus Rmult Rdiv R_sqrt.sqrt.

(** [Array.prototype.sort(comparefn)], which the language requires to be
    stable.  [after a b] stands for [comparefn(a, b) > 0]: [a] has to
    come after [b].  For a consistent [comparefn] every stable sort
    gives the list below (insertion from the right); Part III proves it
    ([stable_sort_unique]).  Where [comparefn] is not consistent (a NaN
    among the scores it subtracts) the language leaves the order to the
    implementation, and the list below is one of the orders allowed:
    the properties of Part III that speak of the order of a sorted list
    assume scores that are numbers. *)
Section Sort.

Variable A : Type.
Variable after : A -> A -> bool.

Fixpoint sort_insert (x : A) (sorted : list A) : list A :=
  match sorted with
  | [] => [x]
  | y :: rest => if after x y then y :: sort_insert x rest else x :: y :: rest
  end.

Fixpoint js_sort (arr : list A) : list A :=
  match arr with
  | [] => []
  | x :: rest => sort_insert x (js_sort rest)
  end.

End Sort.
Arguments sort_insert {A} after x sorted.
Arguments js_sort {A} after arr.

(** [(a, b) => b.score - a.score] is positive. *)
Definition score_after (a b : Scored) : bool :=
  (0 <? score b - score a)%float.

(** The array [similarities]: one element per embedding, in corpus order. *)
Definition similarities (this : AISearchEngine) (queryEmbedding : list float) : list Scored :=
  mapi (fun emb idx =>
          {| score := cosineSimilarity queryEmbedding emb;
             text := nth_error (texts this) idx;
             item_metadata := nth_error (chunkMetadata this) idx |})
       (embeddings this).

(** [item.metadata && item.metadata.source === sourceName] *)
Definition from_source (sourceName : string) (item : Scored) : bool :=
  match item_metadata item with
  | Some m => String.eqb (source m) sourceName
  | None => false
  end.

(** [sourceName] is [null] ([None]) or a string; [if (sourceName)] takes
    the empty string for absent too. *)
Definition candidates (this : AISearchEngine) (queryEmbedding : list float)
    (sourceName : option string) : list Scored :=
  match sourceName with
  | Some (String c s) => filter (from_source (String c s)) (similarities this queryEmbedding)
  | Some EmptyString | None => similarities this queryEmbedding
  end.

Definition findSimilarContent (this : AISearchEngine) (queryEmbedding : list float)
    (sourceName : option string) : list Scored :=
  slice_to 5 (js_sort score_after (candidates this queryEmbedding sourceName)).

Definition getEmbedding (this : AISearchEngine) (text : string) : outcome (list float) :=
  openai this text.

(** ** Context assembler: [findRelevantContext] *)

(** The line feed of the template literals. *)
Definition nl : string := String (ascii_of_nat 10) EmptyString.

(** [`${x}`] for a value that may be [undefined]. *)
Definition show_page (p : option Z) : string :=
  match p with
  | Some n => Z_toString n
  | None => "undefined"
  end.

Definition show_text (t : option string) : string :=
  match t with
  | Some s => s
  | None => "undefined"
  end.

(** [item.metadata.page]: a [TypeError] when [item.metadata] is [undefined]. *)
Definition page_of (item : Scored) : outcome (option Z) :=
  match item_metadata item with
  | Some m => Returned (page m)
  | None => Thrown TypeError
  end.

(** [item.metadata.source] *)
Definition source_of (item : Scored) : outcome string :=
  match item_metadata item with
  | Some m => Returned (source m)
  | None => Thrown TypeError
  end.

(** [arr.map(f)] for a callback that may throw. *)
Fixpoint mapM {A B : Type} (f : A -> outcome B) (arr : list A) : outcome (list B) :=
  match arr with
  | [] => Returned []
  | x :: rest =>
      y <- f x ;;
      ys <- mapM f rest ;;
      Returned (y :: ys)
  end.

(** The objects pushed on [contexts] in Branch A. *)
Record ContentItem : Type := {
  c_text : option string;
  c_page : option Z;
  c_score : float
}.

Record Context : Type := {
  interviewId : string;
  interviewee : string;
  context_date : string;
  context_content : list ContentItem
}.

Definition header (id : string) (record_name record_date : string) : string :=
  "Interview " ++ id ++ " with " ++ record_name ++ " (" ++ record_date ++ "):" ++ nl.

(** [`[Page ${c.page}] ${c.text}`] *)
Definition page_line (p : option Z) (t : option string) : string :=
  "[Page " ++ show_page p ++ "] " ++ show_text t.

(** The block Branch A renders for one element of [contexts]. *)
Definition formatContext (context : Context) : string :=
  header (interviewId context) (interviewee context) (context_date context)
  ++ join (nl ++ nl)
       (map (fun c => page_line (c_page c) (c_text c)) (context_content context)).

(** The separator between the blocks of Branch A. *)
Definition block_separator : string := nl ++ nl ++ "---" ++ nl ++ nl.

(** The string Branches B and C render for one chunk: the document's
    header, then the chunk's line. *)
Definition formatChunk (id : string) (record : PersonRecord) (item : Scored) : outcome string :=
  p <- page_of item ;;
  Returned (header id (name record) (date record) ++ page_line p (text item))%string.

Definition toContentItem (item : Scored) : outcome ContentItem :=
  p <- page_of item ;;
  Returned {| c_text := text item; c_page := p; c_score := score item |}.

(** [`document${id}.pdf`] *)
Definition documentName (id : string) : string := "document" ++ id ++ ".pdf".

(** The [for (const match of names)] loop of Branch A; [contexts] is
    the array built so far.  The embedding is requested again at every
    iteration. *)
Fixpoint collectContexts (this : AISearchEngine) (contextualQuery : string)
    (names : list (string * PersonRecord)) (contexts : list Context)
    : outcome (list Context) :=
  match names with
  | [] => Returned contexts
  | (id, record) :: rest =>
      questionEmbedding <- getEmbedding this contextualQuery ;;
      let similarContent :=
        findSimilarContent this questionEmbedding (Some (documentName id)) in
      if (0 <? List.length similarContent)%nat then
        content <- mapM toContentItem similarContent ;;
        collectContexts this contextualQuery rest
          (contexts ++ [{| interviewId := id;
                           interviewee := name record;
                           context_date := date record;
                           context_content := content |}])
      else collectContexts this contextualQuery rest contexts
  end.

(** *** The object [groupedResults] *)

(** Own properties in creation order. *)
Definition JSObject (V : Type) : Type := list (string * V).

(** The properties every object inherits from [Object.prototype]:
    [groupedResults[source]] is truthy for them without an own
    property. *)
Definition inherited (key : string) : bool :=
  existsb (String.eqb key)
    ["constructor"; "__defineGetter__"; "__defineSetter__"; "hasOwnProperty";
     "__lookupGetter__"; "__lookupSetter__"; "isPrototypeOf";
     "propertyIsEnumerable"; "toString"; "valueOf"; "__proto__";
     "toLocaleString"].

Fixpoint getOwn {V : Type} (o : JSObject V) (key : string) : option V :=
  match o with
  | [] => None
  | (k, v) :: rest => if String.eqb k key then Some v else getOwn rest key
  end.

Fixpoint setOwn {V : Type} (o : JSObject V) (key : string) (v : V) : JSObject V :=
  match o with
  | [] => [(key, v)]
  | (k, v') :: rest =>
      if String.eqb k key then (k, v) :: rest else (k, v') :: setOwn rest key v
  end.

Definition is_digit (c : ascii) : bool :=
  (48 <=? N_of_ascii c)%N && (N_of_ascii c <=? 57)%N.

Fixpoint digits_value (acc : N) (s : string) : option N :=
  match s with
  | EmptyString => Some acc
  | String c s' =>
      if is_digit c then digits_value (10 * acc + (N_of_ascii c - 48))%N s' else None
  end.

(** An array index: the canonical decimal form of an integer in
    [0, 2^32 - 2]. *)
Definition arrayIndex (key : string) : option N :=
  match key with
  | EmptyString => None
  | String c rest =>
      match digits_value 0 key with
      | Some n =>
          if (negb (Ascii.eqb c "0") || String.eqb rest EmptyString)
             && (n <? 4294967295)%N
          then Some n else None
      | None => None
      end
  end.

Definition isArrayIndex (key : string) : bool :=
  match arrayIndex key with
  | Some _ => true
  | None => false
  end.

Definition index_after {V : Type} (a b : string * V) : bool :=
  match arrayIndex (fst a), arrayIndex (fst b) with
  | Some m, Some n => (n <? m)%N
  | _, _ => false
  end.

(** [Object.entries(o)]: array-index keys first, in ascending numeric
    order, then the other keys in creation order. *)
Definition Object_entries {V : Type} (o : JSObject V) : list (string * V) :=
  js_sort index_after (filter (fun kv => isArrayIndex (fst kv)) o)
  ++ filter (fun kv => negb (isArrayIndex (fst kv))) o.

(** One call of the [forEach] callback that fills [groupedResults]. *)
Definition group_step (groupedResults : JSObject (list Scored)) (item : Scored)
    : outcome (JSObject (list Scored)) :=
  source <- source_of item ;;
  match getOwn groupedResults source with
  | Some group => Returned (setOwn groupedResults source (group ++ [item]))
  | None =>
      if inherited source then Thrown TypeError   (* no [push] on the inherited value *)
      else Returned (setOwn groupedResults source [item])
  end.

Fixpoint groupBySource (groupedResults : JSObject (list Scored)) (similarContent : list Scored)
    : outcome (JSObject (list Scored)) :=
  match similarContent with
  | [] => Returned groupedResults
  | item :: rest =>
      g <- group_step groupedResults item ;;
      groupBySource g rest
  end.

(** [(a, b) => b[1].length - a[1].length] is positive. *)
Definition size_after (a b : string * list Scored) : bool :=
  (0 <? Z.of_nat (List.length (snd b)) - Z.of_nat (List.length (snd a)))%Z.

(** *** The regular expression [/document(\d+)\.pdf/] *)

Fixpoint take_digits (s : string) : string * string :=
  match s with
  | EmptyString => (EmptyString, EmptyString)
  | String c s' =>
      if is_digit c then let '(ds, rest) := take_digits s' in (String c ds, rest)
      else (EmptyString, s)
  end.

Fixpoint drop_chars (n : nat) (s : string) : string :=
  match n, s with
  | O, _ => s
  | S n', String _ s' => drop_chars n' s'
  | S _, EmptyString => EmptyString
  end.

(** A match that starts at the first character of [s]; the result is
    the capture group. *)
Definition match_document_here (s : string) : option string :=
  if startsWith s "document" then
    let '(ds, rest) := take_digits (drop_chars 8 s) in
    match ds with
    | EmptyString => None
    | String _ _ => if startsWith rest ".pdf" then Some ds else None
    end
  else None.

(** [s.match(/document(\d+)\.pdf/)[1]]: the capture of the leftmost
    match; [match] gives [null] without one and [null[1]] throws. *)
Fixpoint match_document (s : string) : outcome string :=
  match match_document_here s with
  | Some ds => Returned ds
  | None =>
      match s with
      | EmptyString => Thrown TypeError
      | String _ s' => match_document s'
      end
  end.

(** [this.metadata.get(id)] followed by a property read of the result. *)
Definition metadata_get (this : AISearchEngine) (id : string) : outcome PersonRecord :=
  match getOwn (metadata this) id with
  | Some record => Returned record
  | None => Thrown TypeError
  end.

(** *** The three branches *)

(** The guard of Branch A. *)
Definition branchA_guard (isComparative : bool) (names : list (string * PersonRecord)) : bool :=
  (isComparative || (1 <? List.length names)%nat) && (2 <=? List.length names)%nat.

(** Branch A: everything inside the first [if]. *)
Definition branchA (this : AISearchEngine) (contextualQuery : string)
    (names : list (string * PersonRecord)) : outcome (option string) :=
  contexts <- collectContexts this contextualQuery names [] ;;
  Returned (Some (join block_separator (map formatContext contexts))).

(** Branch C: from [const questionEmbedding] after the [nameMatch]
    block to [return null]. *)
Definition branchC (this : AISearchEngine) (contextualQuery : string) : outcome (option string) :=
  questionEmbedding <- getEmbedding this contextualQuery ;;
  let similarContent := findSimilarContent this questionEmbedding None in
  groupedResults <- groupBySource [] similarContent ;;
  match js_sort size_after (Object_entries groupedResults) with
  | bestSource :: _ =>
      documentId <- match_document (fst bestSource) ;;
      record <- metadata_get this documentId ;;
      let relevantChunks := snd bestSource in
      lines <- mapM (formatChunk documentId record) relevantChunks ;;
      Returned (Some (join (nl ++ nl) lines))
  | [] => Returned None
  end.

(** Branch B: the [if (nameMatch)] block; it ends in Branch C when the
    block does not return. *)
Definition branchB (this : AISearchEngine) (contextualQuery : string)
    (names : list (string * PersonRecord)) : outcome (option string) :=
  match names with
  | (id, record) :: _ =>
      questionEmbedding <- getEmbedding this contextualQuery ;;
      let similarContent :=
        findSimilarContent this questionEmbedding (Some (documentName id)) in
      if (0 <? List.length similarContent)%nat then
        lines <- mapM (formatChunk id record) similarContent ;;
        Returned (Some (join (nl ++ nl) lines))
      else branchC this contextualQuery
  | [] => branchC this contextualQuery
  end.

(** The body of [findRelevantContext] from the guard of Branch A on,
    with the comparative flag as an argument. *)
Definition selectBranch (this : AISearchEngine) (isComparative : bool)
    (contextualQuery : string) (names : list (string * PersonRecord))
    : outcome (option string) :=
  if branchA_guard isComparative names then branchA this contextualQuery names
  else branchB this contextualQuery names.

(** [findRelevantContext(question, history)]: [Returned None] is the
    [null] of the last line; the [catch] logs and throws the same error
    again. *)
Definition findRelevantContext (this : AISearchEngine) (question : string)
    (history : list ConversationTurn) : outcome (option string) :=
  let contextualQuery := contextualQuery question history in
  let isComparative := isComparative contextualQuery in
  let names := findAllNamesInQuestion this contextualQuery in
  selectBranch this isComparative contextualQuery names.

(** ** Corpus loading: [initialize] *)

(** A value [JSON.parse] gives; the members of an object are its own
    properties.  (The development takes JSON values apart by cases
    only: no induction principle is asked for.) *)
#[local] Unset Elimination Schemes.
Inductive JSON : Type :=
| JNull
| JBoolean (b : bool)
| JNumber (x : float)
| JString (s : string)
| JArray (items : list JSON)
| JObject (members : JSObject JSON).
#[local] Set Elimination Schemes.

(** [embeddings.json] when it holds the three arrays [saveEmbeddings]
    writes, with elements of the types the engine computes with.
    Nothing relates their lengths. *)
Record Artifact : Type := {
  data_embeddings : list (list float);
  data_texts : list string;
  data_metadata : list ChunkMetadata
}.

(** What [initialize] reaches outside the engine: the file system and
    the two parsers. *)
Record Environment : Type := {
  readFileSync : string -> outcome string;
  JSON_parse : string -> outcome JSON;
  csv_parse : string -> outcome (list PersonRecord)
}.

(** [data.embeddings], [data.texts], [data.metadata]: reading a
    property of [null] throws; a value that is not an object has none
    of the three properties. *)
Definition property (data : JSON) (key : string) : outcome (option JSON) :=
  match data with
  | JNull => Thrown TypeError
  | JObject members => Returned (getOwn members key)
  | JBoolean _ | JNumber _ | JString _ | JArray _ => Returned None
  end.

Definition is_string (v : JSON) : bool :=
  match v with
  | JString _ => true
  | _ => false
  end.

(** [this.texts.slice(0, 3).forEach((text, i) => ... text.substring(0, 100) ...)]:
    only an array has both [slice] and [forEach], and only a string has
    [substring]. *)
Definition logTexts (texts : option JSON) : outcome unit :=
  match texts with
  | Some (JArray items) =>
      if forallb is_string (slice_to 3 items) then Returned tt else Thrown TypeError
  | _ => Thrown TypeError
  end.

(** [this.embeddings.length] in the last line of the [try] block: it
    throws for [undefined] and for [null]. *)
Definition readLength (embeddings : option JSON) : outcome unit :=
  match embeddings with
  | None | Some JNull => Thrown TypeError
  | Some _ => Returned tt
  end.

(** *** The arrays as the engine holds them *)

(** [arr.map(f)] for an [f] that has no value on some elements. *)
Fixpoint mapO {A B : Type} (f : A -> option B) (arr : list A) : option (list B) :=
  match arr with
  | [] => Some []
  | x :: rest =>
      match f x, mapO f rest with
      | Some y, Some ys => Some (y :: ys)
      | _, _ => None
      end
  end.

Definition as_number (v : JSON) : option float :=
  match v with
  | JNumber x => Some x
  | _ => None
  end.

Definition as_string (v : JSON) : option string :=
  match v with
  | JString s => Some s
  | _ => None
  end.

Definition as_array {A : Type} (element : JSON -> option A) (v : JSON) : option (list A) :=
  match v with
  | JArray items => mapO element items
  | _ => None
  end.

(** The integer a number is, when it is one that [`${n}`] writes with
    all its digits (below 2^53 in absolute value). *)
Definition as_integer (v : JSON) : option Z :=
  match v with
  | JNumber x =>
      let n :=
        match Prim2SF x with
        | S754_zero _ => Some 0%Z
        | S754_finite s m e =>
            if (0 <=? e)%Z then Some (cond_Zopp s (Zpos m * 2 ^ e))%Z
            else if (Zpos m mod 2 ^ (- e) =? 0)%Z then Some (cond_Zopp s (Zpos m / 2 ^ (- e)))%Z
            else None
        | S754_infinity _ | S754_nan => None
        end in
      match n with
      | Some z => if (Z.abs z <? 2 ^ 53)%Z then Some z else None
      | None => None
      end
  | _ => None
  end.

(** An element of [data.metadata]: [{ source, tokens }], with or
    without a [page]. *)
Definition as_chunkMetadata (v : JSON) : option ChunkMetadata :=
  match v with
  | JObject members =>
      match option_map as_string (getOwn members "source"),
            option_map as_integer (getOwn members "tokens") with
      | Some (Some s), Some (Some t) =>
          match getOwn members "page" with
          | None => Some {| source := s; page := None; tokens := t |}
          | Some p =>
              match as_integer p with
              | Some n => Some {| source := s; page := Some n; tokens := t |}
              | None => None
              end
          end
      | _, _ => None
      end
  | _ => None
  end.

(** The engine of this development holds typed arrays.  A property of
    the artifact that is one is held as it is; a property that is
    missing or has another type has no counterpart in the engine: the
    array is left empty, and nothing is stated of retrieval on what
    the program would hold then. *)
Definition held {A : Type} (element : JSON -> option A) (v : option JSON) : list A :=
  match v with
  | Some value =>
      match as_array element value with
      | Some items => items
      | None => []
      end
  | None => []
  end.

(** [arr.forEach((x, i) => ...)] over a state [St]. *)
Fixpoint forEach_from {A St : Type} (f : St -> A -> nat -> St) (i : nat) (st : St) (arr : list A) : St :=
  match arr with
  | [] => st
  | x :: rest => forEach_from f (S i) (f st x i) rest
  end.

(** [this.metadata.set(documentId, record)] *)
Definition metadata_set (this : AISearchEngine) (documentId : string) (record : PersonRecord)
    : AISearchEngine :=
  {| openai := openai this;
     embeddings := embeddings this;
     texts := texts this;
     metadata := setOwn (metadata this) documentId record;
     chunkMetadata := chunkMetadata this |}.

(** The three assignments that follow [JSON.parse], for the arrays
    [data]. *)
Definition assign_artifact (this : AISearchEngine) (data : Artifact) : AISearchEngine :=
  {| openai := openai this;
     embeddings := data_embeddings data;
     texts := data_texts data;
     metadata := metadata this;
     chunkMetadata := data_metadata data |}.

(** The arrays the engine holds for the three properties read. *)
Definition held_arrays (embeddings texts metadata : option JSON) : Artifact :=
  {| data_embeddings := held (as_array as_number) embeddings;
     data_texts := held as_string texts;
     data_metadata := held as_chunkMetadata metadata |}.

(** [new AISearchEngine(openai)] *)
Definition constructor (openai : string -> outcome (list float)) : AISearchEngine :=
  {| openai := openai; embeddings := []; texts := []; metadata := []; chunkMetadata := [] |}.

(** [initialize()]: the outcome and the engine as the call leaves it.
    The [catch] block logs the error and throws it again; the
    assignments made before the error stay. *)
Definition initialize (env : Environment) (this : AISearchEngine)
    : outcome unit * AISearchEngine :=
  match (raw <- readFileSync env "embeddings.json" ;; JSON_parse env raw) with
  | Thrown error => (Thrown error, this)
  | Returned data =>
      match (embeddings <- property data "embeddings" ;;
             texts <- property data "texts" ;;
             metadata <- property data "metadata" ;;
             Returned (embeddings, texts, metadata)) with
      | Thrown error => (Thrown error, this)
      | Returned (embeddings, texts, metadata) =>
          let this1 := assign_artifact this (held_arrays embeddings texts metadata) in
          match logTexts texts with
          | Thrown error => (Thrown error, this1)
          | Returned _ =>
              match (metadataFile <- readFileSync env "metadata.csv" ;;
                     csv_parse env metadataFile) with
              | Thrown error => (Thrown error, this1)
              | Returned records =>
                  let this2 :=
                    forEach_from
                      (fun this' record index =>
                         let documentId := Z_toString (Z.of_nat index + 1) in
                         metadata_set this' documentId record)
                      0 this1 records in
                  match readLength embeddings with
                  | Thrown error => (Thrown error, this2)
                  | Returned _ => (Returned tt, this2)
                  end
              end
          end
      end
  end.

(** *** The document of an artifact *)

(** What [JSON.parse] reads back from what [JSON.stringify] writes: a
    number that is not finite is written [null], and a property that is
    [undefined] is left out. *)
Definition JSON_of_number (x : float) : JSON :=
  if is_finite x then JNumber x else JNull.

Definition JSON_of_integer (n : Z) : JSON :=
  JNumber (SF2Prim (binary_normalize FloatOps.prec FloatOps.emax n 0 false)).

Definition JSON_of_chunkMetadata (m : ChunkMetadata) : JSON :=
  JObject
    (("source", JString (source m))
     :: match page m with
        | Some p => [("page", JSON_of_integer p)]
        | None => []
        end
     ++ [("tokens", JSON_of_integer (tokens m))]).

Definition JSON_of_artifact (data : Artifact) : JSON :=
  JObject
    [("embeddings",
      JArray (map (fun vec => JArray (map JSON_of_number vec)) (data_embeddings data)));
     ("texts", JArray (map JString (data_texts data)));
     ("metadata", JArray (map JSON_of_chunkMetadata (data_metadata data)))].

(* ================================================================== *)
(** * Part II. What the retrieval engine is specified to do            *)
(* ================================================================== *)

(** The definitions of this part follow the wording of the
    specification; Part III compares them with the embedding. *)

(** ** Strings *)

(** [p] appears as a substring of [s]. *)
Definition is_substring (p s : string) : Prop :=
  exists pre post, s = (pre ++ p ++ post)%string.

(** [c] is the letter [l] in lower case or in upper case [u]. *)
Definition letter (l u c : ascii) : Prop := c = l \/ c = u.

(** [letter] as a test. *)
Definition letterb (l u c : ascii) : bool := Ascii.eqb c l || Ascii.eqb c u.

(** A string in lower case: [toLowerCase] leaves it as it is. *)
Definition lowered (s : string) : Prop := toLowerCase s = s.

(** The question starts with "why", whatever the case of its letters. *)
Definition starts_with_why (question : string) : Prop :=
  exists c1 c2 c3 rest,
    question = String c1 (String c2 (String c3 rest)) /\
    letter "w" "W" c1 /\ letter "h" "H" c2 /\ letter "y" "Y" c3.

(** The question starts with "how", whatever the case of its letters. *)
Definition starts_with_how (question : string) : Prop :=
  exists c1 c2 c3 rest,
    question = String c1 (String c2 (String c3 rest)) /\
    letter "h" "H" c1 /\ letter "o" "O" c2 /\ letter "w" "W" c3.

(** The question contains a question mark. *)
Definition has_question_mark (question : string) : Prop :=
  exists pre post, question = (pre ++ String "?" post)%string.

(** ** Query reformulation *)

(** The decision to fold the history in. *)
Definition reformulation_triggered (question : string) : Prop :=
  (String.length question < 60)%nat
  \/ starts_with_why question
  \/ starts_with_how question
  \/ ~ has_question_mark question.

(** [recent] is the last [n] turns of [history]: all of it when it has
    no more than [n] turns. *)
Definition last_turns (n : nat) (history recent : list ConversationTurn) : Prop :=
  exists older,
    history = older ++ recent /\
    (List.length recent = n \/ (older = [] /\ (List.length recent < n)%nat)).

(** ** Entity resolution *)

(** A record matches a text when its lower-cased full name is a
    substring of the lower-cased text or when one of the tokens of the
    lower-cased name, longer than 2, is; [tokens] is the way the name is
    cut into tokens. *)
Definition name_matches (tokens : string -> list string) (question : string)
    (record : PersonRecord) : Prop :=
  is_substring (toLowerCase (name record)) (toLowerCase question)
  \/ exists token,
       In token (tokens (toLowerCase (name record))) /\
       (2 < String.length token)%nat /\
       is_substring token (toLowerCase question).

(** The white space of JavaScript below U+0100: tab, line feed,
    vertical tab, form feed, carriage return, space, no-break space. *)
Definition is_whitespace (c : ascii) : bool :=
  existsb (N.eqb (N_of_ascii c)) [9; 10; 11; 12; 13; 32; 160]%N.

(** The tokens of a name split on white space: the maximal runs of
    characters that are not white space. *)
Fixpoint whitespace_tokens_from (current : string) (s : string) : list string :=
  match s with
  | EmptyString =>
      match current with
      | EmptyString => []
      | _ => [current]
      end
  | String c s' =>
      if is_whitespace c then
        match current with
        | EmptyString => whitespace_tokens_from EmptyString s'
        | _ => current :: whitespace_tokens_from EmptyString s'
        end
      else whitespace_tokens_from (current ++ String c EmptyString)%string s'
  end.

Definition whitespace_tokens (s : string) : list string :=
  whitespace_tokens_from EmptyString s.

(** The tokens the program cuts: the pieces between single spaces. *)
Definition space_tokens (s : string) : list string := split " " s.

(** The decision procedure behind [name_matches space_tokens]. *)
Definition name_matchesb (question : string) (record : PersonRecord) : bool :=
  includes (toLowerCase question) (toLowerCase (name record))
  || existsb (fun token => (2 <? String.length token)%nat
                           && includes (toLowerCase question) token)
       (space_tokens (toLowerCase (name record))).

(** ** Branch A *)

(** [c.page] of the element built from [item]. *)
Definition page_or_undefined (item : Scored) : option Z :=
  match item_metadata item with
  | Some m => page m
  | None => None
  end.

Definition content_of (item : Scored) : ContentItem :=
  {| c_text := text item; c_page := page_or_undefined item; c_score := score item |}.

(** The ranking restricted to the document of a registry entry, for the
    query vector [v]. *)
Definition restricted_ranking (this : AISearchEngine) (v : list float)
    (entry : string * PersonRecord) : list Scored :=
  findSimilarContent this v (Some (documentName (fst entry))).

(** The matched document yields restricted ranking results. *)
Definition yields_results (this : AISearchEngine) (v : list float)
    (entry : string * PersonRecord) : bool :=
  (0 <? List.length (restricted_ranking this v entry))%nat.

(** The per-document context block of a matched document. *)
Definition context_of (this : AISearchEngine) (v : list float)
    (entry : string * PersonRecord) : Context :=
  {| interviewId := fst entry;
     interviewee := name (snd entry);
     context_date := date (snd entry);
     context_content := map content_of (restricted_ranking this v entry) |}.

(** The matched documents that contribute a block. *)
Definition contributing (this : AISearchEngine) (v : list float)
    (names : list (string * PersonRecord)) : list (string * PersonRecord) :=
  filter (yields_results this v) names.

(** ** Fallback grouping *)

(** The chunks of the ranking that come from the document [s]. *)
Definition group_of (ranked : list Scored) (s : string) : list Scored :=
  filter (from_source s) ranked.

(** In ranked order a chunk of [w] is met before any chunk of [s]. *)
Definition encountered_before (ranked : list Scored) (w s : string) : Prop :=
  exists before item rest,
    ranked = before ++ item :: rest
    /\ from_source w item = true
    /\ forall x, In x before -> from_source s x = false.

(** [w] is the group with the most members, the first one encountered
    among the groups of that size. *)
Definition first_largest_group (ranked : list Scored) (w : string) : Prop :=
  group_of ranked w <> []
  /\ (forall s, (List.length (group_of ranked s) <= List.length (group_of ranked w))%nat)
  /\ (forall s, s <> w ->
                List.length (group_of ranked s) = List.length (group_of ranked w) ->
                encountered_before ranked w s).

(** A chunk under the header of the document [id]. *)
Definition chunk_under (id : string) (record : PersonRecord) (item : Scored) : string :=
  header id (name record) (date record) ++ page_line (page_or_undefined item) (text item).

(** No usable entity match: nobody is matched, or the one person
    matched has no chunk in the corpus. *)
Definition no_usable_match (this : AISearchEngine) (v : list float)
    (names : list (string * PersonRecord)) : Prop :=
  match names with
  | [] => True
  | [entry] => yields_results this v entry = false
  | _ :: _ :: _ => False
  end.

(** [a] stands before [b] in the list [l]. *)
Definition before_in {A : Type} (l : list A) (a b : A) : Prop :=
  exists l1 l2, l = l1 ++ a :: l2 /\ In b l2.

(** What [groupedResults] holds once the chunks [seen] have gone
    through the [forEach]: one property per source met, created in the
    order the sources were met, each with the chunks of its source. *)
Record grouped (seen : list Scored) (g : JSObject (list Scored)) : Prop := {
  grouped_nodup : NoDup (map fst g);
  grouped_groups : forall k grp, In (k, grp) g -> grp = group_of seen k /\ grp <> [];
  grouped_sources :
    forall item, In item seen ->
      exists m, item_metadata item = Some m /\ In (source m) (map fst g);
  grouped_order :
    forall k1 k2, before_in (map fst g) k1 k2 -> encountered_before seen k1 k2
}.

(** Every character of [s] is a decimal digit. *)
Fixpoint all_digits (s : string) : bool :=
  match s with
  | EmptyString => true
  | String c s' => is_digit c && all_digits s'
  end.

(** ** Vectors *)

(** Every component is a zero ([+0] or [-0]). *)
Definition zero_vector (vec : list float) : Prop :=
  Forall (fun c => is_zero c = true) vec.

(** Some component is not a zero. *)
Definition nonzero_vector (vec : list float) : Prop :=
  Exists (fun c => is_zero c = false) vec.

Definition nonzero_vectorR (vec : list R) : Prop :=
  Exists (fun c => c <> 0%R) vec.

Definition zero_or_nan (x : float) : bool := is_zero x || is_nan x.

(** The same test on the specification of a binary64 value. *)
Definition zero_or_nan_spec (x : spec_float) : bool :=
  match x with
  | S754_zero _ | S754_nan => true
  | S754_infinity _ | S754_finite _ _ _ => false
  end.

(** A binary64 value whose square underflows to zero: 2^-700. *)
Definition tiny : float := 0x1p-700%float.

(** The sum of the squares of the components, from [acc]. *)
Definition sum_squaresR (acc : R) (vec : list R) : R :=
  fold_left (fun sum a => (sum + a * a)%R) vec acc.

(** ** Rounding in a binary format *)

(** The power [2^e] of an integer exponent, as a real number. *)
Definition bpow (e : Z) : R := powerRZ 2 e.

(** The place of the real [y] between the integers [m] and [m + 1], as
    the rounding of the format records it: at [m], below the middle, at
    the middle or above it. *)
Definition inbetween (m : Z) (l : location) (y : R) : Prop :=
  match l with
  | loc_Exact => y = IZR m
  | loc_Inexact Lt => (IZR m < y < IZR m + / 2)%R
  | loc_Inexact Eq => y = (IZR m + / 2)%R
  | loc_Inexact Gt => (IZR m + / 2 < y < IZR m + 1)%R
  end.

(** The value a binary format gives to the integer [n] counted in units
    of [2^e]: [n] is at most [2^prec]. *)
Definition round_result (prec emax : Z) (s : bool) (n e : Z) : spec_float :=
  if (n =? 0)%Z then S754_zero s
  else if (n <? 2 ^ prec)%Z then
    if (e <=? emax - prec)%Z then S754_finite s (Z.to_pos n) e else S754_infinity s
  else
    if (e + 1 <=? emax - prec)%Z then S754_finite s (Z.to_pos (2 ^ (prec - 1))) (e + 1)
    else S754_infinity s.

(** [r] is the magnitude [X > 0], with the sign [s], rounded to the
    nearest value of the format, ties to even: [g] is the magnitude of
    [X] and the rounding is that of [X] counted in units of
    [2^(fexp g)] to an integer. *)
Definition rounded (prec emax : Z) (X : R) (s : bool) (r : spec_float) : Prop :=
  exists g m1 l1,
    (bpow (g - 1) <= X < bpow g)%R
    /\ inbetween m1 l1 (X * bpow (- SpecFloat.fexp prec emax g))
    /\ r = round_result prec emax s (round_nearest_even m1 l1) (SpecFloat.fexp prec emax g).

(** The sum of the squares of the components, as [norm] computes it. *)
Definition sum_squares (vec : list float) : float :=
  reduce (fun sum a (_ : nat) => (sum + a * a)%float) 0%float vec.

(** A positive finite number: neither zero, nor NaN, nor an infinity. *)
Definition positive_finite (x : float) : bool := ((0 <? x) && (x <? infinity))%float.

(** A zero or a finite value. *)
Definition finite_spec (x : spec_float) : bool :=
  match x with
  | S754_zero _ | S754_finite _ _ _ => true
  | S754_infinity _ | S754_nan => false
  end.

(** Not below zero: a zero, NaN, or a value with the sign bit clear. *)
Definition not_negative (x : spec_float) : bool :=
  match x with
  | S754_zero _ | S754_nan => true
  | S754_infinity s | S754_finite s _ _ => negb s
  end.

(** The absolute value of a value of the format, as a real number. *)
Definition magnitude (x : spec_float) : R :=
  match x with
  | S754_finite _ m e => (IZR (Zpos m) * bpow e)%R
  | _ => 0%R
  end.

(** ** The order of binary64 values *)

(** An integer that orders the values of a binary format as the format
    does: a finite value [m * 2^e] is counted in units of [2^emin], and
    the infinities lie beyond every finite value.  NaN, which the
    format does not order, is given 0. *)
Definition keyZ (prec emax : Z) (x : spec_float) : Z :=
  match x with
  | S754_zero _ | S754_nan => 0%Z
  | S754_infinity s => cond_Zopp s (2 ^ (emax - SpecFloat.emin prec emax))
  | S754_finite s m e => cond_Zopp s (Zpos m * 2 ^ (e - SpecFloat.emin prec emax))
  end.

(** Above zero: a positive finite value or the positive infinity. *)
Definition positive_spec (x : spec_float) : bool :=
  match x with
  | S754_finite false _ _ | S754_infinity false => true
  | _ => false
  end.

(** The key of a binary64 value. *)
Definition keyF (x : float) : Z := keyZ FloatOps.prec FloatOps.emax (Prim2SF x).

(** ** The ranking *)

(** [x] scores at least as much as [y]. *)
Definition score_ge (x y : Scored) : Prop := (score y <=? score x)%float = true.

(** [y] ties with [x]: the two scores are equal numbers. *)
Definition tie (x y : Scored) : bool := (score y =? score x)%float.

(** No score of the list is NaN. *)
Definition scores_are_numbers (items : list Scored) : Prop :=
  Forall (fun item => is_nan (score item) = false) items.

(** ** Corpus loading *)

(** The document [data] as an artifact: the three properties are
    arrays with elements of the types the engine computes with. *)
Definition artifact_of (data : JSON) : option Artifact :=
  match data with
  | JObject members =>
      match option_map (as_array (as_array as_number)) (getOwn members "embeddings"),
            option_map (as_array as_string) (getOwn members "texts"),
            option_map (as_array as_chunkMetadata) (getOwn members "metadata") with
      | Some (Some embeddings), Some (Some texts), Some (Some metadata) =>
          Some {| data_embeddings := embeddings; data_texts := texts;
                  data_metadata := metadata |}
      | _, _, _ => None
      end
  | _ => None
  end.

(** Reading and parsing the artifact, when what is parsed is an
    artifact; a document of another shape is counted with the files
    that give none. *)
Definition load_artifact (env : Environment) : outcome Artifact :=
  raw <- readFileSync env "embeddings.json" ;;
  data <- JSON_parse env raw ;;
  match artifact_of data with
  | Some artifact => Returned artifact
  | None => Thrown SyntaxError
  end.

(** The value of a property of a document, if it has it. *)
Definition member (data : JSON) (key : string) : option JSON :=
  match data with
  | JObject members => getOwn members key
  | _ => None
  end.





(** ** Sample data *)

Definition jean : PersonRecord :=
  {| name := "Jean Carlomusto"; date := "2002-12-19";
     excerpt_title := "Video activism"; tags := "video, education" |}.

Definition vito : PersonRecord :=
  {| name := "Vito Russo"; date := "1990-03-05";
     excerpt_title := "Film history"; tags := "film" |}.

(** A name whose two words are separated by a tab. *)
Definition tabbed : PersonRecord :=
  {| name := "Jean" ++ String "009" "Carlomusto"; date := "2002-12-19";
     excerpt_title := "Video activism"; tags := "video" |}.

Definition chunk_of (document : string) : ChunkMetadata :=
  {| source := document; page := None; tokens := 120 |}.

(** A provider that answers every text with the same vector. *)
Definition constant_provider (v : list float) : string -> outcome (list float) :=
  fun _ => Returned v.

Definition tabbed_engine : AISearchEngine :=
  {| openai := constant_provider [1; 0]%float;
     embeddings := []; texts := [];
     metadata := [("1", tabbed)];
     chunkMetadata := [] |}.

(** Two people in the registry and no chunk at all. *)
Definition empty_corpus_engine : AISearchEngine :=
  {| openai := constant_provider [1; 0]%float;
     embeddings := []; texts := [];
     metadata := [("1", jean); ("2", vito)];
     chunkMetadata := [] |}.

(** Two people in the registry, chunks of the first one only. *)
Definition one_sided_engine : AISearchEngine :=
  {| openai := constant_provider [1; 0]%float;
     embeddings := [[1; 0]; [0; 1]]%float;
     texts := ["She made videos."; "She taught."];
     metadata := [("1", jean); ("2", vito)];
     chunkMetadata := [chunk_of "document1.pdf"; chunk_of "document1.pdf"] |}.

(** Three documents; the ranking of the query [1; 0] puts chunks of
    document 3 first and has three chunks of document 1 among its five. *)
Definition sample_engine : AISearchEngine :=
  {| openai := constant_provider [1; 0]%float;
     embeddings := [[1; 1]; [1; 0]; [1; 1]; [0; 1]; [1; 1]; [2; 0]]%float;
     texts := ["one a"; "three a"; "one b"; "two a"; "one c"; "three b"];
     metadata := [("1", jean); ("2", vito); ("3", tabbed)];
     chunkMetadata :=
       [chunk_of "document1.pdf"; chunk_of "document3.pdf"; chunk_of "document1.pdf";
        chunk_of "document2.pdf"; chunk_of "document1.pdf"; chunk_of "document3.pdf"] |}.

(** An artifact whose three arrays have the lengths 1, 2 and 0. *)
Definition ragged_artifact : Artifact :=
  {| data_embeddings := [[1; 0]%float];
     data_texts := ["first"; "second"];
     data_metadata := [] |}.

(** Both files readable and well formed. *)
Definition ragged_environment : Environment :=
  {| readFileSync := fun path => Returned path;
     JSON_parse := fun _ => Returned (JSON_of_artifact ragged_artifact);
     csv_parse := fun _ => Returned [jean; vito] |}.

(** [metadata.csv] cannot be read. *)
Definition no_table_environment : Environment :=
  {| readFileSync := fun path =>
       if String.eqb path "metadata.csv" then Thrown IOError else Returned path;
     JSON_parse := fun _ => Returned (JSON_of_artifact ragged_artifact);
     csv_parse := fun _ => Returned [jean; vito] |}.

(** [embeddings.json] holds [{}]. *)
Definition empty_object_environment : Environment :=
  {| readFileSync := fun path => Returned path;
     JSON_parse := fun _ => Returned (JObject []);
     csv_parse := fun _ => Returned [jean; vito] |}.

(** [embeddings.json] holds [{"texts": []}]. *)
Definition texts_only_environment : Environment :=
  {| readFileSync := fun path => Returned path;
     JSON_parse := fun _ => Returned (JObject [("texts", JArray [])]);
     csv_parse := fun _ => Returned [jean; vito] |}.

(** A corpus whose first embedding is the zero vector. *)
Definition nan_engine : AISearchEngine :=
  {| openai := constant_provider [1; 0]%float;
     embeddings := [[0; 0]; [1; 0]]%float;
     texts := ["blank"; "She made videos."];
     metadata := [("1", jean)];
     chunkMetadata := [chunk_of "document1.pdf"; chunk_of "document1.pdf"] |}.

(** The two elements [findSimilarContent] builds for it from the query
    [1; 0]. *)
Definition blank_item : Scored :=
  {| score := nan; text := Some "blank";
     item_metadata := Some (chunk_of "document1.pdf") |}.

Definition video_item : Scored :=
  {| score := 1%float; text := Some "She made videos.";
     item_metadata := Some (chunk_of "document1.pdf") |}.

(* ================================================================== *)
(** * Part I, continued. The chat endpoint and the ingestion script     *)
(* ================================================================== *)

(** ** The reply filter: [ensureCompleteResponse] of [src/server.js] *)

Fixpoint all_dots (s : string) : bool :=
  match s with
  | EmptyString => true
  | String c s' => Ascii.eqb c "." && all_dots s'
  end.

(** [text.replace(/\.{3,}$/, '')]: the match starts at the leftmost
    position from which the text is three dots or more up to its end;
    it is removed. *)
Fixpoint strip_ellipsis (text : string) : string :=
  match text with
  | EmptyString => EmptyString
  | String c rest =>
      if all_dots text && (3 <=? String.length text)%nat then EmptyString
      else String c (strip_ellipsis rest)
  end.

(** [text.endsWith(ending)] for an ending of one character. *)
Fixpoint endsWith_char (text : string) (ending : ascii) : bool :=
  match text with
  | EmptyString => false
  | String c rest =>
      match rest with
      | EmptyString => Ascii.eqb c ending
      | String _ _ => endsWith_char rest ending
      end
  end.

(** [text.lastIndexOf(c)] scanned from the left: [i] is the index of
    the first character of [text], [last] the last index found so far. *)
Fixpoint lastIndexOf_from (text : string) (c : ascii) (i last : Z) : Z :=
  match text with
  | EmptyString => last
  | String d rest => lastIndexOf_from rest c (i + 1) (if Ascii.eqb d c then i else last)
  end.

Definition lastIndexOf (text : string) (c : ascii) : Z :=
  lastIndexOf_from text c 0 (-1).

(** [text.substring(0, n)] *)
Fixpoint take_chars (n : nat) (text : string) : string :=
  match n, text with
  | O, _ => EmptyString
  | S n', String c rest => String c (take_chars n' rest)
  | S _, EmptyString => EmptyString
  end.

Fixpoint trimStart (text : string) : string :=
  match text with
  | EmptyString => EmptyString
  | String c rest => if is_whitespace c then trimStart rest else text
  end.

Fixpoint trimEnd (text : string) : string :=
  match text with
  | EmptyString => EmptyString
  | String c rest =>
      match trimEnd rest with
      | EmptyString => if is_whitespace c then EmptyString else String c EmptyString
      | String d kept => String c (String d kept)
      end
  end.

(** [text.trim()] *)
Definition trim (text : string) : string := trimEnd (trimStart text).

Definition sentenceEndings : list ascii := ["."; "!"; "?"]%char.

(** The [for (const ending of sentenceEndings)] loop. *)
Definition lastComplete (text : string) : Z :=
  fold_left
    (fun lastCompleteIndex ending =>
       let index := lastIndexOf text ending in
       if (lastCompleteIndex <? index)%Z then index else lastCompleteIndex)
    sentenceEndings (-1)%Z.

Definition ensureCompleteResponse (text : string) : string :=
  let text := strip_ellipsis text in
  if existsb (endsWith_char text) sentenceEndings then text
  else
    let lastCompleteIndex := lastComplete text in
    if negb (lastCompleteIndex =? -1)%Z then
      take_chars (Z.to_nat (lastCompleteIndex + 1)) text
    else if (0 <? String.length (trim text))%nat then (trim text ++ ".")%string
    else text.

(** No character of [s] ends a sentence. *)
Definition unfinished (s : string) : Prop :=
  forall j e, In e sentenceEndings -> String.get j s <> Some e.

(** ** The chat endpoint: [app.post('/api/chat', ...)] of [src/server.js] *)

(** [req.body]: a field the client left out is [None].  A field that is
    there is a string. *)
Record ChatRequest : Type := {
  body_question : option string;
  body_sessionId : option string;
  body_qualtricsId : option string
}.

(** A row of [chat_messages]; [id] and [timestamp] are the database's. *)
Record ChatMessage : Type := {
  qualtrics_id : string;
  session_id : option string;
  message_role : string;
  message_content : string;
  chatbot_id : string
}.

Definition CHATBOT_ID : string := "direct-answers-bot".

(** What [res.status(...).json(...)] sends: [{ response }] or
    [{ error, ... }]. *)
Inductive ReplyBody : Type :=
| Answer (response : string)
| Failure (error : string).

Record Reply : Type := {
  reply_status : Z;
  reply_body : ReplyBody
}.

(** What the [catch] block reads of an error: [error.response], when
    the error has one, as its [status] and its [data.error.message]. *)
Definition ErrorResponse : Type := option (Z * string).

(** How an awaited promise settles. *)
Inductive settled (A : Type) : Type :=
| Fulfilled (value : A)
| RejectedWith (response : ErrorResponse).
Arguments Fulfilled {A} value.
Arguments RejectedWith {A} response.

(** What the endpoint is started with: the engine, the text of the
    system prompt up to the context, and the [response] of the error
    the embedding provider rejects with. *)
Record Server : Type := {
  searchEngine : AISearchEngine;
  instructions : string;
  provider_response : ErrorResponse
}.

(** [error.response] of an error thrown by [findRelevantContext]: the
    errors of the language have none. *)
Definition response_of (server : Server) (error : exn) : ErrorResponse :=
  match error with
  | EmbeddingProviderError => provider_response server
  | TypeError | SyntaxError | IOError => None
  end.

(** The constants of one call of the handler. *)
Record Locals : Type := {
  qualtricsId : string;
  sessionId : option string;
  question : string
}.

(** A call of the handler suspended at one of its three [await]s on
    the database and the completion provider, with the variables it
    resumes with.  ([findRelevantContext] is awaited too; it reads the
    engine, which no call changes, and the history the call has read
    already, so it is run at once when the first insert is
    acknowledged.) *)
Inductive Handler : Type :=
| AwaitsUserInsert (locals : Locals)
| AwaitsCompletion (locals : Locals) (sessionHistory messages : list ConversationTurn)
| AwaitsAssistantInsert (locals : Locals) (sessionHistory : list ConversationTurn)
    (response : string).

(** The [Map] [sessions], keyed by [sessionId], which may be
    [undefined]. *)
Definition key_eqb (a b : option string) : bool :=
  match a, b with
  | Some x, Some y => String.eqb x y
  | None, None => true
  | _, _ => false
  end.

Fixpoint sessions_get (sessions : list (option string * list ConversationTurn))
    (key : option string) : option (list ConversationTurn) :=
  match sessions with
  | [] => None
  | (k, h) :: rest => if key_eqb k key then Some h else sessions_get rest key
  end.

Fixpoint sessions_set (sessions : list (option string * list ConversationTurn))
    (key : option string) (history : list ConversationTurn)
    : list (option string * list ConversationTurn) :=
  match sessions with
  | [] => [(key, history)]
  | (k, h) :: rest =>
      if key_eqb k key then (k, history) :: rest else (k, h) :: sessions_set rest key history
  end.

(** The process: the sessions, the table [chat_messages] (its rows in
    the order their inserts were acknowledged), the calls of the
    handler that are suspended, and the replies sent so far. *)
Record ServerState : Type := {
  sessions : list (option string * list ConversationTurn);
  database : list ChatMessage;
  handlers : list Handler;
  replies : list Reply
}.

(** The process at its start. *)
Definition started : ServerState :=
  {| sessions := []; database := []; handlers := []; replies := [] |}.

(** The row the handler inserts. *)
Definition row (locals : Locals) (role content : string) : ChatMessage :=
  {| qualtrics_id := qualtricsId locals;
     session_id := sessionId locals;
     message_role := role;
     message_content := content;
     chatbot_id := CHATBOT_ID |}.

(** [`${relevantContext}`] *)
Definition show_context (relevantContext : option string) : string :=
  match relevantContext with
  | Some context => context
  | None => "null"
  end.

(** The [messages] of the completion request. *)
Definition completion_messages (server : Server) (relevantContext : option string)
    (sessionHistory : list ConversationTurn) (question : string) : list ConversationTurn :=
  {| role := "system"; content := instructions server ++ show_context relevantContext |}
  :: sessionHistory ++ [{| role := "user"; content := question |}].

(** The [catch] block. *)
Definition error_reply (response : ErrorResponse) : Reply :=
  match response with
  | Some (status, message) => {| reply_status := status; reply_body := Failure message |}
  | None =>
      {| reply_status := 500;
         reply_body := Failure "An error occurred while processing your request" |}
  end.

(** [req.body.qualtricsId || 'unknown'] *)
Definition or_unknown (qualtricsId : option string) : string :=
  match qualtricsId with
  | Some (String c s) => String c s
  | Some EmptyString | None => "unknown"
  end.

(** [sessions.get(sessionId) || []] *)
Definition session_history (sessions : list (option string * list ConversationTurn))
    (key : option string) : list ConversationTurn :=
  match sessions_get sessions key with
  | Some history => history
  | None => []
  end.

(** The handler from its entry to its first [await]: it replies 400, or
    it issues the insert of the user's row. *)
Definition receive (req : ChatRequest) : Handler + Reply :=
  let qualtricsId := or_unknown (body_qualtricsId req) in
  match body_question req with
  | Some (String c s) =>
      inl (AwaitsUserInsert {| qualtricsId := qualtricsId;
                               sessionId := body_sessionId req;
                               question := String c s |})
  | Some EmptyString | None =>
      inr {| reply_status := 400; reply_body := Failure "Question is required" |}
  end.

Fixpoint replace_nth {A : Type} (n : nat) (x : A) (l : list A) : list A :=
  match n, l with
  | _, [] => []
  | O, _ :: rest => x :: rest
  | S n', y :: rest => y :: replace_nth n' x rest
  end.

Fixpoint remove_nth {A : Type} (n : nat) (l : list A) : list A :=
  match n, l with
  | _, [] => []
  | O, _ :: rest => rest
  | S n', y :: rest => y :: remove_nth n' rest
  end.

(** The [n]-th suspended call ends with a reply. *)
Definition finish (st : ServerState) (n : nat) (reply : Reply) : ServerState :=
  {| sessions := sessions st;
     database := database st;
     handlers := remove_nth n (handlers st);
     replies := replies st ++ [reply] |}.

(** The [n]-th suspended call goes on to its next [await]. *)
Definition suspend (st : ServerState) (n : nat) (handler : Handler) : ServerState :=
  {| sessions := sessions st;
     database := database st;
     handlers := replace_nth n handler (handlers st);
     replies := replies st |}.

Definition insert_row (st : ServerState) (r : ChatMessage) : ServerState :=
  {| sessions := sessions st;
     database := database st ++ [r];
     handlers := handlers st;
     replies := replies st |}.

Definition set_session (st : ServerState) (key : option string)
    (history : list ConversationTurn) : ServerState :=
  {| sessions := sessions_set (sessions st) key history;
     database := database st;
     handlers := handlers st;
     replies := replies st |}.

(** What the event loop delivers: a request, or the settlement of the
    promise the [n]-th suspended call awaits. *)
Inductive Event : Type :=
| Arrives (req : ChatRequest)
| QuerySettles (n : nat) (result : settled unit)
| CompletionSettles (n : nat) (result : settled (option string)).

(** The two turns a successful call adds. *)
Definition exchange (question response : string) : list ConversationTurn :=
  [{| role := "user"; content := question |};
   {| role := "assistant"; content := response |}].

(** One run of the handler between two [await]s.  A settlement that
    the [n]-th suspended call does not await cannot happen; the state
    stays.  The content of a completion is [None] when the provider
    answers with [null]: [ensureCompleteResponse] throws on it. *)
Definition handle (server : Server) (st : ServerState) (event : Event) : ServerState :=
  match event with
  | Arrives req =>
      match receive req with
      | inl handler =>
          {| sessions := sessions st; database := database st;
             handlers := handlers st ++ [handler]; replies := replies st |}
      | inr reply =>
          {| sessions := sessions st; database := database st;
             handlers := handlers st; replies := replies st ++ [reply] |}
      end
  | QuerySettles n result =>
      match nth_error (handlers st) n with
      | Some (AwaitsUserInsert locals) =>
          match result with
          | RejectedWith response => finish st n (error_reply response)
          | Fulfilled _ =>
              let st1 := insert_row st (row locals "user" (question locals)) in
              let sessionHistory := session_history (sessions st1) (sessionId locals) in
              match findRelevantContext (searchEngine server) (question locals)
                      sessionHistory with
              | Thrown error => finish st1 n (error_reply (response_of server error))
              | Returned relevantContext =>
                  suspend st1 n
                    (AwaitsCompletion locals sessionHistory
                       (completion_messages server relevantContext sessionHistory
                          (question locals)))
              end
          end
      | Some (AwaitsAssistantInsert locals sessionHistory response) =>
          match result with
          | RejectedWith error => finish st n (error_reply error)
          | Fulfilled _ =>
              let st1 := insert_row st (row locals "assistant" response) in
              let st2 :=
                set_session st1 (sessionId locals)
                  (sessionHistory ++ exchange (question locals) response) in
              finish st2 n {| reply_status := 200; reply_body := Answer response |}
          end
      | Some (AwaitsCompletion _ _ _) | None => st
      end
  | CompletionSettles n result =>
      match nth_error (handlers st) n with
      | Some (AwaitsCompletion locals sessionHistory _) =>
          match result with
          | RejectedWith response => finish st n (error_reply response)
          | Fulfilled None => finish st n (error_reply None)
          | Fulfilled (Some content) =>
              suspend st n
                (AwaitsAssistantInsert locals sessionHistory
                   (ensureCompleteResponse content))
          end
      | Some (AwaitsUserInsert _) | Some (AwaitsAssistantInsert _ _ _) | None => st
      end
  end.

(** The process after a sequence of events. *)
Definition run (server : Server) (events : list Event) (st : ServerState) : ServerState :=
  fold_left (handle server) events st.

(** The events of one call that nothing interrupts and nothing fails. *)
Definition served_alone (n : nat) (req : ChatRequest) (content : string) : list Event :=
  [Arrives req; QuerySettles n (Fulfilled tt);
   CompletionSettles n (Fulfilled (Some content)); QuerySettles n (Fulfilled tt)].

(** The request of a client that gives a question and a session. *)
Definition asks (key : option string) (question : string) : ChatRequest :=
  {| body_question := Some question; body_sessionId := key; body_qualtricsId := None |}.

(** Two calls of one session, each resumed before the other has
    ended. *)
Definition overlapping (key : option string) (q1 q2 c1 c2 : string) : list Event :=
  [Arrives (asks key q1); Arrives (asks key q2);
   QuerySettles 0 (Fulfilled tt); QuerySettles 1 (Fulfilled tt);
   CompletionSettles 0 (Fulfilled (Some c1)); CompletionSettles 1 (Fulfilled (Some c2));
   QuerySettles 0 (Fulfilled tt); QuerySettles 0 (Fulfilled tt)].

(** ** The ingestion script: [DocumentProcessor] of [scripts/generateEmbeddings.js] *)

(** What [readDocuments] gives for one PDF file. *)
Record Document : Type := {
  doc_text : string;
  title : string;
  pages : Z
}.

(** The chunks [splitIntoChunks] builds: [{ text, source, tokens }]. *)
Record Chunk : Type := {
  chunk_text : string;
  chunk_source : string;
  chunk_tokens : Z
}.

(** *** [splitIntoChunks] *)

(** The white space at the head of [s], and what follows it. *)
Fixpoint span_whitespace (s : string) : string * string :=
  match s with
  | EmptyString => (EmptyString, EmptyString)
  | String c rest =>
      if is_whitespace c then
        let '(run, after) := span_whitespace rest in (String c run, after)
      else (EmptyString, s)
  end.

(** The length of the prefix of a run of white space that ends with
    its last line feed, if it holds one. *)
Fixpoint through_last_newline (run : string) : option nat :=
  match run with
  | EmptyString => None
  | String c rest =>
      match through_last_newline rest with
      | Some n => Some (S n)
      | None => if Ascii.eqb c (ascii_of_nat 10) then Some 1%nat else None
      end
  end.

(** The length of the match of [/\n\s*\n/] at the head of [s]: a line
    feed, then white space up to the last line feed of the run of
    white space that follows. *)
Definition separator_here (s : string) : option nat :=
  match s with
  | EmptyString => None
  | String c rest =>
      if Ascii.eqb c (ascii_of_nat 10) then
        match through_last_newline (fst (span_whitespace rest)) with
        | Some n => Some (S n)
        | None => None
        end
      else None
  end.

(** [text.split(/\n\s*\n/)]: [skip] characters of a separator are
    still to be passed over, [piece] is the piece being read. *)
Fixpoint split_paragraphs_from (skip : nat) (piece : string) (s : string) : list string :=
  match s with
  | EmptyString => [piece]
  | String c rest =>
      match skip with
      | S skip' => split_paragraphs_from skip' piece rest
      | O =>
          match separator_here s with
          | Some n => piece :: split_paragraphs_from (n - 1) EmptyString rest
          | None => split_paragraphs_from 0 (piece ++ String c EmptyString) rest
          end
      end
  end.

Definition split_paragraphs (s : string) : list string :=
  split_paragraphs_from 0 EmptyString s.

Section Chunking.

(** [encode(s).length]: the tokenizer is a library of its own. *)
Variable token_count : string -> Z.

Definition chunk_of_text (doc : Document) (currentChunk : string) : Chunk :=
  {| chunk_text := trim currentChunk;
     chunk_source := title doc;
     chunk_tokens := token_count currentChunk |}.

(** One iteration of [for (const paragraph of paragraphs)]; the state
    is [chunks] and [currentChunk]. *)
Definition paragraph_step (maxTokens : Z) (doc : Document)
    (state : list Chunk * string) (paragraph : string) : list Chunk * string :=
  let '(chunks, currentChunk) := state in
  let trimmedParagraph := trim paragraph in
  match trimmedParagraph with
  | EmptyString => state
  | String _ _ =>
      let potentialChunk := (currentChunk ++ nl ++ trimmedParagraph)%string in
      let tokenCount := token_count potentialChunk in
      if (maxTokens <? tokenCount)%Z && negb (String.eqb currentChunk EmptyString) then
        (chunks ++ [chunk_of_text doc currentChunk], trimmedParagraph)
      else (chunks, potentialChunk)
  end.

(** One iteration of [for (const doc of documents)]. *)
Definition document_step (maxTokens : Z) (chunks : list Chunk) (doc : Document)
    : list Chunk :=
  let '(chunks, currentChunk) :=
    fold_left (paragraph_step maxTokens doc) (split_paragraphs (doc_text doc))
      (chunks, EmptyString) in
  match trim currentChunk with
  | String _ _ => chunks ++ [chunk_of_text doc currentChunk]
  | EmptyString => chunks
  end.

Definition splitIntoChunks (documents : list Document) (maxTokens : Z) : list Chunk :=
  fold_left (document_step maxTokens) documents [].

End Chunking.

(** *** [generateEmbeddings] *)

Definition batchSize : nat := 20.

(** [arr.slice(start, stop)] *)
Definition slice {A : Type} (start stop : nat) (arr : list A) : list A :=
  firstn (stop - start) (skipn start arr).

(** What the promise of one chunk resolves to: the embedding, or
    [null] when the provider rejected.  [create idx] is the answer to
    the request made for the chunk of index [idx]. *)
Definition embedding_or_null (create : nat -> string -> outcome (list float))
    (chunk : Chunk) (idx : nat) : option (list float) :=
  match create idx (chunk_text chunk) with
  | Returned embedding => Some embedding
  | Thrown _ => None
  end.

(** [batchEmbeddings.filter(emb => emb !== null)] *)
Fixpoint non_null {A : Type} (arr : list (option A)) : list A :=
  match arr with
  | [] => []
  | Some x :: rest => x :: non_null rest
  | None :: rest => non_null rest
  end.

(** The [for (let i = 0; i < chunks.length; i += batchSize)] loop from
    [i] on; [None] when [fuel] iterations do not reach its end. *)
Fixpoint generateEmbeddings_from (create : nat -> string -> outcome (list float))
    (chunks : list Chunk) (fuel i : nat) (embeddings : list (list float))
    : option (list (list float)) :=
  if (i <? List.length chunks)%nat then
    match fuel with
    | O => None
    | S fuel' =>
        let batch := slice i (i + batchSize) chunks in
        let batchEmbeddings := mapi_from (embedding_or_null create) i batch in
        generateEmbeddings_from create chunks fuel' (i + batchSize)
          (embeddings ++ non_null batchEmbeddings)
    end
  else Some embeddings.

Definition generateEmbeddings (create : nat -> string -> outcome (list float))
    (chunks : list Chunk) : option (list (list float)) :=
  generateEmbeddings_from create chunks (List.length chunks) 0 [].

(** *** [saveEmbeddings] *)

(** The object [saveEmbeddings] writes to [embeddings.json]. *)
Definition saveEmbeddings (embeddings : list (list float)) (chunks : list Chunk) : Artifact :=
  {| data_embeddings := embeddings;
     data_texts := map chunk_text chunks;
     data_metadata :=
       map (fun chunk => {| source := chunk_source chunk; page := None;
                            tokens := chunk_tokens chunk |}) chunks |}.

(** A chunk as the script means it: a text that is trimmed and not
    empty. *)
Definition well_cut (chunk : Chunk) : Prop :=
  chunk_text chunk <> EmptyString /\ trim (chunk_text chunk) = chunk_text chunk.

(** The embeddings of the chunks the provider answered for, in the
    order of the chunks. *)
Definition answered (create : nat -> string -> outcome (list float))
    (chunks : list Chunk) : list (list float) :=
  non_null (mapi (embedding_or_null create) chunks).

(** The provider rejected the request made for the chunk of index [k]. *)
Definition rejected_at (create : nat -> string -> outcome (list float))
    (chunks : list Chunk) (k : nat) : Prop :=
  exists chunk error,
    nth_error chunks k = Some chunk /\ create k (chunk_text chunk) = Thrown error.

(** ** The earlier server: [class AISearchEngine] of [src/unnamed/part_001] *)

(** The inner [for (const part of nameParts)] loop of
    [findPersonByName]: [true] when it leaves through [return]. *)
Fixpoint anyNamePart (normalizedQuestion : string) (nameParts : list string) : bool :=
  match nameParts with
  | [] => false
  | part :: rest =>
      if (2 <? String.length part)%nat && includes normalizedQuestion part then true
      else anyNamePart normalizedQuestion rest
  end.

(** The [for (const [id, record] of this.metadata.entries())] loop. *)
Fixpoint findPersonByName_from (normalizedQuestion : string)
    (entries : list (string * PersonRecord)) : option (string * PersonRecord) :=
  match entries with
  | [] => None
  | (id, record) :: rest =>
      let normalizedName := toLowerCase (name record) in
      if includes normalizedQuestion normalizedName then Some (id, record)
      else if anyNamePart normalizedQuestion (split " " normalizedName) then Some (id, record)
      else findPersonByName_from normalizedQuestion rest
  end.

Definition findPersonByName (this : AISearchEngine) (question : string)
    : option (string * PersonRecord) :=
  findPersonByName_from (toLowerCase question) (metadata this).

(** The [searchTerms] of [searchMetadata]. *)
Definition searchTerms (q : string) : list string :=
  (if includes q "interview" || includes q "interviewed" then ["date"] else [])
  ++ (if includes q "name" || includes q "who" then ["name"] else [])
  ++ (if includes q "title" || includes q "about what" then ["excerpt_title"] else [])
  ++ (if includes q "tags" || includes q "topics" then ["tags"] else []).

(** [record[term]] for the names [searchTerms] holds. *)
Definition column (record : PersonRecord) (term : string) : option string :=
  if String.eqb term "date" then Some (date record)
  else if String.eqb term "name" then Some (name record)
  else if String.eqb term "excerpt_title" then Some (excerpt_title record)
  else if String.eqb term "tags" then Some (tags record)
  else None.

(** [record[term] && record[term].toLowerCase().includes(q)] *)
Definition column_includes (record : PersonRecord) (q term : string) : bool :=
  match column record term with
  | Some (String c s) => includes (toLowerCase (String c s)) q
  | Some EmptyString | None => false
  end.

(** [`${record.name} ${record.date} ${record.excerpt_title} ${record.tags}`] *)
Definition allText (record : PersonRecord) : string :=
  name record ++ " " ++ date record ++ " " ++ excerpt_title record ++ " " ++ tags record.

(** The value of [matched] at the end of the callback. *)
Definition matched (q : string) (record : PersonRecord) : bool :=
  match searchTerms q with
  | [] => includes (toLowerCase (allText record)) q
  | terms => existsb (column_includes record q) terms
  end.

(** The question [q] occurs in what [searchMetadata] reads of the
    record: a column its keywords select, when that column is not
    empty, or the joined columns when it holds no keyword. *)
Definition question_in_columns (q : string) (record : PersonRecord) : Prop :=
  match searchTerms q with
  | [] => is_substring q (toLowerCase (allText record))
  | terms =>
      exists term value,
        In term terms /\ column record term = Some value
        /\ value <> EmptyString /\ is_substring q (toLowerCase value)
  end.

(** The double quote of the result line. *)
Definition quote : string := String (ascii_of_nat 34) EmptyString.

Definition metadata_line (id : string) (record : PersonRecord) : string :=
  "Interview " ++ id ++ ": " ++ name record ++ ", interviewed on " ++ date record
  ++ ". Title: " ++ quote ++ excerpt_title record ++ quote ++ ". Topics: " ++ tags record.

Definition searchMetadata (this : AISearchEngine) (question : string) : option string :=
  let q := toLowerCase question in
  let results :=
    map (fun entry => metadata_line (fst entry) (snd entry))
      (filter (fun entry => matched q (snd entry)) (metadata this)) in
  match results with
  | [] => None
  | _ :: _ => Some (join (nl ++ nl) results)
  end.

(** ** What the endpoint keeps *)

(** A history made of exchanges: a question that is not empty, then a
    reply that went through [ensureCompleteResponse]. *)
Definition made_of_exchanges (history : list ConversationTurn) : Prop :=
  exists pairs : list (string * string),
    history
    = flat_map (fun qa => exchange (fst qa) (ensureCompleteResponse (snd qa))) pairs
    /\ Forall (fun qa => fst qa <> EmptyString) pairs.

(** Every turn of the history is a row of the session in the table. *)
Definition logged (table : list ChatMessage) (key : option string)
    (history : list ConversationTurn) : Prop :=
  forall turn, In turn history ->
    exists r, In r table /\ session_id r = key
              /\ message_role r = role turn /\ message_content r = content turn.

(** What holds of a suspended call. *)
Definition handler_sound (table : list ChatMessage) (handler : Handler) : Prop :=
  match handler with
  | AwaitsUserInsert locals => question locals <> EmptyString
  | AwaitsCompletion locals sessionHistory _ =>
      question locals <> EmptyString
      /\ made_of_exchanges sessionHistory
      /\ logged table (sessionId locals) sessionHistory
      /\ In (row locals "user" (question locals)) table
  | AwaitsAssistantInsert locals sessionHistory response =>
      question locals <> EmptyString
      /\ made_of_exchanges sessionHistory
      /\ logged table (sessionId locals) sessionHistory
      /\ In (row locals "user" (question locals)) table
      /\ exists content, response = ensureCompleteResponse content
  end.

(** What holds of the process. *)
Definition state_sound (st : ServerState) : Prop :=
  (forall key history, In (key, history) (sessions st) ->
     made_of_exchanges history /\ logged (database st) key history)
  /\ Forall (handler_sound (database st)) (handlers st).

(** ** The registry [initialize] builds *)

(** Reading and parsing the table of people. *)
Definition load_table (env : Environment) : outcome (list PersonRecord) :=
  metadataFile <- readFileSync env "metadata.csv" ;; csv_parse env metadataFile.

(** The rows of the table under their numbers: row [index] under the
    decimal form of [index + 1]. *)
Definition numbered (records : list PersonRecord) : list (string * PersonRecord) :=
  mapi (fun record index => (Z_toString (Z.of_nat index + 1), record)) records.

(** A provider that rejects every request. *)
Definition silent_provider : string -> outcome (list float) :=
  fun _ => Thrown EmbeddingProviderError.

Definition silent_engine : AISearchEngine :=
  {| openai := silent_provider;
     embeddings := [[1; 0]]%float; texts := ["She made videos."];
     metadata := [("1", jean)];
     chunkMetadata := [chunk_of "document1.pdf"] |}.

(** The engine [ragged_artifact] gives: one embedding, no metadata entry. *)
Definition ragged_engine : AISearchEngine :=
  {| openai := constant_provider [1; 0]%float;
     embeddings := [[1; 0]%float]; texts := ["first"; "second"];
     metadata := [("1", jean); ("2", vito)];
     chunkMetadata := [] |}.

Definition sample_server : Server :=
  {| searchEngine := sample_engine;
     instructions := "Only use information from the provided context.";
     provider_response := None |}.

Definition ragged_server : Server :=
  {| searchEngine := ragged_engine;
     instructions := "Only use information from the provided context.";
     provider_response := None |}.

(** Three chunks, and a provider that rejects the request of the
    second one. *)
Definition three_chunks : list Chunk :=
  [{| chunk_text := "first"; chunk_source := "document1.pdf"; chunk_tokens := 1 |};
   {| chunk_text := "second"; chunk_source := "document1.pdf"; chunk_tokens := 2 |};
   {| chunk_text := "third"; chunk_source := "document2.pdf"; chunk_tokens := 3 |}].

Definition flaky_provider (idx : nat) (input : string) : outcome (list float) :=
  match idx with
  | 0%nat => Returned [1; 0]%float
  | 1%nat => Thrown EmbeddingProviderError
  | _ => Returned [0; 1]%float
  end.

(** The files the ingestion of [three_chunks] leaves. *)
Definition flaky_environment : Environment :=
  {| readFileSync := fun path => Returned path;
     JSON_parse :=
       fun _ =>
         Returned
           (JSON_of_artifact
              (saveEmbeddings (answered flaky_provider three_chunks) three_chunks));
     csv_parse := fun _ => Returned [jean; vito] |}.

(* ================================================================== *)
(** * Part III. Properties                                             *)
(* ================================================================== *)

(** ** Strings *)

Lemma append_assoc (a b c : string) : ((a ++ b) ++ c = a ++ (b ++ c))%string.
Proof. induction a as [|x a IH]; simpl; [reflexivity | now rewrite IH]. Qed.


Lemma append_length (a b : string) :
  String.length (a ++ b) = (String.length a + String.length b)%nat.
Proof. induction a as [|x a IH]; simpl; [reflexivity | now rewrite IH]. Qed.

Arguments startsWith : simpl never.

Lemma startsWith_iff (s p : string) :
  startsWith s p = true <-> exists post, s = (p ++ post)%string.
Proof.
  unfold startsWith. revert s.
  induction p as [|c p IH]; intros s; simpl.
  - split; [intros _; now exists s | intros _; destruct s; reflexivity].
  - destruct s as [|d s]; simpl.
    + split; [discriminate | intros [post H]; discriminate].
    + destruct (Ascii.ascii_dec c d) as [->|Hne].
      * rewrite IH. split; intros [post H]; exists post.
        -- now rewrite H.
        -- now injection H.
      * split; [discriminate |].
        intros [post H]. injection H as H1 _. now elim Hne.
Qed.

Lemma includes_iff (s p : string) : includes s p = true <-> is_substring p s.
Proof.
  unfold is_substring. induction s as [|c s IH]; simpl.
  - rewrite startsWith_iff. split.
    + intros [post H]. exists ""%string, post. exact H.
    + intros [pre [post H]]. destruct pre; [now exists post | discriminate].
  - rewrite orb_true_iff, IH, startsWith_iff. split.
    + intros [[post H] | [pre [post H]]].
      * exists ""%string, post. exact H.
      * exists (String c pre), post. simpl. now rewrite H.
    + intros [pre [post H]]. destruct pre as [|d pre].
      * left. now exists post.
      * right. simpl in H. injection H as _ H. now exists pre, post.
Qed.

Lemma includes_false_iff (s p : string) : includes s p = false <-> ~ is_substring p s.
Proof.
  rewrite <- includes_iff. destruct (includes s p); split; intro H;
    try reflexivity; try discriminate; try (intro; discriminate); now elim H.
Qed.

(** ** Lower case *)

Lemma letterb_iff (l u c : ascii) : letterb l u c = true <-> letter l u c.
Proof.
  unfold letterb, letter. rewrite orb_true_iff, !Ascii.eqb_eq. reflexivity.
Qed.

Ltac each_char c :=
  destruct c as [[] [] [] [] [] [] [] []]; vm_compute; reflexivity.

Lemma toLowerChar_idempotent (c : ascii) : toLowerChar (toLowerChar c) = toLowerChar c.
Proof. each_char c. Qed.

Lemma toLowerChar_w (c : ascii) : Ascii.eqb (toLowerChar c) "w" = letterb "w" "W" c.
Proof. each_char c. Qed.

Lemma toLowerChar_h (c : ascii) : Ascii.eqb (toLowerChar c) "h" = letterb "h" "H" c.
Proof. each_char c. Qed.

Lemma toLowerChar_y (c : ascii) : Ascii.eqb (toLowerChar c) "y" = letterb "y" "Y" c.
Proof. each_char c. Qed.

Lemma toLowerChar_o (c : ascii) : Ascii.eqb (toLowerChar c) "o" = letterb "o" "O" c.
Proof. each_char c. Qed.

Lemma toLowerCase_idempotent (s : string) : toLowerCase (toLowerCase s) = toLowerCase s.
Proof.
  induction s as [|c s IH]; simpl; [reflexivity|].
  now rewrite toLowerChar_idempotent, IH.
Qed.

Lemma toLowerCase_length (s : string) : String.length (toLowerCase s) = String.length s.
Proof. induction s as [|c s IH]; simpl; [reflexivity | now rewrite IH]. Qed.

Lemma lowered_toLowerCase (s : string) : lowered (toLowerCase s).
Proof. apply toLowerCase_idempotent. Qed.

Lemma lowered_cons (c : ascii) (s : string) :
  lowered (String c s) <-> toLowerChar c = c /\ lowered s.
Proof.
  unfold lowered. simpl. split.
  - intros H. now injection H.
  - intros [H1 H2]. now rewrite H1, H2.
Qed.

Lemma split_nonempty (sep : ascii) (s : string) : split sep s <> [].
Proof.
  induction s as [|c s IH]; simpl; [discriminate|].
  destruct (Ascii.eqb c sep); [discriminate|].
  destruct (split sep s); [contradiction | discriminate].
Qed.

Lemma split_lowered (sep : ascii) (s : string) :
  lowered s -> Forall lowered (split sep s).
Proof.
  induction s as [|c s IH]; simpl; intros H.
  - constructor; [reflexivity | constructor].
  - apply lowered_cons in H as [Hc Hs]. specialize (IH Hs).
    destruct (Ascii.eqb c sep).
    + constructor; [reflexivity | exact IH].
    + destruct (split sep s) as [|t ts] eqn:E.
      * constructor; [|constructor]. now apply lowered_cons.
      * inversion IH; subst. constructor; [now apply lowered_cons | assumption].
Qed.

(** [split] cuts at every separator and nowhere else: joining the
    pieces with the separator gives the string back, and no piece holds
    a separator. *)
Lemma join_split (sep : ascii) (s : string) :
  join (String sep "") (split sep s) = s.
Proof.
  induction s as [|c s IH]; simpl; [reflexivity|].
  destruct (Ascii.eqb c sep) eqn:E.
  - apply Ascii.eqb_eq in E. subst c.
    destruct (split sep s) as [|t ts] eqn:E2; [now elim (split_nonempty sep s)|].
    simpl in *. now rewrite IH.
  - destruct (split sep s) as [|t ts] eqn:E2; [now elim (split_nonempty sep s)|].
    destruct ts as [|t' ts]; simpl in *; now rewrite IH.
Qed.

Lemma split_no_separator (sep : ascii) (s : string) :
  Forall (fun piece => ~ is_substring (String sep "") piece) (split sep s).
Proof.
  induction s as [|c s IH]; simpl.
  - constructor; [|constructor].
    intros [pre [post H]]. destruct pre; discriminate.
  - destruct (Ascii.eqb c sep) eqn:E.
    + constructor; [|exact IH].
      intros [pre [post H]]. destruct pre; discriminate.
    + destruct (split sep s) as [|t ts] eqn:E2; [now elim (split_nonempty sep s)|].
      inversion IH as [|? ? Ht Hts]; subst. constructor; [|exact Hts].
      intros [pre [post H]]. destruct pre as [|d pre]; simpl in H.
      * injection H as H _. subst c. now rewrite Ascii.eqb_refl in E.
      * injection H as _ H. apply Ht. now exists pre, post.
Qed.

(** ** Query reformulation *)

Lemma toLowerChar_letter (l u c : ascii) :
  Ascii.eqb (toLowerChar c) l = letterb l u c -> (toLowerChar c = l <-> letter l u c).
Proof. intros H. rewrite <- letterb_iff, <- H. symmetry. apply Ascii.eqb_eq. Qed.

Lemma startsWith_lower3 (l1 l2 l3 : ascii) (question : string) :
  startsWith (toLowerCase question) (String l1 (String l2 (String l3 ""))) = true <->
  exists c1 c2 c3 rest,
    question = String c1 (String c2 (String c3 rest)) /\
    toLowerChar c1 = l1 /\ toLowerChar c2 = l2 /\ toLowerChar c3 = l3.
Proof.
  rewrite startsWith_iff. split.
  - intros [post H].
    destruct question as [|c1 [|c2 [|c3 rest]]]; simpl in H; try discriminate.
    injection H as H1 H2 H3 _. exists c1, c2, c3, rest. auto.
  - intros (c1 & c2 & c3 & rest & -> & <- & <- & <-).
    exists (toLowerCase rest). reflexivity.
Qed.

Lemma startsWith_why (question : string) :
  startsWith (toLowerCase question) "why" = true <-> starts_with_why question.
Proof.
  rewrite startsWith_lower3. unfold starts_with_why.
  split; intros (c1 & c2 & c3 & rest & H & H1 & H2 & H3);
    exists c1, c2, c3, rest; (split; [exact H|]);
    [ rewrite <- (toLowerChar_letter _ _ _ (toLowerChar_w c1)),
              <- (toLowerChar_letter _ _ _ (toLowerChar_h c2)),
              <- (toLowerChar_letter _ _ _ (toLowerChar_y c3))
    | rewrite (toLowerChar_letter _ _ _ (toLowerChar_w c1)),
              (toLowerChar_letter _ _ _ (toLowerChar_h c2)),
              (toLowerChar_letter _ _ _ (toLowerChar_y c3)) ]; auto.
Qed.

Lemma startsWith_how (question : string) :
  startsWith (toLowerCase question) "how" = true <-> starts_with_how question.
Proof.
  rewrite startsWith_lower3. unfold starts_with_how.
  split; intros (c1 & c2 & c3 & rest & H & H1 & H2 & H3);
    exists c1, c2, c3, rest; (split; [exact H|]);
    [ rewrite <- (toLowerChar_letter _ _ _ (toLowerChar_h c1)),
              <- (toLowerChar_letter _ _ _ (toLowerChar_o c2)),
              <- (toLowerChar_letter _ _ _ (toLowerChar_w c3))
    | rewrite (toLowerChar_letter _ _ _ (toLowerChar_h c1)),
              (toLowerChar_letter _ _ _ (toLowerChar_o c2)),
              (toLowerChar_letter _ _ _ (toLowerChar_w c3)) ]; auto.
Qed.

Lemma includes_question_mark (question : string) :
  includes question "?" = true <-> has_question_mark question.
Proof. rewrite includes_iff. reflexivity. Qed.

Lemma foldsHistory_iff (question : string) :
  foldsHistory question = true <-> reformulation_triggered question.
Proof.
  unfold foldsHistory, reformulation_triggered.
  rewrite !orb_true_iff, negb_true_iff, Z.ltb_lt, startsWith_why, startsWith_how.
  rewrite includes_false_iff. unfold has_question_mark, is_substring. simpl.
  split.
  - intros [[[H|H]|H]|H];
      [left; lia | right; left; exact H | right; right; left; exact H
      | right; right; right; exact H].
  - intros [H|[H|[H|H]]];
      [left; left; left; lia | left; left; right; exact H | left; right; exact H
      | right; exact H].
Qed.

Lemma slice_from_last (history : list ConversationTurn) :
  last_turns 4 history (slice_from (-4) history).
Proof.
  unfold last_turns, slice_from. simpl.
  set (k := Z.to_nat (Z.max (Z.of_nat (List.length history) + -4) 0)).
  exists (firstn k history). split.
  - symmetry. apply firstn_skipn.
  - rewrite length_skipn. destruct (Nat.le_gt_cases 4 (List.length history)) as [H|H].
    + left. subst k. lia.
    + right. assert (k = 0%nat) as -> by (subst k; lia). simpl. split; [reflexivity | lia].
Qed.

(** C4. Query reformulation folds the history in exactly when the raw
    question has fewer than 60 characters, or starts with "why" or "how"
    whatever the case, or holds no question mark.  When it does, the
    query text is the contents of the last 4 history turns joined by
    spaces, one more space, and the raw question; otherwise the query
    text is the raw question. *)
Theorem reformulation_folds_history (question : string) (history : list ConversationTurn) :
  (foldsHistory question = true <-> reformulation_triggered question) /\
  exists recent,
    last_turns 4 history recent /\
    (reformulation_triggered question ->
       contextualQuery question history
       = (join " " (map content recent) ++ " " ++ question)%string) /\
    (~ reformulation_triggered question ->
       contextualQuery question history = question).
Proof.
  split; [apply foldsHistory_iff|].
  exists (slice_from (-4) history). split; [apply slice_from_last|].
  unfold contextualQuery. split; intros H.
  - apply foldsHistory_iff in H. now rewrite H.
  - destruct (foldsHistory question) eqn:E; [|reflexivity].
    apply foldsHistory_iff in E. contradiction.
Qed.

(** The two questions of the specification's examples. *)
Example why_folds_history : foldsHistory "why?" = true.
Proof. reflexivity. Qed.

Example long_question_stands_alone :
  contextualQuery
    "What specific organization did Jean Carlomusto found in 1987 according to the interview?"
    [{| role := "user"; content := "hello" |}]
  = "What specific organization did Jean Carlomusto found in 1987 according to the interview?".
Proof. reflexivity. Qed.

(** ** Entity resolution *)

Lemma scanNameParts_existsb (normalizedQuestion : string) (nameParts : list string) :
  Forall lowered nameParts ->
  scanNameParts normalizedQuestion nameParts
  = existsb (fun token => (2 <? String.length token)%nat
                          && includes normalizedQuestion token) nameParts.
Proof.
  induction 1 as [|part rest Hpart _ IH]; simpl; [reflexivity|].
  rewrite Hpart, IH.
  now destruct ((2 <? String.length part)%nat && includes normalizedQuestion part).
Qed.

Lemma findAllNames_step_keeps (question : string) (matches : list (string * PersonRecord))
    (entry : string * PersonRecord) :
  findAllNames_step (toLowerCase question) matches entry
  = matches ++ (if name_matchesb question (snd entry) then [entry] else []).
Proof.
  destruct entry as [id record]. unfold findAllNames_step, name_matchesb, space_tokens. simpl.
  rewrite scanNameParts_existsb by (apply split_lowered, lowered_toLowerCase).
  destruct (includes (toLowerCase question) (toLowerCase (name record))); simpl;
    [reflexivity|].
  destruct (existsb _ _); [reflexivity | now rewrite app_nil_r].
Qed.

Lemma findAllNames_fold (question : string) (entries matches : list (string * PersonRecord)) :
  fold_left (findAllNames_step (toLowerCase question)) entries matches
  = matches ++ filter (fun entry => name_matchesb question (snd entry)) entries.
Proof.
  revert matches. induction entries as [|entry entries IH]; intros matches; simpl.
  - now rewrite app_nil_r.
  - rewrite IH, findAllNames_step_keeps.
    destruct (name_matchesb question (snd entry)); rewrite <- app_assoc; reflexivity.
Qed.

Lemma name_matchesb_iff (question : string) (record : PersonRecord) :
  name_matchesb question record = true <-> name_matches space_tokens question record.
Proof.
  unfold name_matchesb, name_matches.
  rewrite orb_true_iff, includes_iff, existsb_exists.
  split; (intros [H|[token [Hin H]]]; [now left | right; exists token]).
  - apply andb_true_iff in H as [Hlen Hinc].
    apply Nat.ltb_lt in Hlen. apply includes_iff in Hinc. auto.
  - destruct H as [Hlen Hsub]. split; [exact Hin|].
    apply andb_true_iff. split; [now apply Nat.ltb_lt | now apply includes_iff].
Qed.

(** The statement of C5 as it stands, with a name cut on white space,
    fails for a name whose words a tab separates: the token
    "carlomusto" is in the text, and the program finds no match. *)
Lemma resolver_whitespace_counterexample :
  name_matches whitespace_tokens "carlomusto" tabbed
  /\ findAllNamesInQuestion tabbed_engine "carlomusto" = [].
Proof.
  split; [|reflexivity].
  right. exists "carlomusto". split; [|split].
  - vm_compute. right. now left.
  - vm_compute. lia.
  - apply includes_iff. reflexivity.
Qed.

(** C5 (amended). The entity resolver returns one match per registry
    record whose lower-cased full name is a substring of the lower-cased
    text or, failing that, one of whose name tokens longer than 2 is,
    the tokens being the pieces of the lower-cased name between single
    space characters.  The matches are the matching entries of the
    registry in its insertion order, each once; an empty list is a
    regular result. *)
Theorem resolver_matches_space_tokens (this : AISearchEngine) (question : string) :
  findAllNamesInQuestion this question
  = filter (fun entry => name_matchesb question (snd entry)) (metadata this)
  /\ forall record,
       name_matchesb question record = true <-> name_matches space_tokens question record.
Proof.
  split.
  - unfold findAllNamesInQuestion. apply findAllNames_fold.
  - intros record. apply name_matchesb_iff.
Qed.

(** The examples of the specification. *)
Example full_name_matches :
  findAllNamesInQuestion empty_corpus_engine "Tell me about Jean Carlomusto" = [("1", jean)].
Proof. reflexivity. Qed.

Example surname_matches :
  findAllNamesInQuestion empty_corpus_engine "What did Carlomusto film?" = [("1", jean)].
Proof. reflexivity. Qed.

Example unrelated_text_matches_nobody :
  findAllNamesInQuestion empty_corpus_engine "What happened in 1987?" = [].
Proof. reflexivity. Qed.

(** ** Arrays *)

Lemma sort_insert_perm {A : Type} (after : A -> A -> bool) (x : A) (sorted : list A) :
  Permutation (sort_insert after x sorted) (x :: sorted).
Proof.
  induction sorted as [|y rest IH]; simpl; [reflexivity|].
  destruct (after x y); [|reflexivity].
  rewrite IH. apply perm_swap.
Qed.

Lemma js_sort_perm {A : Type} (after : A -> A -> bool) (arr : list A) :
  Permutation (js_sort after arr) arr.
Proof.
  induction arr as [|x rest IH]; simpl; [reflexivity|].
  rewrite sort_insert_perm. now constructor.
Qed.

Lemma js_sort_In {A : Type} (after : A -> A -> bool) (arr : list A) (x : A) :
  In x (js_sort after arr) <-> In x arr.
Proof.
  split; apply Permutation_in; [|symmetry]; apply js_sort_perm.
Qed.

Lemma js_sort_length {A : Type} (after : A -> A -> bool) (arr : list A) :
  List.length (js_sort after arr) = List.length arr.
Proof. apply Permutation_length, js_sort_perm. Qed.

Lemma slice_to_In {A : Type} (n : nat) (arr : list A) (x : A) :
  In x (slice_to n arr) -> In x arr.
Proof.
  unfold slice_to. intros H. rewrite <- (firstn_skipn n arr).
  apply in_or_app. now left.
Qed.

Lemma mapM_total {A B : Type} (f : A -> outcome B) (g : A -> B) (arr : list A) :
  (forall x, In x arr -> f x = Returned (g x)) ->
  mapM f arr = Returned (map g arr).
Proof.
  induction arr as [|x rest IH]; intros H; simpl; [reflexivity|].
  rewrite (H x) by now left. simpl.
  rewrite IH by (intros y Hy; apply H; now right). reflexivity.
Qed.

Lemma mapM_length {A B : Type} (f : A -> outcome B) (arr : list A) (ys : list B) :
  mapM f arr = Returned ys -> List.length ys = List.length arr.
Proof.
  revert ys. induction arr as [|x rest IH]; intros ys; simpl.
  - intros H. injection H as <-. reflexivity.
  - destruct (f x) as [y|e]; simpl; [|discriminate].
    destruct (mapM f rest) as [ys'|e]; simpl; [|discriminate].
    intros H. injection H as <-. simpl. now rewrite (IH ys').
Qed.

(** ** The ranking *)

Lemma findSimilarContent_In (this : AISearchEngine) (v : list float)
    (sourceName : option string) (item : Scored) :
  In item (findSimilarContent this v sourceName) -> In item (candidates this v sourceName).
Proof.
  unfold findSimilarContent. intros H.
  apply slice_to_In in H. now apply js_sort_In in H.
Qed.

Lemma restricted_candidates (this : AISearchEngine) (v : list float) (id : string) :
  candidates this v (Some (documentName id))
  = filter (from_source (documentName id)) (similarities this v).
Proof. reflexivity. Qed.

Lemma restricted_from_source (this : AISearchEngine) (v : list float) (id : string)
    (item : Scored) :
  In item (findSimilarContent this v (Some (documentName id))) ->
  from_source (documentName id) item = true.
Proof.
  intros H. apply findSimilarContent_In in H.
  rewrite restricted_candidates in H. now apply filter_In in H.
Qed.

Lemma from_source_metadata (sourceName : string) (item : Scored) :
  from_source sourceName item = true ->
  exists m, item_metadata item = Some m /\ source m = sourceName.
Proof.
  unfold from_source. destruct (item_metadata item) as [m|]; [|discriminate].
  intros H. apply String.eqb_eq in H. now exists m.
Qed.

Lemma toContentItem_from_source (sourceName : string) (item : Scored) :
  from_source sourceName item = true -> toContentItem item = Returned (content_of item).
Proof.
  intros H. apply from_source_metadata in H as (m & Hm & _).
  unfold toContentItem, content_of, page_of, page_or_undefined. now rewrite Hm.
Qed.

(** ** Branch selection *)

Lemma branchA_guard_length (flag : bool) (names : list (string * PersonRecord)) :
  branchA_guard flag names = (2 <=? List.length names)%nat.
Proof.
  unfold branchA_guard.
  destruct (Nat.leb_spec 2 (List.length names)), (Nat.ltb_spec 1 (List.length names)), flag;
    simpl; try reflexivity; lia.
Qed.

(** C9. The guard of Branch A, [(isComparative || names.length > 1) &&
    names.length >= 2], says the same as [names.length >= 2]: whatever
    the comparative flag, [findRelevantContext] runs the same branch
    and gives the same outcome. *)
Theorem comparative_flag_is_redundant (this : AISearchEngine) (question : string)
    (history : list ConversationTurn) (flag : bool) :
  let query := contextualQuery question history in
  let names := findAllNamesInQuestion this query in
  branchA_guard flag names = (2 <=? List.length names)%nat
  /\ findRelevantContext this question history = selectBranch this flag query names.
Proof.
  intros query names. split; [apply branchA_guard_length|].
  unfold findRelevantContext, selectBranch. fold query. fold names.
  now rewrite !branchA_guard_length.
Qed.

(** ** Branch A *)

Lemma collectContexts_spec (this : AISearchEngine) (query : string) (v : list float)
    (names : list (string * PersonRecord)) (contexts : list Context) :
  getEmbedding this query = Returned v ->
  collectContexts this query names contexts
  = Returned (contexts ++ map (context_of this v) (contributing this v names)).
Proof.
  intros Hv. revert contexts.
  induction names as [|[id record] rest IH]; intros contexts; simpl.
  - now rewrite app_nil_r.
  - rewrite Hv. simpl. unfold contributing. simpl.
    unfold yields_results at 1. unfold restricted_ranking at 1. simpl fst.
    destruct (0 <? List.length (findSimilarContent this v (Some (documentName id))))%nat eqn:E.
    + rewrite (mapM_total _ content_of)
        by (intros x Hx; eapply toContentItem_from_source, restricted_from_source, Hx).
      simpl. rewrite IH. rewrite <- app_assoc. reflexivity.
    + apply IH.
Qed.

Lemma branchA_spec (this : AISearchEngine) (query : string) (v : list float)
    (names : list (string * PersonRecord)) :
  getEmbedding this query = Returned v ->
  branchA this query names
  = Returned (Some (join block_separator
                      (map formatContext (map (context_of this v) (contributing this v names))))).
Proof.
  intros Hv. unfold branchA. now rewrite (collectContexts_spec this query v).
Qed.

(** The statement of C1 as it stands fails: two people are matched,
    only the first has chunks, and the result is the Branch A block of
    that one document, which is not what Branch B gives for it. *)
Lemma branchA_single_block_counterexample :
  let question := "compare Jean Carlomusto and Vito Russo" in
  let query := contextualQuery question [] in
  let names := findAllNamesInQuestion one_sided_engine query in
  names = [("1", jean); ("2", vito)]
  /\ contributing one_sided_engine [1; 0]%float names = [("1", jean)]
  /\ findRelevantContext one_sided_engine question []
     = Returned (Some (formatContext (context_of one_sided_engine [1; 0]%float ("1", jean))))
  /\ findRelevantContext one_sided_engine question []
     <> branchB one_sided_engine query names.
Proof.
  repeat split; try reflexivity. vm_compute. discriminate.
Qed.

(** C1 (amended). In Branch A (entered when at least 2 entity matches
    exist), when at least one matched document yields restricted
    ranking results, [findRelevantContext] returns the per-document
    context blocks of the matched documents that yield results, in match
    order, joined by the separator: one block is enough, and control
    does not fall through to Branch B or C. *)
Theorem branchA_returns_contributing_blocks (this : AISearchEngine) (question : string)
    (history : list ConversationTurn) (v : list float) :
  let query := contextualQuery question history in
  let names := findAllNamesInQuestion this query in
  (2 <= List.length names)%nat ->
  getEmbedding this query = Returned v ->
  contributing this v names <> [] ->
  findRelevantContext this question history
  = Returned (Some (join block_separator
                      (map formatContext
                         (map (context_of this v) (contributing this v names))))).
Proof.
  intros query names Hlen Hv _.
  unfold findRelevantContext, selectBranch. fold query. fold names.
  rewrite branchA_guard_length.
  apply Nat.leb_le in Hlen. rewrite Hlen.
  now apply branchA_spec.
Qed.

Lemma branchA_returns_contributing_blocks_witness :
  let question := "compare Jean Carlomusto and Vito Russo" in
  findRelevantContext one_sided_engine question []
  = Returned (Some (formatContext (context_of one_sided_engine [1; 0]%float ("1", jean)))).
Proof.
  apply (branchA_returns_contributing_blocks one_sided_engine
           "compare Jean Carlomusto and Vito Russo" [] [1; 0]%float).
  - vm_compute. lia.
  - reflexivity.
  - vm_compute. discriminate.
Defined.

(** The comparative question of the specification's examples: Branch A,
    one block per person. *)
Example comparative_question_gives_two_blocks :
  findRelevantContext sample_engine
    "compare the activism of Jean Carlomusto and Vito Russo" []
  = Returned (Some (join block_separator
                      [formatContext (context_of sample_engine [1; 0]%float ("1", jean));
                       formatContext (context_of sample_engine [1; 0]%float ("2", vito))])).
Proof. reflexivity. Qed.

(** ** Corpus loading *)


Lemma forEach_metadata_set_arrays (records : list PersonRecord) (i : nat)
    (this : AISearchEngine) :
  let loaded :=
    forEach_from
      (fun this' record index =>
         metadata_set this' (Z_toString (Z.of_nat index + 1)) record)
      i this records in
  embeddings loaded = embeddings this
  /\ texts loaded = texts this
  /\ chunkMetadata loaded = chunkMetadata this.
Proof.
  revert i this. induction records as [|record rest IH]; intros i this; simpl.
  - auto.
  - destruct (IH (S i) (metadata_set this (Z_toString (Z.of_nat i + 1)) record))
      as (H1 & H2 & H3).
    now rewrite H1, H2, H3.
Qed.

(** *** The shape [initialize] asks for *)




Lemma properties_read (data : JSON) :
  data <> JNull ->
  (embeddings <- property data "embeddings" ;;
   texts <- property data "texts" ;;
   metadata <- property data "metadata" ;;
   Returned (embeddings, texts, metadata))
  = Returned (member data "embeddings", member data "texts", member data "metadata").
Proof. destruct data; intros H; try reflexivity. now elim H. Qed.

(** [initialize] once the artifact is read and parsed. *)
Lemma initialize_parsed (env : Environment) (this : AISearchEngine) (raw : string)
    (data : JSON) :
  readFileSync env "embeddings.json" = Returned raw ->
  JSON_parse env raw = Returned data ->
  data <> JNull ->
  let this1 :=
    assign_artifact this
      (held_arrays (member data "embeddings") (member data "texts")
         (member data "metadata")) in
  initialize env this
  = match logTexts (member data "texts") with
    | Thrown error => (Thrown error, this1)
    | Returned _ =>
        match (metadataFile <- readFileSync env "metadata.csv" ;;
               csv_parse env metadataFile) with
        | Thrown error => (Thrown error, this1)
        | Returned records =>
            let this2 :=
              forEach_from
                (fun this' record index =>
                   metadata_set this' (Z_toString (Z.of_nat index + 1)) record)
                0 this1 records in
            match readLength (member data "embeddings") with
            | Thrown error => (Thrown error, this2)
            | Returned _ => (Returned tt, this2)
            end
        end
    end.
Proof.
  intros Hr Hp Hn. unfold initialize. rewrite Hr. unfold bind at 1. rewrite Hp.
  now rewrite (properties_read data Hn).
Qed.


(** *** An artifact with its three arrays *)

Lemma mapO_as_string (items : list JSON) (strings : list string) :
  mapO as_string items = Some strings -> forallb is_string items = true.
Proof.
  revert strings. induction items as [|item items IH]; intros strings; simpl; [reflexivity|].
  destruct item; simpl; try discriminate.
  destruct (mapO as_string items) as [rest|]; [|discriminate].
  intros _. now apply (IH rest).
Qed.

Lemma forallb_firstn {A : Type} (p : A -> bool) (n : nat) (l : list A) :
  forallb p l = true -> forallb p (firstn n l) = true.
Proof.
  rewrite !forallb_forall. intros H x Hx. apply H. now apply (slice_to_In n l).
Qed.

Lemma artifact_of_spec (data : JSON) (artifact : Artifact) :
  artifact_of data = Some artifact ->
  data <> JNull
  /\ held_arrays (member data "embeddings") (member data "texts") (member data "metadata")
     = artifact
  /\ logTexts (member data "texts") = Returned tt
  /\ readLength (member data "embeddings") = Returned tt.
Proof.
  unfold artifact_of. destruct data as [| | | | |members]; try discriminate.
  cbn [member]. unfold held_arrays, held.
  destruct (getOwn members "embeddings") as [e|]; [|discriminate].
  destruct (getOwn members "texts") as [t|]; cbn [option_map];
    [|destruct (as_array (as_array as_number) e); discriminate].
  destruct (getOwn members "metadata") as [m|]; cbn [option_map];
    [|destruct (as_array (as_array as_number) e), (as_array as_string t); discriminate].
  destruct (as_array (as_array as_number) e) as [vectors|] eqn:Ee; [|discriminate].
  destruct (as_array as_string t) as [strings|] eqn:Et; [|discriminate].
  destruct (as_array as_chunkMetadata m) as [entries|] eqn:Em; [|discriminate].
  intros H. injection H as <-. split; [discriminate|]. split; [reflexivity|]. split.
  - destruct t; try discriminate. simpl in Et. unfold logTexts, slice_to.
    now rewrite (forallb_firstn _ _ _ (mapO_as_string _ _ Et)).
  - destruct e; try discriminate. reflexivity.
Qed.

(** [initialize] on an artifact with its three arrays: only the table
    can make it throw. *)
Lemma initialize_artifact (env : Environment) (this : AISearchEngine) (data : Artifact) :
  load_artifact env = Returned data ->
  initialize env this
  = match (metadataFile <- readFileSync env "metadata.csv" ;; csv_parse env metadataFile) with
    | Thrown error => (Thrown error, assign_artifact this data)
    | Returned records =>
        (Returned tt,
         forEach_from
           (fun this' record index =>
              metadata_set this' (Z_toString (Z.of_nat index + 1)) record)
           0 (assign_artifact this data) records)
    end.
Proof.
  unfold load_artifact.
  destruct (readFileSync env "embeddings.json") as [raw|] eqn:Hr; [|discriminate].
  unfold bind at 1.
  destruct (JSON_parse env raw) as [doc|] eqn:Hp; [|discriminate].
  unfold bind at 1.
  destruct (artifact_of doc) as [artifact|] eqn:Ha; [|discriminate].
  intros H. injection H as ->.
  destruct (artifact_of_spec doc data Ha) as (Hn & Hh & Ht & Hl).
  rewrite (initialize_parsed env this raw doc Hr Hp Hn). cbv zeta.
  now rewrite Ht, Hl, Hh.
Qed.

Lemma initialize_arrays (env : Environment) (this : AISearchEngine) (data : Artifact) :
  load_artifact env = Returned data ->
  embeddings (snd (initialize env this)) = data_embeddings data
  /\ texts (snd (initialize env this)) = data_texts data
  /\ chunkMetadata (snd (initialize env this)) = data_metadata data.
Proof.
  intros H. rewrite (initialize_artifact env this data H).
  destruct (metadataFile <- readFileSync env "metadata.csv" ;; csv_parse env metadataFile)
    as [records|error]; cbn [snd].
  - apply (forEach_metadata_set_arrays records 0 (assign_artifact this data)).
  - now repeat split.
Qed.



(** The artifact [{}] is read and parsed, and [initialize] throws a
    [TypeError] at [this.texts.slice]. *)
Example empty_object_fails :
  fst (initialize empty_object_environment (constructor (constant_provider [])))
  = Thrown TypeError.
Proof. reflexivity. Qed.

(** The artifact [{"texts": []}] passes the texts and the table, and
    [initialize] throws at [this.embeddings.length], the registry
    filled. *)
Example missing_embeddings_fail_last :
  let loaded := initialize texts_only_environment (constructor (constant_provider [])) in
  fst loaded = Thrown TypeError
  /\ map fst (metadata (snd loaded)) = ["1"; "2"].
Proof. split; reflexivity. Qed.

(** When the table cannot be read the call throws, and the arrays of
    the artifact are already in the engine. *)
Example unreadable_table_leaves_arrays :
  let loaded := initialize no_table_environment (constructor (constant_provider [])) in
  fst loaded = Thrown IOError
  /\ embeddings (snd loaded) = data_embeddings ragged_artifact
  /\ metadata (snd loaded) = [].
Proof. vm_compute. repeat split; reflexivity. Qed.

(** The keys of the registry: the row numbers from 1, as strings. *)
Example registry_keys :
  map fst (metadata (snd (initialize ragged_environment (constructor (constant_provider [])))))
  = ["1"; "2"].
Proof. vm_compute. reflexivity. Qed.

(** ** Own properties of an object *)

Lemma getOwn_None {V : Type} (o : JSObject V) (key : string) :
  getOwn o key = None -> ~ In key (map fst o).
Proof.
  induction o as [|[k v] rest IH]; simpl; [auto|].
  destruct (String.eqb_spec k key) as [->|Hne]; [discriminate|].
  intros H [E|Hin]; [contradiction | now apply IH].
Qed.

Lemma getOwn_Some {V : Type} (o : JSObject V) (key : string) (v : V) :
  getOwn o key = Some v -> In (key, v) o.
Proof.
  induction o as [|[k v0] rest IH]; simpl; [discriminate|].
  destruct (String.eqb_spec k key) as [->|Hne].
  - intros H. injection H as ->. now left.
  - intros H. right. now apply IH.
Qed.

Lemma setOwn_absent {V : Type} (o : JSObject V) (key : string) (v : V) :
  getOwn o key = None -> setOwn o key v = o ++ [(key, v)].
Proof.
  induction o as [|[k v0] rest IH]; simpl; [reflexivity|].
  destruct (String.eqb_spec k key) as [->|Hne]; [discriminate|].
  intros H. now rewrite IH.
Qed.

Lemma setOwn_present_keys {V : Type} (o : JSObject V) (key : string) (v v' : V) :
  getOwn o key = Some v -> map fst (setOwn o key v') = map fst o.
Proof.
  induction o as [|[k v0] rest IH]; simpl; [discriminate|].
  destruct (String.eqb_spec k key) as [->|Hne]; [reflexivity|].
  intros H. simpl. now rewrite IH.
Qed.

Lemma setOwn_present_In {V : Type} (o : JSObject V) (key : string) (v' : V)
    (entry : string * V) :
  NoDup (map fst o) ->
  In entry (setOwn o key v') ->
  entry = (key, v') \/ (In entry o /\ fst entry <> key).
Proof.
  induction o as [|[k v0] rest IH]; simpl; intros Hnd.
  - intros [H|[]]. now left.
  - inversion Hnd as [|? ? Hk Hrest]; subst.
    destruct (String.eqb_spec k key) as [->|Hne]; simpl.
    + intros [H|H]; [now left|].
      right. split; [now right|].
      intros E. apply Hk. rewrite <- E. now apply in_map.
    + intros [H|H].
      * right. subst entry. split; [now left | exact Hne].
      * destruct (IH Hrest H) as [E|[Hin Hfst]];
          [now left | right; split; [now right | exact Hfst]].
Qed.

(** ** Positions in a list *)

Lemma filter_none {A : Type} (p : A -> bool) (l : list A) :
  (forall x, In x l -> p x = false) -> filter p l = [].
Proof.
  induction l as [|x l IH]; intros H; simpl; [reflexivity|].
  rewrite (H x) by now left. apply IH. intros y Hy. apply H. now right.
Qed.

Lemma before_in_cons {A : Type} (x : A) (l : list A) (a b : A) :
  before_in (x :: l) a b <-> (a = x /\ In b l) \/ before_in l a b.
Proof.
  unfold before_in. split.
  - intros (l1 & l2 & E & Hb). destruct l1 as [|y l1]; simpl in E.
    + injection E as <- <-. now left.
    + injection E as <- ->. right. now exists l1, l2.
  - intros [[-> Hb] | (l1 & l2 & -> & Hb)].
    + now exists [], l.
    + now exists (x :: l1), l2.
Qed.

Lemma before_in_snoc {A : Type} (l : list A) (c a b : A) :
  before_in (l ++ [c]) a b -> before_in l a b \/ (In a l /\ b = c).
Proof.
  intros (l1 & l2 & E & Hb).
  destruct (exists_last (l := l2)) as (l2' & d & ->); [now destruct l2|].
  change (l1 ++ a :: l2' ++ [d]) with (l1 ++ (a :: l2') ++ [d]) in E.
  rewrite app_assoc in E. apply app_inj_tail in E as [-> ->].
  apply in_app_or in Hb as [Hb|[->|[]]].
  - left. now exists l1, l2'.
  - right. split; [|reflexivity]. apply in_or_app. right. now left.
Qed.

Lemma before_in_filter_keys {V : Type} (p : string * V -> bool) (g : JSObject V)
    (a b : string) :
  before_in (map fst (filter p g)) a b -> before_in (map fst g) a b.
Proof.
  induction g as [|e g IH]; simpl; [auto|].
  destruct (p e); simpl; rewrite !before_in_cons.
  - intros [[-> Hb]|H].
    + left. split; [reflexivity|].
      apply in_map_iff in Hb as (x & <- & Hx). apply filter_In in Hx as [Hx _].
      now apply in_map.
    + right. now apply IH.
  - intros H. right. now apply IH.
Qed.

Lemma before_in_map {A B : Type} (f : A -> B) (l : list A) (a b : A) :
  before_in l a b -> before_in (map f l) (f a) (f b).
Proof.
  intros (l1 & l2 & -> & Hb). exists (map f l1), (map f l2).
  rewrite map_app. simpl. split; [reflexivity | now apply in_map].
Qed.

(** ** The groups *)

Lemma group_of_app (seen more : list Scored) (s : string) :
  group_of (seen ++ more) s = group_of seen s ++ group_of more s.
Proof. apply filter_app. Qed.

Lemma encountered_before_app (seen more : list Scored) (a b : string) :
  encountered_before seen a b -> encountered_before (seen ++ more) a b.
Proof.
  intros (before & item & rest & -> & Ha & Hb).
  exists before, item, (rest ++ more). rewrite <- app_assoc. now split.
Qed.

Lemma group_of_occurrence (seen : list Scored) (s : string) :
  group_of seen s <> [] ->
  exists before item rest, seen = before ++ item :: rest /\ from_source s item = true.
Proof.
  intros H. destruct (group_of seen s) as [|item grp] eqn:E; [contradiction|].
  assert (In item (group_of seen s)) as Hin by (rewrite E; now left).
  apply filter_In in Hin as [Hin Hs].
  apply in_split in Hin as (before & rest & ->). now exists before, item, rest.
Qed.

Lemma from_source_unique (a b : string) (item : Scored) :
  from_source a item = true -> from_source b item = true -> a = b.
Proof.
  intros Ha Hb.
  apply from_source_metadata in Ha as (m & Hm & <-).
  apply from_source_metadata in Hb as (m' & Hm' & <-). congruence.
Qed.

Lemma from_source_own (item : Scored) (m : ChunkMetadata) :
  item_metadata item = Some m -> from_source (source m) item = true.
Proof. unfold from_source. intros ->. apply String.eqb_refl. Qed.

Lemma grouped_absent (seen : list Scored) (g : JSObject (list Scored)) (s : string) :
  grouped seen g -> ~ In s (map fst g) -> forall x, In x seen -> from_source s x = false.
Proof.
  intros G Hs x Hx. destruct (from_source s x) eqn:E; [|reflexivity].
  destruct (grouped_sources _ _ G x Hx) as (m & Hm & Hin).
  apply from_source_metadata in E as (m' & Hm' & <-). congruence.
Qed.

Lemma grouped_start : grouped [] [].
Proof.
  constructor; simpl.
  - constructor.
  - intros k grp [].
  - intros item [].
  - intros k1 k2 (l1 & l2 & E & _). destruct l1; discriminate.
Qed.

Lemma group_step_grouped (seen : list Scored) (g g' : JSObject (list Scored))
    (item : Scored) :
  grouped seen g -> group_step g item = Returned g' -> grouped (seen ++ [item]) g'.
Proof.
  intros G. unfold group_step, source_of.
  destruct (item_metadata item) as [m|] eqn:Hm; simpl; [|discriminate].
  pose proof (from_source_own item m Hm) as Hown.
  destruct (getOwn g (source m)) as [grp|] eqn:Hget.
  - (* the source has its property: push *)
    intros H. injection H as <-.
    pose proof (getOwn_Some _ _ _ Hget) as Hin.
    constructor.
    + rewrite (setOwn_present_keys _ _ grp) by exact Hget. apply (grouped_nodup _ _ G).
    + intros k grp' Hk.
      apply setOwn_present_In in Hk as [E|[Hk Hne]]; [| |apply (grouped_nodup _ _ G)].
      * injection E as -> ->. rewrite group_of_app. simpl. rewrite Hown.
        destruct (grouped_groups _ _ G _ _ Hin) as [-> _].
        split; [reflexivity|]. now destruct (group_of seen (source m)).
      * simpl in Hne. rewrite group_of_app. simpl.
        destruct (from_source k item) eqn:E.
        -- elim Hne. now apply (from_source_unique _ _ item).
        -- rewrite app_nil_r. apply (grouped_groups _ _ G _ _ Hk).
    + intros x Hx. rewrite (setOwn_present_keys _ _ grp) by exact Hget.
      apply in_app_or in Hx as [Hx|[<-|[]]].
      * apply (grouped_sources _ _ G x Hx).
      * exists m. split; [exact Hm|]. change (source m) with (fst (source m, grp)).
        now apply in_map.
    + intros k1 k2. rewrite (setOwn_present_keys _ _ grp) by exact Hget.
      intros H. apply encountered_before_app, (grouped_order _ _ G), H.
  - (* a new source: create the property, unless the name is inherited *)
    destruct (inherited (source m)); [discriminate|].
    intros H. injection H as <-.
    pose proof (getOwn_None _ _ Hget) as Hnew.
    pose proof (grouped_absent _ _ _ G Hnew) as Hnone.
    rewrite setOwn_absent by exact Hget.
    constructor.
    + rewrite map_app. simpl.
      apply Permutation_NoDup with (l := source m :: map fst g).
      * rewrite Permutation_app_comm. reflexivity.
      * constructor; [exact Hnew | apply (grouped_nodup _ _ G)].
    + intros k grp' Hk. rewrite group_of_app. simpl.
      apply in_app_or in Hk as [Hk|[E|[]]].
      * assert (k <> source m) as Hne
          by (intros ->; apply Hnew; change (source m) with (fst (source m, grp'));
              now apply in_map).
        destruct (from_source k item) eqn:E.
        -- elim Hne. now apply (from_source_unique _ _ item).
        -- rewrite app_nil_r. apply (grouped_groups _ _ G _ _ Hk).
      * injection E as <- <-. rewrite Hown.
        assert (group_of seen (source m) = []) as ->.
        { unfold group_of. apply filter_none. exact Hnone. }
        split; [reflexivity | discriminate].
    + intros x Hx. rewrite map_app. simpl.
      apply in_app_or in Hx as [Hx|[<-|[]]].
      * destruct (grouped_sources _ _ G x Hx) as (m' & Hm' & Hin).
        exists m'. split; [exact Hm'|]. apply in_or_app. now left.
      * exists m. split; [exact Hm|]. apply in_or_app. right. now left.
    + intros k1 k2. rewrite map_app. simpl. intros H.
      apply before_in_snoc in H as [H|[Hk1 ->]].
      * apply encountered_before_app, (grouped_order _ _ G), H.
      * apply in_map_iff in Hk1 as ([k grp] & <- & Hk). simpl.
        destruct (grouped_groups _ _ G _ _ Hk) as [-> Hne].
        apply group_of_occurrence in Hne as (before & it & rest & -> & Hit).
        exists before, it, (rest ++ [item]). rewrite <- app_assoc. simpl.
        split; [reflexivity|]. split; [exact Hit|].
        intros x Hx. apply Hnone. apply in_or_app. now left.
Qed.

Lemma groupBySource_grouped (rest seen : list Scored) (g g' : JSObject (list Scored)) :
  grouped seen g -> groupBySource g rest = Returned g' -> grouped (seen ++ rest) g'.
Proof.
  revert seen g. induction rest as [|item rest IH]; intros seen g G; simpl.
  - intros H. injection H as <-. now rewrite app_nil_r.
  - destruct (group_step g item) as [g1|e] eqn:E; simpl; [|discriminate].
    intros H. change (item :: rest) with ([item] ++ rest). rewrite app_assoc.
    apply (IH _ g1); [|exact H]. now apply (group_step_grouped seen g).
Qed.

(** ** The largest group *)

(** The first element of a sorted array, for a [comparefn] that orders
    by a measure, largest first: it has the largest measure, and it is
    the first of the array with that measure. *)
Lemma js_sort_head {A : Type} (after : A -> A -> bool) (measure : A -> Z) :
  (forall a b, after a b = (measure a <? measure b)%Z) ->
  forall arr best rest,
    js_sort after arr = best :: rest ->
    exists l1 l2,
      arr = l1 ++ best :: l2
      /\ (forall y, In y l1 -> (measure y < measure best)%Z)
      /\ (forall y, In y l2 -> (measure y <= measure best)%Z).
Proof.
  intros Hafter. induction arr as [|a arr IH]; intros best rest; simpl; [discriminate|].
  destruct (js_sort after arr) as [|x sorted] eqn:E; simpl.
  - intros H. injection H as <- <-.
    assert (arr = []) as -> by
      (apply length_zero_iff_nil; rewrite <- (js_sort_length after arr), E; reflexivity).
    exists [], []. repeat split; intros y [].
  - destruct (IH x sorted eq_refl) as (l1 & l2 & -> & H1 & H2).
    rewrite Hafter. destruct (Z.ltb_spec (measure a) (measure x)) as [Hlt|Hge].
    + intros H. injection H as <- <-.
      exists (a :: l1), l2. repeat split; [|exact H2].
      intros y [<-|Hy]; [exact Hlt | now apply H1].
    + intros H. injection H as <- <-.
      exists [], (l1 ++ x :: l2). repeat split; [intros y []|].
      intros y Hy. apply in_app_or in Hy as [Hy|[<-|Hy]].
      * specialize (H1 y Hy). lia.
      * exact Hge.
      * specialize (H2 y Hy). lia.
Qed.

Lemma size_after_measure (a b : string * list Scored) :
  size_after a b
  = (Z.of_nat (List.length (snd a)) <? Z.of_nat (List.length (snd b)))%Z.
Proof.
  unfold size_after.
  destruct (Z.ltb_spec 0 (Z.of_nat (List.length (snd b)) - Z.of_nat (List.length (snd a))));
    destruct (Z.ltb_spec (Z.of_nat (List.length (snd a))) (Z.of_nat (List.length (snd b))));
    try reflexivity; lia.
Qed.

(** ** The document number of a source *)

Lemma digits_value_all_digits (s : string) (acc n : N) :
  digits_value acc s = Some n -> all_digits s = true.
Proof.
  revert acc. induction s as [|c s IH]; intros acc; simpl; [reflexivity|].
  destruct (is_digit c); [|discriminate]. intros H. simpl. now apply (IH _ H).
Qed.

Lemma isArrayIndex_all_digits (key : string) :
  isArrayIndex key = true -> all_digits key = true.
Proof.
  unfold isArrayIndex, arrayIndex. destruct key as [|c rest]; [discriminate|].
  destruct (digits_value 0 (String c rest)) as [n|] eqn:E; [|discriminate].
  intros _. now apply (digits_value_all_digits _ 0%N n).
Qed.

Lemma all_digits_no_match_here (s : string) :
  all_digits s = true -> match_document_here s = None.
Proof.
  unfold match_document_here. intros H.
  destruct (startsWith s "document") eqn:E; [|reflexivity].
  apply startsWith_iff in E as [post ->]. discriminate.
Qed.

Lemma all_digits_no_document (s : string) :
  all_digits s = true -> match_document s = Thrown TypeError.
Proof.
  induction s as [|c s IH]; intros H.
  - reflexivity.
  - simpl. rewrite (all_digits_no_match_here (String c s) H).
    simpl in H. apply andb_true_iff in H as [_ H]. now apply IH.
Qed.

Lemma match_document_not_index (s id : string) :
  match_document s = Returned id -> isArrayIndex s = false.
Proof.
  intros H. destruct (isArrayIndex s) eqn:E; [|reflexivity].
  apply isArrayIndex_all_digits, all_digits_no_document in E. congruence.
Qed.

(** ** [Object.entries] *)

Lemma Object_entries_perm {V : Type} (o : JSObject V) :
  Permutation (Object_entries o) o.
Proof.
  unfold Object_entries. rewrite js_sort_perm.
  induction o as [|e o IH]; simpl; [reflexivity|].
  destruct (isArrayIndex (fst e)); simpl.
  - now constructor.
  - rewrite <- Permutation_middle. now constructor.
Qed.

Lemma Object_entries_In {V : Type} (o : JSObject V) (e : string * V) :
  In e (Object_entries o) <-> In e o.
Proof.
  split; apply Permutation_in; [|symmetry]; apply Object_entries_perm.
Qed.

(** An entry that is not under an array index stands, in
    [Object.entries], after the array indexes and after the other
    entries created before it. *)
Lemma Object_entries_split {V : Type} (o : JSObject V) (l1 l2 : list (string * V))
    (best : string * V) :
  Object_entries o = l1 ++ best :: l2 ->
  isArrayIndex (fst best) = false ->
  exists n1,
    filter (fun kv => negb (isArrayIndex (fst kv))) o = n1 ++ best :: l2
    /\ forall y, In y n1 -> In y l1.
Proof.
  unfold Object_entries. intros E Hbest.
  set (indexed := js_sort index_after (filter (fun kv => isArrayIndex (fst kv)) o)) in *.
  set (others := filter (fun kv => negb (isArrayIndex (fst kv))) o) in *.
  assert (~ In best indexed) as Hnot.
  { intros Hin. unfold indexed in Hin. apply js_sort_In, filter_In in Hin as [_ Hin].
    congruence. }
  symmetry in E. apply app_eq_app in E as (l & [[-> E]|[Hi E]]).
  - exists l. split; [exact E|]. intros y Hy. apply in_or_app. now right.
  - (* [l1] ends inside the array indexes *)
    destruct l as [|x l]; simpl in E.
    + exists []. split; [now rewrite <- E | intros y []].
    + injection E as <- _. elim Hnot. rewrite Hi. apply in_or_app. right. now left.
Qed.

(** ** Branch C *)

Lemma grouped_has_group (seen : list Scored) (g : JSObject (list Scored)) (s : string) :
  grouped seen g -> group_of seen s <> [] -> In (s, group_of seen s) g.
Proof.
  intros G H. apply group_of_occurrence in H as (before & item & rest & E & Hs).
  assert (In item seen) as Hin by (rewrite E; apply in_or_app; right; now left).
  destruct (grouped_sources _ _ G item Hin) as (m & Hm & Hk).
  apply from_source_metadata in Hs as (m' & Hm' & <-).
  assert (m' = m) as -> by congruence.
  apply in_map_iff in Hk as ([k grp] & Hfst & Hk). simpl in Hfst. subst k.
  now destruct (grouped_groups _ _ G _ _ Hk) as [<- _].
Qed.

Lemma formatChunk_from_source (id : string) (record : PersonRecord) (s : string)
    (item : Scored) :
  from_source s item = true ->
  formatChunk id record item = Returned (chunk_under id record item).
Proof.
  intros H. apply from_source_metadata in H as (m & Hm & _).
  unfold formatChunk, chunk_under, page_of, page_or_undefined. now rewrite Hm.
Qed.

Lemma largest_entry_is_first_largest_group (ranked : list Scored)
    (g : JSObject (list Scored)) (w id : string) (grp : list Scored)
    (rest : list (string * list Scored)) :
  grouped ranked g ->
  js_sort size_after (Object_entries g) = (w, grp) :: rest ->
  match_document w = Returned id ->
  grp = group_of ranked w /\ first_largest_group ranked w.
Proof.
  intros G Hsort Hdoc.
  destruct (js_sort_head size_after (fun e => Z.of_nat (List.length (snd e)))
              size_after_measure _ _ _ Hsort) as (l1 & l2 & E & Hl1 & Hl2).
  simpl in Hl1, Hl2.
  assert (In (w, grp) g) as Hbest
    by (apply Object_entries_In; rewrite E; apply in_or_app; right; now left).
  destruct (grouped_groups _ _ G _ _ Hbest) as [-> Hne].
  split; [reflexivity|].
  assert (forall s, group_of ranked s <> [] ->
            In (s, group_of ranked s) l1 \/ s = w \/ In (s, group_of ranked s) l2) as Hwhere.
  { intros s Hs. pose proof (grouped_has_group _ _ s G Hs) as Hin.
    apply Object_entries_In in Hin. rewrite E in Hin.
    apply in_app_or in Hin as [Hin|[Hin|Hin]]; [now left | | now right; right].
    injection Hin as ->. right. now left. }
  split; [exact Hne|]. split.
  - intros s. destruct (group_of ranked s) as [|x grp_s] eqn:Es; [simpl; lia|].
    destruct (Hwhere s) as [H|[->|H]]; [rewrite Es; discriminate | | | ].
    + apply Hl1 in H. simpl in H. rewrite Es in H. lia.
    + rewrite Es. lia.
    + apply Hl2 in H. simpl in H. rewrite Es in H. lia.
  - intros s Hsw Hlen.
    assert (group_of ranked s <> []) as Hs.
    { intros Hnil. rewrite Hnil in Hlen. simpl in Hlen.
      symmetry in Hlen. apply length_zero_iff_nil in Hlen. contradiction. }
    destruct (Hwhere s Hs) as [H|[->|H]]; [| contradiction |].
    + apply Hl1 in H. simpl in H. lia.
    + apply (grouped_order _ _ G).
      apply (before_in_filter_keys (fun kv => negb (isArrayIndex (fst kv)))).
      destruct (Object_entries_split g l1 l2 (w, group_of ranked w) E) as (n1 & En1 & _).
      * simpl. now apply (match_document_not_index w id).
      * rewrite En1.
        apply (before_in_map fst _ (w, group_of ranked w) (s, group_of ranked s)).
        now exists n1, l2.
Qed.

Lemma branchC_returned (this : AISearchEngine) (query : string) (v : list float)
    (context : string) :
  getEmbedding this query = Returned v ->
  branchC this query = Returned (Some context) ->
  exists w documentId record,
    first_largest_group (findSimilarContent this v None) w
    /\ match_document w = Returned documentId
    /\ getOwn (metadata this) documentId = Some record
    /\ context
       = join (nl ++ nl)
           (map (chunk_under documentId record)
              (group_of (findSimilarContent this v None) w)).
Proof.
  intros Hv. unfold branchC. rewrite Hv. simpl.
  set (ranked := findSimilarContent this v None).
  destruct (groupBySource [] ranked) as [g|e] eqn:Eg; simpl; [|discriminate].
  pose proof (groupBySource_grouped ranked [] [] g grouped_start Eg) as G. simpl in G.
  destruct (js_sort size_after (Object_entries g)) as [|[w grp] rest] eqn:Es; [discriminate|].
  simpl fst. simpl snd.
  destruct (match_document w) as [documentId|e] eqn:Em; simpl; [|discriminate].
  unfold metadata_get.
  destruct (getOwn (metadata this) documentId) as [record|] eqn:Er; simpl; [|discriminate].
  destruct (largest_entry_is_first_largest_group ranked g w documentId grp rest G Es Em)
    as [-> Hfirst].
  rewrite (mapM_total _ (chunk_under documentId record)).
  - simpl. intros H. injection H as <-. now exists w, documentId, record.
  - intros x Hx. apply filter_In in Hx as [_ Hx].
    now apply (formatChunk_from_source _ _ w).
Qed.

Lemma fallback_reaches_branchC (this : AISearchEngine) (question : string)
    (history : list ConversationTurn) (v : list float) :
  let query := contextualQuery question history in
  let names := findAllNamesInQuestion this query in
  getEmbedding this query = Returned v ->
  no_usable_match this v names ->
  findRelevantContext this question history = branchC this query.
Proof.
  intros query names Hv Hno.
  unfold findRelevantContext, selectBranch. fold query. fold names.
  rewrite branchA_guard_length.
  destruct names as [|[id record] [|second more]]; simpl in *.
  - reflexivity.
  - rewrite Hv. simpl. unfold yields_results, restricted_ranking in Hno. simpl in Hno.
    now rewrite Hno.
  - contradiction.
Qed.

(** C7. In the corpus-wide fallback branch (no usable entity match) the
    top-ranked chunks are grouped by source document, the group with the
    most members is selected, the first-encountered one in ranked order
    on a tie, and the context returned holds the chunks of that group
    and no other, each under the header of that one document. *)
Theorem fallback_returns_largest_group (this : AISearchEngine) (question : string)
    (history : list ConversationTurn) (v : list float) (context : string) :
  let query := contextualQuery question history in
  let names := findAllNamesInQuestion this query in
  let ranked := findSimilarContent this v None in
  getEmbedding this query = Returned v ->
  no_usable_match this v names ->
  findRelevantContext this question history = Returned (Some context) ->
  exists w documentId record,
    first_largest_group ranked w
    /\ match_document w = Returned documentId
    /\ getOwn (metadata this) documentId = Some record
    /\ context = join (nl ++ nl) (map (chunk_under documentId record) (group_of ranked w)).
Proof.
  intros query names ranked Hv Hno Hret.
  rewrite (fallback_reaches_branchC this question history v Hv Hno) in Hret.
  now apply (branchC_returned this query v).
Qed.

Lemma fallback_returns_largest_group_witness :
  exists w documentId record,
    first_largest_group (findSimilarContent sample_engine [1; 0]%float None) w
    /\ match_document w = Returned documentId
    /\ getOwn (metadata sample_engine) documentId = Some record
    /\ join (nl ++ nl)
         (map (chunk_under "1" jean)
            (group_of (findSimilarContent sample_engine [1; 0]%float None) "document1.pdf"))
       = join (nl ++ nl)
           (map (chunk_under documentId record)
              (group_of (findSimilarContent sample_engine [1; 0]%float None) w)).
Proof.
  apply (fallback_returns_largest_group sample_engine
           "What happened at the demonstration in the winter of 1987 in the city?" []
           [1; 0]%float).
  - reflexivity.
  - exact I.
  - vm_compute. reflexivity.
Defined.

(** The ranking of the sample has two chunks of document 3 ahead of
    three chunks of document 1: the context is made of the three. *)
Example fallback_prefers_the_larger_group :
  map (fun item => (text item, page_or_undefined item))
      (findSimilarContent sample_engine [1; 0]%float None)
  = [(Some "three a", None); (Some "three b", None);
     (Some "one a", None); (Some "one b", None); (Some "one c", None)]
  /\ findRelevantContext sample_engine
       "What happened at the demonstration in the winter of 1987 in the city?" []
     = Returned (Some (join (nl ++ nl)
                         (map (chunk_under "1" jean)
                            (group_of (findSimilarContent sample_engine [1; 0]%float None)
                               "document1.pdf")))).
Proof. split; vm_compute; reflexivity. Qed.

(** ** The empty result *)

Lemma join_nonempty (sep first : string) (rest : list string) :
  first <> EmptyString -> join sep (first :: rest) <> EmptyString.
Proof.
  intros H. destruct first as [|c first]; [contradiction|].
  destruct rest; simpl; discriminate.
Qed.

Lemma chunk_under_nonempty (id : string) (record : PersonRecord) (item : Scored) :
  chunk_under id record item <> EmptyString.
Proof. unfold chunk_under, header. simpl. discriminate. Qed.

Lemma branchC_not_empty_string (this : AISearchEngine) (query : string) :
  branchC this query <> Returned (Some EmptyString).
Proof.
  intros H. destruct (getEmbedding this query) as [v|e] eqn:Hv.
  - destruct (branchC_returned this query v _ Hv H)
      as (w & documentId & record & (Hne & _) & _ & _ & Hjoin).
    destruct (group_of (findSimilarContent this v None) w) as [|x grp]; [contradiction|].
    change (map (chunk_under documentId record) (x :: grp))
      with (chunk_under documentId record x :: map (chunk_under documentId record) grp)
      in Hjoin.
    symmetry in Hjoin. revert Hjoin.
    apply join_nonempty, chunk_under_nonempty.
  - unfold branchC in H. rewrite Hv in H. discriminate.
Qed.

Lemma branchB_not_empty_string (this : AISearchEngine) (query : string)
    (names : list (string * PersonRecord)) :
  branchB this query names <> Returned (Some EmptyString).
Proof.
  destruct names as [|[id record] rest]; simpl; [apply branchC_not_empty_string|].
  destruct (getEmbedding this query) as [v|e]; simpl; [|discriminate].
  destruct (findSimilarContent this v (Some (documentName id))) as [|x ranked] eqn:E;
    [apply branchC_not_empty_string|].
  change (0 <? List.length (x :: ranked))%nat with true. cbv iota.
  assert (forall y, In y (x :: ranked) -> from_source (documentName id) y = true) as Hsrc
    by (intros y Hy; apply (restricted_from_source this v); now rewrite E).
  rewrite (mapM_total _ (chunk_under id record))
    by (intros y Hy; apply (formatChunk_from_source _ _ (documentName id)), Hsrc, Hy).
  unfold bind.
  change (map (chunk_under id record) (x :: ranked))
    with (chunk_under id record x :: map (chunk_under id record) ranked).
  intros H.
  apply (join_nonempty (nl ++ nl) (chunk_under id record x)
           (map (chunk_under id record) ranked) (chunk_under_nonempty id record x)).
  change (nl ++ nl)%string with (String (ascii_of_nat 10) nl). congruence.
Qed.

(** Branches B and C guard their result: the empty string can only come
    out of Branch A. *)
Lemma empty_string_comes_from_branchA (this : AISearchEngine) (question : string)
    (history : list ConversationTurn) :
  findRelevantContext this question history = Returned (Some EmptyString) ->
  (2 <= List.length (findAllNamesInQuestion this (contextualQuery question history)))%nat.
Proof.
  unfold findRelevantContext, selectBranch. rewrite branchA_guard_length.
  destruct (Nat.leb_spec 2
              (List.length (findAllNamesInQuestion this (contextualQuery question history))))
    as [H|H]; [intros _; exact H|].
  intros Hret. now apply branchB_not_empty_string in Hret.
Qed.

(** C2 (what the program does at the failing input). Two people are
    matched and the corpus has no chunk of either: no branch produces a
    chunk, and [findRelevantContext] returns the empty string, not the
    [null] it returns at the end of Branch C. *)
Theorem empty_corpus_returns_empty_string :
  findAllNamesInQuestion empty_corpus_engine
    (contextualQuery "compare Jean Carlomusto and Vito Russo" [])
  = [("1", jean); ("2", vito)]
  /\ contributing empty_corpus_engine [1; 0]%float [("1", jean); ("2", vito)] = []
  /\ findSimilarContent empty_corpus_engine [1; 0]%float None = []
  /\ findRelevantContext empty_corpus_engine "compare Jean Carlomusto and Vito Russo" []
     = Returned (Some EmptyString).
Proof. repeat split; reflexivity. Qed.

(** With nobody matched the same corpus gives the marker. *)
Example empty_corpus_without_names_returns_null :
  findRelevantContext empty_corpus_engine "What happened in 1987?" [] = Returned None.
Proof. reflexivity. Qed.

(** ** Binary64 arithmetic *)

Lemma SFcompare_refl (x : spec_float) :
  x <> S754_nan -> SFcompare x x = Some Eq.
Proof.
  destruct x as [s|s| |s m e]; simpl; intros H; try reflexivity.
  - now destruct s.
  - contradiction.
  - destruct s; rewrite Z.compare_refl, Pos.compare_cont_refl; reflexivity.
Qed.

Lemma is_nan_spec (x : float) : is_nan x = true <-> Prim2SF x = S754_nan.
Proof.
  unfold is_nan. rewrite eqb_spec. unfold SFeqb. split.
  - intros H. destruct (Prim2SF x) as [s|s| |s m e] eqn:E; try reflexivity;
      rewrite SFcompare_refl in H by discriminate; discriminate.
  - intros ->. reflexivity.
Qed.

Lemma is_zero_spec (x : float) : is_zero x = true <-> exists s, Prim2SF x = S754_zero s.
Proof.
  unfold is_zero. rewrite eqb_spec. unfold SFeqb.
  change (Prim2SF zero) with (S754_zero false). split.
  - destruct (Prim2SF x) as [s|s| |s m e]; simpl; try discriminate.
    + intros _. now exists s.
    + destruct s; discriminate.
    + destruct s; discriminate.
  - intros [s ->]. reflexivity.
Qed.

Lemma zero_or_nan_iff (x : float) :
  zero_or_nan x = true <-> zero_or_nan_spec (Prim2SF x) = true.
Proof.
  unfold zero_or_nan. rewrite orb_true_iff, is_zero_spec, is_nan_spec. split.
  - intros [[s ->] | ->]; reflexivity.
  - destruct (Prim2SF x) as [s|s| |s m e]; simpl; try discriminate.
    + intros _. left. now exists s.
    + intros _. now right.
Qed.

Lemma float_mul_comm (x y : float) : (x * y = y * x)%float.
Proof.
  apply Prim2SF_inj. rewrite !mul_spec. unfold SF64mul, SFmul.
  destruct (Prim2SF x) as [sx|sx| |sx mx ex], (Prim2SF y) as [sy|sy| |sy my ey];
    try reflexivity; try (now rewrite xorb_comm).
  now rewrite xorb_comm, Pos.mul_comm, Z.add_comm.
Qed.

Lemma mul_zero_or_nan_l (x y : float) :
  zero_or_nan x = true -> zero_or_nan (x * y) = true.
Proof.
  rewrite !zero_or_nan_iff, mul_spec. unfold SF64mul, SFmul.
  destruct (Prim2SF x) as [sx|sx| |sx mx ex]; try discriminate; intros _;
    destruct (Prim2SF y) as [sy|sy| |sy my ey]; reflexivity.
Qed.

Lemma mul_zero_or_nan_r (x y : float) :
  zero_or_nan y = true -> zero_or_nan (x * y) = true.
Proof. rewrite float_mul_comm. apply mul_zero_or_nan_l. Qed.

Lemma add_zero_or_nan (x y : float) :
  zero_or_nan x = true -> zero_or_nan y = true -> zero_or_nan (x + y) = true.
Proof.
  rewrite !zero_or_nan_iff, add_spec. unfold SF64add, SFadd.
  destruct (Prim2SF x) as [sx|sx| |sx mx ex]; try discriminate; intros _;
    destruct (Prim2SF y) as [sy|sy| |sy my ey]; try discriminate; intros _;
    try reflexivity.
  now destruct sx, sy.
Qed.

Lemma sqrt_zero_or_nan (x : float) :
  zero_or_nan x = true -> zero_or_nan (PrimFloat.sqrt x) = true.
Proof.
  rewrite !zero_or_nan_iff, sqrt_spec. unfold SF64sqrt, SFsqrt.
  destruct (Prim2SF x) as [sx|sx| |sx mx ex]; try discriminate; reflexivity.
Qed.

Lemma div_zero_or_nan (x y : float) :
  zero_or_nan x = true -> zero_or_nan y = true -> is_nan (x / y) = true.
Proof.
  rewrite !zero_or_nan_iff, is_nan_spec, div_spec. unfold SF64div, SFdiv.
  destruct (Prim2SF x) as [sx|sx| |sx mx ex]; try discriminate; intros _;
    destruct (Prim2SF y) as [sy|sy| |sy my ey]; try discriminate; reflexivity.
Qed.

Lemma zero_is_zero_or_nan (x : float) : is_zero x = true -> zero_or_nan x = true.
Proof. unfold zero_or_nan. now intros ->. Qed.

Lemma nan_is_zero_or_nan : zero_or_nan nan = true.
Proof. reflexivity. Qed.

(** ** The sums of [cosineSimilarity] *)

Section Sums.

Variable num : Type.
Variables zero undef : num.
Variables add mul : num -> num -> num.

(** With as many components in [vecB] as in [vecA], the [reduce] of
    the dot product pairs the components. *)
Lemma dot_reduce_pairs (seen vecA vecB : list num) (acc : num) :
  List.length vecA = List.length vecB ->
  reduce_from (fun sum a i => add sum (mul a (nth i (seen ++ vecB) undef)))
    (List.length seen) acc vecA
  = fold_left (fun sum ab => add sum (mul (fst ab) (snd ab))) (combine vecA vecB) acc.
Proof.
  revert seen vecB acc. induction vecA as [|a vecA IH]; intros seen vecB acc Hlen.
  - reflexivity.
  - destruct vecB as [|b vecB]; [discriminate|]. simpl.
    rewrite nth_middle.
    replace (seen ++ b :: vecB) with ((seen ++ [b]) ++ vecB)
      by (rewrite <- app_assoc; reflexivity).
    replace (S (List.length seen)) with (List.length (seen ++ [b]))
      by (rewrite length_app; simpl; lia).
    apply IH. simpl in Hlen. lia.
Qed.

Lemma dotProduct_pairs (vecA vecB : list num) :
  List.length vecA = List.length vecB ->
  dotProduct_in num zero undef add mul vecA vecB
  = fold_left (fun sum ab => add sum (mul (fst ab) (snd ab))) (combine vecA vecB) zero.
Proof. intros H. apply (dot_reduce_pairs [] vecA vecB zero H). Qed.

Lemma fold_pairs_swap (vecA vecB : list num) (acc : num) :
  (forall x y, mul x y = mul y x) ->
  fold_left (fun sum ab => add sum (mul (fst ab) (snd ab))) (combine vecA vecB) acc
  = fold_left (fun sum ab => add sum (mul (fst ab) (snd ab))) (combine vecB vecA) acc.
Proof.
  intros Hcomm. revert vecB acc.
  induction vecA as [|a vecA IH]; intros [|b vecB] acc; simpl; try reflexivity.
  rewrite (Hcomm a b). apply IH.
Qed.

Lemma squares_reduce (vec : list num) (i : nat) (acc : num) :
  reduce_from (fun sum a (_ : nat) => add sum (mul a a)) i acc vec
  = fold_left (fun sum a => add sum (mul a a)) vec acc.
Proof.
  revert i acc. induction vec as [|a vec IH]; intros i acc; simpl; [reflexivity|].
  apply IH.
Qed.

Lemma fold_pairs_diagonal (vec : list num) (acc : num) :
  fold_left (fun sum ab => add sum (mul (fst ab) (snd ab))) (combine vec vec) acc
  = fold_left (fun sum a => add sum (mul a a)) vec acc.
Proof.
  revert acc. induction vec as [|a vec IH]; intros acc; simpl; [reflexivity|].
  apply IH.
Qed.

End Sums.

(** ** Symmetry *)

Lemma dotProduct_comm (vecA vecB : list float) :
  List.length vecA = List.length vecB -> dotProduct vecA vecB = dotProduct vecB vecA.
Proof.
  intros H. unfold dotProduct.
  rewrite (dotProduct_pairs _ _ _ _ _ vecA vecB H).
  rewrite (dotProduct_pairs _ _ _ _ _ vecB vecA (eq_sym H)).
  apply fold_pairs_swap, float_mul_comm.
Qed.

Lemma cosineSimilarity_comm (vecA vecB : list float) :
  List.length vecA = List.length vecB ->
  cosineSimilarity vecA vecB = cosineSimilarity vecB vecA.
Proof.
  intros H. unfold cosineSimilarity, cosineSimilarity_in.
  fold dotProduct. fold norm.
  change (dotProduct_in float 0%float nan PrimFloat.add PrimFloat.mul) with dotProduct.
  change (norm_in float 0%float PrimFloat.add PrimFloat.mul PrimFloat.sqrt) with norm.
  now rewrite (dotProduct_comm vecA vecB H), (float_mul_comm (norm vecA) (norm vecB)).
Qed.

(** ** Exact arithmetic *)

Lemma sum_squaresR_ge (vec : list R) (acc : R) : (acc <= sum_squaresR acc vec)%R.
Proof.
  unfold sum_squaresR. revert acc. induction vec as [|a vec IH]; intros acc; simpl.
  - lra.
  - specialize (IH (acc + a * a)%R). pose proof (Rle_0_sqr a) as Ha.
    unfold Rsqr in Ha. lra.
Qed.

Lemma sum_squaresR_pos (vec : list R) (acc : R) :
  nonzero_vectorR vec -> (acc < sum_squaresR acc vec)%R.
Proof.
  unfold nonzero_vectorR. intros H. revert acc.
  induction H as [a vec Ha | a vec _ IH]; intros acc; unfold sum_squaresR; simpl.
  - pose proof (sum_squaresR_ge vec (acc + a * a)) as Hge. unfold sum_squaresR in Hge.
    assert (0 < a * a)%R by (apply Rsqr_pos_lt in Ha; exact Ha). lra.
  - specialize (IH (acc + a * a)%R). unfold sum_squaresR in IH.
    pose proof (Rle_0_sqr a) as Ha. unfold Rsqr in Ha. lra.
Qed.

Lemma sum_squaresR_zero (vec : list R) :
  ~ nonzero_vectorR vec -> sum_squaresR 0 vec = 0%R.
Proof.
  unfold nonzero_vectorR, sum_squaresR. induction vec as [|a vec IH]; intros H; simpl.
  - reflexivity.
  - destruct (Req_dec a 0) as [->|Ha].
    + replace (0 + 0 * 0)%R with 0%R by lra. apply IH. intros Hex. apply H. now right.
    + elim H. now left.
Qed.

Lemma normR_squares (vec : list R) :
  norm_in R 0%R Rplus Rmult R_sqrt.sqrt vec = R_sqrt.sqrt (sum_squaresR 0 vec).
Proof. unfold norm_in, reduce, sum_squaresR. now rewrite squares_reduce. Qed.

Lemma normR_pos (vec : list R) :
  nonzero_vectorR vec -> (0 < norm_in R 0%R Rplus Rmult R_sqrt.sqrt vec)%R.
Proof.
  intros H. rewrite normR_squares. apply sqrt_lt_R0. now apply sum_squaresR_pos.
Qed.

Lemma denominatorR_nonzero_iff (vecA vecB : list R) :
  denominatorR vecA vecB <> 0%R <-> nonzero_vectorR vecA /\ nonzero_vectorR vecB.
Proof.
  unfold denominatorR, denominator_in. split.
  - intros H. split.
    + destruct (Classical_Prop.classic (nonzero_vectorR vecA)) as [Hn|Hn]; [exact Hn|].
      elim H. rewrite (normR_squares vecA), (sum_squaresR_zero vecA Hn), sqrt_0. lra.
    + destruct (Classical_Prop.classic (nonzero_vectorR vecB)) as [Hn|Hn]; [exact Hn|].
      elim H. rewrite (normR_squares vecB), (sum_squaresR_zero vecB Hn), sqrt_0. lra.
  - intros [Ha Hb]. apply normR_pos in Ha. apply normR_pos in Hb.
    apply Rmult_integral_contrapositive. split; lra.
Qed.

Lemma cosineSimilarityR_self (vec : list R) :
  nonzero_vectorR vec -> cosineSimilarityR vec vec = 1%R.
Proof.
  intros H. unfold cosineSimilarityR, cosineSimilarity_in.
  rewrite (dotProduct_pairs _ _ _ _ _ vec vec eq_refl), fold_pairs_diagonal.
  rewrite normR_squares. fold (sum_squaresR 0 vec).
  pose proof (sum_squaresR_pos vec 0 H) as Hpos.
  rewrite sqrt_sqrt by lra. field. lra.
Qed.

(** ** Zero vectors in binary64 *)

Lemma zero_vector_zero_or_nan (vec : list float) :
  zero_vector vec -> Forall (fun c => zero_or_nan c = true) vec.
Proof.
  unfold zero_vector. apply Forall_impl. intros c. apply zero_is_zero_or_nan.
Qed.

Lemma squares_zero_or_nan (vec : list float) (i : nat) (acc : float) :
  Forall (fun c => zero_or_nan c = true) vec ->
  zero_or_nan acc = true ->
  zero_or_nan (reduce_from (fun sum a (_ : nat) => (sum + a * a)%float) i acc vec) = true.
Proof.
  intros H. revert i acc. induction H as [|a vec Ha _ IH]; intros i acc Hacc; simpl.
  - exact Hacc.
  - apply IH. apply add_zero_or_nan; [exact Hacc | now apply mul_zero_or_nan_l].
Qed.

Lemma norm_zero_or_nan (vec : list float) :
  zero_vector vec -> zero_or_nan (norm vec) = true.
Proof.
  intros H. unfold norm, norm_in, reduce. apply sqrt_zero_or_nan.
  apply squares_zero_or_nan; [now apply zero_vector_zero_or_nan | reflexivity].
Qed.

Lemma dot_zero_or_nan (vecA vecB : list float) (i : nat) (acc : float) :
  (forall a j, In a vecA -> zero_or_nan (a * nth j vecB nan) = true) ->
  zero_or_nan acc = true ->
  zero_or_nan
    (reduce_from (fun sum a j => (sum + a * nth j vecB nan)%float) i acc vecA) = true.
Proof.
  revert i acc. induction vecA as [|a vecA IH]; intros i acc H Hacc; simpl.
  - exact Hacc.
  - apply IH.
    + intros a' j Ha'. apply H. now right.
    + apply add_zero_or_nan; [exact Hacc | apply H; now left].
Qed.

Lemma dotProduct_zero_or_nan (vecA vecB : list float) :
  zero_vector vecA \/ zero_vector vecB -> zero_or_nan (dotProduct vecA vecB) = true.
Proof.
  intros H. unfold dotProduct, dotProduct_in, reduce.
  apply dot_zero_or_nan; [|reflexivity].
  intros a j Ha. destruct H as [H|H].
  - apply mul_zero_or_nan_l.
    apply zero_vector_zero_or_nan in H. rewrite Forall_forall in H. now apply H.
  - apply mul_zero_or_nan_r.
    apply zero_vector_zero_or_nan in H. rewrite Forall_forall in H.
    destruct (nth_in_or_default j vecB nan) as [Hin| ->];
      [now apply H | apply nan_is_zero_or_nan].
Qed.

Lemma denominator_zero_or_nan (vecA vecB : list float) :
  zero_vector vecA \/ zero_vector vecB -> zero_or_nan (denominator vecA vecB) = true.
Proof.
  unfold denominator, denominator_in. fold norm.
  change (norm_in float 0%float PrimFloat.add PrimFloat.mul PrimFloat.sqrt) with norm.
  intros [H|H].
  - now apply mul_zero_or_nan_l, norm_zero_or_nan.
  - now apply mul_zero_or_nan_r, norm_zero_or_nan.
Qed.

Lemma cosineSimilarity_quotient (vecA vecB : list float) :
  cosineSimilarity vecA vecB = (dotProduct vecA vecB / denominator vecA vecB)%float.
Proof. reflexivity. Qed.

(** ** The order of a binary floating-point format *)

(** The specification of the format ([SpecFloat]) compares two finite
    values by sign, exponent and mantissa, and subtracts them by
    aligning the mantissas and rounding.  This section shows that both
    agree with the order of the integer keys. *)
Section SpecOrder.

Variables prec emax : Z.
Hypothesis Hprec : (1 < prec)%Z.
Hypothesis Hemax : (prec < emax)%Z.

Local Open Scope Z_scope.


Lemma digits2_pos_bounds (m : positive) :
  2 ^ (Zpos (digits2_pos m) - 1) <= Zpos m < 2 ^ Zpos (digits2_pos m).
Proof.
  induction m as [m IH|m IH|]; simpl digits2_pos.
  - rewrite Pos2Z.inj_succ, (Pos2Z.inj_xI m).
    replace (Z.succ (Zpos (digits2_pos m)) - 1) with (Zpos (digits2_pos m)) by lia.
    rewrite Z.pow_succ_r by lia.
    assert (2 ^ Zpos (digits2_pos m) = 2 * 2 ^ (Zpos (digits2_pos m) - 1)) as E
      by (rewrite <- Z.pow_succ_r by lia; f_equal; lia).
    lia.
  - rewrite Pos2Z.inj_succ, (Pos2Z.inj_xO m).
    replace (Z.succ (Zpos (digits2_pos m)) - 1) with (Zpos (digits2_pos m)) by lia.
    rewrite Z.pow_succ_r by lia.
    assert (2 ^ Zpos (digits2_pos m) = 2 * 2 ^ (Zpos (digits2_pos m) - 1)) as E
      by (rewrite <- Z.pow_succ_r by lia; f_equal; lia).
    lia.
  - simpl. lia.
Qed.

Lemma bounded_spec (m : positive) (e : Z) :
  SpecFloat.bounded prec emax m e = true ->
  SpecFloat.emin prec emax <= e <= emax - prec
  /\ Zpos m < 2 ^ prec
  /\ (SpecFloat.emin prec emax < e -> 2 ^ (prec - 1) <= Zpos m).
Proof.
  unfold SpecFloat.bounded, SpecFloat.canonical_mantissa, SpecFloat.fexp. intros H.
  apply andb_true_iff in H as [Hc He].
  apply Z.eqb_eq in Hc. apply Z.leb_le in He.
  pose proof (digits2_pos_bounds m) as [Hlo Hhi].
  set (d := Zpos (digits2_pos m)) in *.
  assert (0 < d) by (unfold d; lia).
  split; [lia|]. split.
  - assert (d <= prec) by lia.
    pose proof (Z.pow_le_mono_r 2 d prec ltac:(lia) ltac:(lia)). lia.
  - intros Hgt. assert (d = prec) as <- by lia. exact Hlo.
Qed.

Lemma pow2_pos (k : Z) : 0 <= k -> 0 < 2 ^ k.
Proof. intros H. apply Z.pow_pos_nonneg; lia. Qed.

Lemma finite_below_infinity (m : positive) (e : Z) :
  SpecFloat.bounded prec emax m e = true ->
  0 < Zpos m * 2 ^ (e - SpecFloat.emin prec emax) < 2 ^ (emax - SpecFloat.emin prec emax).
Proof.
  intros H. apply bounded_spec in H as ([Hlo Hhi] & Hm & _).
  pose proof (pow2_pos (e - SpecFloat.emin prec emax) ltac:(lia)) as Hk.
  split; [lia|].
  assert (2 ^ (emax - SpecFloat.emin prec emax) = 2 ^ (emax - e) * 2 ^ (e - SpecFloat.emin prec emax)) as ->
    by (rewrite <- Z.pow_add_r by lia; f_equal; lia).
  apply Z.mul_lt_mono_pos_r; [exact Hk|].
  pose proof (Z.pow_le_mono_r 2 prec (emax - e) ltac:(lia) ltac:(lia)). lia.
Qed.

Lemma compare_cont_Eq (p q : positive) : Pos.compare_cont Eq p q = (p ?= q)%positive.
Proof. rewrite Pos.compare_cont_spec. now destruct (p ?= q)%positive. Qed.

Lemma scale_lt (a b K P Q : Z) :
  0 < K -> 1 <= P -> 0 < a < 2 * Q -> Q <= b -> a * K < b * (P * (2 * K)).
Proof.
  intros HK HP Ha Hb.
  assert (a * K < 2 * Q * K) by (apply Z.mul_lt_mono_pos_r; lia).
  assert (2 * Q * K <= 2 * b * K) by (apply Z.mul_le_mono_nonneg_r; lia).
  assert (2 * b * K * 1 <= 2 * b * K * P) by (apply Z.mul_le_mono_nonneg_l; lia).
  lia.
Qed.

Lemma finite_compare (m1 m2 : positive) (e1 e2 : Z) :
  SpecFloat.bounded prec emax m1 e1 = true ->
  SpecFloat.bounded prec emax m2 e2 = true ->
  match e1 ?= e2 with
  | Lt => Lt
  | Gt => Gt
  | Eq => Pos.compare_cont Eq m1 m2
  end
  = (Zpos m1 * 2 ^ (e1 - SpecFloat.emin prec emax) ?= Zpos m2 * 2 ^ (e2 - SpecFloat.emin prec emax)).
Proof.
  intros H1 H2.
  apply bounded_spec in H1 as ([Hlo1 Hhi1] & Hm1 & Hn1).
  apply bounded_spec in H2 as ([Hlo2 Hhi2] & Hm2 & Hn2).
  pose proof (pow2_pos (e1 - SpecFloat.emin prec emax) ltac:(lia)) as Hk1.
  pose proof (pow2_pos (e2 - SpecFloat.emin prec emax) ltac:(lia)) as Hk2.
  assert (2 ^ prec = 2 * 2 ^ (prec - 1)) as Hp
    by (rewrite <- Z.pow_succ_r by lia; f_equal; lia).
  destruct (Z.compare_spec e1 e2) as [->|Hlt|Hgt].
  - rewrite compare_cont_Eq.
    rewrite <- (Zmult_compare_compat_r (Zpos m1) (Zpos m2)) by lia. reflexivity.
  - symmetry. apply Z.compare_lt_iff.
    specialize (Hn2 ltac:(lia)).
    assert (2 ^ (e2 - SpecFloat.emin prec emax) = 2 ^ (e2 - e1 - 1) * (2 * 2 ^ (e1 - SpecFloat.emin prec emax))) as ->.
    { rewrite <- Z.pow_succ_r by lia. rewrite <- Z.pow_add_r by lia. f_equal. lia. }
    pose proof (pow2_pos (e2 - e1 - 1) ltac:(lia)).
    apply (scale_lt _ _ _ _ (2 ^ (prec - 1))); lia.
  - symmetry. apply Z.compare_gt_iff.
    specialize (Hn1 ltac:(lia)).
    assert (2 ^ (e1 - SpecFloat.emin prec emax) = 2 ^ (e1 - e2 - 1) * (2 * 2 ^ (e2 - SpecFloat.emin prec emax))) as ->.
    { rewrite <- Z.pow_succ_r by lia. rewrite <- Z.pow_add_r by lia. f_equal. lia. }
    pose proof (pow2_pos (e1 - e2 - 1) ltac:(lia)).
    apply (scale_lt _ _ _ _ (2 ^ (prec - 1))); lia.
Qed.

Lemma SFcompare_key (x y : spec_float) :
  SpecFloat.valid_binary prec emax x = true ->
  SpecFloat.valid_binary prec emax y = true ->
  x <> S754_nan -> y <> S754_nan ->
  SFcompare x y = Some (keyZ prec emax x ?= keyZ prec emax y).
Proof.
  intros Vx Vy Nx Ny.
  destruct x as [sx|sx| |sx mx ex]; [| |contradiction|];
    (destruct y as [sy|sy| |sy my ey]; [| |contradiction|]); simpl in Vx, Vy.
  all: try pose proof (finite_below_infinity _ _ Vx) as Bx.
  all: try pose proof (finite_below_infinity _ _ Vy) as By'.
  all: assert (0 < 2 ^ (emax - SpecFloat.emin prec emax)) as Hinf
         by (apply pow2_pos; unfold SpecFloat.emin; lia).
  all: unfold SFcompare, keyZ, cond_Zopp.
  all: try (destruct sx); try (destruct sy); f_equal; symmetry.
  all: try reflexivity.
  all: try (apply Z.compare_lt_iff; lia).
  all: try (apply Z.compare_gt_iff; lia).
  all: try (apply Z.compare_eq_iff; lia).
  - rewrite Z.compare_opp.
    rewrite <- (finite_compare my mx ey ex Vy Vx).
    rewrite (Z.compare_antisym ex ey).
    destruct (ex ?= ey); simpl; try reflexivity.
    rewrite !compare_cont_Eq. apply Pos.compare_antisym.
  - now rewrite <- finite_compare.
Qed.

(** Rounding keeps the sign of a non-zero mantissa *)

Lemma shr_1_m (mrs : shr_record) : 0 <= shr_m mrs -> shr_m (shr_1 mrs) = shr_m mrs / 2.
Proof.
  destruct mrs as [m r s]. simpl. intros H. rewrite <- Z.div2_div.
  destruct m as [|[p|p|]|p]; try reflexivity. lia.
Qed.

Lemma iter_shr_1_m (p : positive) (mrs : shr_record) :
  0 <= shr_m mrs -> shr_m (SpecFloat.iter_pos shr_1 p mrs) = shr_m mrs / 2 ^ Zpos p.
Proof.
  revert mrs. induction p as [p IH|p IH|]; intros mrs H; simpl SpecFloat.iter_pos.
  - assert (0 <= shr_m (shr_1 mrs)) as H1
      by (rewrite shr_1_m by exact H; apply Z.div_pos; lia).
    assert (0 <= shr_m (SpecFloat.iter_pos shr_1 p (shr_1 mrs))) as H2
      by (rewrite IH by exact H1; apply Z.div_pos; [lia | apply pow2_pos; lia]).
    rewrite IH by exact H2. rewrite IH by exact H1. rewrite shr_1_m by exact H.
    pose proof (pow2_pos (Zpos p) ltac:(lia)) as Hp.
    rewrite !Z.div_div by lia. f_equal.
    rewrite (Pos2Z.inj_xI p).
    replace (2 * Zpos p + 1) with (1 + Zpos p + Zpos p) by lia.
    rewrite !Z.pow_add_r by lia. rewrite Z.pow_1_r. ring.
  - assert (0 <= shr_m (SpecFloat.iter_pos shr_1 p mrs)) as H2
      by (rewrite IH by exact H; apply Z.div_pos; [lia | apply pow2_pos; lia]).
    rewrite IH by exact H2. rewrite IH by exact H.
    pose proof (pow2_pos (Zpos p) ltac:(lia)) as Hp.
    rewrite Z.div_div by lia. f_equal.
    rewrite (Pos2Z.inj_xO p).
    replace (2 * Zpos p) with (Zpos p + Zpos p) by lia.
    rewrite Z.pow_add_r by lia. reflexivity.
  - rewrite shr_1_m by exact H. reflexivity.
Qed.

Lemma shr_record_of_loc_m (m : Z) (l : location) : shr_m (shr_record_of_loc m l) = m.
Proof. destruct l as [|[]]; reflexivity. Qed.

Lemma shr_fexp_pos (m : positive) (e : Z) (l : location) :
  SpecFloat.emin prec emax <= e ->
  0 < shr_m (fst (shr_fexp prec emax (Zpos m) e l))
  /\ SpecFloat.emin prec emax <= snd (shr_fexp prec emax (Zpos m) e l).
Proof.
  intros He. unfold shr_fexp, shr, SpecFloat.fexp, Zdigits2.
  pose proof (digits2_pos_bounds m) as [Hlo _].
  set (d := Zpos (digits2_pos m)) in *.
  destruct (Z.max (d + e - prec) (SpecFloat.emin prec emax) - e) as [|n|n] eqn:En;
    simpl fst; simpl snd.
  - rewrite shr_record_of_loc_m. lia.
  - assert (Zpos n = d - prec) as Hn by lia.
    rewrite iter_shr_1_m by (rewrite shr_record_of_loc_m; lia).
    rewrite shr_record_of_loc_m. split; [|lia].
    apply Z.div_str_pos. split; [apply pow2_pos; lia|].
    rewrite Hn.
    pose proof (Z.pow_le_mono_r 2 (d - prec) (d - 1) ltac:(lia) ltac:(lia)). lia.
  - rewrite shr_record_of_loc_m. lia.
Qed.

Lemma round_nearest_even_ge (mx : Z) (lx : location) : mx <= round_nearest_even mx lx.
Proof.
  unfold round_nearest_even. destruct lx as [|[]]; try lia.
  destruct (Z.even mx); lia.
Qed.

Lemma binary_round_aux_sign (s : bool) (m : positive) (e : Z) (l : location) :
  SpecFloat.emin prec emax <= e ->
  binary_round_aux prec emax s (Zpos m) e l = S754_infinity s
  \/ exists m' e', binary_round_aux prec emax s (Zpos m) e l = S754_finite s m' e'.
Proof.
  intros He. unfold binary_round_aux.
  pose proof (shr_fexp_pos m e l He) as [H1 H1e].
  destruct (shr_fexp prec emax (Zpos m) e l) as [mrs' e']. simpl in H1, H1e.
  pose proof (round_nearest_even_ge (shr_m mrs') (loc_of_shr_record mrs')) as Hr.
  destruct (round_nearest_even (shr_m mrs') (loc_of_shr_record mrs')) as [|q|q]; try lia.
  pose proof (shr_fexp_pos q e' loc_Exact H1e) as [H2 _].
  destruct (shr_fexp prec emax (Zpos q) e' loc_Exact) as [mrs'' e'']. simpl in H2.
  destruct (shr_m mrs'') as [|m''|m'']; try lia.
  destruct (e'' <=? emax - prec); [right; now exists m'', e'' | now left].
Qed.

Lemma shl_align_value (m : positive) (e ez : Z) :
  ez <= e -> Zpos (fst (shl_align m e ez)) = Zpos m * 2 ^ (e - ez).
Proof.
  intros H. unfold shl_align. destruct (ez - e) as [|d|d] eqn:E; simpl fst.
  - replace (e - ez) with 0 by lia. simpl. lia.
  - lia.
  - replace (e - ez) with (Zpos d) by lia.
    change (Pos.iter xO m d) with (shift_pos d m).
    rewrite shift_pos_correct. change (Z.pow_pos 2 d) with (2 ^ Zpos d). lia.
Qed.

Lemma shl_align_exponent (m : positive) (e ez : Z) :
  snd (shl_align m e ez) = Z.min e ez.
Proof.
  unfold shl_align. destruct (ez - e) as [|d|d] eqn:E; simpl snd; lia.
Qed.

Lemma binary_round_sign (s : bool) (m : positive) (e : Z) :
  SpecFloat.emin prec emax <= e ->
  binary_round prec emax s m e = S754_infinity s
  \/ exists m' e', binary_round prec emax s m e = S754_finite s m' e'.
Proof.
  intros He. unfold binary_round.
  pose proof (shl_align_exponent m e (SpecFloat.fexp prec emax (Zpos (digits2_pos m) + e)))
    as Hexp.
  destruct (shl_align m e (SpecFloat.fexp prec emax (Zpos (digits2_pos m) + e)))
    as [mz ez]. simpl in Hexp.
  apply binary_round_aux_sign. unfold SpecFloat.fexp in Hexp. lia.
Qed.

Lemma binary_normalize_positive (D e : Z) :
  SpecFloat.emin prec emax <= e ->
  positive_spec (binary_normalize prec emax D e false) = (0 <? D).
Proof.
  intros He. destruct D as [|p|p]; simpl.
  - reflexivity.
  - destruct (binary_round_sign false p e He) as [->|(m' & e' & ->)]; reflexivity.
  - destruct (binary_round_sign true p e He) as [->|(m' & e' & ->)]; reflexivity.
Qed.

Lemma cond_Zopp_mul (s : bool) (a k : Z) : cond_Zopp s a * k = cond_Zopp s (a * k).
Proof. destruct s; simpl; lia. Qed.

Lemma SFsub_positive (x y : spec_float) :
  SpecFloat.valid_binary prec emax x = true ->
  SpecFloat.valid_binary prec emax y = true ->
  x <> S754_nan -> y <> S754_nan ->
  positive_spec (SFsub prec emax y x) = (keyZ prec emax x <? keyZ prec emax y).
Proof.
  intros Vx Vy Nx Ny.
  assert (0 < 2 ^ (emax - SpecFloat.emin prec emax)) as Hinf
    by (apply pow2_pos; unfold SpecFloat.emin; lia).
  destruct x as [sx|sx| |sx mx ex]; [| |contradiction|];
    (destruct y as [sy|sy| |sy my ey]; [| |contradiction|]); simpl in Vx, Vy.
  all: try pose proof (finite_below_infinity _ _ Vx) as Bx.
  all: try pose proof (finite_below_infinity _ _ Vy) as By'.
  9: {
    unfold SFsub.
    apply bounded_spec in Vx as ([Hx _] & _). apply bounded_spec in Vy as ([Hy _] & _).
    rewrite binary_normalize_positive by lia.
    rewrite !shl_align_value by lia.
    unfold keyZ.
    pose proof (pow2_pos (Z.min ey ex - SpecFloat.emin prec emax) ltac:(lia)) as Hk.
    assert (forall m e, Z.min ey ex <= e ->
              Zpos m * 2 ^ (e - SpecFloat.emin prec emax)
              = Zpos m * 2 ^ (e - Z.min ey ex)
                * 2 ^ (Z.min ey ex - SpecFloat.emin prec emax)) as Hsplit.
    { intros m e Hle. rewrite <- Z.mul_assoc, <- Z.pow_add_r by lia. do 2 f_equal. lia. }
    rewrite (Hsplit mx ex) by lia. rewrite (Hsplit my ey) by lia.
    rewrite <- !cond_Zopp_mul.
    set (K := 2 ^ (Z.min ey ex - SpecFloat.emin prec emax)) in *.
    set (a := cond_Zopp sy (Zpos my * 2 ^ (ey - Z.min ey ex))).
    set (b := cond_Zopp sx (Zpos mx * 2 ^ (ex - Z.min ey ex))).
    destruct (Z.ltb_spec 0 (a - b)), (Z.ltb_spec (b * K) (a * K)); try reflexivity; nia. }
  all: unfold SFsub, keyZ, cond_Zopp, positive_spec.
  all: try (destruct sx); try (destruct sy); symmetry.
  all: try (apply Z.ltb_lt; lia).
  all: try (apply Z.ltb_ge; lia).
Qed.

End SpecOrder.


(** ** The order of binary64 scores *)

Lemma SFltb_zero (x : spec_float) : SFltb (S754_zero false) x = positive_spec x.
Proof. destruct x as [s|s| |s m e]; try reflexivity; now destruct s. Qed.

Lemma not_nan_spec (x : float) : is_nan x = false -> Prim2SF x <> S754_nan.
Proof. intros H E. apply is_nan_spec in E. congruence. Qed.

Lemma binary64_precision : (1 < FloatOps.prec)%Z /\ (FloatOps.prec < FloatOps.emax)%Z.
Proof. split; reflexivity. Qed.

(** The sign test of the comparator, [b.score - a.score > 0], is the
    comparison of the two scores. *)
Lemma float_sub_positive (x y : float) :
  is_nan x = false -> is_nan y = false ->
  (0 <? y - x)%float = (keyF x <? keyF y)%Z.
Proof.
  intros Hx Hy. rewrite ltb_spec, sub_spec.
  change (Prim2SF 0%float) with (S754_zero false). rewrite SFltb_zero.
  destruct binary64_precision as [Hp He].
  apply (SFsub_positive FloatOps.prec FloatOps.emax Hp He);
    auto using Prim2SF_valid, not_nan_spec.
Qed.

Lemma float_compare_key (x y : float) :
  is_nan x = false -> is_nan y = false ->
  SFcompare (Prim2SF x) (Prim2SF y) = Some (keyF x ?= keyF y)%Z.
Proof.
  intros Hx Hy. destruct binary64_precision as [Hp He].
  apply (SFcompare_key FloatOps.prec FloatOps.emax Hp He);
    auto using Prim2SF_valid, not_nan_spec.
Qed.

Lemma float_leb_key (x y : float) :
  is_nan x = false -> is_nan y = false ->
  (x <=? y)%float = (keyF x <=? keyF y)%Z.
Proof.
  intros Hx Hy. rewrite leb_spec. unfold SFleb. rewrite float_compare_key by assumption.
  unfold Z.leb. now destruct (keyF x ?= keyF y)%Z.
Qed.

Lemma float_eqb_key (x y : float) :
  is_nan x = false -> is_nan y = false ->
  (x =? y)%float = (keyF x =? keyF y)%Z.
Proof.
  intros Hx Hy. rewrite eqb_spec. unfold SFeqb. rewrite float_compare_key by assumption.
  destruct (Z.compare_spec (keyF x) (keyF y)) as [E|E|E]; symmetry.
  - now apply Z.eqb_eq.
  - apply Z.eqb_neq. lia.
  - apply Z.eqb_neq. lia.
Qed.

Lemma float_eqb_nan_r (x y : float) : is_nan y = true -> (x =? y)%float = false.
Proof.
  intros H. apply is_nan_spec in H. rewrite eqb_spec, H. unfold SFeqb.
  now destruct (Prim2SF x).
Qed.

(** ** Stable sorting by a measure *)

Lemma Forall_perm {A : Type} (P : A -> Prop) (l1 l2 : list A) :
  Permutation l1 l2 -> Forall P l1 -> Forall P l2.
Proof.
  intros Hperm H. rewrite Forall_forall in *. intros x Hx. apply H.
  apply (Permutation_in x (Permutation_sym Hperm) Hx).
Qed.

Section SortByMeasure.

Variable A : Type.
Variable after : A -> A -> bool.
Variable measure : A -> Z.
Variable ordered : A -> Prop.

(** On the [ordered] elements [comparefn] is consistent: it is positive
    exactly when the first measure is the smaller one. *)
Hypothesis after_measure :
  forall a b, ordered a -> ordered b -> after a b = (measure a <? measure b)%Z.

Lemma sort_insert_ordered (x : A) (sorted : list A) :
  ordered x -> Forall ordered sorted -> Forall ordered (sort_insert after x sorted).
Proof.
  intros Hx Hs. apply (Forall_perm _ (x :: sorted)).
  - symmetry. apply sort_insert_perm.
  - now constructor.
Qed.

Lemma js_sort_ordered (arr : list A) :
  Forall ordered arr -> Forall ordered (js_sort after arr).
Proof.
  intros H. apply (Forall_perm _ (arr)); [|exact H].
  symmetry. apply js_sort_perm.
Qed.

Lemma sort_insert_descending (x : A) (sorted : list A) :
  ordered x -> Forall ordered sorted ->
  StronglySorted (fun a b => (measure b <= measure a)%Z) sorted ->
  StronglySorted (fun a b => (measure b <= measure a)%Z) (sort_insert after x sorted).
Proof.
  intros Hx Ho Hs. induction Hs as [|y rest Hrest IH Hy]; simpl.
  - constructor; constructor.
  - inversion Ho as [|? ? Hoy Horest]; subst.
    rewrite after_measure by assumption.
    destruct (Z.ltb_spec (measure x) (measure y)) as [Hlt|Hge].
    + constructor; [now apply IH|].
      apply (Forall_perm _ (x :: rest)).
      * symmetry. apply sort_insert_perm.
      * constructor; [lia | exact Hy].
    + constructor; [now constructor|].
      constructor; [exact Hge|].
      eapply Forall_impl; [|exact Hy]. simpl. intros z Hz. lia.
Qed.

Lemma js_sort_descending (arr : list A) :
  Forall ordered arr ->
  StronglySorted (fun a b => (measure b <= measure a)%Z) (js_sort after arr).
Proof.
  induction arr as [|x arr IH]; intros H; simpl; [constructor|].
  inversion H; subst.
  apply sort_insert_descending; [assumption | now apply js_sort_ordered | now apply IH].
Qed.

Lemma sort_insert_ties (v : Z) (x : A) (sorted : list A) :
  ordered x -> Forall ordered sorted ->
  filter (fun a => (measure a =? v)%Z) (sort_insert after x sorted)
  = filter (fun a => (measure a =? v)%Z) (x :: sorted).
Proof.
  intros Hx Ho. induction Ho as [|y rest Hy _ IH]; [reflexivity|].
  simpl sort_insert. rewrite after_measure by assumption.
  destruct (Z.ltb_spec (measure x) (measure y)) as [Hlt|Hge]; [|reflexivity].
  simpl filter in *. rewrite IH.
  destruct (Z.eqb_spec (measure x) v), (Z.eqb_spec (measure y) v); try reflexivity. lia.
Qed.

Lemma js_sort_ties (v : Z) (arr : list A) :
  Forall ordered arr ->
  filter (fun a => (measure a =? v)%Z) (js_sort after arr)
  = filter (fun a => (measure a =? v)%Z) arr.
Proof.
  induction arr as [|x arr IH]; intros H; [reflexivity|].
  inversion H; subst. simpl js_sort.
  rewrite sort_insert_ties by (try assumption; now apply js_sort_ordered).
  simpl. now rewrite IH.
Qed.

(** A descending list is determined by its ties: two descending lists
    that hold the same elements of every measure, in the same order,
    are equal. *)
Lemma descending_ties_unique (l1 l2 : list A) :
  StronglySorted (fun a b => (measure b <= measure a)%Z) l1 ->
  StronglySorted (fun a b => (measure b <= measure a)%Z) l2 ->
  (forall v, filter (fun a => (measure a =? v)%Z) l1
             = filter (fun a => (measure a =? v)%Z) l2) ->
  l1 = l2.
Proof.
  intros H1. revert l2. induction H1 as [|a l1 Hs1 IH Ha]; intros l2 H2 Hties.
  - destruct l2 as [|b l2]; [reflexivity|].
    specialize (Hties (measure b)). simpl in Hties.
    rewrite Z.eqb_refl in Hties. discriminate.
  - destruct H2 as [|b l2 Hs2 Hb].
    + specialize (Hties (measure a)). simpl in Hties.
      rewrite Z.eqb_refl in Hties. discriminate.
    + assert (measure a = measure b) as Hab.
      { apply Z.le_antisymm.
        - pose proof (Hties (measure a)) as Hv. simpl in Hv.
          rewrite Z.eqb_refl in Hv.
          assert (In a (filter (fun x => (measure x =? measure a)%Z) (b :: l2))) as Hin
            by (simpl; rewrite <- Hv; now left).
          apply filter_In in Hin as [[<-|Hin] _]; [lia|].
          rewrite Forall_forall in Hb. now apply Hb.
        - pose proof (Hties (measure b)) as Hv. simpl in Hv.
          rewrite (Z.eqb_refl (measure b)) in Hv.
          assert (In b (filter (fun x => (measure x =? measure b)%Z) (a :: l1))) as Hin
            by (simpl; rewrite Hv; now left).
          apply filter_In in Hin as [[<-|Hin] _]; [lia|].
          rewrite Forall_forall in Ha. now apply Ha. }
      pose proof (Hties (measure a)) as Hv. simpl in Hv.
      rewrite Z.eqb_refl in Hv. rewrite <- Hab, Z.eqb_refl in Hv.
      injection Hv as <- Hv. f_equal. apply IH; [exact Hs2|].
      intros v. destruct (Z.eq_dec v (measure a)) as [->|Hne]; [exact Hv|].
      specialize (Hties v). simpl in Hties.
      destruct (Z.eqb_spec (measure a) v) as [E|_]; [congruence | exact Hties].
Qed.

(** On ordered elements the array [js_sort] gives is the only one a
    stable sort can give: descending, with the ties in their first
    order. *)
Lemma stable_sort_unique (arr sorted : list A) :
  Forall ordered arr ->
  StronglySorted (fun a b => (measure b <= measure a)%Z) sorted ->
  (forall v, filter (fun a => (measure a =? v)%Z) sorted
             = filter (fun a => (measure a =? v)%Z) arr) ->
  sorted = js_sort after arr.
Proof.
  intros Ho Hs Hties. apply descending_ties_unique.
  - exact Hs.
  - now apply js_sort_descending.
  - intros v. rewrite js_sort_ties by exact Ho. apply Hties.
Qed.

End SortByMeasure.

Lemma StronglySorted_app {A : Type} (R : A -> A -> Prop) (l1 l2 : list A) :
  StronglySorted R (l1 ++ l2) ->
  StronglySorted R l1 /\ forall x y, In x l1 -> In y l2 -> R x y.
Proof.
  induction l1 as [|a l1 IH]; simpl; intros H.
  - split; [constructor | intros x y []].
  - inversion H as [|? ? Hs Hall]; subst. destruct (IH Hs) as [Hs1 Hcross].
    rewrite Forall_app in Hall. destruct Hall as [Hall1 Hall2]. split.
    + now constructor.
    + intros x y [<-|Hx] Hy.
      * rewrite Forall_forall in Hall2. now apply Hall2.
      * now apply Hcross.
Qed.

Lemma StronglySorted_impl {A : Type} (R R' : A -> A -> Prop) (P : A -> Prop) (l : list A) :
  (forall x y, P x -> P y -> R x y -> R' x y) ->
  Forall P l -> StronglySorted R l -> StronglySorted R' l.
Proof.
  intros Himpl HP Hs. induction Hs as [|a l Hs IH Ha]; [constructor|].
  inversion HP as [|? ? Pa Pl]; subst. constructor; [now apply IH|].
  rewrite Forall_forall in *. intros y Hy. apply Himpl; auto.
Qed.

(** ** The ranking *)

Lemma score_after_key (a b : Scored) :
  is_nan (score a) = false -> is_nan (score b) = false ->
  score_after a b = (keyF (score a) <? keyF (score b))%Z.
Proof. intros Ha Hb. unfold score_after. now apply float_sub_positive. Qed.

Lemma tie_key (x y : Scored) :
  is_nan (score x) = false -> is_nan (score y) = false ->
  tie x y = (keyF (score y) =? keyF (score x))%Z.
Proof. intros Hx Hy. unfold tie. now apply float_eqb_key. Qed.

Lemma candidates_In (this : AISearchEngine) (v : list float) (sourceName : option string)
    (item : Scored) :
  In item (candidates this v sourceName) -> In item (similarities this v).
Proof.
  unfold candidates. destruct sourceName as [[|c s]|]; try (intros H; exact H).
  intros H. now apply filter_In in H.
Qed.

Lemma candidates_from_source (this : AISearchEngine) (v : list float)
    (documentName : string) (item : Scored) :
  documentName <> EmptyString ->
  In item (candidates this v (Some documentName)) ->
  from_source documentName item = true.
Proof.
  unfold candidates. destruct documentName as [|c s]; [contradiction|].
  intros _ H. now apply filter_In in H.
Qed.

Lemma sorted_ties (x : Scored) (items : list Scored) :
  scores_are_numbers items ->
  filter (tie x) (js_sort score_after items) = filter (tie x) items.
Proof.
  intros H. destruct (is_nan (score x)) eqn:Hx.
  - rewrite !filter_none; [reflexivity | |];
      intros y _; unfold tie; now apply float_eqb_nan_r.
  - rewrite (filter_ext_in (tie x) (fun a => (keyF (score a) =? keyF (score x))%Z)).
    + rewrite (filter_ext_in (tie x) (fun a => (keyF (score a) =? keyF (score x))%Z) items).
      * apply (js_sort_ties Scored score_after (fun a => keyF (score a))
                 (fun a => is_nan (score a) = false));
          [intros a b; apply score_after_key | exact H].
      * intros y Hy. apply tie_key; [exact Hx|].
        unfold scores_are_numbers in H. rewrite Forall_forall in H. now apply H.
    + intros y Hy. apply tie_key; [exact Hx|].
      apply js_sort_In in Hy.
      unfold scores_are_numbers in H. rewrite Forall_forall in H. now apply H.
Qed.

Lemma sorted_descending (items : list Scored) :
  scores_are_numbers items -> StronglySorted score_ge (js_sort score_after items).
Proof.
  intros H.
  apply (StronglySorted_impl
           (fun a b => (keyF (score b) <= keyF (score a))%Z) score_ge
           (fun a => is_nan (score a) = false)).
  - intros x y Hx Hy Hle. unfold score_ge. rewrite float_leb_key by assumption.
    now apply Z.leb_le.
  - apply (Forall_perm _ (items)); [symmetry; apply js_sort_perm | exact H].
  - apply (js_sort_descending Scored score_after (fun a => keyF (score a))
             (fun a => is_nan (score a) = false));
      [intros a b; apply score_after_key | exact H].
Qed.

(** The statement of C6 as it stands fails: with a zero embedding in
    the corpus one score is NaN, and then no order of the candidates is
    descending, the one returned included. *)
Lemma ranking_with_nan_counterexample :
  findSimilarContent nan_engine [1; 0]%float None = [blank_item; video_item]
  /\ is_nan (score blank_item) = true
  /\ (score video_item <=? score blank_item)%float = false
  /\ forall order,
       Permutation (candidates nan_engine [1; 0]%float None) order ->
       ~ StronglySorted score_ge order.
Proof.
  repeat split; try reflexivity.
  intros order Hperm Hsorted.
  change (candidates nan_engine [1; 0]%float None) with [blank_item; video_item] in Hperm.
  apply Permutation_length_2_inv in Hperm as [-> | ->];
    inversion Hsorted as [|? ? _ Hall]; subst;
    inversion Hall as [|? ? Hge _]; subst; discriminate Hge.
Qed.

(** C6 (amended). For every query vector and corpus in which no
    candidate's score is NaN, [findSimilarContent] returns at most 5
    items, drawn only from the chunks whose source equals the given
    document name when one is given (otherwise from all chunks), in
    descending order of cosine similarity; they are the head of the
    candidates so ordered (no item left out scores more than one
    returned), and items with equal scores keep their corpus order.  The
    result is a function of the query vector, the document name and the
    corpus. *)
Theorem ranking_top5_sorted_stable (this : AISearchEngine) (queryEmbedding : list float)
    (sourceName : option string) :
  scores_are_numbers (candidates this queryEmbedding sourceName) ->
  let result := findSimilarContent this queryEmbedding sourceName in
  (List.length result <= 5)%nat
  /\ (forall item, In item result -> In item (similarities this queryEmbedding))
  /\ (forall documentName,
        sourceName = Some documentName -> documentName <> EmptyString ->
        forall item, In item result -> from_source documentName item = true)
  /\ StronglySorted score_ge result
  /\ exists dropped,
       Permutation (result ++ dropped) (candidates this queryEmbedding sourceName)
       /\ (dropped <> [] -> List.length result = 5%nat)
       /\ (forall x y, In x result -> In y dropped -> score_ge x y)
       /\ (forall x,
             filter (tie x) (result ++ dropped)
             = filter (tie x) (candidates this queryEmbedding sourceName)).
Proof.
  intros Hnum result.
  set (items := candidates this queryEmbedding sourceName) in *.
  set (sorted := js_sort score_after items).
  assert (result = firstn 5 sorted) as Hresult by reflexivity.
  assert (result ++ skipn 5 sorted = sorted) as Hall
    by (rewrite Hresult; apply firstn_skipn).
  pose proof (sorted_descending items Hnum) as Hsorted. fold sorted in Hsorted.
  rewrite <- Hall in Hsorted. apply StronglySorted_app in Hsorted as [Hhead Hcross].
  split; [rewrite Hresult; apply firstn_le_length|].
  split; [intros item Hin; apply findSimilarContent_In in Hin;
          now apply candidates_In in Hin|].
  split.
  { intros documentName -> Hne item Hin. apply findSimilarContent_In in Hin.
    now apply (candidates_from_source this queryEmbedding). }
  split; [exact Hhead|].
  exists (skipn 5 sorted). split; [rewrite Hall; apply js_sort_perm|].
  split.
  { intros Hdropped. rewrite Hresult. apply firstn_length_le.
    destruct (Nat.le_gt_cases 5 (List.length sorted)) as [H|H]; [exact H|].
    elim Hdropped. apply skipn_all2. lia. }
  split; [exact Hcross|].
  intros x. rewrite Hall. now apply sorted_ties.
Qed.

Lemma ranking_top5_sorted_stable_witness :
  let result := findSimilarContent sample_engine [1; 0]%float None in
  (List.length result <= 5)%nat
  /\ (forall item, In item result -> In item (similarities sample_engine [1; 0]%float))
  /\ (forall documentName,
        @None string = Some documentName -> documentName <> EmptyString ->
        forall item, In item result -> from_source documentName item = true)
  /\ StronglySorted score_ge result
  /\ exists dropped,
       Permutation (result ++ dropped) (candidates sample_engine [1; 0]%float None)
       /\ (dropped <> [] -> List.length result = 5%nat)
       /\ (forall x y, In x result -> In y dropped -> score_ge x y)
       /\ (forall x,
             filter (tie x) (result ++ dropped)
             = filter (tie x) (candidates sample_engine [1; 0]%float None)).
Proof.
  apply (ranking_top5_sorted_stable sample_engine [1; 0]%float None).
  repeat constructor.
Defined.

(** The ranking of the sample: the two chunks that score 1 in corpus
    order, then the three that tie below, in corpus order, and the chunk
    that scores 0 left out. *)
Example sample_ranking :
  map text (findSimilarContent sample_engine [1; 0]%float None)
  = [Some "three a"; Some "three b"; Some "one a"; Some "one b"; Some "one c"]
  /\ map text (findSimilarContent sample_engine [1; 0]%float (Some "document1.pdf"))
     = [Some "one a"; Some "one b"; Some "one c"].
Proof. split; reflexivity. Qed.

(** An empty document name is no name: [if (sourceName)] is false for
    it, and the ranking is the one of the whole corpus. *)
Example empty_name_is_no_restriction (this : AISearchEngine) (v : list float) :
  findSimilarContent this v (Some EmptyString) = findSimilarContent this v None.
Proof. reflexivity. Qed.

(** ** Rounding: the arithmetic of [cosineSimilarity] in binary64 *)

(** [cosineSimilarity] rounds after every operation.  This part
    specifies the rounding of the format ([SpecFloat]) against the real
    numbers: what [binary_round_aux] returns, when it overflows, how
    far the result is from the exact value; then the product, the
    square root and the quotient of binary64. *)

(** ** Powers of two *)

Lemma bpow_pos (e : Z) : (0 < bpow e)%R.
Proof. apply powerRZ_lt. lra. Qed.

Lemma bpow_add (a b : Z) : bpow (a + b) = (bpow a * bpow b)%R.
Proof. apply powerRZ_add. lra. Qed.

Lemma bpow_IZR (k : Z) : (0 <= k)%Z -> bpow k = IZR (2 ^ k).
Proof.
  intros H. unfold bpow. rewrite <- (Z2Nat.id k H) at 1.
  rewrite <- pow_powerRZ. rewrite pow_IZR. now rewrite Z2Nat.id.
Qed.

Lemma bpow_0 : bpow 0 = 1%R.
Proof. reflexivity. Qed.

Lemma bpow_1 : bpow 1 = 2%R.
Proof. unfold bpow. simpl. lra. Qed.

Lemma bpow_succ (a : Z) : bpow (a + 1) = (2 * bpow a)%R.
Proof. rewrite bpow_add, bpow_1. lra. Qed.

Lemma bpow_pred (a : Z) : bpow (a - 1) = (bpow a / 2)%R.
Proof.
  pose proof (bpow_succ (a - 1)) as H. replace (a - 1 + 1)%Z with a in H by lia. lra.
Qed.

Lemma bpow_opp (a : Z) : bpow (- a) = (/ bpow a)%R.
Proof. apply powerRZ_neg'. Qed.

Lemma bpow_ge_1 (k : Z) : (0 <= k)%Z -> (1 <= bpow k)%R.
Proof.
  intros H. rewrite bpow_IZR by exact H. apply IZR_le.
  pose proof (Z.pow_pos_nonneg 2 k ltac:(lia) H). lia.
Qed.

Lemma bpow_le (a b : Z) : (a <= b)%Z -> (bpow a <= bpow b)%R.
Proof.
  intros H. replace b with (a + (b - a))%Z by lia. rewrite bpow_add.
  pose proof (bpow_pos a). pose proof (bpow_ge_1 (b - a) ltac:(lia)). nra.
Qed.

Lemma bpow_lt (a b : Z) : (a < b)%Z -> (bpow a < bpow b)%R.
Proof.
  intros H. replace b with (a + 1 + (b - a - 1))%Z by lia.
  rewrite bpow_add, bpow_succ.
  pose proof (bpow_pos a). pose proof (bpow_ge_1 (b - a - 1) ltac:(lia)). nra.
Qed.

Lemma bpow_lt_inv (a b : Z) : (bpow a < bpow b)%R -> (a < b)%Z.
Proof.
  intros H. destruct (Z.lt_ge_cases a b) as [L|L]; [exact L|].
  apply bpow_le in L. lra.
Qed.

Lemma bpow_le_inv (a b : Z) : (bpow a <= bpow b)%R -> (a <= b)%Z.
Proof.
  intros H. destruct (Z.le_gt_cases a b) as [L|L]; [exact L|].
  apply bpow_lt in L. lra.
Qed.

(** ** Shifting a mantissa to the right *)

Lemma loc_of_shr_record_of_loc (m : Z) (l : location) :
  loc_of_shr_record (shr_record_of_loc m l) = l.
Proof. destruct l as [|[]]; reflexivity. Qed.

Lemma shr_1_inbetween (mrs : shr_record) (y : R) :
  (0 <= shr_m mrs)%Z ->
  inbetween (shr_m mrs) (loc_of_shr_record mrs) y ->
  inbetween (shr_m (shr_1 mrs)) (loc_of_shr_record (shr_1 mrs)) (y / 2).
Proof.
  destruct mrs as [m r s]. simpl shr_m. intros Hm H.
  destruct m as [|[p|p|]|p]; try lia;
    destruct r, s; simpl in H |- *;
    rewrite ?(Pos2Z.inj_xI p), ?(Pos2Z.inj_xO p) in H;
    rewrite ?plus_IZR, ?mult_IZR in H; lra.
Qed.

Lemma iter_shr_1_inbetween (p : positive) (mrs : shr_record) (y : R) :
  (0 <= shr_m mrs)%Z ->
  inbetween (shr_m mrs) (loc_of_shr_record mrs) y ->
  inbetween (shr_m (SpecFloat.iter_pos shr_1 p mrs))
    (loc_of_shr_record (SpecFloat.iter_pos shr_1 p mrs)) (y * bpow (- Zpos p)).
Proof.
  assert (forall mrs, (0 <= shr_m mrs)%Z -> (0 <= shr_m (shr_1 mrs))%Z) as H1.
  { intros mrs' H. rewrite shr_1_m by exact H. apply Z.div_pos; lia. }
  assert (forall q mrs, (0 <= shr_m mrs)%Z -> (0 <= shr_m (SpecFloat.iter_pos shr_1 q mrs))%Z) as Hq.
  { intros q mrs' H. rewrite iter_shr_1_m by exact H.
    apply Z.div_pos; [lia | apply Z.pow_pos_nonneg; lia]. }
  revert mrs y. induction p as [p IH|p IH|]; intros mrs y Hm H; simpl SpecFloat.iter_pos.
  - replace (y * bpow (- Zpos p~1))%R with (y / 2 * bpow (- Zpos p) * bpow (- Zpos p))%R.
    + apply IH; [now apply Hq, H1|]. apply IH; [now apply H1|]. now apply shr_1_inbetween.
    + rewrite (Pos2Z.inj_xI p).
      replace (- (2 * Zpos p + 1))%Z with (- Zpos p + - Zpos p - 1)%Z by lia.
      rewrite bpow_pred, !bpow_add. lra.
  - replace (y * bpow (- Zpos p~0))%R with (y * bpow (- Zpos p) * bpow (- Zpos p))%R.
    + apply IH; [now apply Hq|]. now apply IH.
    + rewrite (Pos2Z.inj_xO p).
      replace (- (2 * Zpos p))%Z with (- Zpos p + - Zpos p)%Z by lia.
      rewrite !bpow_add. lra.
  - replace (y * bpow (Z.opp 1))%R with (y / 2)%R
      by (change (Z.opp 1) with (0 - 1)%Z; rewrite bpow_pred, bpow_0; lra).
    now apply shr_1_inbetween.
Qed.

(** ** Rounding to nearest, ties to even *)

Lemma rne_cases (m : Z) (l : location) :
  round_nearest_even m l = m \/ round_nearest_even m l = (m + 1)%Z.
Proof. destruct l as [|[]]; simpl; auto. destruct (Z.even m); auto. Qed.

Lemma inbetween_bounds (m : Z) (l : location) (y : R) :
  inbetween m l y -> (IZR m <= y < IZR m + 1)%R.
Proof. destruct l as [|[]]; simpl; lra. Qed.

Lemma rne_le (m : Z) (l : location) (y : R) (k : Z) :
  inbetween m l y -> (y <= IZR k)%R -> (round_nearest_even m l <= k)%Z.
Proof.
  intros H Hk.
  assert (m <= k)%Z as Hm by (apply le_IZR; apply inbetween_bounds in H; lra).
  destruct l as [|[]]; simpl in *; try exact Hm.
  - assert (m < k)%Z by (apply lt_IZR; lra). destruct (Z.even m); lia.
  - assert (m < k)%Z by (apply lt_IZR; lra). lia.
Qed.

Lemma rne_ge (m : Z) (l : location) (y : R) (k : Z) :
  inbetween m l y -> (IZR k <= y)%R -> (k <= round_nearest_even m l)%Z.
Proof.
  intros H Hk.
  assert (k < m + 1)%Z as Hm
    by (apply lt_IZR; rewrite plus_IZR; apply inbetween_bounds in H; lra).
  pose proof (round_nearest_even_ge m l). lia.
Qed.

Lemma rne_lt_half (m : Z) (l : location) (y : R) (k : Z) :
  inbetween m l y -> (y < IZR k - / 2)%R -> (round_nearest_even m l < k)%Z.
Proof.
  intros H Hk.
  assert (m < k)%Z as Hm by (apply lt_IZR; apply inbetween_bounds in H; lra).
  destruct l as [|[]]; simpl in *; try exact Hm.
  - assert (m + 1 < k)%Z by (apply lt_IZR; rewrite plus_IZR; lra). destruct (Z.even m); lia.
  - assert (m + 1 < k)%Z by (apply lt_IZR; rewrite plus_IZR; lra). lia.
Qed.

Lemma rne_tie_up (m : Z) (l : location) (y : R) (k : Z) :
  inbetween m l y -> Z.odd k = true -> (IZR k + / 2 <= y)%R ->
  (k + 1 <= round_nearest_even m l)%Z.
Proof.
  intros H Hodd Hk.
  assert (k <= m)%Z as Hm
    by (apply Z.lt_succ_r; apply lt_IZR; unfold Z.succ; rewrite plus_IZR;
        apply inbetween_bounds in H; lra).
  destruct (Z.eq_dec k m) as [->|Hne].
  - destruct l as [|[]]; simpl in *; try lra; try lia.
    rewrite <- Z.negb_odd, Hodd. simpl. lia.
  - pose proof (round_nearest_even_ge m l). lia.
Qed.

Lemma rne_half (m : Z) (l : location) (y : R) :
  inbetween m l y -> (- / 2 <= IZR (round_nearest_even m l) - y <= / 2)%R.
Proof.
  intros H.
  destruct l as [|[]]; simpl in *; try (destruct (Z.even m)); rewrite ?plus_IZR; lra.
Qed.

Section Rounding.

Variables prec emax : Z.
Hypothesis Hprec : (1 < prec)%Z.
Hypothesis Hemax : (prec < emax)%Z.

Local Open Scope Z_scope.

Lemma Zdigits2_bounds (m : Z) :
  0 < m -> 2 ^ (Zdigits2 m - 1) <= m < 2 ^ Zdigits2 m.
Proof.
  destruct m as [|p|p]; try lia. intros _. apply digits2_pos_bounds.
Qed.

Lemma Zdigits2_pos (m : Z) : 0 < m -> 0 < Zdigits2 m.
Proof. destruct m; simpl; lia. Qed.

Lemma Zdigits2_unique (m d : Z) : 2 ^ (d - 1) <= m < 2 ^ d -> 0 < d -> Zdigits2 m = d.
Proof.
  intros [Hlo Hhi] Hd.
  assert (0 < m) as Hm by (pose proof (Z.pow_pos_nonneg 2 (d - 1) ltac:(lia) ltac:(lia)); lia).
  pose proof (Zdigits2_bounds m Hm) as [Hlo' Hhi'].
  pose proof (Zdigits2_pos m Hm) as Hp.
  destruct (Z.lt_trichotomy (Zdigits2 m) d) as [L|[E|L]]; [|exact E|].
  - pose proof (Z.pow_le_mono_r 2 (Zdigits2 m) (d - 1) ltac:(lia) ltac:(lia)). lia.
  - pose proof (Z.pow_le_mono_r 2 d (Zdigits2 m - 1) ltac:(lia) ltac:(lia)). lia.
Qed.

Lemma shr_spec (m : Z) (l : location) (y : R) (e n : Z) :
  0 <= m -> inbetween m l y ->
  snd (shr (shr_record_of_loc m l) e n) = e + Z.max n 0
  /\ shr_m (fst (shr (shr_record_of_loc m l) e n)) = m / 2 ^ Z.max n 0
  /\ inbetween (shr_m (fst (shr (shr_record_of_loc m l) e n)))
       (loc_of_shr_record (fst (shr (shr_record_of_loc m l) e n)))
       (y * bpow (- Z.max n 0)).
Proof.
  intros Hm H. destruct n as [|p|p]; simpl shr; simpl fst; simpl snd.
  - rewrite shr_record_of_loc_m, loc_of_shr_record_of_loc.
    change (Z.max 0 0) with 0. rewrite Z.div_1_r. change (- 0) with 0.
    rewrite bpow_0, Rmult_1_r. repeat split; [lia | exact H].
  - replace (Z.max (Zpos p) 0) with (Zpos p) by lia. split; [reflexivity|]. split.
    + rewrite iter_shr_1_m by (rewrite shr_record_of_loc_m; exact Hm).
      now rewrite shr_record_of_loc_m.
    + apply iter_shr_1_inbetween.
      * now rewrite shr_record_of_loc_m.
      * now rewrite shr_record_of_loc_m, loc_of_shr_record_of_loc.
  - rewrite shr_record_of_loc_m, loc_of_shr_record_of_loc.
    replace (Z.max (Zneg p) 0) with 0 by lia. rewrite Z.div_1_r. change (- 0) with 0.
    rewrite bpow_0, Rmult_1_r. repeat split; [lia | exact H].
Qed.

Lemma shr_fexp_spec (m : Z) (l : location) (y : R) (e : Z) :
  0 <= m -> inbetween m l y ->
  let e1 := Z.max e (SpecFloat.fexp prec emax (Zdigits2 m + e)) in
  snd (shr_fexp prec emax m e l) = e1
  /\ shr_m (fst (shr_fexp prec emax m e l)) = m / 2 ^ (e1 - e)
  /\ inbetween (shr_m (fst (shr_fexp prec emax m e l)))
       (loc_of_shr_record (fst (shr_fexp prec emax m e l)))
       (y * bpow (e - e1)).
Proof.
  intros Hm H e1. unfold shr_fexp.
  destruct (shr_spec m l y e (SpecFloat.fexp prec emax (Zdigits2 m + e) - e) Hm H)
    as (H1 & H2 & H3).
  replace (Z.max (SpecFloat.fexp prec emax (Zdigits2 m + e) - e) 0) with (e1 - e)
    in H1, H2, H3 by (unfold e1; lia).
  replace (- (e1 - e)) with (e - e1) in H3 by lia.
  split; [lia|]. split; assumption.
Qed.

(** What [binary_round_aux] gives for a mantissa that carries at least
    the precision of the format. *)
Lemma binary_round_aux_spec (s : bool) (m e : Z) (l : location) (y : R) :
  0 <= m -> inbetween m l y ->
  e <= SpecFloat.fexp prec emax (Zdigits2 m + e) ->
  let e1 := SpecFloat.fexp prec emax (Zdigits2 m + e) in
  exists m1 l1,
    inbetween m1 l1 (y * bpow (e - e1))
    /\ 0 <= m1 < 2 ^ prec
    /\ (0 < m -> e1 = Zdigits2 m + e - prec -> 2 ^ (prec - 1) <= m1)
    /\ binary_round_aux prec emax s m e l
       = round_result prec emax s (round_nearest_even m1 l1) e1.
Proof.
  intros Hm H He e1.
  destruct (shr_fexp_spec m l y e Hm H) as (H1 & H2 & H3).
  replace (Z.max e (SpecFloat.fexp prec emax (Zdigits2 m + e))) with e1 in H1, H2, H3
    by (unfold e1; lia).
  unfold binary_round_aux.
  destruct (shr_fexp prec emax m e l) as [mrs' e'] eqn:E1. simpl in H1, H2, H3. subst e'.
  set (m1 := shr_m mrs') in *. set (l1 := loc_of_shr_record mrs') in *.
  assert (0 < 2 ^ (e1 - e)) as Hpow by (apply Z.pow_pos_nonneg; lia).
  assert (SpecFloat.emin prec emax <= e1) as Hmin by (unfold e1, SpecFloat.fexp; lia).
  assert (0 <= m1 < 2 ^ prec) as Hm1.
  { rewrite H2. split; [apply Z.div_pos; lia|].
    apply Z.div_lt_upper_bound; [lia|].
    rewrite <- Z.pow_add_r by lia.
    destruct (Z.eq_dec m 0) as [->|Hne]; [apply Z.pow_pos_nonneg; lia|].
    pose proof (Zdigits2_bounds m ltac:(lia)) as [_ Hhi].
    pose proof (Zdigits2_pos m ltac:(lia)).
    assert (Zdigits2 m <= e1 - e + prec) by (unfold e1, SpecFloat.fexp; lia).
    pose proof (Z.pow_le_mono_r 2 (Zdigits2 m) (e1 - e + prec) ltac:(lia) ltac:(lia)). lia. }
  exists m1, l1. split; [exact H3|]. split; [exact Hm1|]. split.
  { intros Hpos Hn. rewrite H2. apply Z.div_le_lower_bound; [lia|].
    rewrite <- Z.pow_add_r by lia.
    pose proof (Zdigits2_bounds m Hpos) as [Hlo _].
    replace (e1 - e + (prec - 1)) with (Zdigits2 m - 1) by lia. exact Hlo. }
  set (n := round_nearest_even m1 l1).
  assert (0 <= n <= 2 ^ prec) as Hn.
  { pose proof (round_nearest_even_ge m1 l1). unfold n. destruct (rne_cases m1 l1); lia. }
  destruct (shr_fexp_spec n loc_Exact (IZR n) e1 ltac:(lia) eq_refl) as (G1 & G2 & _).
  destruct (shr_fexp prec emax n e1 loc_Exact) as [mrs'' e''] eqn:E2. simpl in G1, G2.
  unfold round_result.
  destruct (Z.eqb_spec n 0) as [Hz|Hz].
  - rewrite G2, Hz. now rewrite Z.div_0_l by (apply Z.pow_nonzero; unfold SpecFloat.fexp; simpl; lia).
  - destruct (Z.ltb_spec n (2 ^ prec)) as [Hlt|Hge].
    + pose proof (Zdigits2_bounds n ltac:(lia)) as [Hlo _].
      pose proof (Zdigits2_pos n ltac:(lia)).
      assert (Zdigits2 n <= prec).
      { destruct (Z.le_gt_cases (Zdigits2 n) prec) as [L|L]; [exact L|].
        pose proof (Z.pow_le_mono_r 2 prec (Zdigits2 n - 1) ltac:(lia) ltac:(lia)). lia. }
      assert (Z.max e1 (SpecFloat.fexp prec emax (Zdigits2 n + e1)) = e1) as Emax
        by (unfold SpecFloat.fexp; lia).
      rewrite Emax in G1, G2. rewrite Z.sub_diag, Z.pow_0_r, Z.div_1_r in G2.
      rewrite G2, G1. destruct n as [|p|p]; try lia. reflexivity.
    + assert (n = 2 ^ prec) as En by lia.
      assert (Zdigits2 n = prec + 1) as Ed.
      { apply Zdigits2_unique; [|lia]. rewrite En.
        replace (prec + 1 - 1) with prec by lia. split; [lia|].
        apply Z.pow_lt_mono_r; lia. }
      assert (Z.max e1 (SpecFloat.fexp prec emax (Zdigits2 n + e1)) = e1 + 1) as Emax
        by (rewrite Ed; unfold SpecFloat.fexp; lia).
      rewrite Emax in G1, G2.
      replace (e1 + 1 - e1) with 1 in G2 by lia. rewrite Z.pow_1_r in G2.
      assert (n / 2 = 2 ^ (prec - 1)) as Eh.
      { rewrite En. replace prec with (1 + (prec - 1)) at 1 by lia.
        rewrite Z.pow_add_r by lia. rewrite Z.pow_1_r.
        rewrite Z.mul_comm, Z.div_mul by lia. reflexivity. }
      rewrite G2, Eh, G1.
      pose proof (Z.pow_pos_nonneg 2 (prec - 1) ltac:(lia) ltac:(lia)) as Hpp.
      destruct (2 ^ (prec - 1)) as [|p|p]; try lia. reflexivity.
Qed.


Lemma fexp_ge_emin (g : Z) : SpecFloat.emin prec emax <= SpecFloat.fexp prec emax g.
Proof. unfold SpecFloat.fexp. lia. Qed.

Lemma binary_round_aux_rounded (s : bool) (m e : Z) (l : location) (y : R) :
  0 < m -> inbetween m l y ->
  e <= SpecFloat.fexp prec emax (Zdigits2 m + e) ->
  rounded prec emax (y * bpow e) s (binary_round_aux prec emax s m e l).
Proof.
  intros Hm H He.
  destruct (binary_round_aux_spec s m e l y ltac:(lia) H He) as (m1 & l1 & H1 & _ & _ & Hr).
  exists (Zdigits2 m + e), m1, l1. split; [|split].
  - pose proof (Zdigits2_bounds m Hm) as [Hlo Hhi].
    pose proof (Zdigits2_pos m Hm) as Hd.
    apply inbetween_bounds in H.
    assert (IZR (2 ^ (Zdigits2 m - 1)) <= y)%R as Hy1
      by (apply IZR_le in Hlo; lra).
    assert (y < IZR (2 ^ Zdigits2 m))%R as Hy2.
    { assert (m + 1 <= 2 ^ Zdigits2 m) as Hle by lia.
      apply IZR_le in Hle. rewrite plus_IZR in Hle. lra. }
    rewrite <- bpow_IZR in Hy1, Hy2 by lia.
    pose proof (bpow_pos e) as He0.
    replace (Zdigits2 m + e - 1) with (Zdigits2 m - 1 + e) by lia.
    rewrite !bpow_add. split.
    + apply Rmult_le_compat_r; lra.
    + apply Rmult_lt_compat_r; lra.
  - replace (y * bpow e * bpow (- SpecFloat.fexp prec emax (Zdigits2 m + e)))%R
      with (y * bpow (e - SpecFloat.fexp prec emax (Zdigits2 m + e)))%R; [exact H1|].
    unfold Z.sub. rewrite bpow_add. ring.
  - exact Hr.
Qed.

(** The parts of a rounding: the magnitude, the scaled value and the
    integer it is rounded to. *)
Lemma rounded_parts (X : R) (s : bool) (r : spec_float) :
  rounded prec emax X s r ->
  exists g n,
    (bpow (g - 1) <= X < bpow g)%R
    /\ 0 <= n <= 2 ^ prec
    /\ (- / 2 <= IZR n - X * bpow (- SpecFloat.fexp prec emax g) <= / 2)%R
    /\ (forall k, (IZR k <= X * bpow (- SpecFloat.fexp prec emax g))%R -> k <= n)
    /\ (forall k, (X * bpow (- SpecFloat.fexp prec emax g) <= IZR k)%R -> n <= k)
    /\ (forall k, (X * bpow (- SpecFloat.fexp prec emax g) < IZR k - / 2)%R -> n < k)
    /\ (forall k, Z.odd k = true ->
          (IZR k + / 2 <= X * bpow (- SpecFloat.fexp prec emax g))%R -> k + 1 <= n)
    /\ r = round_result prec emax s n (SpecFloat.fexp prec emax g).
Proof.
  intros (g & m1 & l1 & Hg & Hin & Hr).
  exists g, (round_nearest_even m1 l1).
  set (e1 := SpecFloat.fexp prec emax g) in *.
  set (y := (X * bpow (- e1))%R) in *.
  assert (0 <= y < bpow prec)%R as Hy.
  { pose proof (bpow_pos (g - 1)). pose proof (bpow_pos (- e1)).
    split; [unfold y; nra|].
    assert (X * bpow (- e1) < bpow g * bpow (- e1))%R by (apply Rmult_lt_compat_r; lra).
    rewrite <- bpow_add in H1.
    assert (bpow (g + - e1) <= bpow prec)%R
      by (apply bpow_le; unfold e1, SpecFloat.fexp; lia).
    unfold y. lra. }
  split; [exact Hg|]. split.
  { split.
    - apply (rne_ge m1 l1 y 0 Hin). simpl. lra.
    - apply (rne_le m1 l1 y (2 ^ prec) Hin). rewrite <- bpow_IZR by lia. lra. }
  split; [now apply rne_half|].
  split; [intros k; now apply rne_ge|].
  split; [intros k; now apply rne_le|].
  split; [intros k; now apply rne_lt_half|].
  split; [intros k; now apply rne_tie_up|].
  exact Hr.
Qed.

Lemma round_result_finite (s s' : bool) (n e1 : Z) (m : positive) (e : Z) :
  0 <= n <= 2 ^ prec ->
  round_result prec emax s n e1 = S754_finite s' m e ->
  s' = s /\ 0 < n /\ e1 <= emax - prec
  /\ (n = 2 ^ prec -> e1 + 1 <= emax - prec)
  /\ (IZR (Zpos m) * bpow e = IZR n * bpow e1)%R.
Proof.
  intros Hn. unfold round_result.
  destruct (Z.eqb_spec n 0) as [Hz|Hz]; [discriminate|].
  destruct (Z.ltb_spec n (2 ^ prec)) as [Hlt|Hge].
  - destruct (Z.leb_spec e1 (emax - prec)) as [Hle|Hgt]; [|discriminate].
    intros E. injection E as <- <- <-.
    rewrite Z2Pos.id by lia. repeat split; lia.
  - destruct (Z.leb_spec (e1 + 1) (emax - prec)) as [Hle|Hgt]; [|discriminate].
    intros E. injection E as <- <- <-.
    pose proof (Z.pow_pos_nonneg 2 (prec - 1) ltac:(lia) ltac:(lia)) as Hpp.
    rewrite Z2Pos.id by lia.
    assert (n = 2 ^ prec) as -> by lia.
    repeat split; try lia.
    rewrite <- !bpow_IZR by lia. rewrite <- !bpow_add. f_equal. lia.
Qed.

Lemma round_result_forms (s : bool) (n e1 : Z) :
  round_result prec emax s n e1 = S754_zero s
  \/ round_result prec emax s n e1 = S754_infinity s
  \/ exists m e, round_result prec emax s n e1 = S754_finite s m e.
Proof.
  unfold round_result.
  destruct (n =? 0); [now left|].
  destruct (n <? 2 ^ prec).
  - destruct (e1 <=? emax - prec); [right; right; eauto | right; now left].
  - destruct (e1 + 1 <=? emax - prec); [right; right; eauto | right; now left].
Qed.

Lemma rounded_forms (X : R) (s : bool) (r : spec_float) :
  rounded prec emax X s r ->
  r = S754_zero s \/ r = S754_infinity s \/ exists m e, r = S754_finite s m e.
Proof. intros (g & m1 & l1 & _ & _ & ->). apply round_result_forms. Qed.

(** The magnitude of a value at or above [2^k]. *)
Lemma magnitude_ge (X : R) (g k : Z) :
  (X < bpow g)%R -> (bpow k <= X)%R -> k + 1 <= g.
Proof.
  intros Hg Hk. assert (k < g); [|lia]. apply bpow_lt_inv. lra.
Qed.

Lemma magnitude_le (X : R) (g k : Z) :
  (bpow (g - 1) <= X)%R -> (X < bpow k)%R -> g <= k.
Proof.
  intros Hg Hk. assert (g - 1 < k); [|lia]. apply bpow_lt_inv. lra.
Qed.

(** Overflow: the rounding is an infinity exactly from the midpoint
    between the largest finite value and [2^emax]. *)
Lemma rounded_infinity_iff (X : R) (s : bool) (r : spec_float) :
  rounded prec emax X s r ->
  r = S754_infinity s <-> (bpow emax - bpow (emax - prec - 1) <= X)%R.
Proof.
  intros H. apply rounded_parts in H
    as (g & n & Hg & Hn & _ & Hge & Hle & Hlt & Htie & ->).
  set (e1 := SpecFloat.fexp prec emax g) in *.
  pose proof (bpow_pos (- e1)) as He1.
  assert (forall k, bpow k * bpow (- e1) = bpow (k - e1))%R as Hscale
    by (intros k; unfold Z.sub; now rewrite bpow_add).
  assert (bpow (emax - prec - 1) * 2 = bpow (emax - prec))%R as Hhalf
    by (replace (emax - prec) with (emax - prec - 1 + 1) at 2 by lia;
        rewrite bpow_succ; lra).
  assert (bpow (emax - prec) <= bpow (emax - 1))%R as Hp1 by (apply bpow_le; lia).
  assert (bpow (emax - 1) * 2 = bpow emax)%R as Hp2
    by (replace emax with (emax - 1 + 1) at 2 by lia; rewrite bpow_succ; lra).
  pose proof (bpow_pos (emax - prec - 1)) as Hp3.
  split.
  - (* an infinity comes from a large value *)
    intros E. destruct (Rle_lt_dec (bpow emax - bpow (emax - prec - 1)) X) as [L|L]; [exact L|].
    exfalso.
    assert (g <= emax) as Hgm by (apply (magnitude_le X); lra).
    assert (e1 <= emax - prec)
      by (unfold e1, SpecFloat.fexp, SpecFloat.emin; lia).
    unfold round_result in E.
    destruct (n =? 0); [discriminate|].
    destruct (Z.ltb_spec n (2 ^ prec)) as [Hlt'|Hge'].
    + destruct (Z.leb_spec e1 (emax - prec)); [discriminate | lia].
    + destruct (Z.leb_spec (e1 + 1) (emax - prec)) as [|Hgt]; [discriminate|].
      assert (e1 = emax - prec) as Ee by lia.
      assert (n < 2 ^ prec); [|lia]. apply Hlt.
      rewrite <- bpow_IZR by lia. rewrite Ee.
      assert (bpow (emax - prec) * bpow (- (emax - prec)) = 1)%R as Hone
        by (rewrite <- bpow_add; replace (emax - prec + - (emax - prec)) with 0 by lia;
            apply bpow_0).
      assert (bpow prec * bpow (emax - prec) = bpow emax)%R as Hpe
        by (rewrite <- bpow_add; f_equal; lia).
      pose proof (bpow_pos (- (emax - prec))) as Hq.
      pose proof (bpow_pos (emax - prec)) as Hq'.
      apply (Rmult_lt_reg_r (bpow (emax - prec))); [exact Hq'|].
      rewrite Rmult_assoc, (Rmult_comm (bpow (- (emax - prec)))), Hone, Rmult_1_r.
      lra.
  - (* a large value gives an infinity *)
    intros L.
    assert (emax <= g) as Hgm
      by (pose proof (magnitude_ge X g (emax - 1) ltac:(lra) ltac:(lra)); lia).
    assert (emax - prec <= e1) by (unfold e1, SpecFloat.fexp; lia).
    assert (2 ^ (prec - 1) <= n) as Hnlo.
    { apply Hge. rewrite <- bpow_IZR by lia.
      replace (prec - 1) with (g - 1 + - (g - prec)) by lia. rewrite bpow_add.
      assert (e1 = g - prec) as -> by (unfold e1, SpecFloat.fexp, SpecFloat.emin in *; lia).
      apply Rmult_le_compat_r; [apply Rlt_le, bpow_pos | lra]. }
    pose proof (Z.pow_pos_nonneg 2 (prec - 1) ltac:(lia) ltac:(lia)) as Hpp.
    unfold round_result.
    destruct (Z.eqb_spec n 0) as [|_]; [lia|].
    destruct (Z.eq_dec e1 (emax - prec)) as [Ee|Ee].
    + assert (2 ^ prec - 1 + 1 <= n) as Hcarry.
      { apply Htie.
        - replace (2 ^ prec - 1) with (2 * 2 ^ (prec - 1) - 1)
            by (rewrite <- Z.pow_succ_r by lia; do 2 f_equal; lia).
          rewrite Z.odd_sub, Z.odd_mul. reflexivity.
        - rewrite minus_IZR, <- bpow_IZR by lia. rewrite Ee.
          pose proof (bpow_pos (emax - prec)) as Hq'.
          apply (Rmult_le_reg_r (bpow (emax - prec))); [exact Hq'|].
          rewrite Rmult_assoc, <- bpow_add.
          replace (- (emax - prec) + (emax - prec)) with 0 by lia.
          rewrite bpow_0, Rmult_1_r.
          assert (bpow prec * bpow (emax - prec) = bpow emax)%R as Hpe
            by (rewrite <- bpow_add; f_equal; lia).
          lra. }
      destruct (Z.ltb_spec n (2 ^ prec)); [lia|].
      destruct (Z.leb_spec (e1 + 1) (emax - prec)); [lia | reflexivity].
    + destruct (n <? 2 ^ prec).
      * destruct (Z.leb_spec e1 (emax - prec)); [lia | reflexivity].
      * destruct (Z.leb_spec (e1 + 1) (emax - prec)); [lia | reflexivity].
Qed.


(** The value of a finite rounding: an integer [n], the scaled value
    rounded, counted in units of [2^(fexp g)]. *)
Lemma rounded_value (X : R) (s s' : bool) (m : positive) (e : Z) :
  rounded prec emax X s (S754_finite s' m e) ->
  exists g n y,
    (bpow (g - 1) <= X < bpow g)%R
    /\ X = (y * bpow (SpecFloat.fexp prec emax g))%R
    /\ (IZR (Zpos m) * bpow e = IZR n * bpow (SpecFloat.fexp prec emax g))%R
    /\ 0 < n <= 2 ^ prec
    /\ (- / 2 <= IZR n - y <= / 2)%R
    /\ (forall k, (IZR k <= y)%R -> k <= n)
    /\ (forall k, (y <= IZR k)%R -> n <= k)
    /\ (forall k, (y < IZR k - / 2)%R -> n < k)
    /\ s' = s.
Proof.
  intros H. apply rounded_parts in H
    as (g & n & Hg & Hn & Hhalf & Hge & Hle & Hlt & _ & Hr).
  symmetry in Hr. apply round_result_finite in Hr as (Hs & Hpos & _ & _ & Hv); [|exact Hn].
  exists g, n, (X * bpow (- SpecFloat.fexp prec emax g))%R.
  split; [exact Hg|]. split.
  { rewrite Rmult_assoc, <- bpow_add.
    replace (- SpecFloat.fexp prec emax g + SpecFloat.fexp prec emax g) with 0 by lia.
    rewrite bpow_0. ring. }
  split; [exact Hv|]. split; [lia|]. split; [exact Hhalf|]. repeat split; assumption.
Qed.

Lemma rounded_nonzero (X : R) (s s' : bool) (r : spec_float) :
  rounded prec emax X s r -> (bpow (SpecFloat.emin prec emax) <= X)%R -> r <> S754_zero s'.
Proof.
  intros H Hmin. apply rounded_parts in H
    as (g & n & Hg & Hn & _ & Hge & _ & _ & _ & ->).
  assert (1 <= n) as Hn1.
  { apply Hge.
    pose proof (bpow_pos (- SpecFloat.fexp prec emax g)) as Hp.
    destruct (Z.le_ge_cases (g - prec) (SpecFloat.emin prec emax)) as [L|L].
    - replace (SpecFloat.fexp prec emax g) with (SpecFloat.emin prec emax) in *
        by (unfold SpecFloat.fexp; lia).
      assert (bpow (SpecFloat.emin prec emax) * bpow (- SpecFloat.emin prec emax) = 1)%R as E
        by (rewrite <- bpow_add, Z.add_opp_diag_r; apply bpow_0).
      nra.
    - replace (SpecFloat.fexp prec emax g) with (g - prec) in *
        by (unfold SpecFloat.fexp; lia).
      assert (bpow (g - 1) * bpow (- (g - prec)) = bpow (prec - 1))%R as E
        by (rewrite <- bpow_add; f_equal; lia).
      pose proof (bpow_ge_1 (prec - 1) ltac:(lia)). nra. }
  unfold round_result. destruct (Z.eqb_spec n 0); [lia|].
  destruct (n <? 2 ^ prec).
  - destruct (_ <=? _); discriminate.
  - destruct (_ <=? _); discriminate.
Qed.

Lemma rounded_value_ge (X : R) (s s' : bool) (m : positive) (e k : Z) :
  rounded prec emax X s (S754_finite s' m e) ->
  SpecFloat.emin prec emax <= k -> (bpow k <= X)%R ->
  (bpow k <= IZR (Zpos m) * bpow e)%R.
Proof.
  intros H Hk Hx. apply rounded_value in H
    as (g & n & y & Hg & HX & -> & Hn & _ & Hge & _ & _ & _).
  set (e1 := SpecFloat.fexp prec emax g) in *.
  pose proof (bpow_pos e1) as He1.
  destruct (Z.le_gt_cases e1 k) as [L|L].
  - assert (2 ^ (k - e1) <= n) as Hn'.
    { apply Hge. rewrite <- bpow_IZR by lia.
      apply (Rmult_le_reg_r (bpow e1)); [exact He1|].
      rewrite <- bpow_add. replace (k - e1 + e1) with k by lia. lra. }
    apply IZR_le in Hn'. rewrite <- bpow_IZR in Hn' by lia.
    replace k with (k - e1 + e1) at 1 by lia. rewrite bpow_add.
    apply Rmult_le_compat_r; lra.
  - assert (e1 = g - prec) as Ee by (unfold e1, SpecFloat.fexp in *; lia).
    assert (2 ^ (prec - 1) <= n) as Hn'.
    { apply Hge. rewrite <- bpow_IZR by lia.
      apply (Rmult_le_reg_r (bpow e1)); [exact He1|].
      rewrite <- bpow_add. replace (prec - 1 + e1) with (g - 1) by lia. lra. }
    apply IZR_le in Hn'. rewrite <- bpow_IZR in Hn' by lia.
    assert (bpow k <= bpow (prec - 1 + e1))%R as Hkk by (apply bpow_le; lia).
    rewrite bpow_add in Hkk.
    assert (bpow (prec - 1) * bpow e1 <= IZR n * bpow e1)%R
      by (apply Rmult_le_compat_r; lra).
    lra.
Qed.

Lemma rounded_value_le (X : R) (s s' : bool) (m : positive) (e k : Z) :
  rounded prec emax X s (S754_finite s' m e) ->
  SpecFloat.emin prec emax <= k -> (X <= bpow k)%R ->
  (IZR (Zpos m) * bpow e <= bpow k)%R.
Proof.
  intros H Hk Hx. apply rounded_value in H
    as (g & n & y & Hg & HX & -> & Hn & _ & _ & Hle & _ & _).
  set (e1 := SpecFloat.fexp prec emax g) in *.
  pose proof (bpow_pos e1) as He1.
  assert (g - 1 <= k) by (apply bpow_le_inv; lra).
  assert (e1 <= k) as L by (unfold e1, SpecFloat.fexp; lia).
  assert (n <= 2 ^ (k - e1)) as Hn'.
  { apply Hle. rewrite <- bpow_IZR by lia.
    apply (Rmult_le_reg_r (bpow e1)); [exact He1|].
    rewrite <- bpow_add. replace (k - e1 + e1) with k by lia. lra. }
  apply IZR_le in Hn'. rewrite <- bpow_IZR in Hn' by lia.
  replace k with (k - e1 + e1) at 1 by lia. rewrite bpow_add.
  apply Rmult_le_compat_r; lra.
Qed.

(** Below the midpoint under [2^k] the rounding stays under [2^k]. *)
Lemma rounded_value_below (X : R) (s s' : bool) (m : positive) (e k : Z) :
  rounded prec emax X s (S754_finite s' m e) ->
  SpecFloat.emin prec emax <= k - prec ->
  (X < bpow k - bpow (k - prec - 1))%R ->
  (IZR (Zpos m) * bpow e <= bpow k - bpow (k - prec))%R.
Proof.
  intros H Hk Hx.
  assert (bpow (k - 1) * 2 = bpow k)%R as Hk2
    by (replace k with (k - 1 + 1) at 2 by lia; rewrite bpow_succ; lra).
  assert (bpow (k - prec) <= bpow (k - 1))%R as Hkp by (apply bpow_le; lia).
  pose proof (bpow_pos (k - prec - 1)) as Hpos.
  destruct (Rle_lt_dec X (bpow (k - 1))) as [L|L].
  - pose proof (rounded_value_le X s s' m e (k - 1) H ltac:(lia) L). lra.
  - apply rounded_value in H
      as (g & n & y & Hg & HX & -> & Hn & _ & _ & _ & Hlt & _).
    assert (g <= k) by (apply (magnitude_le X); lra).
    assert (k <= g) by (pose proof (magnitude_ge X g (k - 1) ltac:(lra) ltac:(lra)); lia).
    assert (g = k) as -> by lia.
    replace (SpecFloat.fexp prec emax k) with (k - prec) in *
      by (unfold SpecFloat.fexp; lia).
    pose proof (bpow_pos (k - prec)) as He1.
    assert (bpow prec * bpow (k - prec) = bpow k)%R as Hpk
      by (rewrite <- bpow_add; f_equal; lia).
    assert (bpow (k - prec - 1) * 2 = bpow (k - prec))%R as Hh
      by (replace (k - prec) with (k - prec - 1 + 1) at 2 by lia; rewrite bpow_succ; lra).
    assert (n < 2 ^ prec) as Hn'.
    { apply Hlt. rewrite <- bpow_IZR by lia.
      apply (Rmult_lt_reg_r (bpow (k - prec))); [exact He1|]. nra. }
    assert (n <= 2 ^ prec - 1) as Hn'' by lia.
    apply IZR_le in Hn''. rewrite minus_IZR, <- bpow_IZR in Hn'' by lia.
    nra.
Qed.

(** In the normal range the rounding is within [2^-prec] of the value,
    relatively. *)
Lemma rounded_value_near (X : R) (s s' : bool) (m : positive) (e : Z) :
  rounded prec emax X s (S754_finite s' m e) ->
  (bpow (SpecFloat.emin prec emax + prec - 1) <= X)%R ->
  (X * (1 - bpow (- prec)) <= IZR (Zpos m) * bpow e <= X * (1 + bpow (- prec)))%R.
Proof.
  intros H Hx. apply rounded_value in H
    as (g & n & y & Hg & HX & -> & Hn & Hhalf & _ & _ & _ & _).
  assert (SpecFloat.emin prec emax + prec <= g)
    by (pose proof (magnitude_ge X g _ ltac:(lra) Hx); lia).
  replace (SpecFloat.fexp prec emax g) with (g - prec) in *
    by (unfold SpecFloat.fexp; lia).
  pose proof (bpow_pos (g - prec)) as He1.
  assert (bpow (- prec) * bpow (g - 1) * 2 = bpow (g - prec))%R as Hu.
  { rewrite <- bpow_add. replace (- prec + (g - 1)) with (g - prec - 1) by lia.
    rewrite bpow_pred. lra. }
  pose proof (bpow_pos (- prec)) as Hup.
  assert (bpow (g - prec) / 2 <= bpow (- prec) * X)%R.
  { assert (bpow (- prec) * bpow (g - 1) <= bpow (- prec) * X)%R
      by (apply Rmult_le_compat_l; lra). lra. }
  assert (IZR n * bpow (g - prec) - X = (IZR n - y) * bpow (g - prec))%R as Hd
    by (rewrite HX at 1; ring).
  split; nra.
Qed.


(** ** The operations *)

Lemma Zdigits2_ge (m k : Z) : 0 <= k -> 2 ^ k <= m -> k + 1 <= Zdigits2 m.
Proof.
  intros Hk H.
  assert (0 < m) as Hm by (pose proof (Z.pow_pos_nonneg 2 k ltac:(lia) Hk); lia).
  pose proof (Zdigits2_bounds m Hm) as [_ Hhi]. pose proof (Zdigits2_pos m Hm).
  assert (k < Zdigits2 m); [|lia].
  apply (Z.pow_lt_mono_r_iff 2); lia.
Qed.

Lemma emin_negative : SpecFloat.emin prec emax < 0.
Proof. unfold SpecFloat.emin. lia. Qed.

(** The product of two finite values is the exact product, rounded. *)
Lemma SFmul_rounded (sx sy : bool) (mx my : positive) (ex ey : Z) :
  SpecFloat.bounded prec emax mx ex = true ->
  SpecFloat.bounded prec emax my ey = true ->
  rounded prec emax (IZR (Zpos mx) * bpow ex * (IZR (Zpos my) * bpow ey)) (xorb sx sy)
    (SFmul prec emax (S754_finite sx mx ex) (S754_finite sy my ey)).
Proof.
  intros Bx By'. unfold SFmul.
  replace (IZR (Zpos mx) * bpow ex * (IZR (Zpos my) * bpow ey))%R
    with (IZR (Zpos (mx * my)) * bpow (ex + ey))%R
    by (rewrite Pos2Z.inj_mul, mult_IZR, bpow_add; ring).
  apply binary_round_aux_rounded; [lia | reflexivity |].
  apply bounded_spec in Bx as ([Hlx _] & _ & Hnx); [|assumption..].
  apply bounded_spec in By' as ([Hly _] & _ & Hny); [|assumption..].
  pose proof emin_negative as Hneg.
  pose proof (fexp_ge_emin (Zdigits2 (Zpos (mx * my)) + (ex + ey))) as Hf.
  destruct (Z.eq_dec ex (SpecFloat.emin prec emax)) as [Ex|Ex];
    [destruct (Z.eq_dec ey (SpecFloat.emin prec emax)) as [Ey|Ey]; [lia|]|].
  - specialize (Hny ltac:(lia)).
    assert (prec - 1 + 1 <= Zdigits2 (Zpos (mx * my))) as Hd.
    { apply Zdigits2_ge; [lia|]. rewrite Pos2Z.inj_mul. nia. }
    unfold SpecFloat.fexp. lia.
  - specialize (Hnx ltac:(lia)).
    assert (prec - 1 + 1 <= Zdigits2 (Zpos (mx * my))) as Hd.
    { apply Zdigits2_ge; [lia|]. rewrite Pos2Z.inj_mul. nia. }
    unfold SpecFloat.fexp. lia.
Qed.

Lemma sqrt_above (a x : R) : (0 <= a)%R -> (a * a < x)%R -> (a < R_sqrt.sqrt x)%R.
Proof.
  intros Ha H. rewrite <- (sqrt_square a Ha). apply sqrt_lt_1_alt. nra.
Qed.

Lemma sqrt_below (a x : R) : (0 <= a)%R -> (0 <= x)%R -> (x < a * a)%R -> (R_sqrt.sqrt x < a)%R.
Proof.
  intros Ha Hx H. rewrite <- (sqrt_square a Ha). apply sqrt_lt_1_alt. lra.
Qed.

Lemma sqrt_scaled (x : R) (e : Z) :
  (0 <= x)%R -> R_sqrt.sqrt (x * bpow (2 * e)) = (R_sqrt.sqrt x * bpow e)%R.
Proof.
  intros Hx. replace (2 * e) with (e + e) by lia. rewrite bpow_add.
  pose proof (bpow_pos e) as He.
  rewrite sqrt_mult by nra. rewrite sqrt_square by lra. reflexivity.
Qed.

(** The square root of a positive finite value is the exact root,
    rounded. *)
Lemma SFsqrt_rounded (mx : positive) (ex : Z) :
  rounded prec emax (R_sqrt.sqrt (IZR (Zpos mx) * bpow ex)) false
    (SFsqrt prec emax (S754_finite false mx ex)).
Proof.
  unfold SFsqrt, SFsqrt_core_binary.
  set (d := Zdigits2 (Zpos mx)).
  set (g := Z.div2 (d + ex + 1)).
  set (e' := Z.min (SpecFloat.fexp prec emax g) (Z.div2 ex)).
  set (s := ex - 2 * e').
  pose proof (Zdigits2_bounds (Zpos mx) ltac:(lia)) as [Hdlo Hdhi]. fold d in Hdlo, Hdhi.
  pose proof (Zdigits2_pos (Zpos mx) ltac:(lia)) as Hd. fold d in Hd.
  assert (2 * g <= d + ex + 1 <= 2 * g + 1) as Hg
    by (unfold g; rewrite Z.div2_div; pose proof (Z.div_mod (d + ex + 1) 2 ltac:(lia));
        pose proof (Z.mod_pos_bound (d + ex + 1) 2 ltac:(lia)); lia).
  assert (2 * Z.div2 ex <= ex) as He2
    by (rewrite Z.div2_div; pose proof (Z.div_mod ex 2 ltac:(lia));
        pose proof (Z.mod_pos_bound ex 2 ltac:(lia)); lia).
  assert (Z.div2 ex + 1 <= g) as Hge.
  { unfold g. rewrite !Z.div2_div.
    replace (Z.div ex 2 + 1) with (Z.div (ex + 1 * 2) 2) by (rewrite Z.div_add by lia; lia).
    apply Z.div_le_mono; lia. }
  assert (0 <= s) as Hs by (unfold s, e'; lia).
  set (m' := match s with
             | 0 => Zpos mx
             | Zpos _ => Z.shiftl (Zpos mx) s
             | Zneg _ => 0
             end).
  assert (m' = Zpos mx * 2 ^ s) as Em'.
  { unfold m'. destruct s as [|p|p] eqn:Es; try lia.
    now rewrite Z.shiftl_mul_pow2 by lia. }
  clearbody m'.
  assert (0 < 2 ^ s) as Hps by (apply Z.pow_pos_nonneg; lia).
  assert (0 < m') as Hm' by nia.
  pose proof (Z.sqrtrem_spec m' ltac:(lia)) as Hq.
  destruct (Z.sqrtrem m') as [q r]. destruct Hq as [Eq Hr].
  (* the digits of the root *)
  assert (0 <= g - e' - 1) as Hk by (unfold e'; lia).
  assert (2 ^ (2 * (g - e' - 1)) <= m') as Hlo.
  { rewrite Em'. apply (Z.le_trans _ (2 ^ (d - 1) * 2 ^ s)); [|nia].
    rewrite <- Z.pow_add_r by lia. apply Z.pow_le_mono_r; unfold s; lia. }
  assert (m' < 2 ^ (2 * (g - e'))) as Hhi.
  { rewrite Em'. apply (Z.lt_le_trans _ (2 ^ d * 2 ^ s)); [nia|].
    rewrite <- Z.pow_add_r by lia. apply Z.pow_le_mono_r; unfold s; lia. }
  assert (forall k, 0 <= k -> 2 ^ (2 * k) = 2 ^ k * 2 ^ k) as Hsq
    by (intros k Hk0; rewrite <- Z.pow_add_r by lia; f_equal; lia).
  rewrite Hsq in Hlo, Hhi by lia.
  assert (0 < 2 ^ (g - e' - 1)) as Hp1 by (apply Z.pow_pos_nonneg; lia).
  assert (0 < 2 ^ (g - e')) as Hp2 by (apply Z.pow_pos_nonneg; lia).
  assert (2 ^ (g - e' - 1) <= q < 2 ^ (g - e')) as Hqb by nia.
  assert (Zdigits2 q = g - e') as Edq by (apply Zdigits2_unique; lia).
  (* the value *)
  assert (R_sqrt.sqrt (IZR (Zpos mx) * bpow ex) = R_sqrt.sqrt (IZR m') * bpow e')%R as Ev.
  { rewrite <- sqrt_scaled by (apply IZR_le; lia).
    f_equal. rewrite Em', mult_IZR, <- bpow_IZR by lia.
    rewrite Rmult_assoc, <- bpow_add. do 2 f_equal. unfold s. lia. }
  rewrite Ev.
  apply binary_round_aux_rounded; [lia| |rewrite Edq; unfold e'; 
    replace (g - Z.min (SpecFloat.fexp prec emax g) (Z.div2 ex)
             + Z.min (SpecFloat.fexp prec emax g) (Z.div2 ex)) with g by lia; lia].
  (* the location *)
  assert (IZR m' = IZR q * IZR q + IZR r)%R as Er
    by (rewrite Eq, plus_IZR, mult_IZR; reflexivity).
  assert (0 <= IZR q)%R as Hq0 by (apply IZR_le; lia).
  destruct (Z.eqb_spec r 0) as [Hz|Hnz].
  - simpl. subst r. rewrite Er, Rplus_0_r. now apply sqrt_square.
  - assert (1 <= IZR r)%R as Hr1 by (apply IZR_le; lia).
    destruct (Z.leb_spec r q) as [Hle|Hgt]; simpl.
    + apply IZR_le in Hle. split.
      * apply sqrt_above; [exact Hq0 | lra].
      * apply sqrt_below; [lra | nra | nra].
    + assert (IZR q + 1 <= IZR r)%R as Hr2 by (rewrite <- plus_IZR; apply IZR_le; lia).
      assert (IZR r <= 2 * IZR q)%R as Hr3 by (rewrite <- mult_IZR; apply IZR_le; lia).
      split.
      * apply sqrt_above; [lra | nra].
      * apply sqrt_below; [lra | nra | nra].
Qed.


Lemma new_location_inbetween (n q r : Z) :
  0 < n -> 0 <= r < n ->
  inbetween q (new_location n r) (IZR (n * q + r) / IZR n).
Proof.
  intros Hn Hr.
  assert (0 < IZR n)%R as HN by (apply IZR_lt; lia).
  assert (0 <= IZR r)%R as HR0 by (apply IZR_le; lia).
  assert (IZR r < IZR n)%R as HR1 by (apply IZR_lt; lia).
  set (rho := (IZR r / IZR n)%R).
  assert (rho * IZR n = IZR r)%R as Hrho by (unfold rho; field; lra).
  replace (IZR (n * q + r) / IZR n)%R with (IZR q + rho)%R
    by (rewrite plus_IZR, mult_IZR; unfold rho; field; lra).
  assert (0 <= rho < 1)%R as Hb by (split; nra).
  unfold new_location, new_location_even, new_location_odd.
  destruct (Z.even n) eqn:Ev.
  - destruct (Z.eqb_spec r 0) as [->|Hnz].
    + simpl. simpl in Hrho. nra.
    + destruct (Z.compare_spec (2 * r) n) as [E|L|G]; simpl.
      * apply (f_equal IZR) in E. rewrite mult_IZR in E. nra.
      * apply IZR_lt in L. rewrite mult_IZR in L.
        assert (1 <= IZR r)%R by (apply IZR_le; lia). split; nra.
      * apply IZR_lt in G. rewrite mult_IZR in G. split; nra.
  - destruct (Z.eqb_spec r 0) as [->|Hnz].
    + simpl. simpl in Hrho. nra.
    + assert (2 * r <> n) as Hodd.
      { intros E. rewrite <- E, Z.even_mul in Ev. discriminate. }
      destruct (Z.compare_spec (2 * r + 1) n) as [E|L|G]; simpl.
      * assert (2 * r < n) as L by lia.
        apply IZR_lt in L. rewrite mult_IZR in L.
        assert (1 <= IZR r)%R by (apply IZR_le; lia). split; nra.
      * assert (2 * r < n) as L' by lia.
        apply IZR_lt in L'. rewrite mult_IZR in L'.
        assert (1 <= IZR r)%R by (apply IZR_le; lia). split; nra.
      * assert (n < 2 * r) as G' by lia.
        apply IZR_lt in G'. rewrite mult_IZR in G'. split; nra.
Qed.

Lemma fexp_le (a b : Z) : a <= b -> SpecFloat.fexp prec emax a <= SpecFloat.fexp prec emax b.
Proof. unfold SpecFloat.fexp. lia. Qed.

(** The quotient of two finite values, when it does not underflow, is
    the exact quotient, rounded. *)
Lemma SFdiv_rounded (sx sy : bool) (mx my : positive) (ex ey : Z) :
  (bpow (SpecFloat.emin prec emax)
   <= IZR (Zpos mx) * bpow ex / (IZR (Zpos my) * bpow ey))%R ->
  rounded prec emax (IZR (Zpos mx) * bpow ex / (IZR (Zpos my) * bpow ey)) (xorb sx sy)
    (SFdiv prec emax (S754_finite sx mx ex) (S754_finite sy my ey)).
Proof.
  intros Hmin. unfold SFdiv, SFdiv_core_binary.
  set (d1 := Zdigits2 (Zpos mx)). set (d2 := Zdigits2 (Zpos my)).
  set (M := d1 + ex - (d2 + ey)).
  set (e' := Z.min (SpecFloat.fexp prec emax M) (ex - ey)).
  set (s := ex - ey - e').
  pose proof (Zdigits2_bounds (Zpos mx) ltac:(lia)) as [H1lo H1hi]. fold d1 in H1lo, H1hi.
  pose proof (Zdigits2_bounds (Zpos my) ltac:(lia)) as [H2lo H2hi]. fold d2 in H2lo, H2hi.
  pose proof (Zdigits2_pos (Zpos mx) ltac:(lia)) as Hd1. fold d1 in Hd1.
  pose proof (Zdigits2_pos (Zpos my) ltac:(lia)) as Hd2. fold d2 in Hd2.
  assert (0 <= s) as Hs by (unfold s, e'; lia).
  set (m' := match s with
             | 0 => Zpos mx
             | Zpos _ => Z.shiftl (Zpos mx) s
             | Zneg _ => 0
             end).
  assert (m' = Zpos mx * 2 ^ s) as Em'.
  { unfold m'. destruct s as [|p|p] eqn:Es; try lia.
    now rewrite Z.shiftl_mul_pow2 by lia. }
  clearbody m'.
  pose proof (Z_div_mod m' (Zpos my) ltac:(lia)) as Hq.
  destruct (Z.div_eucl m' (Zpos my)) as [q r]. destruct Hq as [Eq Hr].
  set (X := (IZR (Zpos mx) * bpow ex / (IZR (Zpos my) * bpow ey))%R) in *.
  set (y := (IZR m' / IZR (Zpos my))%R).
  assert (0 < IZR (Zpos my))%R as Hmy by (apply IZR_lt; lia).
  assert (0 < IZR (Zpos mx))%R as Hmx by (apply IZR_lt; lia).
  pose proof (bpow_pos ex) as Hbx. pose proof (bpow_pos ey) as Hby.
  pose proof (bpow_pos e') as Hbe.
  assert (X = y * bpow e')%R as EX.
  { unfold X, y. rewrite Em', mult_IZR, <- bpow_IZR by lia.
    assert (bpow ex = bpow s * bpow e' * bpow ey)%R as ->
      by (rewrite <- !bpow_add; f_equal; unfold s; lia).
    field. lra. }
  assert (inbetween q (new_location (Zpos my) r) y) as Hin
    by (unfold y; rewrite Eq; apply new_location_inbetween; lia).
  (* the magnitude of the quotient *)
  assert (bpow (M - 1) < X)%R as HM.
  { assert (IZR (2 ^ (d1 - 1)) <= IZR (Zpos mx))%R as A1 by (apply IZR_le; lia).
    assert (IZR (Zpos my) < IZR (2 ^ d2))%R as A2 by (apply IZR_lt; lia).
    rewrite <- bpow_IZR in A1, A2 by lia.
    assert (bpow (M - 1) * (bpow d2 * bpow ey) = bpow (d1 - 1) * bpow ex)%R as EM
      by (rewrite <- !bpow_add; f_equal; unfold M; lia).
    pose proof (bpow_pos (M - 1)) as HM1. pose proof (bpow_pos d2) as Hbd2.
    pose proof (bpow_pos (d1 - 1)) as Hbd1.
    unfold X. apply (Rmult_lt_reg_r (IZR (Zpos my) * bpow ey)); [nra|].
    replace (IZR (Zpos mx) * bpow ex / (IZR (Zpos my) * bpow ey) * (IZR (Zpos my) * bpow ey))%R
      with (IZR (Zpos mx) * bpow ex)%R by (field; lra).
    assert (bpow (M - 1) * (IZR (Zpos my) * bpow ey) < bpow (M - 1) * (bpow d2 * bpow ey))%R
      by (apply Rmult_lt_compat_l; [exact HM1 | nra]).
    assert (bpow (d1 - 1) * bpow ex <= IZR (Zpos mx) * bpow ex)%R
      by (apply Rmult_le_compat_r; lra).
    lra. }
  assert (bpow e' <= X)%R as He'.
  { destruct (Z.le_ge_cases (M - prec) (SpecFloat.emin prec emax)) as [L|L].
    - assert (bpow e' <= bpow (SpecFloat.emin prec emax))%R
        by (apply bpow_le; unfold e', SpecFloat.fexp; lia).
      lra.
    - assert (bpow e' <= bpow (M - 1))%R
        by (apply bpow_le; unfold e', SpecFloat.fexp; lia).
      lra. }
  assert (1 <= y)%R as Hy1 by (rewrite EX in He'; nra).
  assert (0 < q) as Hq.
  { apply inbetween_bounds in Hin.
    assert (1 < q + 1); [|lia]. apply lt_IZR. rewrite plus_IZR. lra. }
  assert (M - e' <= Zdigits2 q) as Hdq.
  { pose proof (Zdigits2_pos q Hq).
    destruct (Z.le_gt_cases (M - e') 1) as [L|L]; [lia|].
    assert (M - e' - 1 + 1 <= Zdigits2 q); [|lia].
    apply Zdigits2_ge; [lia|].
    assert (2 ^ (M - e' - 1) < q + 1); [|lia].
    apply lt_IZR. rewrite plus_IZR, <- bpow_IZR by lia.
    apply inbetween_bounds in Hin.
    assert (bpow (M - e' - 1) * bpow e' = bpow (M - 1))%R as EE
      by (rewrite <- bpow_add; f_equal; lia).
    simpl. nra. }
  rewrite EX. apply binary_round_aux_rounded; [exact Hq | exact Hin |].
  pose proof (fexp_le M (Zdigits2 q + e') ltac:(lia)). unfold e' in *. lia.
Qed.

End Rounding.

(** ** Rounding in binary64 *)

Lemma binary64_bounded (x : float) (s : bool) (m : positive) (e : Z) :
  Prim2SF x = S754_finite s m e -> SpecFloat.bounded 53 1024 m e = true.
Proof.
  intros E. pose proof (Prim2SF_valid x) as V. rewrite E in V. exact V.
Qed.

Lemma positive_finite_spec (x : float) :
  positive_finite x = true <-> exists m e, Prim2SF x = S754_finite false m e.
Proof.
  unfold positive_finite. rewrite andb_true_iff, !ltb_spec.
  change (Prim2SF 0%float) with (S754_zero false).
  change (Prim2SF infinity) with (S754_infinity false).
  destruct (Prim2SF x) as [s|s| |s m e]; split.
  all: try (intros [H1 H2]; discriminate).
  all: try (intros (m' & e' & H); discriminate).
  - destruct s; intros [H1 H2]; discriminate.
  - destruct s; intros [H1 H2]; try discriminate. now exists m, e.
  - intros (m' & e' & H). injection H as -> -> ->. split; reflexivity.
Qed.

Lemma magnitude_bounds (m : positive) (e : Z) :
  SpecFloat.bounded 53 1024 m e = true ->
  (bpow (-1074) <= IZR (Zpos m) * bpow e <= bpow 1024 - bpow 971)%R.
Proof.
  intros B. apply (bounded_spec 53 1024 ltac:(lia) ltac:(lia)) in B as ([Hlo Hhi] & Hm & _).
  change (SpecFloat.emin 53 1024) with (-1074)%Z in Hlo.
  assert (1 <= IZR (Zpos m))%R as H1 by (apply IZR_le; lia).
  assert (IZR (Zpos m) <= bpow 53 - 1)%R as H2.
  { rewrite bpow_IZR by lia. rewrite <- minus_IZR. apply IZR_le. lia. }
  pose proof (bpow_pos e) as He.
  pose proof (bpow_le (-1074) e Hlo) as Hl.
  pose proof (bpow_le e 971 ltac:(lia)) as Hh.
  assert (bpow 53 * bpow 971 = bpow 1024)%R as E by (rewrite <- bpow_add; reflexivity).
  split; nra.
Qed.


(** The rounding of binary64: precision 53, largest exponent 1024,
    smallest exponent -1074. *)
Lemma rounded64_infinity_iff (X : R) (s : bool) (r : spec_float) :
  rounded 53 1024 X s r -> r = S754_infinity s <-> (bpow 1024 - bpow 970 <= X)%R.
Proof. apply (rounded_infinity_iff 53 1024); lia. Qed.

Lemma rounded64_nonzero (X : R) (s s' : bool) (r : spec_float) :
  rounded 53 1024 X s r -> (bpow (-1074) <= X)%R -> r <> S754_zero s'.
Proof. apply (rounded_nonzero 53 1024); lia. Qed.

Lemma rounded64_value_ge (X : R) (s s' : bool) (m : positive) (e k : Z) :
  rounded 53 1024 X s (S754_finite s' m e) ->
  (-1074 <= k)%Z -> (bpow k <= X)%R -> (bpow k <= IZR (Zpos m) * bpow e)%R.
Proof. apply (rounded_value_ge 53 1024); lia. Qed.

Lemma rounded64_value_below (X : R) (s s' : bool) (m : positive) (e k : Z) :
  rounded 53 1024 X s (S754_finite s' m e) ->
  (-1074 <= k - 53)%Z -> (X < bpow k - bpow (k - 53 - 1))%R ->
  (IZR (Zpos m) * bpow e <= bpow k - bpow (k - 53))%R.
Proof. apply (rounded_value_below 53 1024); lia. Qed.

Lemma rounded64_value_near (X : R) (s s' : bool) (m : positive) (e : Z) :
  rounded 53 1024 X s (S754_finite s' m e) ->
  (bpow (-1022) <= X)%R ->
  (X * (1 - bpow (-53)) <= IZR (Zpos m) * bpow e <= X * (1 + bpow (-53)))%R.
Proof. apply (rounded_value_near 53 1024); lia. Qed.

Lemma mul64_rounded (x y : float) (sx sy : bool) (mx my : positive) (ex ey : Z) :
  Prim2SF x = S754_finite sx mx ex -> Prim2SF y = S754_finite sy my ey ->
  rounded 53 1024 (IZR (Zpos mx) * bpow ex * (IZR (Zpos my) * bpow ey)) (xorb sx sy)
    (Prim2SF (x * y)).
Proof.
  intros Ex Ey. rewrite mul_spec, Ex, Ey.
  apply (SFmul_rounded 53 1024); try lia.
  - exact (binary64_bounded x _ _ _ Ex).
  - exact (binary64_bounded y _ _ _ Ey).
Qed.

Lemma sqrt64_rounded (x : float) (mx : positive) (ex : Z) :
  Prim2SF x = S754_finite false mx ex ->
  rounded 53 1024 (R_sqrt.sqrt (IZR (Zpos mx) * bpow ex)) false (Prim2SF (PrimFloat.sqrt x)).
Proof.
  intros Ex. rewrite sqrt_spec, Ex. apply (SFsqrt_rounded 53 1024); lia.
Qed.

Lemma div64_rounded (x y : float) (sx sy : bool) (mx my : positive) (ex ey : Z) :
  Prim2SF x = S754_finite sx mx ex -> Prim2SF y = S754_finite sy my ey ->
  (bpow (-1074) <= IZR (Zpos mx) * bpow ex / (IZR (Zpos my) * bpow ey))%R ->
  rounded 53 1024 (IZR (Zpos mx) * bpow ex / (IZR (Zpos my) * bpow ey)) (xorb sx sy)
    (Prim2SF (x / y)).
Proof.
  intros Ex Ey H. rewrite div_spec, Ex, Ey. apply (SFdiv_rounded 53 1024); [lia | exact H].
Qed.

(** ** Values that are numbers *)

Lemma inbetween_exists (m : Z) (l : location) : exists y, inbetween m l y.
Proof.
  destruct l as [|[]].
  - exists (IZR m). reflexivity.
  - exists (IZR m + / 2)%R. reflexivity.
  - exists (IZR m + / 4)%R. simpl. lra.
  - exists (IZR m + 3 / 4)%R. simpl. lra.
Qed.

Lemma binary_round_aux_not_nan (prec emax : Z) (s : bool) (m e : Z) (l : location) :
  (0 <= m)%Z -> binary_round_aux prec emax s m e l <> S754_nan.
Proof.
  intros Hm. unfold binary_round_aux.
  destruct (inbetween_exists m l) as [y Hy].
  destruct (shr_fexp_spec prec emax m l y e Hm Hy) as (_ & H2 & _).
  destruct (shr_fexp prec emax m e l) as [mrs' e']. simpl in H2.
  assert (0 <= shr_m mrs')%Z as Hm1
    by (rewrite H2; apply Z.div_pos; [lia | apply Z.pow_pos_nonneg; lia]).
  pose proof (round_nearest_even_ge (shr_m mrs') (loc_of_shr_record mrs')) as Hn.
  set (n := round_nearest_even (shr_m mrs') (loc_of_shr_record mrs')) in *.
  destruct (shr_fexp_spec prec emax n loc_Exact (IZR n) e' ltac:(lia) eq_refl) as (_ & G2 & _).
  destruct (shr_fexp prec emax n e' loc_Exact) as [mrs'' e'']. simpl in G2.
  assert (0 <= shr_m mrs'')%Z as Hm2
    by (rewrite G2; apply Z.div_pos; [lia | apply Z.pow_pos_nonneg; lia]).
  destruct (shr_m mrs'') as [|p|p]; try lia; try discriminate.
  destruct (e'' <=? emax - prec)%Z; discriminate.
Qed.

Lemma SFadd_finite_inv (prec emax : Z) (x y : spec_float) :
  finite_spec (SFadd prec emax x y) = true -> finite_spec x = true /\ finite_spec y = true.
Proof.
  destruct x as [sx|sx| |sx mx ex], y as [sy|sy| |sy my ey]; simpl; auto;
    try discriminate; destruct sx, sy; simpl; auto; discriminate.
Qed.

Lemma SFmul_finite_inv (prec emax : Z) (x y : spec_float) :
  finite_spec (SFmul prec emax x y) = true -> finite_spec x = true /\ finite_spec y = true.
Proof.
  destruct x as [sx|sx| |sx mx ex], y as [sy|sy| |sy my ey]; simpl; auto; discriminate.
Qed.

Lemma SFadd_not_nan (x y : spec_float) :
  SpecFloat.valid_binary 53 1024 x = true -> SpecFloat.valid_binary 53 1024 y = true ->
  x <> S754_nan -> finite_spec y = true -> SFadd 53 1024 x y <> S754_nan.
Proof.
  intros Vx Vy Hx Hy.
  destruct x as [sx|sx| |sx mx ex], y as [sy|sy| |sy my ey]; simpl; try discriminate;
    try contradiction.
  - destruct sx, sy; discriminate.
  - simpl in Vx, Vy.
    apply (bounded_spec 53 1024 ltac:(lia) ltac:(lia)) in Vx as ([Hlx _] & _ & _).
    apply (bounded_spec 53 1024 ltac:(lia) ltac:(lia)) in Vy as ([Hly _] & _ & _).
    set (D := (cond_Zopp sx (Zpos (fst (shl_align mx ex (Z.min ex ey))))
               + cond_Zopp sy (Zpos (fst (shl_align my ey (Z.min ex ey)))))%Z).
    unfold binary_normalize. destruct D as [|p|p]; [discriminate| |].
    + destruct (binary_round_sign 53 1024 ltac:(lia) false p (Z.min ex ey) ltac:(lia))
        as [->|(m' & e' & ->)]; discriminate.
    + destruct (binary_round_sign 53 1024 ltac:(lia) true p (Z.min ex ey) ltac:(lia))
        as [->|(m' & e' & ->)]; discriminate.
Qed.

Lemma SFdiv_not_nan (x : spec_float) (s : bool) (m : positive) (e : Z) :
  x <> S754_nan -> SFdiv 53 1024 x (S754_finite s m e) <> S754_nan.
Proof.
  intros Hx. destruct x as [sx|sx| |sx mx ex]; simpl; try discriminate; try contradiction.
  unfold SFdiv_core_binary.
  set (s' := (ex - e - Z.min (SpecFloat.fexp 53 1024 (Zdigits2 (Zpos mx) + ex - (Zdigits2 (Zpos m) + e))) (ex - e))%Z).
  set (m' := match s' with
             | 0%Z => Zpos mx
             | Zpos _ => Z.shiftl (Zpos mx) s'
             | Zneg _ => 0%Z
             end).
  assert (0 <= m')%Z as Hm'.
  { unfold m'. destruct s' as [|p|p]; try lia. apply Z.shiftl_nonneg. lia. }
  pose proof (Z_div_mod m' (Zpos m) ltac:(lia)) as Hq.
  destruct (Z.div_eucl m' (Zpos m)) as [q r]. destruct Hq as [Eq Hr].
  apply binary_round_aux_not_nan. nia.
Qed.

Lemma finite_spec_not_nan (x : spec_float) : finite_spec x = true -> x <> S754_nan.
Proof. now destruct x. Qed.

(** ** The arithmetic of [cosineSimilarity] without overflow and underflow *)

Lemma bpow_sum (a b c : Z) : (a + b = c)%Z -> (bpow a * bpow b = bpow c)%R.
Proof. intros <-. symmetry. apply bpow_add. Qed.

Lemma overflow_threshold_pos : (0 < bpow 1024 - bpow 970)%R.
Proof. pose proof (bpow_lt 970 1024 ltac:(lia)). lra. Qed.

(** A square that is a number comes from a number. *)
Lemma square_small (a : float) :
  finite_spec (Prim2SF (a * a)) = true ->
  finite_spec (Prim2SF a) = true
  /\ (magnitude (Prim2SF a) * magnitude (Prim2SF a) < bpow 1024 - bpow 970)%R.
Proof.
  intros H. pose proof H as H'. rewrite mul_spec in H'.
  apply SFmul_finite_inv in H' as [Ha _]. split; [exact Ha|].
  destruct (Prim2SF a) as [s|s| |s m e] eqn:E; try discriminate.
  - simpl. pose proof overflow_threshold_pos. lra.
  - pose proof (mul64_rounded a a s s m m e e E E) as Hr.
    simpl magnitude.
    destruct (Rlt_le_dec (IZR (Zpos m) * bpow e * (IZR (Zpos m) * bpow e))
                (bpow 1024 - bpow 970)) as [L|L]; [exact L|].
    apply (rounded64_infinity_iff _ _ _ Hr) in L.
    rewrite L in H. discriminate.
Qed.

Lemma product_finite (a b : float) :
  finite_spec (Prim2SF a) = true -> finite_spec (Prim2SF b) = true ->
  (magnitude (Prim2SF a) * magnitude (Prim2SF a) < bpow 1024 - bpow 970)%R ->
  (magnitude (Prim2SF b) * magnitude (Prim2SF b) < bpow 1024 - bpow 970)%R ->
  finite_spec (Prim2SF (a * b)) = true.
Proof.
  intros Fa Fb Ha Hb.
  destruct (Prim2SF a) as [sa|sa| |sa ma ea] eqn:Ea; try discriminate;
    destruct (Prim2SF b) as [sb|sb| |sb mb eb] eqn:Eb; try discriminate.
  1-3: rewrite mul_spec, Ea, Eb; reflexivity.
  pose proof (mul64_rounded a b _ _ _ _ _ _ Ea Eb) as Hr.
  simpl magnitude in Ha, Hb.
  set (A := (IZR (Zpos ma) * bpow ea)%R) in *. set (B := (IZR (Zpos mb) * bpow eb)%R) in *.
  assert (A * B < bpow 1024 - bpow 970)%R as L by nra.
  destruct (rounded_forms 53 1024 _ _ _ Hr) as [->|[E|(m & e & ->)]]; try reflexivity.
  apply (rounded64_infinity_iff _ _ _ Hr) in E. lra.
Qed.

Lemma squares_fold_finite (vec : list float) (acc : float) :
  finite_spec (Prim2SF (fold_left (fun sum a => (sum + a * a)%float) vec acc)) = true ->
  finite_spec (Prim2SF acc) = true
  /\ Forall (fun a => finite_spec (Prim2SF (a * a)) = true) vec.
Proof.
  revert acc. induction vec as [|a vec IH]; intros acc H; simpl in H.
  - split; [exact H | constructor].
  - apply IH in H as [H1 H2]. rewrite add_spec in H1.
    apply SFadd_finite_inv in H1 as [Hacc Ha]. split; [exact Hacc|].
    constructor; assumption.
Qed.

Lemma sum_squares_fold (vec : list float) :
  sum_squares vec = fold_left (fun sum a => (sum + a * a)%float) vec 0%float.
Proof. unfold sum_squares, reduce. apply squares_reduce. Qed.

Lemma norm_sum_squares (vec : list float) : norm vec = PrimFloat.sqrt (sum_squares vec).
Proof. reflexivity. Qed.

Lemma positive_finite_is_finite (x : float) :
  positive_finite x = true -> finite_spec (Prim2SF x) = true.
Proof. intros H. apply positive_finite_spec in H as (m & e & ->). reflexivity. Qed.

(** The components of a vector whose sum of squares is a number. *)
Lemma components_small (vec : list float) :
  finite_spec (Prim2SF (sum_squares vec)) = true ->
  Forall (fun a => finite_spec (Prim2SF a) = true
                   /\ (magnitude (Prim2SF a) * magnitude (Prim2SF a)
                       < bpow 1024 - bpow 970)%R) vec.
Proof.
  rewrite sum_squares_fold. intros H. apply squares_fold_finite in H as [_ H].
  revert H. apply Forall_impl. intros a. apply square_small.
Qed.

Lemma pairs_fold_not_nan (pairs : list (float * float)) (acc : float) :
  Forall (fun ab => finite_spec (Prim2SF (fst ab * snd ab)) = true) pairs ->
  Prim2SF acc <> S754_nan ->
  Prim2SF (fold_left (fun sum ab => (sum + fst ab * snd ab)%float) pairs acc) <> S754_nan.
Proof.
  intros H. revert acc. induction H as [|ab pairs Hab _ IH]; intros acc Hacc; simpl.
  - exact Hacc.
  - apply IH. rewrite add_spec.
    apply SFadd_not_nan; auto using Prim2SF_valid.
Qed.

(** With no overflow in the sums of squares, the dot product is a
    number. *)
Lemma dotProduct_not_nan (vecA vecB : list float) :
  List.length vecA = List.length vecB ->
  finite_spec (Prim2SF (sum_squares vecA)) = true ->
  finite_spec (Prim2SF (sum_squares vecB)) = true ->
  Prim2SF (dotProduct vecA vecB) <> S754_nan.
Proof.
  intros Hlen HA HB. unfold dotProduct.
  rewrite (dotProduct_pairs _ _ _ _ _ vecA vecB Hlen).
  apply pairs_fold_not_nan; [|discriminate].
  apply components_small in HA. apply components_small in HB.
  rewrite Forall_forall in HA, HB |- *.
  intros [a b] Hin. simpl.
  destruct (HA a (in_combine_l _ _ _ _ Hin)) as [Fa Sa].
  destruct (HB b (in_combine_r _ _ _ _ Hin)) as [Fb Sb].
  now apply product_finite.
Qed.

Lemma sqrt_bpow (k : Z) : R_sqrt.sqrt (bpow (2 * k)) = bpow k.
Proof.
  rewrite <- (Rmult_1_l (bpow (2 * k))). rewrite sqrt_scaled by lra.
  rewrite sqrt_1. lra.
Qed.

(** The square root of a positive finite number. *)
Lemma sqrt64_finite (x : float) (mx : positive) (ex : Z) :
  Prim2SF x = S754_finite false mx ex ->
  exists m e,
    Prim2SF (PrimFloat.sqrt x) = S754_finite false m e
    /\ rounded 53 1024 (R_sqrt.sqrt (IZR (Zpos mx) * bpow ex)) false (S754_finite false m e)
    /\ (bpow (-537) <= IZR (Zpos m) * bpow e <= bpow 512 - bpow 459)%R.
Proof.
  intros E.
  pose proof (magnitude_bounds mx ex (binary64_bounded x _ _ _ E)) as [Hlo Hhi].
  set (X := (IZR (Zpos mx) * bpow ex)%R) in *.
  pose proof (sqrt64_rounded x mx ex E) as Hr. fold X in Hr.
  assert (bpow (-537) <= R_sqrt.sqrt X)%R as Hs1.
  { rewrite <- (sqrt_bpow (-537)). apply sqrt_le_1_alt. exact Hlo. }
  assert (R_sqrt.sqrt X < bpow 512 - bpow 458)%R as Hs2.
  { pose proof (bpow_lt 458 512 ltac:(lia)). pose proof (bpow_pos 458).
    pose proof (bpow_pos 916).
    pose proof (bpow_sum 512 512 1024 eq_refl). pose proof (bpow_sum 512 458 970 eq_refl).
    pose proof (bpow_sum 458 458 916 eq_refl). pose proof (bpow_succ 970) as H971.
    change (970 + 1)%Z with 971%Z in H971.
    pose proof (bpow_pos (-1074)).
    apply sqrt_below; [lra | lra | nra]. }
  destruct (rounded_forms 53 1024 _ _ _ Hr) as [Z|[I|(m & e & F)]].
  - exfalso. revert Z. apply (rounded64_nonzero _ false false _ Hr).
    pose proof (bpow_le (-1074) (-537) ltac:(lia)). lra.
  - exfalso. apply (rounded64_infinity_iff _ _ _ Hr) in I.
    pose proof (bpow_lt 512 1023 ltac:(lia)). pose proof (bpow_lt 970 1023 ltac:(lia)).
    pose proof (bpow_succ 1023) as H1024. change (1023 + 1)%Z with 1024%Z in H1024.
    pose proof (bpow_pos 458). lra.
  - rewrite F in Hr |- *. exists m, e. split; [reflexivity|]. split; [exact Hr|]. split.
    + apply (rounded64_value_ge _ _ _ _ _ (-537) Hr); [lia | exact Hs1].
    + apply (rounded64_value_below _ _ _ _ _ 512 Hr); [lia | exact Hs2].
Qed.

(** The product of two such roots is a positive finite number. *)
Lemma norms_product_finite (x y : float) (mx my : positive) (ex ey : Z) :
  Prim2SF x = S754_finite false mx ex -> Prim2SF y = S754_finite false my ey ->
  (bpow (-537) <= IZR (Zpos mx) * bpow ex <= bpow 512 - bpow 459)%R ->
  (bpow (-537) <= IZR (Zpos my) * bpow ey <= bpow 512 - bpow 459)%R ->
  exists m e,
    Prim2SF (x * y) = S754_finite false m e
    /\ rounded 53 1024 (IZR (Zpos mx) * bpow ex * (IZR (Zpos my) * bpow ey)) false
         (S754_finite false m e).
Proof.
  intros Ex Ey Hx Hy.
  pose proof (mul64_rounded x y _ _ _ _ _ _ Ex Ey) as Hr. simpl xorb in Hr.
  set (A := (IZR (Zpos mx) * bpow ex)%R) in *. set (B := (IZR (Zpos my) * bpow ey)%R) in *.
  pose proof (bpow_pos (-537)) as Hp.
  pose proof (bpow_sum (-537) (-537) (-1074) eq_refl) as Hmin.
  pose proof (bpow_sum 512 512 1024 eq_refl) as H1.
  pose proof (bpow_sum 512 459 971 eq_refl) as H2.
  pose proof (bpow_sum 459 459 918 eq_refl) as H3.
  pose proof (bpow_succ 970) as H971. change (970 + 1)%Z with 971%Z in H971.
  pose proof (bpow_lt 918 970 ltac:(lia)) as H4.
  pose proof (bpow_lt 459 512 ltac:(lia)) as H5. pose proof (bpow_pos 459) as H6.
  assert (bpow (-1074) <= A * B)%R as Hlo by nra.
  assert (A * B < bpow 1024 - bpow 970)%R as Hhi.
  { assert (A * B <= (bpow 512 - bpow 459) * (bpow 512 - bpow 459))%R by nra.
    assert ((bpow 512 - bpow 459) * (bpow 512 - bpow 459)
            = bpow 1024 - 2 * bpow 971 + bpow 918)%R as Hsq by nra.
    pose proof (bpow_pos 970). lra. }
  destruct (rounded_forms 53 1024 _ _ _ Hr) as [Z|[I|(m & e & F)]].
  - exfalso. revert Z. apply (rounded64_nonzero _ false false _ Hr).
    exact Hlo.
  - exfalso. apply (rounded64_infinity_iff _ _ _ Hr) in I. lra.
  - exists m, e. split; [exact F|]. rewrite <- F. exact Hr.
Qed.

Section ThreeRoundings.

Local Open Scope R_scope.

(** A quotient [x = rho^2 / vp], where [vp] is the rounded square of the
    rounded [rho], rounded: with a relative error [u] in each of the
    three roundings the result is within [5 u] of 1. *)
Lemma quotient_near_one (u rho vr vp x vq : R) :
  0 < u <= / 16 -> 0 < rho ->
  rho * (1 - u) <= vr <= rho * (1 + u) ->
  vr * vr * (1 - u) <= vp <= vr * vr * (1 + u) ->
  x * vp = rho * rho ->
  x * (1 - u) <= vq <= x * (1 + u) ->
  1 - 5 * u <= vq <= 1 + 5 * u.
Proof.
  intros Hu Hrho H1 H2 Hx H3.
  set (a := 1 - u) in *. set (b := 1 + u) in *.
  assert (0 < a) as Ha by (unfold a; lra).
  assert (0 < b) as Hb by (unfold b; lra).
  assert (0 < rho * a) as Hra by (apply Rmult_lt_0_compat; lra).
  assert (0 < vr) as Hvr by lra.
  assert (rho * rho * (a * a) <= vr * vr <= rho * rho * (b * b)) as S1.
  { split.
    - replace (rho * rho * (a * a)) with (rho * a * (rho * a)) by ring.
      apply Rmult_le_compat; lra.
    - replace (rho * rho * (b * b)) with (rho * b * (rho * b)) by ring.
      apply Rmult_le_compat; lra. }
  assert (0 < rho * rho) as Hr2 by (apply Rmult_lt_0_compat; lra).
  assert (0 < a * a) as Ha2 by (apply Rmult_lt_0_compat; lra).
  assert (0 < b * b) as Hb2 by (apply Rmult_lt_0_compat; lra).
  assert (0 < vr * vr) as Hvr2 by (apply Rmult_lt_0_compat; lra).
  set (a3 := a * a * a). set (b3 := b * b * b).
  assert (0 < a3) as Ha3 by (unfold a3; apply Rmult_lt_0_compat; lra).
  assert (0 < b3) as Hb3 by (unfold b3; apply Rmult_lt_0_compat; lra).
  assert (rho * rho * a3 <= vp <= rho * rho * b3) as S2.
  { unfold a3, b3. split.
    - apply Rle_trans with (vr * vr * a); [|lra].
      replace (rho * rho * (a * a * a)) with (rho * rho * (a * a) * a) by ring.
      apply Rmult_le_compat_r; lra.
    - apply Rle_trans with (vr * vr * b); [lra|].
      replace (rho * rho * (b * b * b)) with (rho * rho * (b * b) * b) by ring.
      apply Rmult_le_compat_r; lra. }
  assert (0 < vp) as Hvp.
  { apply Rlt_le_trans with (vr * vr * a); [apply Rmult_lt_0_compat; lra | lra]. }
  assert (0 < x) as Hxp.
  { destruct (Rlt_le_dec 0 x) as [L|L]; [exact L|]. exfalso.
    assert (x * vp <= 0) by (rewrite <- (Rmult_0_l vp); apply Rmult_le_compat_r; lra).
    lra. }
  assert (x * a3 <= 1 <= x * b3) as S3.
  { split.
    - apply (Rmult_le_reg_r (rho * rho)); [exact Hr2|].
      replace (x * a3 * (rho * rho)) with (x * (rho * rho * a3)) by ring.
      apply Rle_trans with (x * vp); [apply Rmult_le_compat_l; lra | lra].
    - apply (Rmult_le_reg_r (rho * rho)); [exact Hr2|].
      replace (x * b3 * (rho * rho)) with (x * (rho * rho * b3)) by ring.
      apply Rle_trans with (x * vp); [lra | apply Rmult_le_compat_l; lra]. }
  assert (b <= (1 + 5 * u) * a3) as P1.
  { unfold a3, a, b.
    assert (0 <= u * u) by nra. assert (u * u <= u / 16) by nra.
    assert (0 <= u * u * u) by nra. assert (u * u * u <= u * u / 16) by nra.
    assert (0 <= u * u * u * u) by nra. assert (u * u * u * u <= u * u * u / 16) by nra.
    nra. }
  assert ((1 - 5 * u) * b3 <= a) as P2.
  { unfold b3, a, b.
    assert (0 <= u * u) by nra. assert (0 <= u * u * u) by nra.
    assert (0 <= u * u * u * u) by nra. nra. }
  split.
  - apply (Rmult_le_reg_r b3); [exact Hb3|].
    apply Rle_trans with a; [exact P2|].
    apply Rle_trans with (x * a * b3).
    + replace (x * a * b3) with (a * (x * b3)) by ring.
      rewrite <- (Rmult_1_r a) at 1. apply Rmult_le_compat_l; lra.
    + apply Rmult_le_compat_r; lra.
  - apply (Rmult_le_reg_r a3); [exact Ha3|].
    apply Rle_trans with b; [|exact P1].
    apply Rle_trans with (x * b * a3).
    + apply Rmult_le_compat_r; lra.
    + replace (x * b * a3) with (b * (x * a3)) by ring.
      rewrite <- (Rmult_1_r b) at 2. apply Rmult_le_compat_l; lra.
Qed.

End ThreeRoundings.

(** ** The divisor of [cosineSimilarity] *)

Lemma is_nan_false (x : float) : Prim2SF x <> S754_nan -> is_nan x = false.
Proof.
  intros H. destruct (is_nan x) eqn:E; [|reflexivity].
  apply is_nan_spec in E. contradiction.
Qed.

Lemma positive_sum_nonzero (vec : list float) :
  positive_finite (sum_squares vec) = true -> nonzero_vector vec.
Proof.
  intros H. apply positive_finite_spec in H as (m & e & E).
  destruct (Forall_Exists_dec (fun c => is_zero c = true)
              (fun c => bool_dec (is_zero c) true) vec) as [Hall|Hex].
  - exfalso.
    pose proof (squares_zero_or_nan vec 0 0%float
                  (zero_vector_zero_or_nan vec Hall) eq_refl) as Hz.
    fold (reduce (fun sum a (_ : nat) => (sum + a * a)%float) 0%float vec) in Hz.
    fold (sum_squares vec) in Hz.
    apply zero_or_nan_iff in Hz. rewrite E in Hz. discriminate.
  - unfold nonzero_vector. revert Hex. apply Exists_impl.
    intros c Hc. now apply not_true_is_false.
Qed.

(** The divisor, without underflow and overflow in the sums of squares. *)
Lemma denominator_positive_finite (vecA vecB : list float) :
  positive_finite (sum_squares vecA) = true ->
  positive_finite (sum_squares vecB) = true ->
  positive_finite (denominator vecA vecB) = true.
Proof.
  intros HA HB.
  apply positive_finite_spec in HA as (mA & eA & EA).
  apply positive_finite_spec in HB as (mB & eB & EB).
  destruct (sqrt64_finite _ _ _ EA) as (ma & ea & Ea & _ & Ba).
  destruct (sqrt64_finite _ _ _ EB) as (mb & eb & Eb & _ & Bb).
  destruct (norms_product_finite _ _ _ _ _ _ Ea Eb Ba Bb) as (m & e & E & _).
  apply positive_finite_spec. exists m, e. exact E.
Qed.

(** ** The similarity of a vector with itself *)

Lemma dotProduct_self (vec : list float) : dotProduct vec vec = sum_squares vec.
Proof.
  unfold dotProduct. rewrite (dotProduct_pairs _ _ _ _ _ vec vec eq_refl).
  rewrite fold_pairs_diagonal. symmetry. apply sum_squares_fold.
Qed.

Lemma relative_error_small : (0 < bpow (-53) <= / 64)%R.
Proof.
  split; [apply bpow_pos|].
  pose proof (bpow_le (-53) (-6) ltac:(lia)).
  pose proof (bpow_sum (-6) 6 0 eq_refl) as E. rewrite bpow_0 in E.
  assert (bpow 6 = 64)%R as E64 by (rewrite bpow_IZR by lia; reflexivity).
  rewrite E64 in E. lra.
Qed.

(** A binary64 value within [7 * 2^-53] of 1 is one of eleven values,
    all of them within [2^-50] of 1. *)
Lemma near_one_tolerance (q : float) (m : positive) (e : Z) :
  Prim2SF q = S754_finite false m e ->
  (1 - 7 * bpow (-53) <= IZR (Zpos m) * bpow e <= 1 + 7 * bpow (-53))%R ->
  (abs (q - 1) <=? 0x1p-50)%float = true.
Proof.
  intros E [Hlo Hhi].
  pose proof (binary64_bounded q _ _ _ E) as B.
  apply (bounded_spec 53 1024 ltac:(lia) ltac:(lia)) in B as ([He1 He2] & Hm & Hn).
  change (SpecFloat.emin 53 1024) with (-1074)%Z in He1, Hn.
  pose proof (bpow_pos e) as Hpe. destruct relative_error_small as [Hu Hu64].
  assert (IZR (Zpos m) <= bpow 53 - 1)%R as Hm'.
  { rewrite bpow_IZR by lia. rewrite <- minus_IZR. apply IZR_le. lia. }
  assert (1 <= IZR (Zpos m))%R as Hm1 by (apply IZR_le; lia).
  assert (-54 < e)%Z as Hlow.
  { destruct (Z.lt_ge_cases (-54) e) as [L|L]; [exact L|]. exfalso.
    pose proof (bpow_le e (-54) L) as H54.
    pose proof (bpow_sum 53 (-54) (-1) eq_refl) as E1.
    pose proof (bpow_pred 0) as E2. rewrite bpow_0 in E2. change (0 - 1)%Z with (-1)%Z in E2.
    pose proof (bpow_pos 53). pose proof (bpow_pos (-54)).
    assert (IZR (Zpos m) * bpow e <= bpow 53 * bpow (-54))%R by (apply Rmult_le_compat; lra).
    lra. }
  assert (e < -51)%Z as Hhigh.
  { destruct (Z.lt_ge_cases e (-51)) as [L|L]; [exact L|]. exfalso.
    specialize (Hn ltac:(lia)).
    apply IZR_le in Hn. rewrite <- bpow_IZR in Hn by lia. change (53 - 1)%Z with 52%Z in Hn.
    pose proof (bpow_le (-51) e ltac:(lia)) as H51.
    pose proof (bpow_sum 52 (-51) 1 eq_refl) as E1. rewrite bpow_1 in E1.
    pose proof (bpow_pos 52). pose proof (bpow_pos (-51)).
    assert (bpow 52 * bpow (-51) <= IZR (Zpos m) * bpow e)%R by (apply Rmult_le_compat; lra).
    lra. }
  rewrite <- (SF2Prim_Prim2SF q), E.
  assert (e = -53 \/ e = -52)%Z as [-> | ->] by lia.
  - pose proof (bpow_sum (-53) 53 0 eq_refl) as E0. rewrite bpow_0 in E0.
    assert (IZR (2 ^ 53 - 7) <= IZR (Zpos m))%R as Hc.
    { rewrite minus_IZR, <- bpow_IZR by lia. pose proof (bpow_pos 53). nra. }
    apply le_IZR in Hc.
    assert (m = 9007199254740985 \/ m = 9007199254740986 \/ m = 9007199254740987
            \/ m = 9007199254740988 \/ m = 9007199254740989
            \/ m = 9007199254740990 \/ m = 9007199254740991)%positive
      as [-> | [-> | [-> | [-> | [-> | [-> | ->]]]]]] by lia; vm_compute; reflexivity.
  - specialize (Hn ltac:(lia)).
    pose proof (bpow_sum (-52) 52 0 eq_refl) as E0. rewrite bpow_0 in E0.
    pose proof (bpow_succ (-53)) as E1. change (-53 + 1)%Z with (-52)%Z in E1.
    assert (IZR (Zpos m) < IZR (2 ^ 52 + 4))%R as Hc.
    { rewrite plus_IZR, <- bpow_IZR by lia. pose proof (bpow_pos 52). nra. }
    apply lt_IZR in Hc.
    assert (m = 4503599627370496 \/ m = 4503599627370497 \/ m = 4503599627370498
            \/ m = 4503599627370499)%positive
      as [-> | [-> | [-> | ->]]] by lia; vm_compute; reflexivity.
Qed.

(** The last rounding: a quotient within [5 * 2^-53] of 1. *)
Lemma quotient_tolerance (x y : float) (mx my : positive) (ex ey : Z) :
  Prim2SF x = S754_finite false mx ex -> Prim2SF y = S754_finite false my ey ->
  (1 - 5 * bpow (-53) <= IZR (Zpos mx) * bpow ex / (IZR (Zpos my) * bpow ey)
   <= 1 + 5 * bpow (-53))%R ->
  (abs (x / y - 1) <=? 0x1p-50)%float = true.
Proof.
  intros Ex Ey HX. destruct relative_error_small as [Hu Hu64].
  set (X := (IZR (Zpos mx) * bpow ex / (IZR (Zpos my) * bpow ey))%R) in *.
  pose proof (bpow_le (-1074) (-1) ltac:(lia)) as Hm1.
  pose proof (bpow_le (-1022) (-1) ltac:(lia)) as Hm2.
  pose proof (bpow_pred 0) as Eh. rewrite bpow_0 in Eh. change (0 - 1)%Z with (-1)%Z in Eh.
  pose proof (div64_rounded x y _ _ _ _ _ _ Ex Ey ltac:(fold X; lra)) as Rq.
  fold X in Rq. simpl xorb in Rq.
  destruct (rounded_forms 53 1024 _ _ _ Rq) as [Z|[I|(mq & eq & Eq)]].
  - exfalso. revert Z. apply (rounded64_nonzero _ false false _ Rq). lra.
  - exfalso. apply (rounded64_infinity_iff _ _ _ Rq) in I.
    pose proof (bpow_lt 970 1023 ltac:(lia)). pose proof (bpow_le 1 1023 ltac:(lia)) as H2.
    rewrite bpow_1 in H2.
    pose proof (bpow_succ 1023) as H1024. change (1023 + 1)%Z with 1024%Z in H1024.
    lra.
  - rewrite Eq in Rq.
    pose proof (rounded64_value_near _ _ _ _ _ Rq ltac:(lra)) as Nq.
    apply (near_one_tolerance _ mq eq Eq). split; nra.
Qed.

(** The square of the rounded root of a positive finite number [S],
    rounded: [S] is within [5 * 2^-53] of it, relatively. *)
Lemma root_squared_ratio (S : float) (mS : positive) (eS : Z) :
  Prim2SF S = S754_finite false mS eS ->
  exists mp ep,
    Prim2SF (PrimFloat.sqrt S * PrimFloat.sqrt S) = S754_finite false mp ep
    /\ (1 - 5 * bpow (-53) <= IZR (Zpos mS) * bpow eS / (IZR (Zpos mp) * bpow ep)
        <= 1 + 5 * bpow (-53))%R.
Proof.
  intros ES. destruct relative_error_small as [Hu Hu64].
  pose proof (binary64_bounded S _ _ _ ES) as BS.
  pose proof (magnitude_bounds mS eS BS) as [HSlo HShi].
  set (XS := (IZR (Zpos mS) * bpow eS)%R) in *.
  pose proof (bpow_pos (-1074)) as H1074.
  (* the norm *)
  destruct (sqrt64_finite _ _ _ ES) as (mr & er & Er & Rr & Br). fold XS in Rr.
  set (rho := R_sqrt.sqrt XS) in *.
  assert (bpow (-537) <= rho)%R as Hrho.
  { unfold rho. rewrite <- (sqrt_bpow (-537)). apply sqrt_le_1_alt. exact HSlo. }
  pose proof (bpow_pos (-537)) as H537.
  pose proof (bpow_le (-1022) (-537) ltac:(lia)) as Hle.
  assert (rho * rho = XS)%R as Hsq by (apply sqrt_sqrt; lra).
  assert (0 < rho)%R as Hrho0 by lra.
  pose proof (rounded64_value_near _ _ _ _ _ Rr ltac:(lra)) as Nr.
  set (Vr := (IZR (Zpos mr) * bpow er)%R) in *.
  assert (0 < Vr)%R as HVr by nra.
  (* the product of the norms *)
  destruct (norms_product_finite _ _ _ _ _ _ Er Er Br Br) as (mp & ep & Ep & Rp).
  fold Vr in Rp.
  exists mp, ep. split; [exact Ep|].
  set (Vp := (IZR (Zpos mp) * bpow ep)%R) in *.
  assert (0 < Vp)%R as HVp.
  { unfold Vp. apply Rmult_lt_0_compat; [apply IZR_lt; lia | apply bpow_pos]. }
  assert (XS * ((1 - bpow (-53)) * (1 - bpow (-53))) <= Vr * Vr
          <= XS * ((1 + bpow (-53)) * (1 + bpow (-53))))%R as Hr2.
  { rewrite <- Hsq. split.
    - replace (rho * rho * ((1 - bpow (-53)) * (1 - bpow (-53))))%R
        with (rho * (1 - bpow (-53)) * (rho * (1 - bpow (-53))))%R by ring.
      apply Rmult_le_compat; nra.
    - replace (rho * rho * ((1 + bpow (-53)) * (1 + bpow (-53))))%R
        with (rho * (1 + bpow (-53)) * (rho * (1 + bpow (-53))))%R by ring.
      apply Rmult_le_compat; nra. }
  destruct (Rle_lt_dec (bpow (-1022)) XS) as [Hnormal|Hsub].
  - (* the normal range: three relative errors *)
    pose proof (bpow_sum (-511) (-511) (-1022) eq_refl) as E511.
    assert (bpow (-511) <= rho)%R as Hrho'.
    { unfold rho. rewrite <- (sqrt_bpow (-511)). apply sqrt_le_1_alt. exact Hnormal. }
    pose proof (rounded64_value_ge _ _ _ _ _ (-511) Rr ltac:(lia) Hrho') as Gr. fold Vr in Gr.
    pose proof (bpow_pos (-511)) as H511.
    assert (bpow (-1022) <= Vr * Vr)%R as Hp by nra.
    pose proof (rounded64_value_near _ _ _ _ _ Rp Hp) as Np. fold Vp in Np.
    set (X := (XS / Vp)%R).
    assert (X * Vp = rho * rho)%R as HX by (unfold X; rewrite Hsq; field; lra).
    assert (0 < X)%R as HX0 by (apply (Rmult_lt_reg_r Vp); [exact HVp | nra]).
    assert (forall vq, (X * (1 - bpow (-53)) <= vq <= X * (1 + bpow (-53)))%R ->
                       (1 - 5 * bpow (-53) <= vq <= 1 + 5 * bpow (-53))%R) as Hnear.
    { intros vq Hq.
      apply (quotient_near_one (bpow (-53)) rho Vr Vp X vq); try assumption; lra. }
    destruct (Hnear (X * (1 - bpow (-53)))%R ltac:(nra)) as [L1 _].
    destruct (Hnear (X * (1 + bpow (-53)))%R ltac:(nra)) as [_ L2].
    split; nra.
  - (* below the normal range: the product is rounded to a multiple of 2^-1074 *)
    apply (bounded_spec 53 1024 ltac:(lia) ltac:(lia)) in BS as ([HeS _] & _ & _).
    change (SpecFloat.emin 53 1024) with (-1074)%Z in HeS.
    set (k := (Zpos mS * 2 ^ (eS + 1074))%Z).
    assert (XS = IZR k * bpow (-1074))%R as EK.
    { unfold XS, k. rewrite mult_IZR, <- bpow_IZR by lia.
      rewrite Rmult_assoc, <- bpow_add. do 2 f_equal. lia. }
    set (K := IZR k) in *.
    pose proof (bpow_sum 52 (-1074) (-1022) eq_refl) as E52.
    pose proof (bpow_sum (-53) 52 (-1) eq_refl) as Eu.
    pose proof (bpow_pred 0) as Eh. rewrite bpow_0 in Eh. change (0 - 1)%Z with (-1)%Z in Eh.
    pose proof (bpow_pos 52) as H52.
    assert (1 <= K < bpow 52)%R as HK by (split; nra).
    assert (K * bpow (-53) < / 2)%R as HKu by nra.
    apply rounded_value in Rp as (g & n & y & Hg & Hy & Hv & Hn & Hhalf & _); [|lia].
    fold Vp in Hv.
    assert (g <= -1021)%Z as Hgle.
    { apply (magnitude_le (Vr * Vr)); [lra|].
      pose proof (bpow_succ (-1022)) as E1021. change (-1022 + 1)%Z with (-1021)%Z in E1021.
      nra. }
    assert (SpecFloat.fexp 53 1024 g = -1074)%Z as Ef
      by (unfold SpecFloat.fexp, SpecFloat.emin; lia).
    rewrite Ef in Hy, Hv.
    set (N := IZR n) in *.
    assert (K * ((1 - bpow (-53)) * (1 - bpow (-53))) <= y
            <= K * ((1 + bpow (-53)) * (1 + bpow (-53))))%R as Hyb.
    { rewrite EK, Hy in Hr2. split.
      - apply (Rmult_le_reg_r (bpow (-1074))); [exact H1074 | nra].
      - apply (Rmult_le_reg_r (bpow (-1074))); [exact H1074 | nra]. }
    assert (0 <= K * (bpow (-53) * bpow (-53)) <= / 128)%R as Hkuu.
    { split; [nra|].
      assert (K * bpow (-53) * bpow (-53) <= / 2 * / 64)%R by (apply Rmult_le_compat; nra).
      lra. }
    assert (k - 2 < n < k + 2)%Z as Hnk.
    { split; apply lt_IZR; rewrite ?minus_IZR, ?plus_IZR; fold K N; nra. }
    assert (0 < N)%R as HN0 by (apply IZR_lt; lia).
    set (X := (XS / Vp)%R).
    assert (X * N = K)%R as HXN by (unfold X; rewrite EK, Hv; field; lra).
    assert (n = k - 1 \/ n = k \/ n = k + 1)%Z as [En | [En | En]] by lia.
    + (* rounded down by one unit *)
      assert (N = K - 1)%R as EN by (unfold N, K; rewrite En, minus_IZR; reflexivity).
      assert (/ 4 <= K * bpow (-53))%R as Hq by nra.
      rewrite EN in HXN, HN0.
      split; [nra|].
      apply (Rmult_le_reg_r (K - 1)); [exact HN0|]. rewrite HXN. nra.
    + assert (N = K)%R as EN by (unfold N, K; now rewrite En).
      rewrite EN in HXN. assert (X = 1)%R as -> by nra. lra.
    + (* rounded up by one unit *)
      assert (N = K + 1)%R as EN by (unfold N, K; rewrite En, plus_IZR; reflexivity).
      assert (/ 5 <= K * bpow (-53))%R as Hq by nra.
      rewrite EN in HXN, HN0.
      split; [|nra].
      apply (Rmult_le_reg_r (K + 1)); [exact HN0|]. rewrite HXN. nra.
Qed.

(** The similarity of a vector with itself, the sum of squares being a
    positive finite number. *)
Lemma cosineSimilarity_self_near_one (vec : list float) :
  positive_finite (sum_squares vec) = true ->
  (abs (cosineSimilarity vec vec - 1) <=? 0x1p-50)%float = true.
Proof.
  intros H. apply positive_finite_spec in H as (mS & eS & ES).
  rewrite cosineSimilarity_quotient, dotProduct_self.
  change (denominator vec vec) with (norm vec * norm vec)%float.
  rewrite norm_sum_squares.
  destruct (root_squared_ratio _ _ _ ES) as (mp & ep & Ep & HX).
  exact (quotient_tolerance _ _ _ _ _ _ ES Ep HX).
Qed.

(** ** The sum of squares is never negative *)

Lemma square_not_negative (a : float) : not_negative (Prim2SF (a * a)) = true.
Proof.
  destruct (Prim2SF a) as [s|s| |s m e] eqn:E.
  1-3: rewrite mul_spec, E; simpl; try reflexivity; now destruct s.
  pose proof (mul64_rounded a a _ _ _ _ _ _ E E) as Hr.
  replace (xorb s s) with false in Hr by now destruct s.
  destruct (rounded_forms 53 1024 _ _ _ Hr) as [-> | [-> | (m' & e' & ->)]]; reflexivity.
Qed.

Lemma add_not_negative (x y : float) :
  not_negative (Prim2SF x) = true -> not_negative (Prim2SF y) = true ->
  not_negative (Prim2SF (x + y)) = true.
Proof.
  intros Hx Hy. rewrite add_spec.
  pose proof (Prim2SF_valid x) as Vx. pose proof (Prim2SF_valid y) as Vy.
  destruct (Prim2SF x) as [sx|sx| |sx mx ex], (Prim2SF y) as [sy|sy| |sy my ey];
    simpl in Hx, Hy |- *; try reflexivity; try assumption.
  - now destruct sx, sy.
  - destruct sx, sy; try discriminate. reflexivity.
  - destruct sx, sy; try discriminate.
    simpl in Vx, Vy.
    apply (bounded_spec 53 1024 ltac:(lia) ltac:(lia)) in Vx as ([Hlx _] & _ & _).
    apply (bounded_spec 53 1024 ltac:(lia) ltac:(lia)) in Vy as ([Hly _] & _ & _).
    set (p := (fst (shl_align mx ex (Z.min ex ey)) + fst (shl_align my ey (Z.min ex ey)))%positive).
    change (not_negative (binary_round 53 1024 false p (Z.min ex ey)) = true).
    destruct (binary_round_sign 53 1024 ltac:(lia) false p (Z.min ex ey) ltac:(lia))
      as [->|(m' & e' & ->)]; reflexivity.
Qed.

Lemma squares_fold_not_negative (vec : list float) (acc : float) :
  not_negative (Prim2SF acc) = true ->
  not_negative (Prim2SF (fold_left (fun sum a => (sum + a * a)%float) vec acc)) = true.
Proof.
  revert acc. induction vec as [|a vec IH]; intros acc H; simpl; [exact H|].
  apply IH. apply add_not_negative; [exact H | apply square_not_negative].
Qed.

(** The sum of squares is a positive finite number, a zero, NaN or the
    positive infinity. *)
Lemma sum_squares_cases (vec : list float) :
  positive_finite (sum_squares vec) = true
  \/ zero_or_nan (sum_squares vec) = true
  \/ sum_squares vec = infinity.
Proof.
  pose proof (squares_fold_not_negative vec 0%float eq_refl) as H.
  rewrite <- sum_squares_fold in H.
  destruct (Prim2SF (sum_squares vec)) as [s|s| |s m e] eqn:E; simpl in H.
  - right. left. apply zero_or_nan_iff. now rewrite E.
  - right. right. destruct s; [discriminate|]. apply Prim2SF_inj. now rewrite E.
  - right. left. apply zero_or_nan_iff. now rewrite E.
  - left. destruct s; [discriminate|]. apply positive_finite_spec. eauto.
Qed.


(** A divisor that is a positive finite number comes from two sums of
    squares that are. *)
Lemma SFmul_finite_factors (prec emax : Z) (x y : spec_float) (s : bool) (m : positive) (e : Z) :
  SFmul prec emax x y = S754_finite s m e ->
  (exists sx mx ex, x = S754_finite sx mx ex) /\ (exists sy my ey, y = S754_finite sy my ey).
Proof.
  destruct x as [sx|sx| |sx mx ex], y as [sy|sy| |sy my ey]; simpl; try discriminate.
  intros _. split; eauto.
Qed.

Lemma SFsqrt_finite_argument (prec emax : Z) (x : spec_float) (s : bool) (m : positive) (e : Z) :
  SFsqrt prec emax x = S754_finite s m e -> exists mx ex, x = S754_finite false mx ex.
Proof.
  destruct x as [sx|sx| |sx mx ex]; simpl; try discriminate.
  - destruct sx; discriminate.
  - destruct sx; [discriminate|]. intros _. eauto.
Qed.

Lemma denominator_positive_finite_inv (vecA vecB : list float) :
  positive_finite (denominator vecA vecB) = true ->
  positive_finite (sum_squares vecA) = true /\ positive_finite (sum_squares vecB) = true.
Proof.
  change (denominator vecA vecB) with (norm vecA * norm vecB)%float.
  rewrite !norm_sum_squares, !positive_finite_spec. intros (m & e & H).
  rewrite mul_spec in H.
  apply SFmul_finite_factors in H as [(sa & ma & ea & Ha) (sb & mb & eb & Hb)].
  rewrite sqrt_spec in Ha, Hb.
  apply SFsqrt_finite_argument in Ha, Hb. split; assumption.
Qed.

(** Where the sum of squares is a zero, NaN or an infinity, the
    similarity of the vector with itself is NaN. *)
Lemma cosineSimilarity_self_nan (vec : list float) :
  zero_or_nan (sum_squares vec) = true \/ sum_squares vec = infinity ->
  is_nan (cosineSimilarity vec vec) = true.
Proof.
  rewrite cosineSimilarity_quotient, dotProduct_self.
  change (denominator vec vec) with (norm vec * norm vec)%float.
  rewrite norm_sum_squares. intros [H | ->].
  - apply div_zero_or_nan; [exact H|].
    apply mul_zero_or_nan_l. now apply sqrt_zero_or_nan.
  - reflexivity.
Qed.

(** ** The claims on [cosineSimilarity] *)

(** The statement of C8 as it stands fails in binary64: the vector
    with the one component 2^-700 is not zero, the square of the
    component underflows to zero, and the similarity of the vector with
    itself is NaN, which no tolerance brings near 1. *)
Lemma tiny_vector_self_similarity :
  nonzero_vector [tiny]
  /\ is_nan (cosineSimilarity [tiny] [tiny]) = true
  /\ forall tolerance,
       (abs (cosineSimilarity [tiny] [tiny] - 1) <=? tolerance)%float = false.
Proof.
  split; [|split].
  - left. reflexivity.
  - reflexivity.
  - intros tolerance.
    replace (abs (cosineSimilarity [tiny] [tiny] - 1))%float with nan
      by (vm_compute; reflexivity).
    rewrite leb_spec. reflexivity.
Qed.

(** C8 (amended). For every pair of vectors of equal dimension,
    [cosineSimilarity(a, b)] and [cosineSimilarity(b, a)] are the same
    binary64 value (NaN on both sides where it is NaN on one).  For a
    vector [a] whose sum of squares, as the function computes it, is a
    positive finite number (it neither underflows to zero nor
    overflows), [cosineSimilarity(a, a)] is within 2^-50 of 1.  In every
    other case that sum is a zero, NaN or the infinity, and
    [cosineSimilarity(a, a)] is NaN. *)
Theorem cosine_symmetric_and_self_near_one (vecA vecB vec : list float) :
  (List.length vecA = List.length vecB ->
   cosineSimilarity vecA vecB = cosineSimilarity vecB vecA)
  /\ (positive_finite (sum_squares vec) = true ->
      (abs (cosineSimilarity vec vec - 1) <=? 0x1p-50)%float = true)
  /\ (zero_or_nan (sum_squares vec) = true \/ sum_squares vec = infinity ->
      is_nan (cosineSimilarity vec vec) = true)
  /\ (positive_finite (sum_squares vec) = true
      \/ zero_or_nan (sum_squares vec) = true
      \/ sum_squares vec = infinity).
Proof.
  split; [|split; [|split]].
  - apply cosineSimilarity_comm.
  - apply cosineSimilarity_self_near_one.
  - apply cosineSimilarity_self_nan.
  - apply sum_squares_cases.
Qed.

Lemma cosine_symmetric_and_self_near_one_witness :
  cosineSimilarity [1; 2]%float [3; 4]%float = cosineSimilarity [3; 4]%float [1; 2]%float
  /\ (abs (cosineSimilarity [3; 4; 5]%float [3; 4; 5]%float - 1) <=? 0x1p-50)%float = true
  /\ is_nan (cosineSimilarity [0; 0]%float [0; 0]%float) = true.
Proof.
  destruct (cosine_symmetric_and_self_near_one [1; 2]%float [3; 4]%float [3; 4; 5]%float)
    as (Hsym & Hself & _ & _).
  destruct (cosine_symmetric_and_self_near_one [1; 2]%float [3; 4]%float [0; 0]%float)
    as (_ & _ & Hnan & _).
  split; [|split].
  - apply Hsym. reflexivity.
  - apply Hself. reflexivity.
  - apply Hnan. left. reflexivity.
Defined.

(** The statement of C10 as it stands fails in binary64: both vectors
    are non-zero and of dimension 1, the square of 2^-700 underflows,
    and the divisor is zero; the quotient is an infinity. *)
Lemma tiny_vector_zero_divisor :
  nonzero_vector [tiny] /\ nonzero_vector [1%float]
  /\ List.length [tiny] = List.length [1%float]
  /\ is_zero (denominator [tiny] [1%float]) = true
  /\ cosineSimilarity [tiny] [1%float] = infinity.
Proof.
  repeat split; try reflexivity; left; reflexivity.
Qed.

(** C10 (amended). [cosineSimilarity] divides the dot product by the
    product of the two norms without a guard.  For a zero query vector
    or a zero chunk embedding the divisor is a zero or NaN and the
    quotient is NaN.  The divisor is a positive finite number exactly
    when the two sums of squares the function computes are positive
    finite numbers (neither underflows to zero, neither overflows); the
    two vectors are then non-zero and, when they are of equal
    dimension, the quotient is a number (not NaN). *)
Theorem cosine_unguarded_division (vecA vecB : list float) :
  cosineSimilarity vecA vecB = (dotProduct vecA vecB / denominator vecA vecB)%float
  /\ (zero_vector vecA \/ zero_vector vecB ->
      zero_or_nan (denominator vecA vecB) = true
      /\ is_nan (cosineSimilarity vecA vecB) = true)
  /\ (positive_finite (denominator vecA vecB) = true
      <-> positive_finite (sum_squares vecA) = true
          /\ positive_finite (sum_squares vecB) = true)
  /\ (positive_finite (sum_squares vecA) = true ->
      positive_finite (sum_squares vecB) = true ->
      nonzero_vector vecA /\ nonzero_vector vecB
      /\ (List.length vecA = List.length vecB ->
          is_nan (cosineSimilarity vecA vecB) = false)).
Proof.
  split; [reflexivity|]. split; [|split].
  - intros H. split.
    + now apply denominator_zero_or_nan.
    + rewrite cosineSimilarity_quotient.
      apply div_zero_or_nan;
        [now apply dotProduct_zero_or_nan | now apply denominator_zero_or_nan].
  - split.
    + apply denominator_positive_finite_inv.
    + intros [HA HB]. now apply denominator_positive_finite.
  - intros HA HB.
    split; [now apply positive_sum_nonzero|]. split; [now apply positive_sum_nonzero|].
    intros Hlen. apply is_nan_false.
    rewrite cosineSimilarity_quotient, div_spec.
    pose proof (denominator_positive_finite vecA vecB HA HB) as HD.
    apply positive_finite_spec in HD as (m & e & ->).
    apply SFdiv_not_nan.
    apply dotProduct_not_nan; [exact Hlen | |]; now apply positive_finite_is_finite.
Qed.

Lemma cosine_unguarded_division_witness :
  is_nan (cosineSimilarity [0; 0]%float [1; 2]%float) = true
  /\ positive_finite (denominator [3; 4]%float [1; 2]%float) = true
  /\ is_nan (cosineSimilarity [3; 4]%float [1; 2]%float) = false.
Proof.
  destruct (cosine_unguarded_division [0; 0]%float [1; 2]%float) as (_ & Hzero & _).
  destruct (cosine_unguarded_division [3; 4]%float [1; 2]%float) as (_ & _ & Hden & Hnum).
  split; [|split].
  - apply Hzero. left. repeat constructor.
  - apply Hden. split; reflexivity.
  - apply Hnum; reflexivity.
Defined.

(* ================================================================== *)
(** * Part IV. Further properties of the program                       *)
(* ================================================================== *)

(** ** Retrieval as a whole *)

Lemma mapi_from_length {A B : Type} (f : A -> nat -> B) (i : nat) (arr : list A) :
  List.length (mapi_from f i arr) = List.length arr.
Proof.
  revert i. induction arr as [|x arr IH]; intros i; simpl; [reflexivity | now rewrite IH].
Qed.

Lemma similarities_length (this : AISearchEngine) (v : list float) :
  List.length (similarities this v) = List.length (embeddings this).
Proof. apply mapi_from_length. Qed.

Lemma findSimilarContent_nil (this : AISearchEngine) (v : list float)
    (sourceName : option string) :
  findSimilarContent this v sourceName = [] <-> candidates this v sourceName = [].
Proof.
  unfold findSimilarContent, slice_to. split; intros H.
  - apply length_zero_iff_nil. rewrite <- (js_sort_length score_after).
    destruct (js_sort score_after (candidates this v sourceName)); [reflexivity | discriminate].
  - assert (js_sort score_after (candidates this v sourceName) = []) as ->
      by (apply length_zero_iff_nil; rewrite js_sort_length, H; reflexivity).
    reflexivity.
Qed.

Lemma single_match_branchB (this : AISearchEngine) (query : string) (v : list float)
    (entry : string * PersonRecord) :
  getEmbedding this query = Returned v ->
  yields_results this v entry = true ->
  branchB this query [entry]
  = Returned (Some (join (nl ++ nl)
                      (map (chunk_under (fst entry) (snd entry))
                         (restricted_ranking this v entry)))).
Proof.
  intros Hv Hy. destruct entry as [id record]. unfold branchB. rewrite Hv.
  unfold bind at 1. unfold yields_results, restricted_ranking in *. simpl fst in *.
  simpl snd. rewrite Hy.
  rewrite (mapM_total _ (chunk_under id record)); [reflexivity|].
  intros item Hitem. apply (formatChunk_from_source _ _ (documentName id)).
  now apply (restricted_from_source this v).
Qed.

(** X1.  A rejection of the embedding provider is the outcome of
    [findRelevantContext], in every branch: no branch answers without
    the embedding of the query, and none replaces the error. *)
Theorem provider_failure_propagates (this : AISearchEngine) (question : string)
    (history : list ConversationTurn) (error : exn) :
  getEmbedding this (contextualQuery question history) = Thrown error ->
  findRelevantContext this question history = Thrown error.
Proof.
  intros H. unfold findRelevantContext, selectBranch.
  rewrite branchA_guard_length.
  destruct (findAllNamesInQuestion this (contextualQuery question history))
    as [|[id record] [|second rest]].
  - unfold branchB, branchC. now rewrite H.
  - unfold branchB. now rewrite H.
  - change (2 <=? _)%nat with true. cbv iota. unfold branchA, collectContexts.
    now rewrite H.
Qed.

Lemma provider_failure_propagates_witness :
  findRelevantContext silent_engine "Tell me about Jean Carlomusto" []
  = Thrown EmbeddingProviderError.
Proof.
  apply (provider_failure_propagates silent_engine "Tell me about Jean Carlomusto" []).
  reflexivity.
Defined.

(** X2.  With a usable entity match (two people or more, or one person
    whose document has chunks) and an answer of the provider,
    [findRelevantContext] returns a string: it neither returns [null]
    nor throws. *)
Theorem usable_match_returns_a_string (this : AISearchEngine) (question : string)
    (history : list ConversationTurn) (v : list float) :
  let query := contextualQuery question history in
  let names := findAllNamesInQuestion this query in
  getEmbedding this query = Returned v ->
  ~ no_usable_match this v names ->
  exists context, findRelevantContext this question history = Returned (Some context).
Proof.
  intros query names Hv Hu. unfold findRelevantContext, selectBranch.
  fold query. fold names. rewrite branchA_guard_length.
  destruct names as [|entry [|second rest]].
  - now elim Hu.
  - change (2 <=? _)%nat with false. cbv iota.
    rewrite (single_match_branchB this query v entry Hv); [eauto|].
    simpl in Hu. now destruct (yields_results this v entry).
  - change (2 <=? _)%nat with true. cbv iota.
    rewrite (branchA_spec this query v _ Hv). eauto.
Qed.

Lemma usable_match_returns_a_string_witness :
  exists context,
    findRelevantContext one_sided_engine "Tell me about Jean Carlomusto" []
    = Returned (Some context).
Proof.
  apply (usable_match_returns_a_string one_sided_engine
           "Tell me about Jean Carlomusto" [] [1; 0]%float).
  - reflexivity.
  - vm_compute. discriminate.
Defined.

Lemma branchC_null_iff (this : AISearchEngine) (query : string) (v : list float) :
  getEmbedding this query = Returned v ->
  (branchC this query = Returned None <-> embeddings this = []).
Proof.
  intros Hv. unfold branchC. rewrite Hv. unfold bind at 1. split.
  - intros H.
    destruct (groupBySource [] (findSimilarContent this v None)) as [g|e] eqn:Hg;
      [|discriminate].
    unfold bind in H.
    destruct (js_sort size_after (Object_entries g)) as [|best rest] eqn:Hs.
    + assert (g = []) as ->.
      { apply length_zero_iff_nil.
        rewrite <- (Permutation_length (Object_entries_perm g)).
        rewrite <- (js_sort_length size_after), Hs. reflexivity. }
      pose proof (groupBySource_grouped _ [] [] _ grouped_start Hg) as G.
      simpl in G.
      assert (findSimilarContent this v None = []) as Hnil.
      { destruct (findSimilarContent this v None) as [|item l]; [reflexivity|].
        destruct (grouped_sources _ _ G item (or_introl eq_refl)) as (m & _ & []). }
      apply findSimilarContent_nil in Hnil. simpl in Hnil.
      apply length_zero_iff_nil. rewrite <- (similarities_length this v), Hnil.
      reflexivity.
    + destruct (match_document (fst best)) as [documentId|]; [|discriminate].
      destruct (metadata_get this documentId) as [record|]; [|discriminate].
      destruct (mapM (formatChunk documentId record) (snd best)); discriminate.
  - intros He.
    assert (findSimilarContent this v None = []) as ->.
    { apply findSimilarContent_nil. simpl. apply length_zero_iff_nil.
      rewrite similarities_length, He. reflexivity. }
    reflexivity.
Qed.

(** X3.  [findRelevantContext] returns [null] exactly when the corpus
    holds no embedding, fewer than two people are matched and the
    provider answers: no similarity threshold stands between a chunk of
    the corpus and the context. *)
Theorem null_only_for_an_empty_corpus (this : AISearchEngine) (question : string)
    (history : list ConversationTurn) :
  let query := contextualQuery question history in
  let names := findAllNamesInQuestion this query in
  findRelevantContext this question history = Returned None
  <-> embeddings this = []
      /\ (List.length names < 2)%nat
      /\ exists v, getEmbedding this query = Returned v.
Proof.
  intros query names. unfold findRelevantContext, selectBranch.
  fold query. fold names. rewrite branchA_guard_length.
  destruct names as [|[id record] [|second rest]].
  - change (2 <=? _)%nat with false. cbv iota. unfold branchB. split.
    + intros H. destruct (getEmbedding this query) as [v|e] eqn:Hv.
      * split; [now apply (branchC_null_iff this query v Hv)|].
        split; [simpl; lia | now exists v].
      * unfold branchC in H. rewrite Hv in H. discriminate.
    + intros (He & _ & v & Hv). now apply (branchC_null_iff this query v Hv).
  - change (2 <=? _)%nat with false. cbv iota. unfold branchB. split.
    + intros H. destruct (getEmbedding this query) as [v|e] eqn:Hv; [|discriminate].
      unfold bind in H.
      destruct (0 <? List.length (findSimilarContent this v (Some (documentName id))))%nat.
      * destruct (mapM (formatChunk id record)
                    (findSimilarContent this v (Some (documentName id)))); discriminate.
      * split; [now apply (branchC_null_iff this query v Hv)|].
        split; [simpl; lia | now exists v].
    + intros (He & _ & v & Hv). rewrite Hv. unfold bind at 1.
      assert (findSimilarContent this v (Some (documentName id)) = []) as ->.
      { apply findSimilarContent_nil. rewrite restricted_candidates.
        assert (similarities this v = []) as ->
          by (apply length_zero_iff_nil; rewrite similarities_length, He; reflexivity).
        reflexivity. }
      simpl. now apply (branchC_null_iff this query v Hv).
  - change (2 <=? _)%nat with true. cbv iota. split.
    + unfold branchA.
      destruct (collectContexts this query ((id, record) :: second :: rest) []);
        discriminate.
    + intros (_ & Hlen & _). simpl in Hlen. lia.
Qed.

(** X4.  When exactly one person is matched and that person's document
    has chunks, the context is the restricted ranking of the document,
    every chunk under the document's header, the chunks two line feeds
    apart. *)
Theorem single_match_returns_restricted_ranking (this : AISearchEngine)
    (question : string) (history : list ConversationTurn) (v : list float)
    (entry : string * PersonRecord) :
  let query := contextualQuery question history in
  findAllNamesInQuestion this query = [entry] ->
  getEmbedding this query = Returned v ->
  yields_results this v entry = true ->
  findRelevantContext this question history
  = Returned (Some (join (nl ++ nl)
                      (map (chunk_under (fst entry) (snd entry))
                         (restricted_ranking this v entry)))).
Proof.
  intros query Hn Hv Hy. unfold findRelevantContext, selectBranch.
  fold query. rewrite Hn, branchA_guard_length.
  change (2 <=? _)%nat with false. cbv iota.
  now apply single_match_branchB.
Qed.

Lemma single_match_returns_restricted_ranking_witness :
  findRelevantContext one_sided_engine "Tell me about Jean Carlomusto" []
  = Returned (Some (join (nl ++ nl)
                      (map (chunk_under "1" jean)
                         (restricted_ranking one_sided_engine [1; 0]%float ("1", jean))))).
Proof.
  apply (single_match_returns_restricted_ranking one_sided_engine
           "Tell me about Jean Carlomusto" [] [1; 0]%float ("1", jean));
    reflexivity.
Defined.

(** ** The size of a restricted ranking *)

Lemma nth_error_skipn_head {A : Type} (i : nat) (l : list A) :
  nth_error l i = hd_error (skipn i l).
Proof.
  revert l. induction i as [|i IH]; intros [|x l]; simpl; try reflexivity. apply IH.
Qed.

Lemma skipn_S_tail {A : Type} (i : nat) (l : list A) :
  skipn (S i) l = tl (skipn i l).
Proof.
  revert l. induction i as [|i IH]; intros [|x l]; try reflexivity.
  change (skipn (S (S i)) (x :: l)) with (skipn (S i) l).
  change (skipn (S i) (x :: l)) with (skipn i l). apply IH.
Qed.

Lemma restricted_count_from (this : AISearchEngine) (v : list float) (s : string)
    (embs : list (list float)) (i : nat) :
  List.length
    (filter (from_source s)
       (mapi_from (fun emb idx =>
                     {| score := cosineSimilarity v emb;
                        text := nth_error (texts this) idx;
                        item_metadata := nth_error (chunkMetadata this) idx |})
          i embs))
  = List.length
      (filter (fun m => String.eqb (source m) s)
         (firstn (List.length embs) (skipn i (chunkMetadata this)))).
Proof.
  revert i. induction embs as [|emb embs IH]; intros i; [reflexivity|].
  cbn [mapi_from filter]. unfold from_source at 1. cbn [item_metadata].
  specialize (IH (S i)). rewrite skipn_S_tail in IH.
  rewrite nth_error_skipn_head.
  destruct (skipn i (chunkMetadata this)) as [|m rest]; cbn [hd_error tl] in *.
  - rewrite IH. now rewrite !firstn_nil.
  - cbn [List.length firstn filter].
    destruct (String.eqb (source m) s); cbn [List.length]; now rewrite IH.
Qed.

(** X5.  The number of chunks a matched person contributes is the
    number of chunks of that person's document among the corpus
    positions that have an embedding, five at most: it does not depend
    on the question, and no chunk is left out for a low score. *)
Theorem restricted_ranking_size (this : AISearchEngine) (v : list float) (id : string) :
  List.length (findSimilarContent this v (Some (documentName id)))
  = Nat.min 5
      (List.length
         (filter (fun m => String.eqb (source m) (documentName id))
            (firstn (List.length (embeddings this)) (chunkMetadata this)))).
Proof.
  unfold findSimilarContent, slice_to.
  rewrite length_firstn, js_sort_length, restricted_candidates.
  unfold similarities, mapi. now rewrite restricted_count_from.
Qed.

(** ** Vectors of different dimensions *)

Lemma mul_nan_r (x y : float) : is_nan y = true -> is_nan (x * y) = true.
Proof.
  rewrite !is_nan_spec, mul_spec. unfold SF64mul, SFmul. intros ->.
  now destruct (Prim2SF x).
Qed.

Lemma add_nan_l (x y : float) : is_nan x = true -> is_nan (x + y) = true.
Proof.
  rewrite !is_nan_spec, add_spec. unfold SF64add, SFadd. now intros ->.
Qed.

Lemma add_nan_r (x y : float) : is_nan y = true -> is_nan (x + y) = true.
Proof.
  rewrite !is_nan_spec, add_spec. unfold SF64add, SFadd. intros ->.
  now destruct (Prim2SF x).
Qed.

Lemma div_nan_l (x y : float) : is_nan x = true -> is_nan (x / y) = true.
Proof.
  rewrite !is_nan_spec, div_spec. unfold SF64div, SFdiv. now intros ->.
Qed.

Lemma dot_stays_nan (vecA vecB : list float) (i : nat) (acc : float) :
  is_nan acc = true ->
  is_nan (reduce_from (fun sum a j => (sum + a * nth j vecB nan)%float) i acc vecA) = true.
Proof.
  revert i acc. induction vecA as [|a vecA IH]; intros i acc H; simpl; [exact H|].
  apply IH. now apply add_nan_l.
Qed.

Lemma dot_reaches_nan (vecA vecB : list float) (i : nat) (acc : float) :
  (i <= List.length vecB)%nat ->
  (List.length vecB < i + List.length vecA)%nat ->
  is_nan (reduce_from (fun sum a j => (sum + a * nth j vecB nan)%float) i acc vecA) = true.
Proof.
  revert i acc. induction vecA as [|a vecA IH]; intros i acc Hi H; simpl in *; [lia|].
  destruct (Nat.eq_dec i (List.length vecB)) as [E|E].
  - apply dot_stays_nan, add_nan_r, mul_nan_r.
    rewrite nth_overflow by lia. reflexivity.
  - apply IH; lia.
Qed.

Lemma dotProduct_longer_nan (vecA vecB : list float) :
  (List.length vecB < List.length vecA)%nat -> is_nan (dotProduct vecA vecB) = true.
Proof.
  intros H. unfold dotProduct, dotProduct_in, reduce. apply dot_reaches_nan; simpl; lia.
Qed.

(** X6.  A query vector with more components than a stored embedding
    scores NaN against it: the missing components are read as
    [undefined], and no length is compared. *)
Theorem longer_query_scores_nan (vecA vecB : list float) :
  (List.length vecB < List.length vecA)%nat ->
  is_nan (cosineSimilarity vecA vecB) = true.
Proof.
  intros H. rewrite cosineSimilarity_quotient. apply div_nan_l.
  now apply dotProduct_longer_nan.
Qed.

Lemma longer_query_scores_nan_witness :
  is_nan (cosineSimilarity [1; 2]%float [1]%float) = true.
Proof. apply (longer_query_scores_nan [1; 2]%float [1]%float). simpl. lia. Defined.

Lemma sort_never_after {A : Type} (after : A -> A -> bool) (arr : list A) :
  (forall a b, In a arr -> In b arr -> after a b = false) ->
  js_sort after arr = arr.
Proof.
  induction arr as [|x arr IH]; intros H; simpl; [reflexivity|].
  rewrite IH by (intros a b Ha Hb; apply H; now right).
  destruct arr as [|y arr]; simpl; [reflexivity|].
  rewrite (H x y); [reflexivity | now left | right; now left].
Qed.

Lemma similarities_scores (this : AISearchEngine) (v : list float) (item : Scored) :
  In item (similarities this v) ->
  exists emb, In emb (embeddings this) /\ score item = cosineSimilarity v emb.
Proof.
  unfold similarities, mapi. generalize 0%nat.
  induction (embeddings this) as [|emb embs IH]; intros i; simpl; [intros []|].
  intros [<-|H].
  - exists emb. split; [now left | reflexivity].
  - destruct (IH _ H) as (emb' & Hin & E). exists emb'. split; [now right | exact E].
Qed.

Lemma score_after_nan (a b : Scored) :
  is_nan (score a) = true -> score_after a b = false.
Proof.
  unfold score_after. intros H. rewrite ltb_spec, sub_spec.
  apply is_nan_spec in H. rewrite H. unfold SF64sub, SFsub.
  now destruct (Prim2SF (score b)).
Qed.

(** X7.  When the query vector has more components than every stored
    embedding, the ranking is the first five candidates in corpus
    order: every score is NaN and the comparison never moves a
    chunk. *)
Theorem longer_query_keeps_corpus_order (this : AISearchEngine) (v : list float)
    (sourceName : option string) :
  (forall emb, In emb (embeddings this) -> (List.length emb < List.length v)%nat) ->
  findSimilarContent this v sourceName = slice_to 5 (candidates this v sourceName).
Proof.
  intros H. unfold findSimilarContent. f_equal. apply sort_never_after.
  intros a b Ha _. apply score_after_nan.
  apply candidates_In, similarities_scores in Ha as (emb & Hemb & ->).
  rewrite cosineSimilarity_quotient. apply div_nan_l, dotProduct_longer_nan, H, Hemb.
Qed.

Lemma longer_query_keeps_corpus_order_witness :
  findSimilarContent sample_engine [1; 0; 0]%float None
  = slice_to 5 (candidates sample_engine [1; 0; 0]%float None).
Proof.
  apply (longer_query_keeps_corpus_order sample_engine [1; 0; 0]%float None).
  intros emb Hemb. simpl in Hemb.
  destruct Hemb as [<-|[<-|[<-|[<-|[<-|[<-|[]]]]]]]; simpl; lia.
Defined.

(** ** The history a question is read with *)

Lemma contextualQuery_contents (question : string) (h h' : list ConversationTurn) :
  map content (slice_from (-4) h) = map content (slice_from (-4) h') ->
  contextualQuery question h = contextualQuery question h'.
Proof. unfold contextualQuery. now intros ->. Qed.

(** X8.  Retrieval reads of the history the [content] of its last four
    turns and nothing else: two histories that agree there give the
    same outcome, whatever the roles and whatever came before. *)
Theorem retrieval_reads_last_four_contents (this : AISearchEngine) (question : string)
    (h h' : list ConversationTurn) :
  map content (slice_from (-4) h) = map content (slice_from (-4) h') ->
  findRelevantContext this question h = findRelevantContext this question h'.
Proof.
  intros H. unfold findRelevantContext.
  now rewrite (contextualQuery_contents question h h' H).
Qed.

Lemma retrieval_reads_last_four_contents_witness :
  let turn := fun r c => {| role := r; content := c |} in
  findRelevantContext sample_engine "why?"
    [turn "user" "zero"; turn "user" "one"; turn "assistant" "two";
     turn "user" "three"; turn "assistant" "four"]
  = findRelevantContext sample_engine "why?"
      [turn "system" "one"; turn "system" "two"; turn "system" "three";
       turn "system" "four"].
Proof.
  intros turn.
  apply (retrieval_reads_last_four_contents sample_engine "why?"). reflexivity.
Defined.

(** ** A corpus with fewer metadata entries than embeddings *)

Lemma group_step_needs_metadata (g g' : JSObject (list Scored)) (item : Scored) :
  group_step g item = Returned g' -> item_metadata item <> None.
Proof.
  unfold group_step, source_of. destruct (item_metadata item); [discriminate|].
  simpl. discriminate.
Qed.

Lemma group_step_throws_TypeError (g : JSObject (list Scored)) (item : Scored) (e : exn) :
  group_step g item = Thrown e -> e = TypeError.
Proof.
  unfold group_step, source_of. destruct (item_metadata item) as [m|]; simpl.
  - destruct (getOwn g (source m)); [discriminate|].
    destruct (inherited (source m)); [|discriminate]. congruence.
  - congruence.
Qed.

Lemma groupBySource_without_metadata (items : list Scored) (g : JSObject (list Scored))
    (item : Scored) :
  In item items -> item_metadata item = None ->
  groupBySource g items = Thrown TypeError.
Proof.
  revert g. induction items as [|x items IH]; intros g Hin Hnone; [destruct Hin|].
  simpl. destruct (group_step g x) as [g1|e] eqn:E; simpl.
  - destruct Hin as [->|Hin]; [|now apply IH].
    now elim (group_step_needs_metadata _ _ _ E).
  - now rewrite (group_step_throws_TypeError _ _ _ E).
Qed.

(** X9.  Without a usable entity match, a ranked chunk that has no
    metadata entry (the corpus has more embeddings than metadata
    entries) makes [findRelevantContext] throw a [TypeError]: the
    fallback reads [item.metadata.source] unguarded. *)
Theorem fallback_throws_on_missing_metadata (this : AISearchEngine) (question : string)
    (history : list ConversationTurn) (v : list float) (item : Scored) :
  let query := contextualQuery question history in
  let names := findAllNamesInQuestion this query in
  getEmbedding this query = Returned v ->
  no_usable_match this v names ->
  In item (findSimilarContent this v None) ->
  item_metadata item = None ->
  findRelevantContext this question history = Thrown TypeError.
Proof.
  intros query names Hv Hu Hin Hnone.
  rewrite (fallback_reaches_branchC this question history v Hv Hu).
  fold query. unfold branchC. rewrite Hv. unfold bind at 1.
  now rewrite (groupBySource_without_metadata _ [] item Hin Hnone).
Qed.

Lemma fallback_throws_on_missing_metadata_witness :
  findRelevantContext ragged_engine "What happened in 1987?" [] = Thrown TypeError.
Proof.
  apply (fallback_throws_on_missing_metadata ragged_engine "What happened in 1987?" []
           [1; 0]%float
           {| score := 1%float; text := Some "first"; item_metadata := None |}).
  - reflexivity.
  - exact I.
  - vm_compute. now left.
  - reflexivity.
Defined.

(** ** Document numbers *)

Lemma string_of_uint_digits (d : Decimal.uint) :
  all_digits (NilEmpty.string_of_uint d) = true.
Proof. induction d; simpl; auto. Qed.

Lemma Z_toString_digits (n : Z) :
  (0 <= n)%Z -> all_digits (Z_toString n) = true /\ Z_toString n <> EmptyString.
Proof.
  intros H. unfold Z_toString. destruct n as [|p|p]; [split; [reflexivity | discriminate] | | lia].
  simpl. pose proof (Unsigned.to_uint_nonnil p) as Hp.
  destruct (Pos.to_uint p) as [|d|d|d|d|d|d|d|d|d|d] eqn:E; [contradiction | ..];
    (split; [rewrite <- E; unfold NilZero.string_of_uint; rewrite E;
             rewrite <- E at 1; rewrite E; apply string_of_uint_digits
            | discriminate]).
Qed.

Lemma Z_toString_inj (m n : Z) : Z_toString m = Z_toString n -> m = n.
Proof.
  unfold Z_toString. intros H. apply DecimalZ.to_int_inj.
  assert (forall z, Z.to_int z <> Decimal.Pos Decimal.Nil
                    /\ Z.to_int z <> Decimal.Neg Decimal.Nil) as Hz.
  { intros [|p|p]; simpl; split; try discriminate;
      intros E; injection E as E; now apply (Unsigned.to_uint_nonnil p). }
  apply (f_equal NilZero.int_of_string) in H.
  rewrite !NilZero.isi in H by apply Hz. now injection H.
Qed.

Lemma take_digits_append (ds rest : string) :
  all_digits ds = true ->
  (match rest with String c _ => is_digit c | EmptyString => false end) = false ->
  take_digits (ds ++ rest) = (ds, rest).
Proof.
  intros Hd Hr. induction ds as [|c ds IH]; simpl in *.
  - destruct rest as [|c rest]; [reflexivity|]. simpl. now rewrite Hr.
  - apply andb_true_iff in Hd as [Hc Hd]. now rewrite Hc, IH.
Qed.

Lemma take_digits_spec (s ds rest : string) :
  take_digits s = (ds, rest) -> s = (ds ++ rest)%string /\ all_digits ds = true.
Proof.
  revert ds rest. induction s as [|c s IH]; simpl; intros ds rest H.
  - injection H as <- <-. now split.
  - destruct (is_digit c) eqn:Hc.
    + destruct (take_digits s) as [ds' rest'] eqn:E. injection H as <- <-.
      destruct (IH _ _ eq_refl) as [-> Hd]. simpl. now rewrite Hc, Hd.
    + injection H as <- <-. now split.
Qed.

Lemma drop_chars_append (p s : string) :
  drop_chars (String.length p) (p ++ s) = s.
Proof. induction p as [|c p IH]; simpl; [now destruct s | exact IH]. Qed.

Lemma match_document_unfold (s : string) :
  match_document s
  = match match_document_here s with
    | Some ds => Returned ds
    | None =>
        match s with
        | EmptyString => Thrown TypeError
        | String _ s' => match_document s'
        end
    end.
Proof. destruct s; reflexivity. Qed.

Lemma match_document_documentName (id : string) :
  id <> EmptyString -> all_digits id = true ->
  match_document (documentName id) = Returned id.
Proof.
  intros Hne Hd. unfold documentName.
  assert (match_document_here ("document" ++ id ++ ".pdf") = Some id) as H.
  { unfold match_document_here.
    assert (startsWith ("document" ++ id ++ ".pdf") "document" = true) as ->
      by (apply startsWith_iff; now exists (id ++ ".pdf")%string).
    change 8%nat with (String.length "document"). rewrite drop_chars_append.
    rewrite take_digits_append by (exact Hd || reflexivity).
    destruct id; [contradiction|]. reflexivity. }
  now rewrite match_document_unfold, H.
Qed.

Lemma match_document_here_spec (s id : string) :
  match_document_here s = Some id ->
  id <> EmptyString /\ all_digits id = true
  /\ exists post, s = (documentName id ++ post)%string.
Proof.
  unfold match_document_here.
  destruct (startsWith s "document") eqn:Hs; [|discriminate].
  apply startsWith_iff in Hs as [post ->].
  change 8%nat with (String.length "document"). rewrite drop_chars_append.
  destruct (take_digits post) as [ds rest] eqn:E.
  apply take_digits_spec in E as [-> Hd].
  destruct ds as [|c ds]; [discriminate|].
  destruct (startsWith rest ".pdf") eqn:Hp; [|discriminate].
  apply startsWith_iff in Hp as [post' ->].
  intros H. injection H as <-. split; [discriminate|]. split; [exact Hd|].
  exists post'. unfold documentName. now rewrite !append_assoc.
Qed.

(** X10.  The document number and the name of its file determine each
    other: [match_document] reads from [`document${id}.pdf`] the
    number it was built from, and a number it reads from a source is
    a non-empty run of digits that the source holds between [document]
    and [.pdf]. *)
Theorem document_number_round_trip (id : string) :
  (id <> EmptyString -> all_digits id = true ->
   match_document (documentName id) = Returned id)
  /\ forall source,
       match_document source = Returned id ->
       id <> EmptyString /\ all_digits id = true
       /\ is_substring (documentName id) source.
Proof.
  split; [apply match_document_documentName|].
  intros s. induction s as [|c s IH]; rewrite match_document_unfold.
  - destruct (match_document_here "") as [ds|] eqn:E; [|discriminate].
    intros H. injection H as <-.
    destruct (match_document_here_spec _ _ E) as (Hne & Hd & post & Hs).
    split; [exact Hne|]. split; [exact Hd|]. now exists ""%string, post.
  - destruct (match_document_here (String c s)) as [ds|] eqn:E.
    + intros H. injection H as <-.
      destruct (match_document_here_spec _ _ E) as (Hne & Hd & post & Hs).
      split; [exact Hne|]. split; [exact Hd|]. now exists ""%string, post.
    + intros H. destruct (IH H) as (Hne & Hd & pre & post & ->).
      split; [exact Hne|]. split; [exact Hd|]. now exists (String c pre), post.
Qed.

(** ** The registry after [initialize] *)

Lemma getOwn_app_absent {V : Type} (o o' : JSObject V) (key : string) :
  getOwn o key = None -> getOwn (o ++ o') key = getOwn o' key.
Proof.
  induction o as [|[k v] o IH]; simpl; [reflexivity|].
  destruct (String.eqb k key); [discriminate | exact IH].
Qed.

Lemma getOwn_absent {V : Type} (o : JSObject V) (key : string) :
  ~ In key (map fst o) -> getOwn o key = None.
Proof.
  induction o as [|[k v] o IH]; simpl; [reflexivity|]. intros H.
  destruct (String.eqb_spec k key) as [->|Hne]; [elim H; now left|].
  apply IH. intros Hin. apply H. now right.
Qed.

Lemma numbered_keys (records : list PersonRecord) (i : nat) (key : string) :
  In key (map fst (mapi_from (fun (record : PersonRecord) index =>
                                (Z_toString (Z.of_nat index + 1), record)) i records)) ->
  exists j, (i <= j)%nat /\ key = Z_toString (Z.of_nat j + 1).
Proof.
  revert i. induction records as [|r records IH]; intros i; simpl; [intros []|].
  intros [<-|H]; [exists i; split; [lia | reflexivity]|].
  destruct (IH _ H) as (j & Hj & ->). exists j. split; [lia | reflexivity].
Qed.

Lemma forEach_registry (records : list PersonRecord) (i : nat) (this : AISearchEngine) :
  (forall key, In key (map fst (metadata this)) ->
               exists j, (j < i)%nat /\ key = Z_toString (Z.of_nat j + 1)) ->
  metadata
    (forEach_from
       (fun this' record index =>
          metadata_set this' (Z_toString (Z.of_nat index + 1)) record)
       i this records)
  = metadata this
    ++ mapi_from (fun record index => (Z_toString (Z.of_nat index + 1), record)) i records.
Proof.
  revert i this. induction records as [|r records IH]; intros i this Hk; simpl.
  - now rewrite app_nil_r.
  - rewrite IH.
    + simpl. rewrite setOwn_absent.
      * now rewrite <- app_assoc.
      * apply getOwn_absent. intros Hin. destruct (Hk _ Hin) as (j & Hj & E).
        apply Z_toString_inj in E. lia.
    + intros key. simpl. rewrite setOwn_absent.
      * rewrite map_app. intros Hin. apply in_app_or in Hin as [Hin|[<-|[]]].
        -- destruct (Hk _ Hin) as (j & Hj & ->). exists j. split; [lia | reflexivity].
        -- exists i. split; [lia | reflexivity].
      * apply getOwn_absent. intros Hin. destruct (Hk _ Hin) as (j & Hj & E).
        apply Z_toString_inj in E. lia.
Qed.

Lemma getOwn_numbered (records : list PersonRecord) (i index : nat) :
  getOwn (mapi_from (fun record idx => (Z_toString (Z.of_nat idx + 1), record)) i records)
    (Z_toString (Z.of_nat (i + index) + 1))
  = nth_error records index.
Proof.
  revert i index. induction records as [|r records IH]; intros i index; simpl.
  - now destruct index.
  - destruct index as [|index].
    + rewrite Nat.add_0_r, String.eqb_refl. reflexivity.
    + destruct (String.eqb_spec (Z_toString (Z.of_nat i + 1))
                  (Z_toString (Z.of_nat (i + S index) + 1))) as [E|_].
      * apply Z_toString_inj in E. lia.
      * simpl. rewrite <- (IH (S i) index). do 3 f_equal. lia.
Qed.

(** X11.  On a new engine [initialize] files the rows of the table
    under their numbers, in the order of the table: row [index] is the
    record of document [index + 1], and the file name of that document
    leads back to the row. *)
Theorem initialize_numbers_the_rows (env : Environment)
    (provider : string -> outcome (list float)) (data : Artifact)
    (records : list PersonRecord) :
  load_artifact env = Returned data ->
  load_table env = Returned records ->
  let loaded := snd (initialize env (constructor provider)) in
  metadata loaded = numbered records
  /\ forall index record,
       nth_error records index = Some record ->
       let id := Z_toString (Z.of_nat index + 1) in
       metadata_get loaded id = Returned record
       /\ match_document (documentName id) = Returned id.
Proof.
  intros Hd Ht loaded. unfold load_table in Ht.
  assert (metadata loaded = numbered records) as Hm.
  { subst loaded. rewrite (initialize_artifact env _ data Hd), Ht. cbn [snd].
    rewrite forEach_registry; [reflexivity|]. simpl. intros key []. }
  split; [exact Hm|]. intros index record Hn id. split.
  - unfold metadata_get. rewrite Hm. unfold numbered, mapi. subst id.
    change index with (0 + index)%nat at 1.
    rewrite (getOwn_numbered records 0 index), Hn. reflexivity.
  - destruct (Z_toString_digits (Z.of_nat index + 1)) as [Hdig Hne]; [lia|].
    now apply match_document_documentName.
Qed.

Lemma initialize_numbers_the_rows_witness :
  let loaded := snd (initialize ragged_environment (constructor (constant_provider []))) in
  metadata loaded = numbered [jean; vito]
  /\ forall index record,
       nth_error [jean; vito] index = Some record ->
       let id := Z_toString (Z.of_nat index + 1) in
       metadata_get loaded id = Returned record
       /\ match_document (documentName id) = Returned id.
Proof.
  apply (initialize_numbers_the_rows ragged_environment (constant_provider [])
           ragged_artifact [jean; vito]); reflexivity.
Defined.

(** ** The reply filter *)


Lemma endsWith_char_snoc (s : string) (c : ascii) :
  endsWith_char (s ++ String c "") c = true.
Proof.
  induction s as [|d s IH]; simpl; [apply Ascii.eqb_refl|].
  destruct (s ++ String c "")%string eqn:E; [destruct s; discriminate | exact IH].
Qed.

Lemma get_take_chars (n j : nat) (s : string) :
  (j < n)%nat -> String.get j (take_chars n s) = String.get j s.
Proof.
  revert j s. induction n as [|n IH]; intros j s H; [lia|].
  destruct s as [|c s]; [reflexivity|]. destruct j as [|j]; simpl; [reflexivity|].
  apply IH. lia.
Qed.



Lemma take_chars_ends (n : nat) (s : string) (c : ascii) :
  String.get n s = Some c -> endsWith_char (take_chars (S n) s) c = true.
Proof.
  revert s. induction n as [|n IH]; intros s H.
  - destruct s as [|d s]; [discriminate|]. simpl in *. injection H as ->.
    apply Ascii.eqb_refl.
  - destruct s as [|d s]; [discriminate|]. simpl in H.
    specialize (IH s H). cbn [take_chars] in *.
    destruct s as [|d' s]; [discriminate|]. exact IH.
Qed.

(** Where [lastIndexOf] points. *)
Lemma lastIndexOf_from_spec (text : string) (c : ascii) (i last : Z) :
  (lastIndexOf_from text c i last = last
   /\ forall j, String.get j text <> Some c)
  \/ exists k,
       lastIndexOf_from text c i last = (i + Z.of_nat k)%Z
       /\ String.get k text = Some c
       /\ forall j, (k < j)%nat -> String.get j text <> Some c.
Proof.
  revert i last. induction text as [|d text IH]; intros i last; simpl.
  - left. split; [reflexivity | discriminate].
  - destruct (IH (i + 1)%Z (if Ascii.eqb d c then i else last))
      as [[E Hno] | (k & E & Hk & Hno)].
    + destruct (Ascii.eqb_spec d c) as [->|Hne].
      * right. exists 0%nat. rewrite E. split; [lia|]. split; [reflexivity|].
        intros [|j] Hj; [lia | apply Hno].
      * left. split; [exact E|]. intros [|j]; [congruence | apply Hno].
    + right. exists (S k). rewrite E. split; [lia|]. split; [exact Hk|].
      intros [|j] Hj; [lia | apply Hno; lia].
Qed.

Lemma lastIndexOf_spec (text : string) (c : ascii) :
  (lastIndexOf text c = (-1)%Z /\ forall j, String.get j text <> Some c)
  \/ exists k,
       lastIndexOf text c = Z.of_nat k
       /\ String.get k text = Some c
       /\ forall j, (k < j)%nat -> String.get j text <> Some c.
Proof.
  unfold lastIndexOf.
  destruct (lastIndexOf_from_spec text c 0 (-1)) as [H | (k & E & H)]; [now left|].
  right. exists k. now rewrite E.
Qed.

(** Where the loop over the sentence endings points after the endings
    [seen]: at the last character that is one of them. *)
Lemma lastComplete_fold (text : string) (endings seen : list ascii) (last : Z) :
  ((last = (-1)%Z /\ forall j e, In e seen -> String.get j text <> Some e)
   \/ exists k e,
        last = Z.of_nat k /\ In e seen /\ String.get k text = Some e
        /\ forall j e', (k < j)%nat -> In e' seen -> String.get j text <> Some e') ->
  let result :=
    fold_left
      (fun lastCompleteIndex ending =>
         let index := lastIndexOf text ending in
         if (lastCompleteIndex <? index)%Z then index else lastCompleteIndex)
      endings last in
  (result = (-1)%Z /\ forall j e, In e (seen ++ endings) -> String.get j text <> Some e)
  \/ exists k e,
       result = Z.of_nat k /\ In e (seen ++ endings) /\ String.get k text = Some e
       /\ forall j e', (k < j)%nat -> In e' (seen ++ endings) ->
                       String.get j text <> Some e'.
Proof.
  revert seen last. induction endings as [|c endings IH]; intros seen last H; cbv zeta.
  - cbn [fold_left]. now rewrite app_nil_r.
  - cbn [fold_left]. change (seen ++ c :: endings) with (seen ++ [c] ++ endings).
    rewrite app_assoc. apply IH. clear IH.
    destruct (lastIndexOf_spec text c) as [[E Hc] | (kc & E & Gc & Hc)]; rewrite E.
    + (* [c] does not occur *)
      destruct H as [[-> Hno] | (k & e & -> & He & Hk & Hafter)].
      * left. split; [reflexivity|].
        intros j e He. apply in_app_or in He as [He|[<-|[]]]; [now apply Hno | apply Hc].
      * right. exists k, e. assert ((Z.of_nat k <? -1)%Z = false) as -> by (apply Z.ltb_ge; lia).
        split; [reflexivity|]. split; [apply in_or_app; now left|]. split; [exact Hk|].
        intros j e' Hj He'. apply in_app_or in He' as [He'|[<-|[]]];
          [now apply Hafter | apply Hc].
    + (* the last [c] is at [kc] *)
      destruct H as [[-> Hno] | (k & e & -> & He & Hk & Hafter)].
      * right. exists kc, c. assert ((-1 <? Z.of_nat kc)%Z = true) as -> by (apply Z.ltb_lt; lia).
        split; [reflexivity|]. split; [apply in_or_app; right; now left|].
        split; [exact Gc|].
        intros j e' Hj He'. apply in_app_or in He' as [He'|[<-|[]]];
          [now apply Hno | now apply Hc].
      * destruct (Z.ltb_spec (Z.of_nat k) (Z.of_nat kc)) as [Hlt|Hge]; right.
        -- exists kc, c. split; [reflexivity|].
           split; [apply in_or_app; right; now left|]. split; [exact Gc|].
           intros j e' Hj He'. apply in_app_or in He' as [He'|[<-|[]]];
             [apply Hafter; [lia | exact He'] | now apply Hc].
        -- exists k, e. split; [reflexivity|].
           split; [apply in_or_app; now left|]. split; [exact Hk|].
           intros j e' Hj He'. apply in_app_or in He' as [He'|[<-|[]]];
             [now apply Hafter | apply Hc; lia].
Qed.

Lemma lastComplete_spec (text : string) :
  (lastComplete text = (-1)%Z /\ unfinished text)
  \/ exists k e,
       lastComplete text = Z.of_nat k
       /\ In e sentenceEndings
       /\ String.get k text = Some e
       /\ forall j e', (k < j)%nat -> In e' sentenceEndings -> String.get j text <> Some e'.
Proof.
  apply (lastComplete_fold text sentenceEndings [] (-1)).
  left. split; [reflexivity|]. intros j e [].
Qed.

(** X12.  The reply [ensureCompleteResponse] returns ends with a full
    stop, an exclamation mark or a question mark, unless the text is
    blank once its trailing ellipsis is removed: that text is returned
    as it is. *)
Theorem reply_ends_a_sentence (text : string) :
  let reply := ensureCompleteResponse text in
  existsb (endsWith_char reply) sentenceEndings = true
  \/ (reply = strip_ellipsis text /\ trim reply = EmptyString).
Proof.
  unfold ensureCompleteResponse. cbv zeta.
  set (stripped := strip_ellipsis text).
  destruct (existsb (endsWith_char stripped) sentenceEndings) eqn:E; [now left|].
  destruct (lastComplete_spec stripped) as [[EM _] | (k & e & EM & He & Hk & _)];
    rewrite EM.
  - change (-1 =? -1)%Z with true. cbn [negb].
    destruct (trim stripped) as [|c t] eqn:Et; cbn [String.length Nat.ltb Nat.leb].
    + right. now split.
    + left. change (String c t ++ ".")%string with (String c t ++ String "." "")%string.
      cbn [existsb sentenceEndings]. now rewrite endsWith_char_snoc.
  - assert ((Z.of_nat k =? -1)%Z = false) as -> by (apply Z.eqb_neq; lia). cbn [negb].
    replace (Z.to_nat (Z.of_nat k + 1)) with (S k) by lia.
    left. apply existsb_exists. exists e. split; [exact He|].
    now apply take_chars_ends.
Qed.


Example an_ellipsis_can_survive :
  ensureCompleteResponse "Wait... but" = "Wait..."
  /\ ensureCompleteResponse "Wait..." = "Wait.".
Proof. split; reflexivity. Qed.

Example a_question_is_closed :
  ensureCompleteResponse "  From Interview #4 with Jean  " = "From Interview #4 with Jean.".
Proof. reflexivity. Qed.

(** ** The chat endpoint *)

Lemma key_eqb_eq (a b : option string) : key_eqb a b = true <-> a = b.
Proof.
  destruct a as [x|], b as [y|]; simpl.
  - rewrite String.eqb_eq. split; congruence.
  - split; discriminate.
  - split; discriminate.
  - split; reflexivity.
Qed.

Lemma sessions_get_In (m : list (option string * list ConversationTurn))
    (key : option string) (history : list ConversationTurn) :
  sessions_get m key = Some history -> In (key, history) m.
Proof.
  induction m as [|[k h] m IH]; simpl; [discriminate|].
  destruct (key_eqb k key) eqn:E.
  - apply key_eqb_eq in E as ->. intros H. injection H as ->. now left.
  - intros H. right. now apply IH.
Qed.

Lemma sessions_set_In (m : list (option string * list ConversationTurn))
    (key : option string) (history : list ConversationTurn)
    (entry : option string * list ConversationTurn) :
  In entry (sessions_set m key history) -> entry = (key, history) \/ In entry m.
Proof.
  induction m as [|[k h] m IH]; simpl.
  - intros [<-|[]]. now left.
  - destruct (key_eqb k key) eqn:E; simpl.
    + apply key_eqb_eq in E as ->. intros [<-|H]; [now left | right; now right].
    + intros [<-|H]; [right; now left|].
      destruct (IH H) as [->|Hin]; [now left | right; now right].
Qed.

Lemma sessions_get_set_same (m : list (option string * list ConversationTurn))
    (key : option string) (history : list ConversationTurn) :
  sessions_get (sessions_set m key history) key = Some history.
Proof.
  induction m as [|[k h] m IH]; simpl.
  - assert (key_eqb key key = true) as -> by now apply key_eqb_eq. reflexivity.
  - destruct (key_eqb k key) eqn:E; simpl; rewrite E; [reflexivity | exact IH].
Qed.

Lemma sessions_get_set_other (m : list (option string * list ConversationTurn))
    (key other : option string) (history : list ConversationTurn) :
  other <> key ->
  sessions_get (sessions_set m key history) other = sessions_get m other.
Proof.
  intros Hne. induction m as [|[k h] m IH]; simpl.
  - destruct (key_eqb key other) eqn:E; [|reflexivity].
    apply key_eqb_eq in E. now elim Hne.
  - destruct (key_eqb k key) eqn:E; simpl.
    + apply key_eqb_eq in E as ->.
      destruct (key_eqb key other) eqn:E'; [|reflexivity].
      apply key_eqb_eq in E'. now elim Hne.
    + now rewrite IH.
Qed.

Lemma Forall_replace_nth {A : Type} (P : A -> Prop) (n : nat) (x : A) (l : list A) :
  P x -> Forall P l -> Forall P (replace_nth n x l).
Proof.
  intros Hx H. revert n. induction H as [|y l Hy Hl IH]; intros [|n]; simpl;
    constructor; auto.
Qed.

Lemma Forall_remove_nth {A : Type} (P : A -> Prop) (n : nat) (l : list A) :
  Forall P l -> Forall P (remove_nth n l).
Proof.
  intros H. revert n. induction H as [|y l Hy Hl IH]; intros [|n]; simpl; auto.
Qed.

Lemma Forall_nth_error {A : Type} (P : A -> Prop) (n : nat) (l : list A) (x : A) :
  Forall P l -> nth_error l n = Some x -> P x.
Proof.
  intros H Hn. rewrite Forall_forall in H. apply H. now apply nth_error_In with n.
Qed.

(** *** Histories *)

Lemma made_of_exchanges_nil : made_of_exchanges [].
Proof. exists []. split; [reflexivity | constructor]. Qed.

Lemma made_of_exchanges_snoc (history : list ConversationTurn) (q content : string) :
  made_of_exchanges history -> q <> EmptyString ->
  made_of_exchanges (history ++ exchange q (ensureCompleteResponse content)).
Proof.
  intros (pairs & -> & Hq) Hne. exists (pairs ++ [(q, content)]). split.
  - rewrite flat_map_app. reflexivity.
  - apply Forall_app. split; [exact Hq | constructor; [exact Hne | constructor]].
Qed.

Lemma logged_more (table more : list ChatMessage) (key : option string)
    (history : list ConversationTurn) :
  logged table key history -> logged (table ++ more) key history.
Proof.
  intros H turn Hin. destruct (H turn Hin) as (r & Hr & E).
  exists r. split; [apply in_or_app; now left | exact E].
Qed.

Lemma logged_nil (table : list ChatMessage) (key : option string) : logged table key [].
Proof. intros turn []. Qed.

Lemma logged_snoc (table : list ChatMessage) (locals : Locals)
    (history : list ConversationTurn) (response : string) :
  logged table (sessionId locals) history ->
  In (row locals "user" (question locals)) table ->
  In (row locals "assistant" response) table ->
  logged table (sessionId locals) (history ++ exchange (question locals) response).
Proof.
  intros H Hu Ha turn Hin. apply in_app_or in Hin as [Hin|[<-|[<-|[]]]].
  - now apply H.
  - exists (row locals "user" (question locals)). now repeat split.
  - exists (row locals "assistant" response). now repeat split.
Qed.

Lemma handler_sound_more (table more : list ChatMessage) (handler : Handler) :
  handler_sound table handler -> handler_sound (table ++ more) handler.
Proof.
  destruct handler as [locals | locals h messages | locals h response]; simpl.
  - auto.
  - intros (Hq & Hm & Hl & Hu). repeat split; auto using logged_more.
    apply in_or_app. now left.
  - intros (Hq & Hm & Hl & Hu & Hc). repeat split; auto using logged_more.
    apply in_or_app. now left.
Qed.

Lemma state_sound_started : state_sound started.
Proof. split; [intros key history [] | constructor]. Qed.

Lemma session_history_sound (st : ServerState) (key : option string) :
  state_sound st ->
  made_of_exchanges (session_history (sessions st) key)
  /\ logged (database st) key (session_history (sessions st) key).
Proof.
  intros [Hs _]. unfold session_history.
  destruct (sessions_get (sessions st) key) as [history|] eqn:E.
  - apply Hs. now apply sessions_get_In.
  - split; [apply made_of_exchanges_nil | apply logged_nil].
Qed.

Lemma finish_sound (st : ServerState) (n : nat) (reply : Reply) :
  state_sound st -> state_sound (finish st n reply).
Proof. intros [Hs Hh]. split; [exact Hs | now apply Forall_remove_nth]. Qed.

Lemma insert_row_sound (st : ServerState) (r : ChatMessage) :
  state_sound st -> state_sound (insert_row st r).
Proof.
  intros [Hs Hh]. split; simpl.
  - intros key history Hin. destruct (Hs key history Hin) as [Hm Hl].
    split; [exact Hm | now apply logged_more].
  - apply Forall_impl with (2 := Hh). intros handler. apply handler_sound_more.
Qed.

Lemma handle_sound (server : Server) (st : ServerState) (event : Event) :
  state_sound st -> state_sound (handle server st event).
Proof.
  intros S. pose proof S as [Hs Hh].
  destruct event as [req | n result | n result]; unfold handle.
  - (* a request arrives *)
    unfold receive.
    destruct (body_question req) as [[|c q]|]; split; simpl; auto.
    apply Forall_app. split; [exact Hh|]. constructor; [|constructor].
    simpl. discriminate.
  - (* a query settles *)
    destruct (nth_error (handlers st) n) as [[locals | locals h messages | locals h response]|]
      eqn:En; [| exact S | | exact S].
    + pose proof (Forall_nth_error _ _ _ _ Hh En) as Hq. simpl in Hq.
      destruct result as [[]|response]; [|now apply finish_sound].
      cbv zeta.
      set (st1 := insert_row st (row locals "user" (question locals))).
      assert (state_sound st1) as S1 by now apply insert_row_sound.
      destruct (findRelevantContext (searchEngine server) (question locals)
                  (session_history (sessions st1) (sessionId locals)))
        as [relevantContext|error]; [|now apply finish_sound].
      destruct S1 as [Hs1 Hh1]. split; [exact Hs1|].
      apply Forall_replace_nth; [|exact Hh1].
      destruct (session_history_sound st1 (sessionId locals) (conj Hs1 Hh1)) as [Hm Hl].
      simpl. repeat split; auto.
      apply in_or_app. right. now left.
    + pose proof (Forall_nth_error _ _ _ _ Hh En) as (Hq & Hm & Hl & Hu & content & ->).
      destruct result as [[]|response]; [|now apply finish_sound].
      cbv zeta. apply finish_sound.
      destruct (insert_row_sound st
                  (row locals "assistant" (ensureCompleteResponse content)) S)
        as [Hs1 Hh1].
      split; [|exact Hh1]. simpl.
      intros key history Hin. apply sessions_set_In in Hin as [E|Hin].
      * injection E as -> ->. split; [now apply made_of_exchanges_snoc|].
        apply logged_snoc.
        -- now apply logged_more.
        -- apply in_or_app. now left.
        -- apply in_or_app. right. now left.
      * now apply Hs1.
  - (* a completion settles *)
    destruct (nth_error (handlers st) n) as [[locals | locals h messages | locals h response]|]
      eqn:En; [exact S | | exact S | exact S].
    pose proof (Forall_nth_error _ _ _ _ Hh En) as (Hq & Hm & Hl & Hu).
    destruct result as [[content|]|response]; [| now apply finish_sound ..].
    split; [exact Hs|]. apply Forall_replace_nth; [|exact Hh].
    simpl. repeat split; auto. now exists content.
Qed.

Lemma run_sound (server : Server) (events : list Event) (st : ServerState) :
  state_sound st -> state_sound (run server events st).
Proof.
  revert st. induction events as [|event events IH]; intros st S; [exact S|].
  apply IH. now apply handle_sound.
Qed.

(** X14.  Whatever requests arrive and however their calls interleave
    and fail, a session's history is made of exchanges (a question
    that is not empty, then a reply that went through
    [ensureCompleteResponse]), and each of its turns is a row of that
    session in [chat_messages]: the history is extended only after both
    inserts were acknowledged. *)
Theorem sessions_hold_logged_exchanges (server : Server) (events : list Event)
    (key : option string) (history : list ConversationTurn) :
  let st := run server events started in
  sessions_get (sessions st) key = Some history ->
  made_of_exchanges history /\ logged (database st) key history.
Proof.
  intros st H.
  destruct (run_sound server events started state_sound_started) as [Hs _].
  apply Hs. now apply sessions_get_In.
Qed.

Lemma sessions_hold_logged_exchanges_witness :
  let events :=
    served_alone 0 (asks (Some "s1") "Tell me about Jean Carlomusto") "She made videos" in
  let history := exchange "Tell me about Jean Carlomusto" "She made videos." in
  made_of_exchanges history
  /\ logged (database (run sample_server events started)) (Some "s1") history.
Proof.
  intros events history.
  apply (sessions_hold_logged_exchanges sample_server events (Some "s1") history).
  vm_compute. reflexivity.
Defined.

(** *** One call, step by step *)

Lemma handle_arrives (server : Server) (st : ServerState) (req : ChatRequest)
    (q : string) :
  body_question req = Some q -> q <> EmptyString ->
  handle server st (Arrives req)
  = {| sessions := sessions st; database := database st;
       handlers := handlers st
                   ++ [AwaitsUserInsert {| qualtricsId := or_unknown (body_qualtricsId req);
                                           sessionId := body_sessionId req;
                                           question := q |}];
       replies := replies st |}.
Proof.
  intros Hq Hne. unfold handle, receive. rewrite Hq.
  destruct q; [contradiction | reflexivity].
Qed.

Lemma handle_user_insert (server : Server) (st : ServerState) (n : nat) (locals : Locals)
    (relevantContext : option string) :
  nth_error (handlers st) n = Some (AwaitsUserInsert locals) ->
  findRelevantContext (searchEngine server) (question locals)
    (session_history (sessions st) (sessionId locals)) = Returned relevantContext ->
  handle server st (QuerySettles n (Fulfilled tt))
  = suspend (insert_row st (row locals "user" (question locals))) n
      (AwaitsCompletion locals (session_history (sessions st) (sessionId locals))
         (completion_messages server relevantContext
            (session_history (sessions st) (sessionId locals)) (question locals))).
Proof.
  intros Hn Hc. unfold handle. rewrite Hn. cbv zeta.
  change (sessions (insert_row st (row locals "user" (question locals))))
    with (sessions st).
  now rewrite Hc.
Qed.

Lemma handle_user_insert_thrown (server : Server) (st : ServerState) (n : nat)
    (locals : Locals) (error : exn) :
  nth_error (handlers st) n = Some (AwaitsUserInsert locals) ->
  findRelevantContext (searchEngine server) (question locals)
    (session_history (sessions st) (sessionId locals)) = Thrown error ->
  handle server st (QuerySettles n (Fulfilled tt))
  = finish (insert_row st (row locals "user" (question locals))) n
      (error_reply (response_of server error)).
Proof.
  intros Hn Hc. unfold handle. rewrite Hn. cbv zeta.
  change (sessions (insert_row st (row locals "user" (question locals))))
    with (sessions st).
  now rewrite Hc.
Qed.

Lemma handle_completion (server : Server) (st : ServerState) (n : nat) (locals : Locals)
    (sessionHistory messages : list ConversationTurn) (content : string) :
  nth_error (handlers st) n = Some (AwaitsCompletion locals sessionHistory messages) ->
  handle server st (CompletionSettles n (Fulfilled (Some content)))
  = suspend st n
      (AwaitsAssistantInsert locals sessionHistory (ensureCompleteResponse content)).
Proof. intros Hn. unfold handle. now rewrite Hn. Qed.

Lemma handle_assistant_insert (server : Server) (st : ServerState) (n : nat)
    (locals : Locals) (sessionHistory : list ConversationTurn) (response : string) :
  nth_error (handlers st) n = Some (AwaitsAssistantInsert locals sessionHistory response) ->
  handle server st (QuerySettles n (Fulfilled tt))
  = finish
      (set_session (insert_row st (row locals "assistant" response)) (sessionId locals)
         (sessionHistory ++ exchange (question locals) response))
      n {| reply_status := 200; reply_body := Answer response |}.
Proof. intros Hn. unfold handle. now rewrite Hn. Qed.

Lemma run_cons (server : Server) (event : Event) (events : list Event)
    (st : ServerState) :
  run server (event :: events) st = run server events (handle server st event).
Proof. reflexivity. Qed.

(** X15.  A call that nothing interrupts and nothing fails adds to its
    session the question and the filtered reply, after what the session
    held, and leaves the other sessions as they were; the table gains
    the user's row and then the assistant's row; the reply is
    [{ response }] with status 200. *)
Theorem call_served_alone (server : Server) (st : ServerState) (req : ChatRequest)
    (q content : string) (relevantContext : option string) :
  let key := body_sessionId req in
  let before := session_history (sessions st) key in
  let locals := {| qualtricsId := or_unknown (body_qualtricsId req);
                   sessionId := key; question := q |} in
  let response := ensureCompleteResponse content in
  let st' := run server (served_alone 0 req content) st in
  handlers st = [] ->
  body_question req = Some q ->
  q <> EmptyString ->
  findRelevantContext (searchEngine server) q before = Returned relevantContext ->
  sessions_get (sessions st') key = Some (before ++ exchange q response)
  /\ (forall other, other <> key ->
        sessions_get (sessions st') other = sessions_get (sessions st) other)
  /\ database st' = database st ++ [row locals "user" q; row locals "assistant" response]
  /\ handlers st' = []
  /\ replies st' = replies st ++ [{| reply_status := 200; reply_body := Answer response |}].
Proof.
  intros key before locals response st' Hh Hq Hne Hc. subst st'.
  unfold served_alone.
  rewrite run_cons, (handle_arrives server st req q Hq Hne). rewrite Hh. cbn [app].
  fold key. fold locals.
  rewrite run_cons, (handle_user_insert server _ 0 locals relevantContext);
    [|reflexivity | exact Hc].
  rewrite run_cons; erewrite (handle_completion server _ 0 locals before _ content);
    [|reflexivity].
  rewrite run_cons, (handle_assistant_insert server _ 0 locals before response);
    [|reflexivity].
  cbn. fold key. fold before. fold response. split; [apply sessions_get_set_same|].
  split; [intros other Ho; now apply sessions_get_set_other|].
  split; [now rewrite <- app_assoc|]. split; reflexivity.
Qed.

Lemma call_served_alone_witness :
  let req := asks (Some "s1") "Tell me about Jean Carlomusto" in
  let locals := {| qualtricsId := "unknown"; sessionId := Some "s1";
                   question := "Tell me about Jean Carlomusto" |} in
  let st' := run sample_server (served_alone 0 req "She made videos... and") started in
  sessions_get (sessions st') (Some "s1")
  = Some ([] ++ exchange "Tell me about Jean Carlomusto" "She made videos...")
  /\ (forall other, other <> Some "s1" ->
        sessions_get (sessions st') other = sessions_get (sessions started) other)
  /\ database st'
     = database started
       ++ [row locals "user" "Tell me about Jean Carlomusto";
           row locals "assistant" "She made videos..."]
  /\ handlers st' = []
  /\ replies st'
     = replies started
       ++ [{| reply_status := 200; reply_body := Answer "She made videos..." |}].
Proof.
  intros req locals st'.
  apply (call_served_alone sample_server started req "Tell me about Jean Carlomusto"
           "She made videos... and"
           (Some (join (nl ++ nl)
                    (map (chunk_under "1" jean)
                       (restricted_ranking sample_engine [1; 0]%float ("1", jean)))))).
  - reflexivity.
  - reflexivity.
  - discriminate.
  - vm_compute. reflexivity.
Defined.

(** X16.  Two calls of one session that overlap are both answered with
    status 200 and all four rows reach the table, yet the session keeps
    one exchange only: each call extends the history it read when its
    first insert was acknowledged, and the later write replaces the
    earlier one. *)
Theorem overlapping_calls_lose_an_exchange (server : Server) (key : option string)
    (q1 q2 c1 c2 : string) (context1 context2 : option string) :
  let st := run server (overlapping key q1 q2 c1 c2) started in
  let locals := fun q => {| qualtricsId := "unknown"; sessionId := key; question := q |} in
  q1 <> EmptyString ->
  q2 <> EmptyString ->
  findRelevantContext (searchEngine server) q1 [] = Returned context1 ->
  findRelevantContext (searchEngine server) q2 [] = Returned context2 ->
  replies st
  = [{| reply_status := 200; reply_body := Answer (ensureCompleteResponse c1) |};
     {| reply_status := 200; reply_body := Answer (ensureCompleteResponse c2) |}]
  /\ database st
     = [row (locals q1) "user" q1; row (locals q2) "user" q2;
        row (locals q1) "assistant" (ensureCompleteResponse c1);
        row (locals q2) "assistant" (ensureCompleteResponse c2)]
  /\ sessions_get (sessions st) key = Some (exchange q2 (ensureCompleteResponse c2))
  /\ handlers st = [].
Proof.
  intros st locals H1 H2 Hc1 Hc2. subst st.
  unfold overlapping.
  rewrite run_cons, (handle_arrives server _ (asks key q1) q1 eq_refl H1).
  rewrite run_cons, (handle_arrives server _ (asks key q2) q2 eq_refl H2).
  cbn [sessions database handlers replies started app asks body_qualtricsId
       body_sessionId or_unknown].
  rewrite run_cons, (handle_user_insert server _ 0 (locals q1) context1);
    [|reflexivity | exact Hc1].
  rewrite run_cons, (handle_user_insert server _ 1 (locals q2) context2);
    [|reflexivity | exact Hc2].
  rewrite run_cons; erewrite (handle_completion server _ 0 (locals q1) [] _ c1); [|reflexivity].
  rewrite run_cons; erewrite (handle_completion server _ 1 (locals q2) [] _ c2); [|reflexivity].
  rewrite run_cons,
    (handle_assistant_insert server _ 0 (locals q1) [] (ensureCompleteResponse c1));
    [|reflexivity].
  rewrite run_cons,
    (handle_assistant_insert server _ 0 (locals q2) [] (ensureCompleteResponse c2));
    [|reflexivity].
  cbn. assert (key_eqb key key = true) as Hk by now apply key_eqb_eq.
  rewrite ?Hk. repeat split. cbn. now rewrite Hk.
Qed.

Lemma overlapping_calls_lose_an_exchange_witness :
  let st :=
    run sample_server
      (overlapping (Some "s1") "Tell me about Jean Carlomusto" "And Vito Russo?"
         "She made videos." "He wrote.") started in
  let locals :=
    fun q => {| qualtricsId := "unknown"; sessionId := Some "s1"; question := q |} in
  replies st
  = [{| reply_status := 200; reply_body := Answer (ensureCompleteResponse "She made videos.") |};
     {| reply_status := 200; reply_body := Answer (ensureCompleteResponse "He wrote.") |}]
  /\ database st
     = [row (locals "Tell me about Jean Carlomusto") "user" "Tell me about Jean Carlomusto";
        row (locals "And Vito Russo?") "user" "And Vito Russo?";
        row (locals "Tell me about Jean Carlomusto") "assistant"
          (ensureCompleteResponse "She made videos.");
        row (locals "And Vito Russo?") "assistant" (ensureCompleteResponse "He wrote.")]
  /\ sessions_get (sessions st) (Some "s1")
     = Some (exchange "And Vito Russo?" (ensureCompleteResponse "He wrote."))
  /\ handlers st = [].
Proof.
  intros st locals.
  apply (overlapping_calls_lose_an_exchange sample_server (Some "s1")
           "Tell me about Jean Carlomusto" "And Vito Russo?" "She made videos." "He wrote."
           (Some (join (nl ++ nl)
                    (map (chunk_under "1" jean)
                       (restricted_ranking sample_engine [1; 0]%float ("1", jean)))))
           (Some (join (nl ++ nl)
                    (map (chunk_under "2" vito)
                       (restricted_ranking sample_engine [1; 0]%float ("2", vito)))))).
  - discriminate.
  - discriminate.
  - vm_compute. reflexivity.
  - vm_compute. reflexivity.
Defined.

(** X17.  A call that fails after its first insert (retrieval throws,
    or the completion provider rejects) replies with the error and
    leaves every session as it was, while the user's row stays in the
    table: the table can hold a question that no session holds. *)
Theorem failed_call_keeps_the_question_logged (server : Server) (st : ServerState)
    (req : ChatRequest) (q : string) :
  let key := body_sessionId req in
  let before := session_history (sessions st) key in
  let locals := {| qualtricsId := or_unknown (body_qualtricsId req);
                   sessionId := key; question := q |} in
  handlers st = [] ->
  body_question req = Some q ->
  q <> EmptyString ->
  (forall error,
     findRelevantContext (searchEngine server) q before = Thrown error ->
     run server [Arrives req; QuerySettles 0 (Fulfilled tt)] st
     = {| sessions := sessions st;
          database := database st ++ [row locals "user" q];
          handlers := [];
          replies := replies st ++ [error_reply (response_of server error)] |})
  /\ (forall relevantContext response,
        findRelevantContext (searchEngine server) q before = Returned relevantContext ->
        run server [Arrives req; QuerySettles 0 (Fulfilled tt);
                    CompletionSettles 0 (RejectedWith response)] st
        = {| sessions := sessions st;
             database := database st ++ [row locals "user" q];
             handlers := [];
             replies := replies st ++ [error_reply response] |}).
Proof.
  intros key before locals Hh Hq Hne. split.
  - intros error Hc.
    rewrite run_cons, (handle_arrives server st req q Hq Hne). rewrite Hh. cbn [app].
    fold key. fold locals.
    rewrite run_cons, (handle_user_insert_thrown server _ 0 locals error);
      [|reflexivity | exact Hc].
    reflexivity.
  - intros relevantContext response Hc.
    rewrite run_cons, (handle_arrives server st req q Hq Hne). rewrite Hh. cbn [app].
    fold key. fold locals.
    rewrite run_cons, (handle_user_insert server _ 0 locals relevantContext);
      [|reflexivity | exact Hc].
    reflexivity.
Qed.

Lemma failed_call_keeps_the_question_logged_witness :
  let req := asks (Some "s1") "What happened in 1987?" in
  let locals := {| qualtricsId := "unknown"; sessionId := Some "s1";
                   question := "What happened in 1987?" |} in
  run ragged_server [Arrives req; QuerySettles 0 (Fulfilled tt)] started
  = {| sessions := []; database := [row locals "user" "What happened in 1987?"];
       handlers := [];
       replies := [error_reply None] |}.
Proof.
  intros req locals.
  apply (proj1 (failed_call_keeps_the_question_logged ragged_server started req
                  "What happened in 1987?" eq_refl eq_refl
                  ltac:(discriminate)) TypeError).
  vm_compute. reflexivity.
Defined.

(** *** A request without a question *)

Lemma handle_ignores_replies (server : Server) (st st' : ServerState) (event : Event) :
  sessions st = sessions st' -> database st = database st' -> handlers st = handlers st' ->
  sessions (handle server st event) = sessions (handle server st' event)
  /\ database (handle server st event) = database (handle server st' event)
  /\ handlers (handle server st event) = handlers (handle server st' event).
Proof.
  destruct st as [s d h r], st' as [s' d' h' r']. simpl. intros <- <- <-.
  destruct event as [req | n result | n result]; unfold handle; cbn [sessions database handlers].
  - destruct (receive req); now repeat split.
  - destruct (nth_error h n) as [[locals | locals sh messages | locals sh response]|];
      try now repeat split.
    + destruct result as [[]|response]; [|now repeat split]. cbv zeta.
      cbn [insert_row sessions].
      destruct (findRelevantContext (searchEngine server) (question locals)
                  (session_history s (sessionId locals))); now repeat split.
    + destruct result as [[]|error]; now repeat split.
  - destruct (nth_error h n) as [[locals | locals sh messages | locals sh response]|];
      try now repeat split.
    destruct result as [[content|]|response]; now repeat split.
Qed.

Lemma run_ignores_replies (server : Server) (events : list Event) (st st' : ServerState) :
  sessions st = sessions st' -> database st = database st' -> handlers st = handlers st' ->
  sessions (run server events st) = sessions (run server events st')
  /\ database (run server events st) = database (run server events st')
  /\ handlers (run server events st) = handlers (run server events st').
Proof.
  revert st st'. induction events as [|event events IH]; intros st st' Hs Hd Hh.
  - now repeat split.
  - rewrite !run_cons.
    destruct (handle_ignores_replies server st st' event Hs Hd Hh) as (Hs1 & Hd1 & Hh1).
    now apply IH.
Qed.

Lemma run_app (server : Server) (before after : list Event) (st : ServerState) :
  run server (before ++ after) st = run server after (run server before st).
Proof. apply fold_left_app. Qed.

(** X18.  A request whose [question] is missing or empty is answered
    with status 400 at once and leaves no trace: whatever happens
    before and after it, the sessions, the table and the suspended
    calls are what they would be had the request not arrived. *)
Theorem request_without_question_leaves_no_trace (server : Server)
    (before after : list Event) (st : ServerState) (req : ChatRequest) :
  let arrived := run server (before ++ [Arrives req]) st in
  let with_it := run server (before ++ Arrives req :: after) st in
  let without_it := run server (before ++ after) st in
  body_question req = None \/ body_question req = Some EmptyString ->
  replies arrived
  = replies (run server before st)
    ++ [{| reply_status := 400; reply_body := Failure "Question is required" |}]
  /\ sessions with_it = sessions without_it
  /\ database with_it = database without_it
  /\ handlers with_it = handlers without_it.
Proof.
  intros arrived with_it without_it Hq. subst arrived with_it without_it.
  assert (handle server (run server before st) (Arrives req)
          = {| sessions := sessions (run server before st);
               database := database (run server before st);
               handlers := handlers (run server before st);
               replies := replies (run server before st)
                          ++ [{| reply_status := 400;
                                 reply_body := Failure "Question is required" |}] |}) as E
    by (destruct Hq as [H|H]; unfold handle, receive; now rewrite H).
  rewrite !run_app. cbn [run fold_left]. fold (run server after). rewrite E.
  split; [reflexivity|]. now apply run_ignores_replies.
Qed.

Lemma request_without_question_leaves_no_trace_witness :
  let req := {| body_question := Some ""; body_sessionId := Some "s1";
                body_qualtricsId := Some "q7" |} in
  let before := [Arrives (asks (Some "s1") "Tell me about Jean Carlomusto")] in
  let after := [QuerySettles 0 (Fulfilled tt)] in
  replies (run sample_server (before ++ [Arrives req]) started)
  = replies (run sample_server before started)
    ++ [{| reply_status := 400; reply_body := Failure "Question is required" |}]
  /\ sessions (run sample_server (before ++ Arrives req :: after) started)
     = sessions (run sample_server (before ++ after) started)
  /\ database (run sample_server (before ++ Arrives req :: after) started)
     = database (run sample_server (before ++ after) started)
  /\ handlers (run sample_server (before ++ Arrives req :: after) started)
     = handlers (run sample_server (before ++ after) started).
Proof.
  intros req before after.
  apply (request_without_question_leaves_no_trace sample_server before after started req).
  now right.
Defined.

(** ** The ingestion script *)

(** *** [trim] *)

Lemma trimEnd_empty_iff (s : string) :
  trimEnd s = EmptyString <-> (forall j c, String.get j s = Some c -> is_whitespace c = true).
Proof.
  induction s as [|c s IH]; simpl.
  - split; [intros _ j c'; destruct j; discriminate | reflexivity].
  - destruct (trimEnd s) as [|d kept].
    + destruct (is_whitespace c) eqn:Ec.
      * split; [|reflexivity]. intros _ [|j] c' H; simpl in H.
        -- now injection H as <-.
        -- now apply (proj1 IH eq_refl j).
      * split; [discriminate|]. intros H. now rewrite (H 0%nat c eq_refl) in Ec.
    + split; [discriminate|]. intros H.
      assert (String d kept = EmptyString) as E; [|discriminate].
      apply IH. intros j c' Hj. now apply (H (S j)).
Qed.

Lemma trimStart_get (s : string) :
  (forall j c, String.get j s = Some c -> is_whitespace c = true)
  <-> (forall j c, String.get j (trimStart s) = Some c -> is_whitespace c = true).
Proof.
  induction s as [|c s IH]; simpl; [reflexivity|].
  destruct (is_whitespace c) eqn:Ec; [|reflexivity].
  rewrite <- IH. split.
  - intros H j c' Hj. now apply (H (S j)).
  - intros H [|j] c' Hj; simpl in Hj; [now injection Hj as <- | now apply (H j)].
Qed.

(** [trim] gives the empty string exactly for a blank text. *)
Lemma trim_empty_iff (s : string) :
  trim s = EmptyString <-> (forall j c, String.get j s = Some c -> is_whitespace c = true).
Proof. unfold trim. now rewrite trimEnd_empty_iff, <- trimStart_get. Qed.

Lemma trimEnd_idempotent (s : string) : trimEnd (trimEnd s) = trimEnd s.
Proof.
  induction s as [|c s IH]; simpl; [reflexivity|].
  destruct (trimEnd s) as [|d kept] eqn:E.
  - destruct (is_whitespace c) eqn:Ec; simpl; [reflexivity | now rewrite Ec].
  - change (trimEnd (String c (String d kept)))
      with (match trimEnd (String d kept) with
            | EmptyString => if is_whitespace c then EmptyString else String c EmptyString
            | String d' kept' => String c (String d' kept')
            end).
    now rewrite IH.
Qed.

Lemma trimStart_head (s : string) :
  trimStart s = EmptyString
  \/ exists c rest, trimStart s = String c rest /\ is_whitespace c = false.
Proof.
  induction s as [|c s IH]; simpl; [now left|].
  destruct (is_whitespace c) eqn:Ec; [exact IH|]. right. now exists c, s.
Qed.

Lemma trimEnd_head (c : ascii) (rest : string) :
  is_whitespace c = false -> exists kept, trimEnd (String c rest) = String c kept.
Proof.
  intros Ec. simpl. destruct (trimEnd rest) as [|d kept].
  - rewrite Ec. now exists ""%string.
  - now exists (String d kept).
Qed.

Lemma trim_idempotent (s : string) : trim (trim s) = trim s.
Proof.
  unfold trim. destruct (trimStart_head s) as [-> | (c & rest & -> & Ec)]; [reflexivity|].
  destruct (trimEnd_head c rest Ec) as [kept E]. rewrite E.
  assert (trimStart (String c kept) = String c kept) as -> by (simpl; now rewrite Ec).
  rewrite <- E. apply trimEnd_idempotent.
Qed.

Lemma get_append (a b : string) (j : nat) (c : ascii) :
  String.get j b = Some c -> String.get (String.length a + j) (a ++ b) = Some c.
Proof. induction a as [|x a IH]; simpl; auto. Qed.

Lemma trim_append_not_empty (a b : string) :
  trim b <> EmptyString -> trim (a ++ b) <> EmptyString.
Proof.
  intros Hb Hab. apply Hb. apply trim_empty_iff. intros j c Hj.
  apply (proj1 (trim_empty_iff _) Hab (String.length a + j)%nat). now apply get_append.
Qed.

(** *** [splitIntoChunks] *)

Section ChunkingProperties.

Variable token_count : string -> Z.
Variable maxTokens : Z.

Lemma chunk_of_text_well_cut (doc : Document) (currentChunk : string) :
  trim currentChunk <> EmptyString -> well_cut (chunk_of_text token_count doc currentChunk).
Proof. intros H. split; simpl; [exact H | apply trim_idempotent]. Qed.

Lemma paragraph_step_keeps (doc : Document) (chunks : list Chunk) (currentChunk : string)
    (paragraph : string) (n : nat) :
  Forall well_cut chunks ->
  (currentChunk = EmptyString \/ trim currentChunk <> EmptyString) ->
  skipn n (map chunk_source chunks) = repeat (title doc) (List.length chunks - n) ->
  (n <= List.length chunks)%nat ->
  let '(chunks', currentChunk') :=
    paragraph_step token_count maxTokens doc (chunks, currentChunk) paragraph in
  Forall well_cut chunks'
  /\ (currentChunk' = EmptyString \/ trim currentChunk' <> EmptyString)
  /\ skipn n (map chunk_source chunks') = repeat (title doc) (List.length chunks' - n)
  /\ (n <= List.length chunks')%nat.
Proof.
  intros Hw Hc Hs Hn. unfold paragraph_step.
  destruct (trim paragraph) as [|c t] eqn:Et; [now repeat split|]. cbv zeta.
  assert (trim (String c t) <> EmptyString) as Hne
    by (rewrite <- Et, trim_idempotent, Et; discriminate).
  destruct ((maxTokens <? token_count (currentChunk ++ nl ++ String c t))%Z
            && negb (String.eqb currentChunk EmptyString)) eqn:E.
  - apply andb_true_iff in E as [_ E]. apply negb_true_iff in E.
    destruct (String.eqb_spec currentChunk EmptyString) as [|Hcur]; [discriminate|].
    destruct Hc as [Hc|Hc]; [contradiction|].
    split; [apply Forall_app; split; [exact Hw|];
            constructor; [now apply chunk_of_text_well_cut | constructor]|].
    split; [now right|].
    rewrite map_app, length_app, skipn_app, Hs, length_map. cbn [List.length map].
    replace (n - List.length chunks)%nat with 0%nat by lia. cbn [skipn chunk_of_text chunk_source].
    split; [|lia].
    replace (List.length chunks + 1 - n)%nat with (List.length chunks - n + 1)%nat by lia.
    now rewrite repeat_app.
  - split; [exact Hw|]. split; [|now split].
    right. rewrite <- append_assoc. now apply trim_append_not_empty.
Qed.

Lemma paragraphs_keep (doc : Document) (paragraphs : list string) (chunks : list Chunk)
    (currentChunk : string) (n : nat) :
  Forall well_cut chunks ->
  (currentChunk = EmptyString \/ trim currentChunk <> EmptyString) ->
  skipn n (map chunk_source chunks) = repeat (title doc) (List.length chunks - n) ->
  (n <= List.length chunks)%nat ->
  let '(chunks', currentChunk') :=
    fold_left (paragraph_step token_count maxTokens doc) paragraphs (chunks, currentChunk) in
  Forall well_cut chunks'
  /\ (currentChunk' = EmptyString \/ trim currentChunk' <> EmptyString)
  /\ skipn n (map chunk_source chunks') = repeat (title doc) (List.length chunks' - n)
  /\ firstn n (map chunk_source chunks') = firstn n (map chunk_source chunks)
  /\ (n <= List.length chunks')%nat.
Proof.
  revert chunks currentChunk.
  induction paragraphs as [|paragraph paragraphs IH]; intros chunks currentChunk Hw Hc Hs Hn.
  - simpl. now repeat split.
  - cbn [fold_left].
    pose proof (paragraph_step_keeps doc chunks currentChunk paragraph n Hw Hc Hs Hn) as H.
    assert (firstn n (map chunk_source
                        (fst (paragraph_step token_count maxTokens doc
                                (chunks, currentChunk) paragraph)))
            = firstn n (map chunk_source chunks)) as Hf.
    { unfold paragraph_step. destruct (trim paragraph); [reflexivity|]. cbv zeta.
      destruct ((maxTokens <? _)%Z && _); [|reflexivity].
      cbn [fst]. rewrite map_app, firstn_app, length_map.
      replace (n - List.length chunks)%nat with 0%nat by lia.
      now rewrite firstn_O, app_nil_r. }
    destruct (paragraph_step token_count maxTokens doc (chunks, currentChunk) paragraph)
      as [chunks1 current1].
    destruct H as (Hw1 & Hc1 & Hs1 & Hn1).
    specialize (IH chunks1 current1 Hw1 Hc1 Hs1 Hn1).
    destruct (fold_left (paragraph_step token_count maxTokens doc) paragraphs
                (chunks1, current1)) as [chunks' current'].
    destruct IH as (Hw' & Hc' & Hs' & Hf' & Hn'). repeat split; auto.
    now rewrite Hf'.
Qed.

Lemma document_step_keeps (doc : Document) (chunks : list Chunk) :
  Forall well_cut chunks ->
  exists count,
    Forall well_cut (document_step token_count maxTokens chunks doc)
    /\ map chunk_source (document_step token_count maxTokens chunks doc)
       = map chunk_source chunks ++ repeat (title doc) count.
Proof.
  intros Hw. unfold document_step.
  pose proof (paragraphs_keep doc (split_paragraphs (doc_text doc)) chunks EmptyString
                (List.length chunks) Hw (or_introl eq_refl)) as H.
  rewrite Nat.sub_diag in H.
  rewrite <- (length_map chunk_source chunks) in H at 1.
  rewrite skipn_all in H. specialize (H eq_refl (Nat.le_refl _)).
  destruct (fold_left (paragraph_step token_count maxTokens doc)
              (split_paragraphs (doc_text doc)) (chunks, EmptyString))
    as [chunks' current'].
  destruct H as (Hw' & Hc' & Hs' & Hf' & Hn').
  rewrite <- (length_map chunk_source chunks) in Hf' at 2. rewrite firstn_all in Hf'.
  assert (map chunk_source chunks'
          = map chunk_source chunks
            ++ repeat (title doc) (List.length chunks' - List.length chunks)) as Hm.
  { rewrite <- (firstn_skipn (List.length chunks) (map chunk_source chunks')).
    now rewrite Hf', Hs'. }
  destruct (trim current') as [|c t] eqn:Et.
  - exists (List.length chunks' - List.length chunks)%nat. now split.
  - exists (List.length chunks' - List.length chunks + 1)%nat. split.
    + apply Forall_app. split; [exact Hw'|].
      constructor; [|constructor]. apply chunk_of_text_well_cut. rewrite Et. discriminate.
    + rewrite map_app, Hm, <- app_assoc, repeat_app. reflexivity.
Qed.

(** X19.  Every chunk [splitIntoChunks] builds has a text that is not
    empty and is trimmed, and carries the title of its document as
    source; the chunks of a document stand together, the documents in
    the order they were given. *)
Theorem chunks_are_cut_per_document (documents : list Document) :
  let chunks := splitIntoChunks token_count documents maxTokens in
  Forall well_cut chunks
  /\ exists counts,
       List.length counts = List.length documents
       /\ map chunk_source chunks
          = flat_map (fun dc => repeat (title (fst dc)) (snd dc)) (combine documents counts).
Proof.
  cbv zeta. unfold splitIntoChunks.
  assert (forall docs chunks,
            Forall well_cut chunks ->
            Forall well_cut (fold_left (document_step token_count maxTokens) docs chunks)
            /\ exists counts,
                 List.length counts = List.length docs
                 /\ map chunk_source
                      (fold_left (document_step token_count maxTokens) docs chunks)
                    = map chunk_source chunks
                      ++ flat_map (fun dc => repeat (title (fst dc)) (snd dc))
                           (combine docs counts)) as H.
  { induction docs as [|doc docs IH]; intros chunks Hw.
    - split; [exact Hw|]. exists []. split; [reflexivity|]. simpl. now rewrite app_nil_r.
    - cbn [fold_left].
      destruct (document_step_keeps doc chunks Hw) as (count & Hw1 & Hs1).
      destruct (IH _ Hw1) as (Hw' & counts & Hlen & Hs').
      split; [exact Hw'|]. exists (count :: counts). split; [simpl; now rewrite Hlen|].
      rewrite Hs', Hs1, <- app_assoc. reflexivity. }
  destruct (H documents [] (Forall_nil _)) as (Hw & counts & Hlen & Hs).
  split; [exact Hw|]. exists counts. now split.
Qed.

End ChunkingProperties.

Example paragraphs_are_cut_at_blank_lines :
  split_paragraphs ("one" ++ nl ++ " " ++ nl ++ nl ++ "two" ++ nl ++ "three" ++ nl ++ nl)
  = ["one"; ("two" ++ nl ++ "three")%string; ""].
Proof. reflexivity. Qed.

(** *** [generateEmbeddings] *)

Lemma mapi_from_app {A B : Type} (f : A -> nat -> B) (i : nat) (a b : list A) :
  mapi_from f i (a ++ b) = mapi_from f i a ++ mapi_from f (i + List.length a) b.
Proof.
  revert i. induction a as [|x a IH]; intros i; simpl.
  - now rewrite Nat.add_0_r.
  - rewrite IH. do 3 f_equal. lia.
Qed.

Lemma non_null_app {A : Type} (a b : list (option A)) :
  non_null (a ++ b) = non_null a ++ non_null b.
Proof.
  induction a as [|[x|] a IH]; simpl; [reflexivity | now rewrite IH | exact IH].
Qed.

Lemma non_null_length {A : Type} (arr : list (option A)) :
  (List.length (non_null arr) <= List.length arr)%nat
  /\ (List.length (non_null arr) = List.length arr <-> ~ In None arr).
Proof.
  induction arr as [|[x|] arr [IH1 IH2]]; simpl.
  - split; [lia|]. split; [intros _ [] | reflexivity].
  - split; [lia|]. split.
    + intros H [E|Hin]; [discriminate|]. apply IH2; [lia | exact Hin].
    + intros H. f_equal. apply IH2. intros Hin. apply H. now right.
  - split; [lia|]. split; [lia|]. intros H. elim H. now left.
Qed.

Lemma generateEmbeddings_from_spec (create : nat -> string -> outcome (list float))
    (chunks : list Chunk) (fuel i : nat) (embeddings : list (list float)) :
  (List.length chunks - i <= fuel)%nat ->
  generateEmbeddings_from create chunks fuel i embeddings
  = Some (embeddings
          ++ non_null (mapi_from (embedding_or_null create) i (skipn i chunks))).
Proof.
  revert i embeddings. induction fuel as [|fuel IH]; intros i embeddings Hf.
  - simpl. destruct (Nat.ltb_spec i (List.length chunks)) as [Hi|Hi]; [lia|].
    rewrite skipn_all2 by exact Hi. simpl. now rewrite app_nil_r.
  - cbn [generateEmbeddings_from].
    destruct (Nat.ltb_spec i (List.length chunks)) as [Hi|Hi].
    + cbv zeta. rewrite IH by (unfold batchSize; lia). f_equal.
      rewrite <- app_assoc. f_equal. rewrite <- non_null_app. f_equal.
      unfold slice. replace (i + batchSize - i)%nat with batchSize by lia.
      transitivity
        (mapi_from (embedding_or_null create) i
           (firstn batchSize (skipn i chunks) ++ skipn batchSize (skipn i chunks)));
        [|now rewrite firstn_skipn].
      rewrite mapi_from_app, skipn_skipn. f_equal.
      rewrite (Nat.add_comm batchSize i).
      destruct (Nat.le_gt_cases (List.length chunks) (i + batchSize)) as [Hend|Hmore].
      * rewrite skipn_all2 by exact Hend. reflexivity.
      * rewrite length_firstn, length_skipn. do 2 f_equal. lia.
    + rewrite skipn_all2 by exact Hi. simpl. now rewrite app_nil_r.
Qed.

(** X20.  [generateEmbeddings] returns, for any number of chunks; the
    batches do not show in its result, which holds the embeddings of
    the chunks the provider answered for, in the order of the chunks,
    and nothing in the place of a chunk it rejected: the result is as
    long as the list of chunks exactly when no request was rejected. *)
Theorem generateEmbeddings_keeps_the_answered (create : nat -> string -> outcome (list float))
    (chunks : list Chunk) :
  generateEmbeddings create chunks = Some (answered create chunks)
  /\ (List.length (answered create chunks) <= List.length chunks)%nat
  /\ (List.length (answered create chunks) = List.length chunks
      <-> forall k, ~ rejected_at create chunks k).
Proof.
  split; [|split].
  - unfold generateEmbeddings. rewrite generateEmbeddings_from_spec by lia. reflexivity.
  - unfold answered, mapi.
    pose proof (non_null_length (mapi_from (embedding_or_null create) 0 chunks)) as [H _].
    now rewrite mapi_from_length in H.
  - unfold answered, mapi.
    pose proof (non_null_length (mapi_from (embedding_or_null create) 0 chunks)) as [_ H].
    rewrite mapi_from_length in H. rewrite H. clear H. unfold rejected_at.
    assert (forall i,
              In None (mapi_from (embedding_or_null create) i chunks)
              <-> exists k chunk error,
                    nth_error chunks k = Some chunk
                    /\ create (i + k)%nat (chunk_text chunk) = Thrown error) as H.
    { induction chunks as [|chunk rest IH]; intros i; simpl.
      - split; [intros [] | intros (k & c & e & H & _); now destruct k].
      - rewrite IH. unfold embedding_or_null at 1. split.
        + intros [H|(k & c & e & Hk & He)].
          * destruct (create i (chunk_text chunk)) as [v|e] eqn:E; [discriminate|].
            exists 0%nat, chunk, e. now rewrite Nat.add_0_r.
          * exists (S k), c, e. split; [exact Hk|]. now rewrite Nat.add_succ_r.
        + intros ([|k] & c & e & Hk & He); simpl in Hk.
          * injection Hk as <-. rewrite Nat.add_0_r in He. left. now rewrite He.
          * right. exists k, c, e. split; [exact Hk|]. now rewrite Nat.add_succ_r in He. }
    rewrite (H 0%nat). split.
    + intros Hno k (c & e & Hk & He). apply Hno. now exists k, c, e.
    + intros Hno (k & c & e & Hk & He). apply (Hno k). now exists c, e.
Qed.

(** *** The corpus a rejected request leaves *)

Lemma answered_position (create : nat -> string -> outcome (list float))
    (chunks : list Chunk) (i n : nat) (v : list float) :
  nth_error (non_null (mapi_from (embedding_or_null create) i chunks)) n = Some v ->
  exists j chunk,
    (n <= j)%nat
    /\ nth_error chunks j = Some chunk
    /\ create (i + j)%nat (chunk_text chunk) = Returned v
    /\ (forall k c e,
          (k <= n)%nat -> nth_error chunks k = Some c ->
          create (i + k)%nat (chunk_text c) = Thrown e -> (n < j)%nat).
Proof.
  revert i n. induction chunks as [|chunk rest IH]; intros i n; simpl.
  - now destruct n.
  - unfold embedding_or_null at 1.
    destruct (create i (chunk_text chunk)) as [v0|e0] eqn:E.
    + destruct n as [|n]; simpl.
      * intros H. injection H as <-. exists 0%nat, chunk.
        split; [lia|]. split; [reflexivity|]. split; [now rewrite Nat.add_0_r|].
        intros k c e Hk Hc He. assert (k = 0)%nat as -> by lia.
        simpl in Hc. injection Hc as <-. rewrite Nat.add_0_r in He. congruence.
      * intros H. destruct (IH _ _ H) as (j & c & Hj & Hc & Hv & Hlate).
        exists (S j), c. split; [lia|]. split; [exact Hc|].
        split; [now rewrite Nat.add_succ_r|].
        intros [|k] c' e Hk Hc' He.
        -- simpl in Hc'. injection Hc' as <-. rewrite Nat.add_0_r in He. congruence.
        -- apply -> Nat.succ_lt_mono. apply (Hlate k c' e); [lia | exact Hc'|].
           now rewrite Nat.add_succ_r in He.
    + intros H. destruct (IH _ _ H) as (j & c & Hj & Hc & Hv & _).
      exists (S j), c. split; [lia|]. split; [exact Hc|].
      split; [now rewrite Nat.add_succ_r|]. intros; lia.
Qed.

Lemma nth_error_mapi_from {A B : Type} (f : A -> nat -> B) (i n : nat) (arr : list A) :
  nth_error (mapi_from f i arr) n
  = match nth_error arr n with
    | Some x => Some (f x (i + n)%nat)
    | None => None
    end.
Proof.
  revert i n. induction arr as [|x arr IH]; intros i [|n]; simpl; try reflexivity.
  - now rewrite Nat.add_0_r.
  - rewrite IH. now rewrite Nat.add_succ_r.
Qed.

(** X21.  When the provider rejected the request of some chunk, the
    corpus the server loads is out of step from that chunk on: at a
    position [idx] at or after the rejected chunk, the text and the
    source are those of chunk [idx] while the score is computed from
    the embedding of a later chunk - [saveEmbeddings] writes the three
    arrays as they are, and [findSimilarContent] pairs them by
    position. *)
Theorem rejected_chunk_shifts_the_corpus
    (create : nat -> string -> outcome (list float)) (chunks : list Chunk)
    (env : Environment) (this : AISearchEngine) (query : list float)
    (k idx : nat) (item : Scored) :
  let loaded := snd (initialize env this) in
  load_artifact env = Returned (saveEmbeddings (answered create chunks) chunks) ->
  rejected_at create chunks k ->
  (k <= idx)%nat ->
  nth_error (similarities loaded query) idx = Some item ->
  exists j later here v,
    (idx < j)%nat
    /\ nth_error chunks j = Some later
    /\ create j (chunk_text later) = Returned v
    /\ score item = cosineSimilarity query v
    /\ nth_error chunks idx = Some here
    /\ text item = Some (chunk_text here)
    /\ from_source (chunk_source here) item = true.
Proof.
  intros loaded Hd (c & e & Hc & He) Hk Hi. subst loaded.
  destruct (initialize_arrays env this _ Hd) as (Eemb & Etxt & Emeta).
  unfold similarities, mapi in Hi. rewrite nth_error_mapi_from in Hi.
  rewrite Eemb, Etxt, Emeta in Hi. cbn [saveEmbeddings data_embeddings data_texts
                                        data_metadata] in Hi.
  destruct (nth_error (answered create chunks) idx) as [v|] eqn:Ev; [|discriminate].
  injection Hi as <-. cbn [score text item_metadata Nat.add].
  destruct (answered_position create chunks 0 idx v Ev) as (j & later & Hj & Hl & Hv & Hlate).
  assert (idx < j)%nat as Hlt by (apply (Hlate k c e); auto).
  assert (idx < List.length chunks)%nat as Hlen
    by (apply Nat.lt_trans with j; [exact Hlt | apply nth_error_Some; congruence]).
  destruct (nth_error chunks idx) as [here|] eqn:Eh;
    [|apply nth_error_None in Eh; lia].
  exists j, later, here, v. unfold from_source. cbn [item_metadata].
  rewrite !nth_error_map, Eh. cbn [option_map source].
  repeat split; auto. apply String.eqb_refl.
Qed.

Lemma rejected_chunk_shifts_the_corpus_witness :
  exists j later here v,
    (1 < j)%nat
    /\ nth_error three_chunks j = Some later
    /\ flaky_provider j (chunk_text later) = Returned v
    /\ score {| score := cosineSimilarity [1; 0]%float [0; 1]%float;
                text := Some "second";
                item_metadata :=
                  Some {| source := "document1.pdf"; page := None; tokens := 2 |} |}
       = cosineSimilarity [1; 0]%float v
    /\ nth_error three_chunks 1 = Some here
    /\ text {| score := cosineSimilarity [1; 0]%float [0; 1]%float;
               text := Some "second";
               item_metadata :=
                 Some {| source := "document1.pdf"; page := None; tokens := 2 |} |}
       = Some (chunk_text here)
    /\ from_source (chunk_source here)
         {| score := cosineSimilarity [1; 0]%float [0; 1]%float;
            text := Some "second";
            item_metadata :=
              Some {| source := "document1.pdf"; page := None; tokens := 2 |} |}
       = true.
Proof.
  apply (rejected_chunk_shifts_the_corpus flaky_provider three_chunks flaky_environment
           (constructor (constant_provider [])) [1; 0]%float 1 1).
  - reflexivity.
  - exists {| chunk_text := "second"; chunk_source := "document1.pdf"; chunk_tokens := 2 |},
      EmbeddingProviderError. split; reflexivity.
  - lia.
  - reflexivity.
Defined.

(** ** The earlier server *)

Lemma anyNamePart_existsb (normalizedQuestion : string) (nameParts : list string) :
  anyNamePart normalizedQuestion nameParts
  = existsb (fun token => (2 <? String.length token)%nat
                          && includes normalizedQuestion token) nameParts.
Proof.
  induction nameParts as [|part rest IH]; simpl; [reflexivity|].
  now destruct ((2 <? String.length part)%nat && includes normalizedQuestion part).
Qed.

(** X22.  The resolver of the earlier server returns the first of the
    people the current resolver returns, and [null] when it returns
    nobody: the two match the same names. *)
Theorem findPersonByName_is_the_first_match (this : AISearchEngine) (question : string) :
  findPersonByName this question = hd_error (findAllNamesInQuestion this question).
Proof.
  unfold findPersonByName, findAllNamesInQuestion. rewrite findAllNames_fold. simpl.
  induction (metadata this) as [|[id record] entries IH]; simpl; [reflexivity|].
  unfold name_matchesb at 1. unfold space_tokens. simpl snd.
  rewrite anyNamePart_existsb.
  destruct (includes (toLowerCase question) (toLowerCase (name record))); [reflexivity|].
  simpl. destruct (existsb _ _); [reflexivity | exact IH].
Qed.

Lemma column_includes_iff (record : PersonRecord) (q term : string) :
  column_includes record q term = true
  <-> exists value,
        column record term = Some value /\ value <> EmptyString
        /\ is_substring q (toLowerCase value).
Proof.
  unfold column_includes. destruct (column record term) as [[|c value]|].
  - split; [discriminate | intros (v & H & Hne & _); injection H as <-; now elim Hne].
  - rewrite includes_iff. split.
    + intros H. exists (String c value). repeat split; [discriminate | exact H].
    + intros (v & H & _ & Hs). now injection H as <-.
  - split; [discriminate | intros (v & H & _); discriminate].
Qed.

Lemma matched_iff (q : string) (record : PersonRecord) :
  matched q record = true <-> question_in_columns q record.
Proof.
  unfold matched, question_in_columns. destruct (searchTerms q) as [|term terms].
  - apply includes_iff.
  - rewrite existsb_exists. split.
    + intros (t & Hin & H). apply column_includes_iff in H as (value & Hc & Hne & Hs).
      now exists t, value.
    + intros (t & value & Hin & Hc & Hne & Hs). exists t. split; [exact Hin|].
      apply column_includes_iff. now exists value.
Qed.

Lemma column_is_a_column (record : PersonRecord) (term value : string) :
  column record term = Some value ->
  In value [name record; date record; excerpt_title record; tags record].
Proof.
  unfold column.
  destruct (String.eqb term "date"); [intros H; injection H as <-; simpl; tauto|].
  destruct (String.eqb term "name"); [intros H; injection H as <-; simpl; tauto|].
  destruct (String.eqb term "excerpt_title"); [intros H; injection H as <-; simpl; tauto|].
  destruct (String.eqb term "tags"); [intros H; injection H as <-; simpl; tauto|].
  discriminate.
Qed.

(** X23.  [searchMetadata] keeps a row only when the whole question,
    in lower case, occurs inside a column the keywords of the question
    select (a column that is not empty, in lower case), or, when the
    question holds no keyword, inside the four columns joined by
    spaces; it returns the lines of these rows, and [null] when there
    is none. *)
Theorem searchMetadata_needs_the_whole_question (this : AISearchEngine)
    (question : string) :
  let q := toLowerCase question in
  (forall record,
     question_in_columns q record ->
     exists text,
       In text [name record; date record; excerpt_title record; tags record;
                allText record]
       /\ is_substring q (toLowerCase text))
  /\ (searchMetadata this question = None
      <-> forall entry, In entry (metadata this) -> ~ question_in_columns q (snd entry))
  /\ forall result,
       searchMetadata this question = Some result ->
       exists rows,
         rows <> []
         /\ (forall entry,
               In entry rows
               <-> In entry (metadata this) /\ question_in_columns q (snd entry))
         /\ result
            = join (nl ++ nl) (map (fun entry => metadata_line (fst entry) (snd entry)) rows).
Proof.
  intros q. split; [|split].
  - intros record. unfold question_in_columns.
    destruct (searchTerms q) as [|term terms].
    + intros H. exists (allText record). split; [simpl; tauto | exact H].
    + intros (t & value & _ & Hc & _ & Hs). exists value. split; [|exact Hs].
      apply column_is_a_column in Hc. simpl in *. tauto.
  - unfold searchMetadata. fold q. cbv zeta.
    destruct (filter (fun entry => matched q (snd entry)) (metadata this))
      as [|row rows] eqn:E; simpl.
    + split; [|reflexivity]. intros _ entry Hin Hq.
      apply matched_iff in Hq.
      assert (In entry (filter (fun entry => matched q (snd entry)) (metadata this))) as H
        by (apply filter_In; now split).
      now rewrite E in H.
    + split; [discriminate|]. intros H. exfalso.
      assert (In row (filter (fun entry => matched q (snd entry)) (metadata this))) as Hr
        by (rewrite E; now left).
      apply filter_In in Hr as [Hin Hm]. apply (H row Hin). now apply matched_iff.
  - intros result. unfold searchMetadata. fold q. cbv zeta.
    destruct (filter (fun entry => matched q (snd entry)) (metadata this))
      as [|row rows] eqn:E; cbn [map]; [discriminate|].
    intros H. injection H as <-. exists (row :: rows).
    split; [discriminate|]. split; [|reflexivity].
    intros entry. rewrite <- E, filter_In, matched_iff. reflexivity.
Qed.

Example a_question_is_not_found_in_a_name :
  searchMetadata empty_corpus_engine "Who is Jean Carlomusto?" = None
  /\ searchMetadata empty_corpus_engine "jean carlomusto 2002"
     = Some (metadata_line "1" jean).
Proof. split; reflexivity. Qed.

(** ** The question and the history *)

Lemma toLowerCase_append (a b : string) :
  toLowerCase (a ++ b) = (toLowerCase a ++ toLowerCase b)%string.
Proof. induction a as [|c a IH]; simpl; [reflexivity | now rewrite IH]. Qed.

Lemma includes_append (pre s p : string) :
  includes s p = true -> includes (pre ++ s) p = true.
Proof.
  rewrite !includes_iff. intros (a & b & ->). exists (pre ++ a)%string, b.
  now rewrite append_assoc.
Qed.

Lemma contextualQuery_ends_with_question (question : string)
    (history : list ConversationTurn) :
  exists pre, contextualQuery question history = (pre ++ question)%string.
Proof.
  unfold contextualQuery. destruct (foldsHistory question).
  - exists (join " " (map content (slice_from (-4) history)) ++ " ")%string.
    now rewrite append_assoc.
  - now exists ""%string.
Qed.

Lemma name_matchesb_append (pre question : string) (record : PersonRecord) :
  name_matchesb question record = true ->
  name_matchesb (pre ++ question) record = true.
Proof.
  unfold name_matchesb. rewrite toLowerCase_append, !orb_true_iff.
  intros [H|H]; [left; now apply includes_append | right].
  apply existsb_exists in H as (token & Hin & H). apply existsb_exists.
  exists token. split; [exact Hin|].
  apply andb_true_iff in H as [Hlen H]. rewrite Hlen. now apply includes_append.
Qed.

(** X24.  Folding the history into the query never loses a person the
    question names: whoever the question alone matches is matched by
    the contextual query too, which may match more people, named in
    the earlier turns. *)
Theorem history_only_adds_names (this : AISearchEngine) (question : string)
    (history : list ConversationTurn) (entry : string * PersonRecord) :
  In entry (findAllNamesInQuestion this question) ->
  In entry (findAllNamesInQuestion this (contextualQuery question history)).
Proof.
  unfold findAllNamesInQuestion. rewrite !findAllNames_fold. simpl.
  rewrite !filter_In. intros [Hin H]. split; [exact Hin|].
  destruct (contextualQuery_ends_with_question question history) as [pre ->].
  now apply name_matchesb_append.
Qed.

Lemma history_only_adds_names_witness :
  In ("2", vito)
    (findAllNamesInQuestion sample_engine
       (contextualQuery "And Vito Russo?"
          [{| role := "user"; content := "Tell me about Jean Carlomusto" |}])).
Proof.
  apply (history_only_adds_names sample_engine "And Vito Russo?"
           [{| role := "user"; content := "Tell me about Jean Carlomusto" |}] ("2", vito)).
  vm_compute. now left.
Defined.

(** ** A server whose table of people did not load *)

Lemma findSimilarContent_not_empty (this : AISearchEngine) (v : list float) :
  embeddings this <> [] -> findSimilarContent this v None <> [].
Proof.
  intros He H. apply findSimilarContent_nil in H. simpl in H.
  apply He, length_zero_iff_nil. now rewrite <- (similarities_length this v), H.
Qed.

Lemma groupBySource_throws_TypeError (items : list Scored)
    (g : JSObject (list Scored)) (e : exn) :
  groupBySource g items = Thrown e -> e = TypeError.
Proof.
  revert g. induction items as [|item items IH]; intros g; simpl; [discriminate|].
  destruct (group_step g item) as [g1|e1] eqn:E; simpl.
  - apply IH.
  - intros H. injection H as <-. now apply (group_step_throws_TypeError g item).
Qed.

Lemma match_document_throws_TypeError (s : string) (e : exn) :
  match_document s = Thrown e -> e = TypeError.
Proof.
  induction s as [|c s IH]; rewrite match_document_unfold.
  - destruct (match_document_here ""); [discriminate | congruence].
  - destruct (match_document_here (String c s)); [discriminate | exact IH].
Qed.

Lemma branchC_without_registry (this : AISearchEngine) (query : string) (v : list float) :
  metadata this = [] ->
  embeddings this <> [] ->
  getEmbedding this query = Returned v ->
  branchC this query = Thrown TypeError.
Proof.
  intros Hm He Hv. unfold branchC. rewrite Hv. unfold bind at 1.
  pose proof (findSimilarContent_not_empty this v He) as Hne.
  destruct (groupBySource [] (findSimilarContent this v None)) as [g|e] eqn:Hg.
  - unfold bind at 1.
    pose proof (groupBySource_grouped _ [] [] _ grouped_start Hg) as G. simpl in G.
    destruct (js_sort size_after (Object_entries g)) as [|best rest] eqn:Hs.
    + exfalso.
      assert (g = []) as ->.
      { apply length_zero_iff_nil.
        rewrite <- (Permutation_length (Object_entries_perm g)).
        rewrite <- (js_sort_length size_after), Hs. reflexivity. }
      destruct (findSimilarContent this v None) as [|item l]; [now elim Hne|].
      destruct (grouped_sources _ _ G item (or_introl eq_refl)) as (m & _ & []).
    + destruct (match_document (fst best)) as [documentId|e] eqn:Ed.
      * unfold bind at 1. unfold metadata_get. rewrite Hm. reflexivity.
      * now rewrite (match_document_throws_TypeError _ _ Ed).
  - now rewrite (groupBySource_throws_TypeError _ _ _ Hg).
Qed.

(** X25.  When [embeddings.json] loads and [metadata.csv] does not,
    [initialize] throws and the engine is left with a corpus and no
    registry; the server keeps running, and [findRelevantContext] then
    throws a [TypeError] for every question the provider embeds: nobody
    is matched, and the fallback finds no record for its best
    document. *)
Theorem retrieval_without_the_table (env : Environment)
    (provider : string -> outcome (list float)) (data : Artifact) (error : exn)
    (question : string) (history : list ConversationTurn) (v : list float) :
  let loaded := initialize env (constructor provider) in
  load_artifact env = Returned data ->
  data_embeddings data <> [] ->
  load_table env = Thrown error ->
  provider (contextualQuery question history) = Returned v ->
  fst loaded = Thrown error
  /\ findRelevantContext (snd loaded) question history = Thrown TypeError.
Proof.
  intros loaded Hd He Ht Hv. subst loaded.
  unfold load_table in Ht.
  rewrite (initialize_artifact env _ data Hd), Ht. cbn [fst snd]. split; [reflexivity|].
  set (this := assign_artifact (constructor provider) data).
  unfold findRelevantContext, selectBranch.
  assert (findAllNamesInQuestion this (contextualQuery question history) = []) as ->
    by reflexivity.
  rewrite branchA_guard_length. cbn [List.length Nat.leb].
  unfold branchB. now apply (branchC_without_registry this _ v).
Qed.

Lemma retrieval_without_the_table_witness :
  let loaded := initialize no_table_environment (constructor (constant_provider [1; 0]%float)) in
  fst loaded = Thrown IOError
  /\ findRelevantContext (snd loaded) "Tell me about Jean Carlomusto" []
     = Thrown TypeError.
Proof.
  apply (retrieval_without_the_table no_table_environment (constant_provider [1; 0]%float)
           ragged_artifact IOError "Tell me about Jean Carlomusto" [] [1; 0]%float).
  - reflexivity.
  - discriminate.
  - reflexivity.
  - reflexivity.
Defined.

(** ** The corpus the ingestion script writes *)

Lemma similarities_items (this : AISearchEngine) (v : list float) (item : Scored) :
  In item (similarities this v) ->
  exists idx, item_metadata item = nth_error (chunkMetadata this) idx
              /\ text item = nth_error (texts this) idx.
Proof.
  unfold similarities, mapi. generalize 0%nat.
  induction (embeddings this) as [|emb embs IH]; intros i; simpl; [intros []|].
  intros [<-|H]; [now exists i | now apply (IH (S i))].
Qed.

(** X26.  The artifact [saveEmbeddings] writes has no page numbers, so
    in a server that loads it every ranked chunk has the page
    [undefined], and the line a context shows for it starts with
    [[Page undefined]]. *)
Theorem generated_corpus_has_no_pages (env : Environment) (this : AISearchEngine)
    (embeddings : list (list float)) (chunks : list Chunk) (query : list float)
    (sourceName : option string) (item : Scored) :
  let loaded := snd (initialize env this) in
  load_artifact env = Returned (saveEmbeddings embeddings chunks) ->
  In item (findSimilarContent loaded query sourceName) ->
  page_or_undefined item = None
  /\ page_line (page_or_undefined item) (text item)
     = ("[Page undefined] " ++ show_text (text item))%string.
Proof.
  intros loaded Hd Hin. subst loaded.
  destruct (initialize_arrays env this _ Hd) as (_ & _ & Emeta).
  apply findSimilarContent_In, candidates_In, similarities_items in Hin as (idx & Hm & _).
  assert (page_or_undefined item = None) as Hp.
  { unfold page_or_undefined. rewrite Hm, Emeta. cbn [saveEmbeddings data_metadata].
    rewrite nth_error_map. now destruct (nth_error chunks idx). }
  split; [exact Hp|]. now rewrite Hp.
Qed.

Lemma generated_corpus_has_no_pages_witness :
  let item := {| score := cosineSimilarity [1; 0]%float [1; 0]%float;
                 text := Some "first";
                 item_metadata :=
                   Some {| source := "document1.pdf"; page := None; tokens := 1 |} |} in
  page_or_undefined item = None
  /\ page_line (page_or_undefined item) (text item)
     = ("[Page undefined] " ++ show_text (text item))%string.
Proof.
  intros item.
  apply (generated_corpus_has_no_pages flaky_environment (constructor (constant_provider []))
           (answered flaky_provider three_chunks) three_chunks [1; 0]%float None item).
  - reflexivity.
  - vm_compute. now left.
Defined.
